(** * scatter-kg-recursive: the workflow-tree observer, the cluster
    simulator, the describe worker's JSON retry loop and the workflow
    registration's environment substitution, embedded from the TypeScript
    sources and checked against the specification. *)

From Stdlib Require Import ZArith Lia Bool Ascii.
From stdpp Require Import gmap strings pretty list fin_maps fin_sets sorting.

Set Warnings "-register-all,-clear-no-such-hyp".

Local Open Scope string_scope.
Local Open Scope list_scope.
Local Open Scope Z_scope.

(** Outcome of a JavaScript computation that may throw; [OutOfFuel] is the
    only artefact of the embedding (recursion is driven by a fuel counter). *)
Inductive Outcome (A : Type) : Type :=
| Done (a : A)
| Threw (msg : string)
| OutOfFuel.
Arguments Done {A} a.
Arguments Threw {A} msg.
Arguments OutOfFuel {A}.

(** [f] applied to the value of a computation that returned. *)
Definition mapDone {A B} (f : A → B) (r : Outcome A) : Outcome B :=
  match r with
  | Done a => Done (f a)
  | Threw msg => Threw msg
  | OutOfFuel => OutOfFuel
  end.

(** ** Workflow-tree observer (scripts/diagnose-tree.ts) *)
Module Observer.

(** One entry of [log_data.entry.handoffs]; optional fields are options.
    The elements of [invocations] are opaque ([unknown] in the source). *)
Record Handoff := mkHandoff {
  h_type : string;
  outputs : option (list string);
  invocations : option (list string);
  delegated : option bool;
}.

Record Message := mkMessage {
  metadata : option (option Z);  (* metadata?: { numCopies?: number } *)
}.

Record Relationship := mkRel {
  predicate : string;
  peer : string;
}.

(** [LogEntry], with the nested [properties.log_data] record flattened. *)
Record LogEntry := mkLog {
  id : string;
  status : string;
  klados_id : string;
  handoffs : option (list Handoff);
  messages : option (list Message);
  relationships : option (list Relationship);
}.

(** [msg.metadata?.numCopies !== undefined] *)
Definition numCopies (msg : Message) : option Z :=
  match metadata msg with
  | Some (Some n) => Some n
  | _ => None
  end.

(** The first loop of [getExpectedChildrenCount]: return at the first
    message that carries [numCopies]. *)
Fixpoint messagesNumCopies (msgs : list Message) : option Z :=
  match msgs with
  | [] => None
  | msg :: rest =>
      match numCopies msg with
      | Some n => Some n
      | None => messagesNumCopies rest
      end
  end.

(** [xs && xs.length > 0] for an optional array. *)
Definition nonEmpty {A} (xs : option (list A)) : option (list A) :=
  match xs with
  | Some (x :: l) => Some (x :: l)
  | _ => None
  end.

(** The second loop of [getExpectedChildrenCount], [total] being the
    running sum; the delegated branch sets [total = -1] and breaks. *)
Fixpoint handoffLoop (total : Z) (hs : list Handoff) : Z :=
  match hs with
  | [] => total
  | handoff :: rest =>
      if (String.eqb (h_type handoff) "invoke" || String.eqb (h_type handoff) "pass")%bool
      then handoffLoop (total + 1) rest
      else if String.eqb (h_type handoff) "scatter" then
        match nonEmpty (outputs handoff) with
        | Some outs => handoffLoop (total + Z.of_nat (length outs)) rest
        | None =>
            match nonEmpty (invocations handoff) with
            | Some invs => handoffLoop (total + Z.of_nat (length invs)) rest
            | None =>
                match delegated handoff with
                | Some true => -1
                | _ => handoffLoop (total + 1) rest
                end
            end
        end
      else if String.eqb (h_type handoff) "gather" then handoffLoop (total + 1) rest
      else handoffLoop total rest
  end.

Definition getExpectedChildrenCount (log : LogEntry) : Z :=
  match messagesNumCopies (default [] (messages log)) with
  | Some n => n
  | None =>
      let hs := default [] (handoffs log) in
      if (length hs =? 0)%nat then 0 else handoffLoop 0 hs
  end.

(** *** The specification's reference definition (section 4.3)

    [None] stands for UNKNOWN.  [spec_contribution] follows the words of
    the specification: a scatter whose [outputs] are present counts
    [len(outputs)], whatever the length. *)
Definition UNKNOWN : Z := -1.

Definition spec_contribution (h : Handoff) : option Z :=
  if String.eqb (h_type h) "invoke" then Some 1
  else if String.eqb (h_type h) "pass" then Some 1
  else if String.eqb (h_type h) "gather" then Some 1
  else if String.eqb (h_type h) "scatter" then
    match outputs h, invocations h, delegated h with
    | Some outs, _, _ => Some (Z.of_nat (length outs))
    | None, Some invs, _ => Some (Z.of_nat (length invs))
    | None, None, Some true => None
    | None, None, _ => Some 1
    end
  else Some 0.

(** As the code has it: an array counts only when it is present and not
    empty. *)
Definition code_contribution (h : Handoff) : option Z :=
  if String.eqb (h_type h) "invoke" then Some 1
  else if String.eqb (h_type h) "pass" then Some 1
  else if String.eqb (h_type h) "gather" then Some 1
  else if String.eqb (h_type h) "scatter" then
    match nonEmpty (outputs h), nonEmpty (invocations h), delegated h with
    | Some outs, _, _ => Some (Z.of_nat (length outs))
    | None, Some invs, _ => Some (Z.of_nat (length invs))
    | None, None, Some true => None
    | None, None, _ => Some 1
    end
  else Some 0.

(** Sum of the contributions, UNKNOWN as soon as one handoff is. *)
Fixpoint sum_contributions (contribution : Handoff → option Z)
    (hs : list Handoff) : option Z :=
  match hs with
  | [] => Some 0
  | h :: rest =>
      match contribution h with
      | None => None
      | Some c =>
          match sum_contributions contribution rest with
          | None => None
          | Some s => Some (c + s)
          end
      end
  end.

Definition expected_children (contribution : Handoff → option Z)
    (log : LogEntry) : Z :=
  match messagesNumCopies (default [] (messages log)) with
  | Some n => n
  | None => default UNKNOWN (sum_contributions contribution (default [] (handoffs log)))
  end.

Definition spec_expected_children := expected_children spec_contribution.
Definition amended_expected_children := expected_children code_contribution.

(** *** The tree built from the log graph *)

(** The [problem] strings of the source, kept structured. *)
Inductive Problem :=
| UNKNOWN_EXPECTED
| MISSING_CHILDREN (expected : Z) (actual : nat)
| NOT_TERMINAL (status : string).

Inductive TreeNode := mkNode {
  n_id : string;
  n_status : string;
  kladosId : string;
  expectedChildren : Z;
  actualChildren : nat;
  children : list TreeNode;
  isTerminal : bool;
  isLeaf : bool;
  problem : option Problem;
}.

(** [fetchEntity]: the entity store is a finite map from ids to logs.  An
    id the store does not hold answers with a body without [properties],
    on which [getExpectedChildrenCount] throws a TypeError. *)
Definition fetchEntity (store : gmap string LogEntry) (logId : string) : option LogEntry :=
  store !! logId.

Definition sentToOf (log : LogEntry) : list Relationship :=
  filter (λ r, predicate r = "sent_to") (default [] (relationships log)).

Definition statusTerminal (st : string) : bool :=
  (String.eqb st "done" || String.eqb st "error")%bool.

Definition detectProblem (log : LogEntry) (expected : Z) (actual : nat) : option Problem :=
  if expected <? 0 then Some UNKNOWN_EXPECTED
  else if (statusTerminal (status log) && (Z.of_nat actual <? expected))%bool
  then Some (MISSING_CHILDREN expected actual)
  else if negb (statusTerminal (status log)) then Some (NOT_TERMINAL (status log))
  else None.

(** The [for (const rel of sentTo)] loop of [buildTreeNode]; [rec] is the
    recursive call, [visited] the shared, mutated set. *)
Fixpoint buildChildren
    (rec : string → gset string → Outcome (option TreeNode * gset string))
    (sentTo : list Relationship) (visited : gset string) (acc : list TreeNode)
    : Outcome (list TreeNode * gset string) :=
  match sentTo with
  | [] => Done (acc, visited)
  | rel :: rest =>
      match rec (peer rel) visited with
      | Done (Some child, visited') => buildChildren rec rest visited' (acc ++ [child])
      | Done (None, visited') => buildChildren rec rest visited' acc
      | Threw msg => Threw msg
      | OutOfFuel => OutOfFuel
      end
  end.

Fixpoint buildTreeNode (fuel : nat) (store : gmap string LogEntry)
    (logId : string) (visited : gset string)
    : Outcome (option TreeNode * gset string) :=
  match fuel with
  | O => OutOfFuel
  | S fuel' =>
      if decide (logId ∈ visited) then Done (None, visited)
      else
        let visited := {[logId]} ∪ visited in
        match fetchEntity store logId with
        | None => Threw "TypeError"
        | Some log =>
            let sentTo := sentToOf log in
            let actual := length sentTo in
            let expected := getExpectedChildrenCount log in
            let terminal := statusTerminal (status log) in
            let leaf := (String.eqb (status log) "error" || (terminal && (expected =? 0)))%bool in
            match buildChildren (buildTreeNode fuel' store) sentTo visited [] with
            | Done (kids, visited') =>
                Done (Some {| n_id := logId; n_status := status log;
                              kladosId := klados_id log;
                              expectedChildren := expected;
                              actualChildren := actual;
                              children := kids;
                              isTerminal := terminal;
                              isLeaf := leaf;
                              problem := detectProblem log expected actual |},
                      visited')
            | Threw msg => Threw msg
            | OutOfFuel => OutOfFuel
            end
        end
  end.

(** Fuel that always suffices: one unit per log of the store, and one for
    the call that finds its id visited or unknown. *)
Definition enoughFuel (store : gmap string LogEntry) : nat := S (size store).

Fixpoint collectLeaves (node : TreeNode) : list TreeNode :=
  match node with
  | mkNode _ _ _ _ _ kids _ _ _ =>
      match kids with
      | [] => [node]
      | _ => flat_map collectLeaves kids
      end
  end.

Inductive Reason :=
| ExpectedIsMinusOne
| TooFewChildren (have : nat) (expected : Z).

(** [{ ok, reason?, nodeId? }] *)
Inductive CheckResult :=
| CheckOk
| CheckFailed (reason : Reason) (nodeId : string).

Definition ok (r : CheckResult) : bool :=
  match r with CheckOk => true | CheckFailed _ _ => false end.

Fixpoint checkAllChildrenDiscovered (node : TreeNode) : CheckResult :=
  match node with
  | mkNode nid _ _ expected _ kids terminal _ _ =>
      if negb terminal then CheckOk
      else if expected <? 0 then CheckFailed ExpectedIsMinusOne nid
      else if Z.of_nat (length kids) <? expected
      then CheckFailed (TooFewChildren (length kids) expected) nid
      else
        (fix loop (cs : list TreeNode) : CheckResult :=
           match cs with
           | [] => CheckOk
           | child :: rest =>
               match checkAllChildrenDiscovered child with
               | CheckOk => loop rest
               | failed => failed
               end
           end) kids
  end.

(** [allLeavesTerminal && childrenCheck.ok] of [main]. *)
Definition isComplete (root : TreeNode) : bool :=
  (forallb isTerminal (collectLeaves root) && ok (checkAllChildrenDiscovered root))%bool.

(** [main]: resolve [first_log], build the tree from a fresh visited set,
    report [isComplete].  [Done None] is a run that printed an error and
    returned without a verdict. *)
Definition observe (fuel : nat) (store : gmap string LogEntry)
    (jobCollection : string) : Outcome (option bool) :=
  let rels := match fetchEntity store jobCollection with
              | Some collection => default [] (relationships collection)
              | None => []
              end in
  match List.find (λ r, String.eqb (predicate r) "first_log") rels with
  | None => Done None
  | Some firstLogRel =>
      match buildTreeNode fuel store (peer firstLogRel) ∅ with
      | Done (Some root, _) => Done (Some (isComplete root))
      | Done (None, _) => Done None
      | Threw msg => Threw msg
      | OutOfFuel => OutOfFuel
      end
  end.

(** *** Vocabulary of the claims about the tree *)

(** All nodes of a tree, in the order [buildTreeNode] discovers them. *)
Fixpoint nodes (t : TreeNode) : list TreeNode :=
  match t with
  | mkNode _ _ _ _ _ kids _ _ _ => t :: flat_map nodes kids
  end.

Definition node_ids (t : TreeNode) : list string := n_id <$> nodes t.

(** A node has no children in the tree. *)
Definition leafNode (t : TreeNode) : Prop := children t = [].

(** Nodes reached from the root through terminal logs only: the root, and
    the children of every such node that is itself terminal. *)
Inductive checked (root : TreeNode) : TreeNode → Prop :=
| checked_root : checked root root
| checked_child parent child :
    checked root parent → isTerminal parent = true →
    child ∈ children parent → checked root child.

(** Condition (b) for one log. *)
Definition childrenDiscovered (n : TreeNode) : Prop :=
  0 ≤ expectedChildren n ∧ expectedChildren n ≤ Z.of_nat (length (children n)).

(** The inner loop of [checkAllChildrenDiscovered]. *)
Definition checkChildren : list TreeNode → CheckResult :=
  fix loop (cs : list TreeNode) : CheckResult :=
    match cs with
    | [] => CheckOk
    | child :: rest =>
        match checkAllChildrenDiscovered child with
        | CheckOk => loop rest
        | failed => failed
        end
    end.

(** The ids a call of [buildTreeNode] returns, none for [null]. *)
Definition opt_ids (ot : option TreeNode) : list string :=
  match ot with Some t => node_ids t | None => [] end.

(** What one call adds to the visited set: the ids of the tree it
    returns, which are distinct, were not visited and are in the store. *)
Definition grows (store : gmap string LogEntry)
    (v : gset string) (ids : list string) (v' : gset string) : Prop :=
  v' = (list_to_set ids ∪ v) ∧ NoDup ids ∧
  (∀ x, x ∈ ids → (x ∉ v) ∧ (x ∈ dom store)).

(** The termination measure: the logs of the store not yet visited. *)
Definition unvisited (store : gmap string LogEntry) (v : gset string) : nat :=
  size (dom store ∖ v).

(** Node [p] was built from the log of its id: its counts and flags are
    the log's, and its children are some of the log's [sent_to] peers, in
    their order. *)
Definition reflects (store : gmap string LogEntry) (p : TreeNode) : Prop :=
  ∃ log, store !! n_id p = Some log ∧
    (n_id <$> children p) `sublist_of` (peer <$> sentToOf log) ∧
    actualChildren p = length (sentToOf log) ∧
    expectedChildren p = getExpectedChildrenCount log ∧
    isTerminal p = statusTerminal (status log).

(** The nodes of [t] that have a child with id [x]. *)
Definition parentsOf (x : string) (t : TreeNode) : list TreeNode :=
  filter (λ p, x ∈ n_id <$> children p) (nodes t).

(** Condition (a): every leaf of the tree is terminal. *)
Definition leavesTerminal (root : TreeNode) : Prop :=
  ∀ l, l ∈ nodes root → leafNode l → isTerminal l = true.

(** The completeness condition as the specification words it: (b) ranges
    over every terminal log of the tree. *)
Definition specComplete (root : TreeNode) : Prop :=
  leavesTerminal root ∧
  ∀ n, n ∈ nodes root → isTerminal n = true → childrenDiscovered n.

(** The condition the code decides: (b) ranges over the terminal logs
    that are reached from the root through terminal logs only. *)
Definition codeComplete (root : TreeNode) : Prop :=
  leavesTerminal root ∧
  ∀ n, checked root n → isTerminal n = true → childrenDiscovered n.

(** *** Example log graphs *)

Definition logOf (i st : string) (hs : list Handoff) (kids : list string) : LogEntry :=
  {| id := i; status := st; klados_id := "stage";
     handoffs := Some hs; messages := None;
     relationships := Some (mkRel "sent_to" <$> kids) |}.

Definition invoke (out : string) : Handoff :=
  {| h_type := "invoke"; outputs := Some [out]; invocations := None; delegated := None |}.
Definition scatter (outs : list string) : Handoff :=
  {| h_type := "scatter"; outputs := Some outs; invocations := None; delegated := None |}.

Definition jobOf (root : string) : LogEntry :=
  {| id := "job"; status := ""; klados_id := "";
     handoffs := None; messages := None;
     relationships := Some [mkRel "first_log" root] |}.

(** A log whose only handoff is a scatter with [outputs: []]. *)
Definition emptyScatterLog : LogEntry := logOf "L0" "done" [scatter []] [].

(** A running root whose only child is done, scattered to two outputs
    and has a single (done) child. *)
Definition runningRootStore : gmap string LogEntry :=
  list_to_map [
    ("job", jobOf "root");
    ("root", logOf "root" "running" [invoke "e"] ["A"]);
    ("A", logOf "A" "done" [scatter ["x"; "y"]] ["B"]);
    ("B", logOf "B" "done" [] []) ].

(** The tree [buildTreeNode] builds from it. *)
Definition runningRootTree : TreeNode :=
  mkNode "root" "running" "stage" 1 1
    [ mkNode "A" "done" "stage" 2 1
        [ mkNode "B" "done" "stage" 0 0 [] true true None ]
        true false (Some (MISSING_CHILDREN 2 1)) ]
    false false (Some (NOT_TERMINAL "running")).

(** The tree of a run, when it ends with one. *)
Definition builtTree (store : gmap string LogEntry) (logId : string) : option TreeNode :=
  match buildTreeNode (enoughFuel store) store logId ∅ with
  | Done (Some root, _) => Some root
  | _ => None
  end.

(** A done root without handoffs: first alone, then with a new running
    log attached by [sent_to]. *)
Definition sealedStore : gmap string LogEntry :=
  list_to_map [ ("job", jobOf "root"); ("root", logOf "root" "done" [] []) ].
Definition grownStore : gmap string LogEntry :=
  list_to_map [ ("job", jobOf "root"); ("root", logOf "root" "done" [] ["C"]);
                ("C", logOf "C" "running" [] []) ].

(** [s'] holds every log of [s], unchanged but for added relationships. *)
Definition extendsStore (s s' : gmap string LogEntry) : Prop :=
  ∀ i log, s !! i = Some log →
    ∃ log', s' !! i = Some log' ∧
      id log' = id log ∧ status log' = status log ∧ klados_id log' = klados_id log ∧
      handoffs log' = handoffs log ∧ messages log' = messages log ∧
      default [] (relationships log) ⊆ default [] (relationships log').

(** A fan-in: [root] sends to [A] and [B], both send to the gather log [G]. *)
Definition diamondStore : gmap string LogEntry :=
  list_to_map [
    ("job", jobOf "root");
    ("root", logOf "root" "done" [scatter ["a"; "b"]] ["A"; "B"]);
    ("A", logOf "A" "done" [invoke "a"] ["G"]);
    ("B", logOf "B" "done" [invoke "b"] ["G"]);
    ("G", logOf "G" "done" [] []) ].

(** The tree built from it: [G] hangs under [A] only, and [B], which
    expects one child and sent to one, has none in the tree. *)
Definition diamondTree : TreeNode :=
  mkNode "root" "done" "stage" 2 2
    [ mkNode "A" "done" "stage" 1 1
        [ mkNode "G" "done" "stage" 0 0 [] true true None ] true false None;
      mkNode "B" "done" "stage" 1 1 [] true false None ]
    true false None.

(** A cycle: [root] sends to [A], [A] sends back to [root]. *)
Definition cycleStore : gmap string LogEntry :=
  list_to_map [
    ("job", jobOf "root");
    ("root", logOf "root" "done" [invoke "a"] ["A"]);
    ("A", logOf "A" "done" [invoke "r"] ["root"]) ].

(** *** The rest of the diagnostic *)

(** [collectProblems(node, depth)]: the nodes that carry a problem, each
    with its depth, the node before its descendants. *)
Fixpoint collectProblems (node : TreeNode) (depth : nat) : list (TreeNode * nat) :=
  match node with
  | mkNode _ _ _ _ _ kids _ _ p =>
      (match p with Some _ => [(node, depth)] | None => [] end)
      ++ flat_map (λ child, collectProblems child (S depth)) kids
  end.

(** [leaves.filter(l => !l.isTerminal)] *)
Definition nonTerminalLeaves (root : TreeNode) : list TreeNode :=
  List.filter (λ l, negb (isTerminal l)) (collectLeaves root).

(** [countStatus], threading the two counters
    [(terminalCount, runningCount)] it increments. *)
Fixpoint countStatus (node : TreeNode) (counts : nat * nat) : nat * nat :=
  match node with
  | mkNode _ _ _ _ _ kids terminal _ _ =>
      foldl (λ counts child, countStatus child counts)
        (if terminal then (S counts.1, counts.2) else (counts.1, S counts.2))
        kids
  end.

(** "Simple isComplete (all terminal)": [runningCount === 0]. *)
Definition simpleComplete (root : TreeNode) : bool :=
  ((countStatus root (O, O)).2 =? 0)%nat.

(** The lines of [printTree(node, depth, maxDepth)], kept structured:
    a node with its depth, or the note that children were left out. *)
Inductive TreeLine :=
| NodeLine (depth : nat) (node : TreeNode)
| MoreLine (depth : nat) (omitted : nat).

Fixpoint printTree (node : TreeNode) (depth maxDepth : nat) : list TreeLine :=
  if (maxDepth <? depth)%nat then []
  else
    match node with
    | mkNode _ _ _ _ _ kids _ _ _ =>
        NodeLine depth node
        :: (fix firstThree (cs : list TreeNode) (n : nat) : list TreeLine :=
              match cs, n with
              | child :: rest, S n' =>
                  printTree child (S depth) maxDepth ++ firstThree rest n'
              | _, _ => []
              end) kids 3%nat
        ++ (if (3 <? length kids)%nat then [MoreLine depth (length kids - 3)] else [])
    end.

(** The node lines among the lines printed. *)
Definition nodeLines (lines : list TreeLine) : list (nat * TreeNode) :=
  omap (λ l, match l with NodeLine d n => Some (d, n) | MoreLine _ _ => None end) lines.

(** [y] is reached from [x] along [sent_to] relationships of logs of
    the store. *)
Inductive reachable (store : gmap string LogEntry) : string → string → Prop :=
| reach_here x : reachable store x x
| reach_step x log p y :
    store !! x = Some log → p ∈ peer <$> sentToOf log →
    reachable store p y → reachable store x y.

(** Every [sent_to] peer of the logs [ids] is in [V]. *)
Definition closedIn (store : gmap string LogEntry) (ids : list string)
    (V : gset string) : Prop :=
  ∀ x log p, x ∈ ids → store !! x = Some log → p ∈ peer <$> sentToOf log → p ∈ V.

(** A node carries no problem exactly when its log is terminal, its
    expected count is known and at most its number of [sent_to]
    relationships. *)
Definition diagnosed (p : TreeNode) : Prop :=
  problem p = None ↔
  (isTerminal p = true ∧ 0 ≤ expectedChildren p ≤ Z.of_nat (actualChildren p)).

(** The most node lines [printTree] prints over [levels] levels. *)
Fixpoint printBound (levels : nat) : nat :=
  match levels with
  | O => O
  | S levels' => S (3 * printBound levels')
  end.

(** *** Re-running and extending *)

(** The root of the tree: the peer of the [first_log] relationship of
    the job collection. *)
Definition firstLog (store : gmap string LogEntry) (jobCollection : string)
    : option string :=
  peer <$>
    List.find (λ r, String.eqb (predicate r) "first_log")
      (match fetchEntity store jobCollection with
       | Some collection => default [] (relationships collection)
       | None => []
       end).

(** The ids of the logs of [s'] that [s] does not hold. *)
Definition addedIn (s s' : gmap string LogEntry) : gset string := dom s' ∖ dom s.

(** [s'] is [s] with logs added that send to added logs only, and with
    [sent_to] relationships to added logs put in among the relationships
    of its own logs; nothing else of a log of [s] changes. *)
Record graftsOnto (s s' : gmap string LogEntry) : Prop := mkGrafts {
  grafts_old : ∀ i log, s !! i = Some log →
    ∃ log', s' !! i = Some log' ∧
      id log' = id log ∧ status log' = status log ∧ klados_id log' = klados_id log ∧
      handoffs log' = handoffs log ∧ messages log' = messages log ∧
      default [] (relationships log)
      = filter (λ r, ¬ (predicate r = "sent_to" ∧ peer r ∈ addedIn s s'))
          (default [] (relationships log'));
  grafts_new : ∀ i log' p,
    s' !! i = Some log' → i ∈ addedIn s s' → p ∈ peer <$> sentToOf log' →
    p ∈ addedIn s s';
}.

(** [t'] is [t] with trees of logs of [F] hung in among the children of
    its nodes; [actualChildren] and [problem], which count the [sent_to]
    relationships, may differ. *)
Inductive grafted (F : gset string) : TreeNode → TreeNode → Prop :=
| grafted_node i s k e a a' kids kids' tm lf p p' :
    graftedAmong F kids kids' →
    grafted F (mkNode i s k e a kids tm lf p) (mkNode i s k e a' kids' tm lf p')
with graftedAmong (F : gset string) : list TreeNode → list TreeNode → Prop :=
| among_nil : graftedAmong F [] []
| among_old c c' cs cs' :
    grafted F c c' → graftedAmong F cs cs' → graftedAmong F (c :: cs) (c' :: cs')
| among_new sub cs cs' :
    Forall (λ n, n_id n ∈ F) (nodes sub) → graftedAmong F cs cs' →
    graftedAmong F cs (sub :: cs').

Scheme grafted_mutind := Induction for grafted Sort Prop
  with graftedAmong_mutind := Induction for graftedAmong Sort Prop.

(** The same for what two calls return: both [null], or two trees. *)
Definition graftedOpt (F : gset string) (ot ot' : option TreeNode) : Prop :=
  match ot, ot' with
  | Some t, Some t' => grafted F t t'
  | None, None => True
  | _, _ => False
  end.

(** Two visited sets hold the same logs outside [F]. *)
Definition agreeOff (F v' v : gset string) : Prop :=
  ∀ y, y ∉ F → (y ∈ v' ↔ y ∈ v).

(** The nodes a call returns, none for [null]. *)
Definition opt_nodes (ot : option TreeNode) : list TreeNode :=
  match ot with Some t => nodes t | None => [] end.

(** The order of a depth-first traversal: every [sent_to] peer of a node
    of the list [l] (the nodes in the order of their discovery) was
    visited before ([v]), or was discovered before the node, or is the
    node itself or below it. *)
Definition depthFirst (store : gmap string LogEntry) (v : gset string)
    (l : list TreeNode) : Prop :=
  ∀ i q log x,
    l !! i = Some q → store !! n_id q = Some log → x ∈ peer <$> sentToOf log →
    x ∈ v ∨ x ∈ n_id <$> take i l ∨ x ∈ node_ids q.

(** The sealed root with a done log hung under it. *)
Definition graftedStore : gmap string LogEntry :=
  list_to_map [ ("job", jobOf "root"); ("root", logOf "root" "done" [] ["C"]);
                ("C", logOf "C" "done" [] []) ].

(** A complete tree: [root] sends to [A] and [B], and [B] to [G].  Then
    the done log [N] is added between [A] and [G]: every log is done and
    has sent to as many logs as it expects. *)
Definition chainStore : gmap string LogEntry :=
  list_to_map [
    ("job", jobOf "root");
    ("root", logOf "root" "done" [scatter ["a"; "b"]] ["A"; "B"]);
    ("A", logOf "A" "done" [] []);
    ("B", logOf "B" "done" [invoke "b"] ["G"]);
    ("G", logOf "G" "done" [] []) ].

Definition chainGrownStore : gmap string LogEntry :=
  list_to_map [
    ("job", jobOf "root");
    ("root", logOf "root" "done" [scatter ["a"; "b"]] ["A"; "B"]);
    ("A", logOf "A" "done" [] ["N"]);
    ("N", logOf "N" "done" [invoke "n"] ["G"]);
    ("B", logOf "B" "done" [invoke "b"] ["G"]);
    ("G", logOf "G" "done" [] []) ].

End Observer.
(** ** JavaScript numbers, arrays, Maps and Sets as the simulator uses them *)
Module Js.

(** *** Numbers

    Every number the simulator computes with is an integer or the
    product or quotient of two; integers are [Z], and the IEEE-754
    binary64 rounding of each operation is written out.  A finite double
    is [mant * 2^expo]. *)
Record double := mkDouble { mant : Z; expo : Z }.

(** Round-half-even of [m / 2^s] for [0 ≤ s]. *)
Definition roundShift (m s : Z) : Z :=
  let q := Z.shiftr m s in
  let r := m - Z.shiftl q s in
  let half := Z.shiftl 1 (s - 1) in
  if s =? 0 then m
  else if r <? half then q
  else if half <? r then q + 1
  else if Z.even q then q else q + 1.

(** Rounding of the real [m * 2^e] to 53 significant bits. *)
Definition round53 (m e : Z) : double :=
  let s := Z.log2 (Z.abs m) - 52 in
  if s <=? 0 then mkDouble m e
  else mkDouble (Z.sgn m * roundShift (Z.abs m) s) (e + s).

Definition toZ (d : double) : Z :=
  if 0 <=? expo d then Z.shiftl (mant d) (expo d) else Z.shiftr (mant d) (- expo d).

(** [a + b], [a - b] and [a * b] on integer-valued doubles. *)
Definition add (a b : Z) : Z := toZ (round53 (a + b) 0).
Definition sub (a b : Z) : Z := toZ (round53 (a - b) 0).
Definition mul (a b : Z) : Z := toZ (round53 (a * b) 0).

(** [a / b] for integers [0 ≤ a], [0 < b]: the quotient is computed to 55
    bits and more, with a sticky bit for the remainder, and rounded. *)
Definition div (a b : Z) : double :=
  if a =? 0 then mkDouble 0 0
  else
    let p := Z.max 0 (56 + Z.log2 b - Z.log2 a) in
    let n := Z.shiftl a p in
    let q := n / b in
    let sticky := if n mod b =? 0 then 0 else 1 in
    round53 (2 * q + sticky) (- p - 1).

(** [d * n] for an integer [n]. *)
Definition scale (d : double) (n : Z) : double := round53 (mant d * n) (expo d).

(** [Math.floor]. *)
Definition floor (d : double) : Z := toZ d.

(** [ToInt32], as the bitwise operators apply it. *)
Definition ToInt32 (x : Z) : Z := (x + 2 ^ 31) mod 2 ^ 32 - 2 ^ 31.

(** [a & b] *)
Definition land (a b : Z) : Z := Z.land (ToInt32 a) (ToInt32 b).

(** *** Arrays with holes

    [list (option T)]: [None] is [undefined].  Reading beyond the end
    gives [undefined]; writing beyond the end extends the array. *)
Definition arrGet {T} (a : list (option T)) (i : nat) : option T :=
  mjoin (a !! i).

Definition arrSet {T} (i : nat) (v : option T) (a : list (option T)) : list (option T) :=
  if (i <? length a)%nat then <[i := v]> a
  else a ++ replicate (i - length a) None ++ [v].

(** The elements of an array that are not [undefined]. *)
Definition defined {T} (a : list (option T)) : list T := omap id a.

(** [[a[i], a[j]] = [a[j], a[i]]] *)
Definition swap {T} (i j : nat) (a : list (option T)) : list (option T) :=
  let ai := arrGet a i in
  let aj := arrGet a j in
  arrSet j ai (arrSet i aj a).

(** [array.slice(0, k)] *)
Definition slice0 {T} (k : Z) (l : list T) : list T :=
  if k <? 0 then take (Z.to_nat (Z.of_nat (length l) + k)) l
  else take (Z.to_nat k) l.

(** *** [Map<string, V>] and [Set<string>], in insertion order *)
Abbreviation Map V := (list (string * V)).

Fixpoint mapGet {V} (k : string) (m : Map V) : option V :=
  match m with
  | [] => None
  | (k', v) :: rest => if String.eqb k' k then Some v else mapGet k rest
  end.

Fixpoint mapSet {V} (k : string) (v : V) (m : Map V) : Map V :=
  match m with
  | [] => [(k, v)]
  | (k', v') :: rest =>
      if String.eqb k' k then (k', v) :: rest else (k', v') :: mapSet k v rest
  end.

Definition mapDelete {V} (k : string) (m : Map V) : Map V :=
  filter (λ kv, kv.1 ≠ k) m.

Definition mapValues {V} (m : Map V) : list V := snd <$> m.

Abbreviation Set_ := (list string).

Definition setHas (x : string) (s : Set_) : bool := bool_decide (x ∈ s).
Definition setAdd (x : string) (s : Set_) : Set_ := if setHas x s then s else s ++ [x].
Definition setDelete (x : string) (s : Set_) : Set_ := filter (λ y, y ≠ x) s.

(** *** Plain objects read as dictionaries

    [obj[name]] on a plain object finds the members of
    [Object.prototype] when the object has no property of its own under
    the name: functions, and for [__proto__] the prototype itself.  These
    are the names [Object.prototype] defines. *)
Definition objectPrototypeNames : list string :=
  [ "constructor"; "__defineGetter__"; "__defineSetter__"; "hasOwnProperty";
    "__lookupGetter__"; "__lookupSetter__"; "isPrototypeOf";
    "propertyIsEnumerable"; "toString"; "valueOf"; "__proto__"; "toLocaleString" ].

Definition inherited (name : string) : bool :=
  bool_decide (name ∈ objectPrototypeNames).

End Js.

(** ** The cluster simulation (scripts/cluster-sim/simulate.ts) *)
Module Sim.

Record Entity := mkEntity {
  id : string;
  type : string;
  label : string;
  description : option string;
  _kg_layer : Z;
}.

(** [score] is never read by the simulation; it is kept in millionths. *)
Record SimilarityEntry := mkSim {
  peerId : string;
  score : Z;
}.

Record SimulationData := mkData {
  collectionId : string;
  fetchedAt : string;
  entities : list Entity;
  similarities : gmap string (list SimilarityEntry);
}.

Record SimConfig := mkConfig {
  k : Z;
  arrivalSpreadMs : Z;
  indexDelayMs : Z;
  recheckDelayMs : Z;
  followerWaitMinMs : Z;
  followerWaitMaxMs : Z;
  seed : Z;
  verbose : bool;
}.

Inductive EventType :=
| entity_arrives
| entity_indexed
| entity_searches
| entity_rechecks
| entity_creates_cluster
| entity_joins_cluster
| follower_wait_ends.

(** [data?: Record<string, unknown>]: the two shapes the simulator writes. *)
Inductive EventData :=
| DataClusterId (clusterId : string)
| DataPeers (peers : list string).

Record Event := mkEvent {
  time : Z;
  ev_type : EventType;
  entityId : string;
  ev_data : option EventData;
}.

Record EntityState := mkEntityState {
  arrived : bool;
  indexed : bool;
  clusterId : option string;
  isClusterLeader : bool;
  processing : bool;
  waitingForFollowers : bool;
  followerWaitStartTime : option Z;
}.

Record ClusterState := mkCluster {
  c_id : string;
  leaderId : string;
  members : Js.Set_;
  createdAt : Z;
}.

(** The mutable fields of [ClusterSimulation], with the seed captured by
    the closure of [seededRandom]. *)
Record SimState := mkState {
  entityStates : gmap string EntityState;
  clusters : Js.Map ClusterState;
  eventQueue : list Event;
  currentTime : Z;
  nextClusterId : N;
  rngSeed : Z;
}.

(** Field assignments. *)
Definition set_arrived (b : bool) (s : EntityState) : EntityState :=
  mkEntityState b (indexed s) (clusterId s) (isClusterLeader s) (processing s)
    (waitingForFollowers s) (followerWaitStartTime s).
Definition set_indexed (b : bool) (s : EntityState) : EntityState :=
  mkEntityState (arrived s) b (clusterId s) (isClusterLeader s) (processing s)
    (waitingForFollowers s) (followerWaitStartTime s).
Definition set_clusterId (c : option string) (s : EntityState) : EntityState :=
  mkEntityState (arrived s) (indexed s) c (isClusterLeader s) (processing s)
    (waitingForFollowers s) (followerWaitStartTime s).
Definition set_isClusterLeader (b : bool) (s : EntityState) : EntityState :=
  mkEntityState (arrived s) (indexed s) (clusterId s) b (processing s)
    (waitingForFollowers s) (followerWaitStartTime s).
Definition set_processing (b : bool) (s : EntityState) : EntityState :=
  mkEntityState (arrived s) (indexed s) (clusterId s) (isClusterLeader s) b
    (waitingForFollowers s) (followerWaitStartTime s).
Definition set_waitingForFollowers (b : bool) (s : EntityState) : EntityState :=
  mkEntityState (arrived s) (indexed s) (clusterId s) (isClusterLeader s) (processing s)
    b (followerWaitStartTime s).
Definition set_followerWaitStartTime (t : option Z) (s : EntityState) : EntityState :=
  mkEntityState (arrived s) (indexed s) (clusterId s) (isClusterLeader s) (processing s)
    (waitingForFollowers s) t.

Definition with_entityStates (f : gmap string EntityState → gmap string EntityState)
    (st : SimState) : SimState :=
  mkState (f (entityStates st)) (clusters st) (eventQueue st) (currentTime st)
    (nextClusterId st) (rngSeed st).
Definition with_clusters (f : Js.Map ClusterState → Js.Map ClusterState)
    (st : SimState) : SimState :=
  mkState (entityStates st) (f (clusters st)) (eventQueue st) (currentTime st)
    (nextClusterId st) (rngSeed st).
Definition with_eventQueue (f : list Event → list Event) (st : SimState) : SimState :=
  mkState (entityStates st) (clusters st) (f (eventQueue st)) (currentTime st)
    (nextClusterId st) (rngSeed st).

(** [state.field = value] on the state object of [entityId]. *)
Definition assign (entityId : string) (f : EntityState → EntityState)
    (st : SimState) : SimState :=
  with_entityStates (alter f entityId) st.

(** *** Seeded random *)

(** One call of the closure returned by [seededRandom]: the new seed and
    the value [seed / 0x7fffffff]. *)
Definition random (seed : Z) : Js.double * Z :=
  let seed' := Js.land (Js.add (Js.mul seed 1103515245) 12345) 2147483647 in
  (Js.div seed' 2147483647, seed').

(** [Math.floor(random() * n)] *)
Definition randomBelow (n : Z) (seed : Z) : Z * Z :=
  let '(r, seed') := random seed in
  (Js.floor (Js.scale r n), seed').

(** The loop of [shuffle], [i] counting down to 1. *)
Fixpoint shuffleLoop {T} (i : nat) (result : list (option T)) (seed : Z)
    : list (option T) * Z :=
  match i with
  | O => (result, seed)
  | S i' =>
      let '(j, seed') := randomBelow (Z.of_nat i + 1) seed in
      shuffleLoop i' (Js.swap i (Z.to_nat j) result) seed'
  end.

Definition shuffle {T} (array : list T) (seed : Z) : list (option T) * Z :=
  shuffleLoop (length array - 1) (Some <$> array) seed.

(** *** The event queue *)

(** [eventQueue.sort((a, b) => a.time - b.time)] is a stable sort. *)
Fixpoint insertByTime (ev : Event) (sorted : list Event) : list Event :=
  match sorted with
  | [] => [ev]
  | x :: rest =>
      if time ev <? time x then ev :: x :: rest else x :: insertByTime ev rest
  end.

Definition sortByTime (l : list Event) : list Event :=
  foldl (λ acc ev, insertByTime ev acc) [] l.

Definition scheduleEvent (event : Event) (st : SimState) : SimState :=
  with_eventQueue (λ q, sortByTime (q ++ [event])) st.

(** *** The simulation engine *)

Section simulation.

(** [config] and [data] are the constructor's arguments.  [localeCompare]
    is the built-in [String.prototype.localeCompare], whose order is the
    locale's; only its sign is used. *)
Context (config : SimConfig) (data : SimulationData).
Context (localeCompare : string → string → Z).

(** [this.entities.find(e => e.id === entityId)] *)
Definition findEntity (entityId : string) : option Entity :=
  List.find (λ e, String.eqb (id e) entityId) (entities data).

(** The filter of [getVisiblePeers] and of the semantic fallback: same
    layer and already indexed. *)
Definition visibleAt (st : SimState) (layer : Z) (s : SimilarityEntry) : bool :=
  match findEntity (peerId s) with
  | None => false
  | Some peer =>
      if negb (_kg_layer peer =? layer) then false
      else match entityStates st !! peerId s with
           | Some peerState => indexed peerState
           | None => false
           end
  end.

(** [this.similarities[entityId] || []]: the list of the entity, [[]]
    when there is none; for an id that [Object.prototype] defines and
    that has no list of its own the lookup answers with the inherited
    member, which is truthy and on which [.filter] is not a function. *)
Definition similarTo (entityId : string) : Outcome (list SimilarityEntry) :=
  match similarities data !! entityId with
  | Some sims => Done sims
  | None => if Js.inherited entityId then Threw "TypeError" else Done []
  end.

Definition getVisiblePeers (st : SimState) (entityId : string) (layer : Z)
    : Outcome (list SimilarityEntry) :=
  match similarTo entityId with
  | Done sims => Done (Js.slice0 (k config) (List.filter (visibleAt st layer) sims))
  | Threw msg => Threw msg
  | OutOfFuel => OutOfFuel
  end.

(** [state.clusterId] when it is truthy: neither [null] nor empty. *)
Definition truthy (c : option string) : option string :=
  match c with
  | Some c => if String.eqb c "" then None else Some c
  | None => None
  end.

(** [peerState?.clusterId], when truthy. *)
Definition clusterOf (st : SimState) (entityId : string) : option string :=
  match entityStates st !! entityId with
  | Some peerState => truthy (clusterId peerState)
  | None => None
  end.

Fixpoint findClusteredPeer (st : SimState) (peers : list SimilarityEntry)
    : option (string * string) :=
  match peers with
  | [] => None
  | peer :: rest =>
      match clusterOf st (peerId peer) with
      | Some c => Some (peerId peer, c)
      | None => findClusteredPeer st rest
      end
  end.

Definition clusterName (n : N) : string := String.append "cluster_" (pretty n).

Definition createCluster (leaderId : string) (st : SimState) : string * SimState :=
  let clusterId := clusterName (nextClusterId st) in
  (clusterId,
   mkState (entityStates st)
     (Js.mapSet clusterId
        {| c_id := clusterId; leaderId := leaderId; members := [leaderId];
           createdAt := currentTime st |} (clusters st))
     (eventQueue st) (currentTime st) (nextClusterId st + 1)%N (rngSeed st)).

Definition set_members (ms : Js.Set_) (c : ClusterState) : ClusterState :=
  mkCluster (c_id c) (leaderId c) ms (createdAt c).

Definition joinCluster (entityId clusterId : string) (st : SimState) : Outcome SimState :=
  let st1 :=
    match Js.mapGet clusterId (clusters st) with
    | Some cluster =>
        with_clusters
          (Js.mapSet clusterId (set_members (Js.setAdd entityId (members cluster)) cluster)) st
    | None => st
    end in
  match entityStates st1 !! entityId with
  | Some _ => Done (assign entityId (set_clusterId (Some clusterId)) st1)
  | None => Threw "TypeError"
  end.

Definition getJitteryWait (st : SimState) : Z * SimState :=
  let range := Js.sub (followerWaitMaxMs config) (followerWaitMinMs config) in
  let '(r, seed') := randomBelow range (rngSeed st) in
  (Js.add (followerWaitMinMs config) r,
   mkState (entityStates st) (clusters st) (eventQueue st) (currentTime st)
     (nextClusterId st) seed').

(** The block "Remove from my cluster", written twice in [runFallback]. *)
Definition leaveCluster (entityId myClusterId : string) (st : SimState) : SimState :=
  match Js.mapGet myClusterId (clusters st) with
  | Some myCluster =>
      let ms := Js.setDelete entityId (members myCluster) in
      if (length ms =? 0)%nat then with_clusters (Js.mapDelete myClusterId) st
      else with_clusters (Js.mapSet myClusterId (set_members ms myCluster)) st
  | None => st
  end.

(** Leave my cluster, join theirs, stop leading. *)
Definition switchCluster (entityId myClusterId theirs : string) (st : SimState)
    : Outcome SimState :=
  match joinCluster entityId theirs (leaveCluster entityId myClusterId st) with
  | Done st' => Done (assign entityId (set_isClusterLeader false) st')
  | other => other
  end.

(** The first peer of the list that has a cluster other than mine. *)
Fixpoint findOtherCluster (st : SimState) (myClusterId : string)
    (peers : list string) : option string :=
  match peers with
  | [] => None
  | p :: rest =>
      match clusterOf st p with
      | Some c => if String.eqb c myClusterId then findOtherCluster st myClusterId rest
                  else Some c
      | None => findOtherCluster st myClusterId rest
      end
  end.

(** [.sort((a, b) => a.id.localeCompare(b.id))], a stable sort. *)
Fixpoint insertById (e : Entity) (sorted : list Entity) : list Entity :=
  match sorted with
  | [] => [e]
  | x :: rest =>
      if localeCompare (id e) (id x) <? 0 then e :: x :: rest
      else x :: insertById e rest
  end.

Definition sortById (l : list Entity) : list Entity :=
  foldl (λ acc e, insertById e acc) [] l.

Definition layerEntitiesOf (layer : Z) : list Entity :=
  sortById (List.filter (λ e, _kg_layer e =? layer) (entities data)).

(** The loop of the lexicographic step. *)
Inductive LexOutcome :=
| ReachedSelf
| JoinVia (theirs : string)
| LoopEnded.

Fixpoint lexLoop (st : SimState) (entityId myClusterId : string)
    (layerEntities : list Entity) : LexOutcome :=
  match layerEntities with
  | [] => LoopEnded
  | ent :: rest =>
      if String.eqb (id ent) entityId then ReachedSelf
      else if String.eqb (type ent) "cluster_leader"
      then lexLoop st entityId myClusterId rest
      else
        match clusterOf st (id ent) with
        | Some c =>
            if String.eqb c myClusterId then lexLoop st entityId myClusterId rest
            else JoinVia c
        | None => lexLoop st entityId myClusterId rest
        end
  end.

Definition runFallback (entityId myClusterId : string) (layer : Z) (st : SimState)
    : Outcome SimState :=
  match findEntity entityId with
  | None => Threw "TypeError"
  | Some entity =>
      (* STEP 1: semantic fallback *)
      match similarTo entityId with
      | Threw msg => Threw msg
      | OutOfFuel => OutOfFuel
      | Done allSims =>
          let visibleSemanticPeers := List.filter (visibleAt st layer) allSims in
          match findOtherCluster st myClusterId (peerId <$> visibleSemanticPeers) with
          | Some theirs => switchCluster entityId myClusterId theirs st
          | None =>
              (* STEP 2: lexicographic fallback *)
              let layerEntities := layerEntitiesOf layer in
              match lexLoop st entityId myClusterId layerEntities with
              | ReachedSelf => Done st
              | JoinVia theirs => switchCluster entityId myClusterId theirs st
              | LoopEnded =>
                  if (length layerEntities =? 1)%nat then
                    match entityStates st !! entityId with
                    | None => Threw "TypeError"
                    | Some _ =>
                        Done (assign entityId (set_isClusterLeader false)
                                (assign entityId (set_clusterId None)
                                   (with_clusters (Js.mapDelete myClusterId) st)))
                    end
                  else Done st
              end
          end
      end
  end.

(** The common tail of [entity_searches] and [entity_rechecks]: create an
    own cluster and wait for followers. *)
Definition createAndWait (entityId : string) (st : SimState) : SimState :=
  let '(clusterId, st1) := createCluster entityId st in
  let st2 :=
    assign entityId
      (λ s, set_followerWaitStartTime (Some (currentTime st))
              (set_waitingForFollowers true
                 (set_isClusterLeader true (set_clusterId (Some clusterId) s)))) st1 in
  let '(jitteryWait, st3) := getJitteryWait st2 in
  scheduleEvent
    {| time := Js.add (currentTime st) jitteryWait; ev_type := follower_wait_ends;
       entityId := entityId; ev_data := Some (DataClusterId clusterId) |} st3.

Definition joinAndStop (entityId clusterId : string) (st : SimState) : Outcome SimState :=
  match joinCluster entityId clusterId st with
  | Done st' => Done (assign entityId (set_processing false) st')
  | other => other
  end.

Definition processEvent (event : Event) (st : SimState) : Outcome SimState :=
  let state := entityStates st !! entityId event in
  let entity := findEntity (entityId event) in
  match ev_type event with
  | entity_arrives =>
      match state, entity with
      | Some _, Some _ =>
          let st1 := assign (entityId event) (set_arrived true) st in
          let st2 :=
            scheduleEvent
              {| time := Js.add (currentTime st) (indexDelayMs config);
                 ev_type := entity_indexed; entityId := entityId event;
                 ev_data := None |} st1 in
          Done (scheduleEvent
                  {| time := currentTime st; ev_type := entity_searches;
                     entityId := entityId event; ev_data := None |} st2)
      | _, _ => Threw "TypeError"
      end
  | entity_indexed =>
      match state, entity with
      | Some _, Some _ => Done (assign (entityId event) (set_indexed true) st)
      | _, _ => Threw "TypeError"
      end
  | entity_searches =>
      match state, entity with
      | Some _, Some entity =>
          let st1 := assign (entityId event) (set_processing true) st in
          match getVisiblePeers st1 (entityId event) (_kg_layer entity) with
          | Threw msg => Threw msg
          | OutOfFuel => OutOfFuel
          | Done peers =>
              if (length peers =? 0)%nat then Done (createAndWait (entityId event) st1)
              else
                match findClusteredPeer st1 peers with
                | Some (_, clusterId) => joinAndStop (entityId event) clusterId st1
                | None =>
                    Done (scheduleEvent
                            {| time := Js.add (currentTime st) (recheckDelayMs config);
                               ev_type := entity_rechecks; entityId := entityId event;
                               ev_data := Some (DataPeers (peerId <$> peers)) |} st1)
                end
          end
      | _, _ => Threw "TypeError"
      end
  | entity_rechecks =>
      match state, entity with
      | Some _, Some entity =>
          match getVisiblePeers st (entityId event) (_kg_layer entity) with
          | Threw msg => Threw msg
          | OutOfFuel => OutOfFuel
          | Done peers =>
              match findClusteredPeer st peers with
              | Some (_, clusterId) => joinAndStop (entityId event) clusterId st
              | None => Done (createAndWait (entityId event) st)
              end
          end
      | _, _ => Threw "TypeError"
      end
  | follower_wait_ends =>
      match state with
      | None => Threw "TypeError"
      | Some _ =>
          let clusterId :=
            match ev_data event with
            | Some (DataClusterId c) => Some c
            | _ => None
            end in
          let st1 :=
            assign (entityId event)
              (λ s, set_processing false (set_waitingForFollowers false s)) st in
          match clusterId ≫= (λ c, (c,.) <$> Js.mapGet c (clusters st)) with
          | None => Done st1
          | Some (clusterId, cluster) =>
              match entity with
              | None => Threw "TypeError"
              | Some entity =>
                  if (1 <? length (members cluster))%nat then Done st1
                  else runFallback (entityId event) clusterId (_kg_layer entity) st1
              end
          end
      end
  | entity_creates_cluster | entity_joins_cluster => Done st
  end.

(** *** [run] *)

Definition initialState : SimState :=
  {| entityStates :=
       foldl (λ m entity,
                <[id entity :=
                    mkEntityState false false None false false false None]> m)
             ∅ (entities data);
     clusters := [];
     eventQueue := [];
     currentTime := 0;
     nextClusterId := 1;
     rngSeed := seed config |}.

(** The first loop of [run]; [shuffled[i].id] throws on [undefined]. *)
Fixpoint scheduleArrivals (len : nat) (i : nat) (rest : list (option Entity))
    (st : SimState) : Outcome SimState :=
  match rest with
  | [] => Done st
  | None :: _ => Threw "TypeError"
  | Some entity :: rest' =>
      let arrivalTime :=
        Js.floor (Js.scale (Js.div (Z.of_nat i) (Z.of_nat len)) (arrivalSpreadMs config)) in
      scheduleArrivals len (S i) rest'
        (scheduleEvent
           {| time := arrivalTime; ev_type := entity_arrives; entityId := id entity;
              ev_data := None |} st)
  end.

(** One turn of the [while] loop: [shift], set the clock, process. *)
Definition step (st : SimState) : option (Outcome SimState) :=
  match eventQueue st with
  | [] => None
  | event :: rest =>
      Some (processEvent event
              (mkState (entityStates st) (clusters st) rest (time event)
                 (nextClusterId st) (rngSeed st)))
  end.

Fixpoint runLoop (fuel : nat) (st : SimState) : Outcome SimState :=
  match step st with
  | None => Done st
  | Some (Done st') =>
      match fuel with
      | O => OutOfFuel
      | S fuel' => runLoop fuel' st'
      end
  | Some (Threw msg) => Threw msg
  | Some OutOfFuel => OutOfFuel
  end.

(** The state from which the event loop starts. *)
Definition scheduled : Outcome SimState :=
  let '(shuffled, seed') := shuffle (entities data) (seed config) in
  scheduleArrivals (length shuffled) 0 shuffled
    (mkState (entityStates initialState) [] [] 0 1 seed').

Definition run (fuel : nat) : Outcome SimState :=
  match scheduled with
  | Done st => runLoop fuel st
  | other => other
  end.

(** Every arrival pays for at most five events. *)
Definition runFuel : nat := 5 * length (entities data).

(** *** [getResults] *)

Record ClusterSummary := mkSummary {
  s_id : string;
  s_size : nat;
  s_members : list string;
}.

Record Results := mkResults {
  r_config : SimConfig;
  totalEntities : nat;
  totalClusters : nat;
  unclustered : nat;
  avgClusterSize : Js.double;
  maxClusterSize : Z;
  minClusterSize : Z;
  singletons : nat;
  distribution : gmap nat nat;
  r_clusters : list ClusterSummary;
}.

Definition getResults (st : SimState) : Results :=
  let clusterSizes := (λ c, length (members c)) <$> Js.mapValues (clusters st) in
  let sum := foldl (λ a b, a + Z.of_nat b) 0 clusterSizes in
  {| r_config := config;
     totalEntities := length (entities data);
     totalClusters := length (clusters st);
     unclustered :=
       size (filter (λ kv, truthy (clusterId kv.2) = None) (entityStates st));
     avgClusterSize :=
       if (0 <? length clusterSizes)%nat
       then Js.div sum (Z.of_nat (length clusterSizes)) else Js.mkDouble 0 0;
     maxClusterSize := foldr Z.max 0 (Z.of_nat <$> clusterSizes);
     minClusterSize :=
       match clusterSizes with
       | [] => 0
       | s :: rest => foldr Z.min (Z.of_nat s) (Z.of_nat <$> rest)
       end;
     singletons := length (List.filter (λ s, (s =? 1)%nat) clusterSizes);
     distribution :=
       foldl (λ d size, <[size := S (default O (d !! size))]> d) ∅ clusterSizes;
     r_clusters :=
       (λ c, mkSummary (c_id c) (length (members c)) (members c))
         <$> Js.mapValues (clusters st) |}.

End simulation.

(** *** States of a run, and what the claims say about them *)

Section run_states.

Context (config : SimConfig) (data : SimulationData).
Context (localeCompare : string → string → Z).

(** The state after at most [n] turns of the event loop. *)
Fixpoint runSteps (n : nat) (st : SimState) : Outcome SimState :=
  match n with
  | O => Done st
  | S n' =>
      match step config data localeCompare st with
      | None => Done st
      | Some (Done st') => runSteps n' st'
      | Some other => other
      end
  end.

Definition stateAfter (n : nat) : Outcome SimState :=
  match scheduled config data with
  | Done st => runSteps n st
  | other => other
  end.

End run_states.

(** [state.clusterId] of an entity, [None] also when it has no state. *)
Definition clusterIdOf (st : SimState) (e : string) : option string :=
  entityStates st !! e ≫= clusterId.

(** [state.isClusterLeader] of an entity. *)
Definition leads (st : SimState) (e : string) : option bool :=
  isClusterLeader <$> entityStates st !! e.

(** The member set of a cluster. *)
Definition membersOf (st : SimState) (c : string) : option Js.Set_ :=
  members <$> Js.mapGet c (clusters st).

Definition memberOf (st : SimState) (e c : string) : Prop :=
  ∃ ms, membersOf st c = Some ms ∧ e ∈ ms.

(** Membership uniqueness: an entity is in at most one member set, and a
    recorded [clusterId] names the cluster whose member set holds the
    entity. *)
Definition membershipUnique (st : SimState) : Prop :=
  (∀ e c1 c2, memberOf st e c1 → memberOf st e c2 → c1 = c2) ∧
  (∀ e c, clusterIdOf st e = Some c → memberOf st e c).

(** The events that drive an entity's worker. *)
Definition isWorkerEvent (ev : Event) : bool :=
  match ev_type ev with
  | entity_arrives | entity_searches | entity_rechecks | follower_wait_ends => true
  | _ => false
  end.

(** The entities with a pending worker event, with multiplicity. *)
Definition workerIds (q : list Event) : list string :=
  entityId <$> List.filter isWorkerEvent q.

(** What a pending event expects of its entity: before the entity has
    decided it has no cluster, and a follower wait ends for the cluster
    the entity is in. *)
Definition eventExpects (st : SimState) (ev : Event) : Prop :=
  match ev_type ev with
  | entity_arrives | entity_searches | entity_rechecks =>
      clusterIdOf st (entityId ev) = None
  | follower_wait_ends =>
      ∃ c, ev_data ev = Some (DataClusterId c) ∧ clusterIdOf st (entityId ev) = Some c
  | _ => True
  end.

(** Cluster names are those handed out so far. *)
Definition namesBelow (st : SimState) : Prop :=
  ∀ c cl, Js.mapGet c (clusters st) = Some cl →
    ∃ n, c = clusterName n ∧ (n < nextClusterId st)%N.

(** Member sets and recorded cluster ids agree. *)
Record Core (st : SimState) : Prop := mkCore {
  core_member_state : ∀ e c, memberOf st e c → clusterIdOf st e = Some c;
  core_state_member : ∀ e c, clusterIdOf st e = Some c → memberOf st e c;
  core_names : namesBelow st;
}.

(** The same for every entity but [x], which is in no member set: the
    state in the middle of a change of [x]'s cluster. *)
Record CoreExcept (x : string) (st : SimState) : Prop := mkCoreExcept {
  except_member_state : ∀ e c, memberOf st e c → e ≠ x ∧ clusterIdOf st e = Some c;
  except_state_member : ∀ e c, e ≠ x → clusterIdOf st e = Some c → memberOf st e c;
  except_names : namesBelow st;
}.

(** The invariant of the event loop. *)
Record Invariant (st : SimState) : Prop := mkInvariant {
  inv_core : Core st;
  inv_one_worker : NoDup (workerIds (eventQueue st));
  inv_expects : Forall (eventExpects st) (eventQueue st);
}.

(** The effect of processing an event of entity [x] in state [st]: the
    agreement holds again, only [x] may have changed cluster, and the
    events [new] were scheduled, at most one of them a worker event. *)
Record stepEffect (x : string) (st st' : SimState) (new : list Event) : Prop := mkEffect {
  eff_core : Core st';
  eff_frame : ∀ e, e ≠ x → clusterIdOf st' e = clusterIdOf st e;
  eff_queue : eventQueue st' ≡ₚ new ++ eventQueue st;
  eff_expects : Forall (eventExpects st') new;
  eff_workers : workerIds new = [] ∨ workerIds new = [x];
}.

(** Every entity whose id is a name that [Object.prototype] defines has
    a similarity list of its own, so that no lookup in [similarities]
    answers with an inherited member. *)
Definition listsOwned (data : SimulationData) : bool :=
  forallb (λ e, match similarities data !! id e with
                | Some _ => true
                | None => negb (Js.inherited (id e))
                end) (entities data).

(** A stretch of the queue that only makes entities of [ids] visible to
    the search. *)
Definition indexingOf (ids : list string) (q : list Event) : Prop :=
  Forall (λ ev, ev_type ev = entity_indexed ∧ entityId ev ∈ ids) q.

(** The weight of a pending event: the events it can still cause, itself
    included. *)
Definition eventWeight (ev : Event) : nat :=
  match ev_type ev with
  | entity_arrives => 5
  | entity_searches => 3
  | entity_rechecks => 2
  | _ => 1
  end.

Definition queueWeight (q : list Event) : nat :=
  foldr (λ ev w, (eventWeight ev + w)%nat) O q.

(** [sim.run(); sim.getResults()] *)
Definition results (config : SimConfig) (data : SimulationData)
    (localeCompare : string → string → Z) (fuel : nat) : Outcome Results :=
  match run config data localeCompare fuel with
  | Done st => Done (getResults config data st)
  | Threw msg => Threw msg
  | OutOfFuel => OutOfFuel
  end.

(** *** Example runs *)

(** Comparison by code units; on ids made of digits and capital letters
    it is the order of [localeCompare]. *)
Definition codeUnitCompare (a b : string) : Z :=
  match String.compare a b with Lt => -1 | Eq => 0 | Gt => 1 end.

Definition person (i : string) (layer : Z) : Entity := mkEntity i "person" i None layer.

Definition defaultConfig (sd : Z) : SimConfig :=
  mkConfig 5 5000 1000 10000 30000 90000 sd false.

(** A single entity at layer 0, without similarities. *)
Definition loneData : SimulationData := mkData "col" "now" [person "E1" 0] ∅.

(** Two entities of layer 0, each in the other's similarity list. *)
Definition pairData (a b : string) : SimulationData :=
  mkData "col" "now" [person a 0; person b 0]
    (list_to_map [(a, [mkSim b 900000]); (b, [mkSim a 900000])]).

(** The same pair, the first entity being of type [cluster_leader]. *)
Definition leaderTypedPair : SimulationData :=
  mkData "col" "now" [mkEntity "a" "cluster_leader" "a" None 0; person "b" 0]
    (list_to_map [("a", [mkSim "b" 900000]); ("b", [mkSim "a" 900000])]).

(** Indexing lags behind the follower wait: arrivals 50 ms apart, one
    million ms to be indexed, a follower wait of exactly 10 ms. *)
Definition lagConfig : SimConfig := mkConfig 5 100 1000000 10000 10 10 42 false.

(** Indexing lags, but both entities have arrived and created their
    clusters before the first follower wait, of exactly 100 ms, ends. *)
Definition slowIndexConfig : SimConfig := mkConfig 5 100 1000000 10000 100 100 42 false.

(** Two entities of layer 0 without similarity lists. *)
Definition strangers (a b : Entity) : SimulationData := mkData "col" "now" [a; b] ∅.

(** The same entity listed twice. *)
Definition twiceData : SimulationData :=
  mkData "col" "now" [person "E1" 0; person "E1" 0] ∅.

(** The order of [localeCompare] in a Czech locale on the two ids [CHA]
    and [CZA]: there CH is a letter of its own, which sorts after H and so
    after CZ; in an English locale [CHA] comes first, as by code units. *)
Definition czechCompare (a b : string) : Z :=
  if (String.eqb a "CHA" && String.eqb b "CZA")%bool then 1
  else if (String.eqb a "CZA" && String.eqb b "CHA")%bool then -1
  else codeUnitCompare a b.

(** Scenario 3 of the specification. *)
Definition scenario3 : SimConfig := mkConfig 5 100 1000 10000 30000 90000 42 false.

(** The state of scenario 3 on the pair when the first follower wait is
    about to end: both entities lead a solo cluster and are indexed. *)
Definition twoLeaders : SimState :=
  {| entityStates :=
       list_to_map [
         ("a", mkEntityState true true (Some "cluster_1") true true true (Some 0));
         ("b", mkEntityState true true (Some "cluster_2") true true true (Some 50)) ];
     clusters :=
       [ ("cluster_1", mkCluster "cluster_1" "a" ["a"] 0);
         ("cluster_2", mkCluster "cluster_2" "b" ["b"] 50) ];
     eventQueue :=
       [ mkEvent 61189 follower_wait_ends "a" (Some (DataClusterId "cluster_1"));
         mkEvent 84946 follower_wait_ends "b" (Some (DataClusterId "cluster_2")) ];
     currentTime := 1050;
     nextClusterId := 3;
     rngSeed := 1964818176 |}.

(** *** The queue, the flags and the clusters during a run *)

(** The order in which [sort] keeps the queue. *)
Definition byTime (a b : Event) : Prop := time a ≤ time b.

(** Entity [e] has a pending event of type [ty]. *)
Definition pending (q : list Event) (ty : EventType) (e : string) : Prop :=
  ∃ ev, ev ∈ q ∧ ev_type ev = ty ∧ entityId ev = e.

(** The entity states are those of the entities of the data, and so are
    the pending events. *)
Record Known (data : SimulationData) (st : SimState) : Prop := mkKnown {
  known_states : ∀ e, is_Some (entityStates st !! e) ↔ e ∈ id <$> entities data;
  known_events : Forall (λ ev, entityId ev ∈ id <$> entities data) (eventQueue st);
}.

(** [clusters] after [joinCluster(x, c)]. *)
Definition joined (x c : string) (cs : Js.Map ClusterState) : Js.Map ClusterState :=
  match Js.mapGet c cs with
  | Some cl => Js.mapSet c (set_members (Js.setAdd x (members cl)) cl) cs
  | None => cs
  end.

(** What the flags of entity [e] say about the events that are pending
    for it and about its cluster. *)
Record Tracked (st : SimState) (e : string) (s : EntityState) : Prop := mkTracked {
  tr_progress : clusterId s = None → e ∈ workerIds (eventQueue st);
  tr_arrived : arrived s = false → pending (eventQueue st) entity_arrives e;
  tr_indexed :
    indexed s = false →
    pending (eventQueue st) entity_arrives e ∨ pending (eventQueue st) entity_indexed e;
  tr_processing :
    processing s = true →
    pending (eventQueue st) entity_rechecks e ∨
    pending (eventQueue st) follower_wait_ends e;
  tr_waiting :
    waitingForFollowers s = true → pending (eventQueue st) follower_wait_ends e;
  tr_leader :
    isClusterLeader s = true →
    ∃ c cl, clusterId s = Some c ∧ Js.mapGet c (clusters st) = Some cl ∧ leaderId cl = e;
}.

(** A cluster of the map: filed under its id, its members distinct, its
    leader one of them and flagged as leader. *)
Record WellFormed (st : SimState) (c : string) (cl : ClusterState) : Prop := mkWellFormed {
  wf_id : c_id cl = c;
  wf_members : NoDup (members cl);
  wf_leader : leaderId cl ∈ members cl;
  wf_flag : ∃ s, entityStates st !! leaderId cl = Some s ∧ isClusterLeader s = true;
}.

(** The bookkeeping of the event loop, on top of [Invariant]. *)
Record Settled (data : SimulationData) (st : SimState) : Prop := mkSettled {
  se_invariant : Invariant st;
  se_known : Known data st;
  se_tracked : ∀ e s, entityStates st !! e = Some s → Tracked st e s;
  se_clusters : ∀ c cl, Js.mapGet c (clusters st) = Some cl → WellFormed st c cl;
  se_keys : NoDup (clusters st).*1;
}.

(** The queue after the events [new] were scheduled, one after the
    other. *)
Definition scheduleAll (new : list Event) (q : list Event) : list Event :=
  foldl (λ q ev, sortByTime (q ++ [ev])) q new.

(** The assignments of "create a cluster and wait for followers". *)
Definition created (c : string) (now : Z) (s : EntityState) : EntityState :=
  set_followerWaitStartTime (Some now)
    (set_waitingForFollowers true (set_isClusterLeader true (set_clusterId (Some c) s))).

(** The branches of [processEvent] on an event of entity [x]: what is
    assigned to the state of [x], the clusters afterwards, and the events
    scheduled, in the order of the calls. *)
Inductive Branch (config : SimConfig) (st : SimState) (ev : Event)
    : (EntityState → EntityState) → Js.Map ClusterState → list Event → Prop :=
| br_arrives :
    ev_type ev = entity_arrives →
    Branch config st ev (set_arrived true) (clusters st)
      [ mkEvent (Js.add (currentTime st) (indexDelayMs config)) entity_indexed
          (entityId ev) None;
        mkEvent (currentTime st) entity_searches (entityId ev) None ]
| br_indexed :
    ev_type ev = entity_indexed →
    Branch config st ev (set_indexed true) (clusters st) []
| br_idle :
    ev_type ev = entity_creates_cluster ∨ ev_type ev = entity_joins_cluster →
    Branch config st ev (λ s, s) (clusters st) []
| br_create pre :
    (ev_type ev = entity_searches ∧ pre = set_processing true) ∨
    (ev_type ev = entity_rechecks ∧ pre = (λ s, s)) →
    Branch config st ev
      (λ s, created (clusterName (nextClusterId st)) (currentTime st) (pre s))
      (Js.mapSet (clusterName (nextClusterId st))
         (mkCluster (clusterName (nextClusterId st)) (entityId ev) [entityId ev]
            (currentTime st))
         (clusters st))
      [ mkEvent
          (Js.add (currentTime st)
             (Js.add (followerWaitMinMs config)
                (randomBelow
                   (Js.sub (followerWaitMaxMs config) (followerWaitMinMs config))
                   (rngSeed st)).1))
          follower_wait_ends (entityId ev)
          (Some (DataClusterId (clusterName (nextClusterId st)))) ]
| br_join pre p c :
    (ev_type ev = entity_searches ∧ pre = set_processing true) ∨
    (ev_type ev = entity_rechecks ∧ pre = (λ s, s)) →
    clusterIdOf st p = Some c →
    Branch config st ev
      (λ s, set_processing false (set_clusterId (Some c) (pre s)))
      (joined (entityId ev) c (clusters st)) []
| br_recheck peers :
    ev_type ev = entity_searches →
    Branch config st ev (set_processing true) (clusters st)
      [ mkEvent (Js.add (currentTime st) (recheckDelayMs config)) entity_rechecks
          (entityId ev) (Some (DataPeers peers)) ]
| br_keep :
    ev_type ev = follower_wait_ends →
    Branch config st ev
      (λ s, set_processing false (set_waitingForFollowers false s)) (clusters st) []
| br_switch c c' p :
    ev_type ev = follower_wait_ends →
    clusterIdOf st (entityId ev) = Some c →
    membersOf st c = Some [entityId ev] →
    c' ≠ c → clusterIdOf st p = Some c' →
    Branch config st ev
      (λ s, set_isClusterLeader false
              (set_clusterId (Some c')
                 (set_processing false (set_waitingForFollowers false s))))
      (joined (entityId ev) c' (Js.mapDelete c (clusters st))) [].

(** Processing an event of [x] keeps the set of entity states and adds
    only events of [x] to the queue. *)
Record Frame (x : string) (st st' : SimState) : Prop := mkFrame {
  fr_states : ∀ e, is_Some (entityStates st' !! e) ↔ is_Some (entityStates st !! e);
  fr_events :
    ∃ new, eventQueue st' ≡ₚ new ++ eventQueue st ∧ Forall (λ ev, entityId ev = x) new;
  fr_sorted : Sorted byTime (eventQueue st) → Sorted byTime (eventQueue st');
}.

(** An integer that a double holds exactly: rounding leaves it as it
    is. *)
Definition representable (x : Z) : Prop := Js.toZ (Js.round53 x 0) = x.

(** No pending event is earlier than the clock, which is not negative;
    all the times are numbers the simulator can hold. *)
Record Timely (st : SimState) : Prop := mkTimely {
  ti_clock : 0 ≤ currentTime st;
  ti_exact : representable (currentTime st);
  ti_events :
    Forall (λ ev, currentTime st ≤ time ev ∧ representable (time ev)) (eventQueue st);
}.

(** The delays of a configuration are not negative and the range of the
    follower wait is not empty. *)
Definition forwardDelays (config : SimConfig) : Prop :=
  0 ≤ arrivalSpreadMs config ∧ 0 ≤ indexDelayMs config ∧ 0 ≤ recheckDelayMs config ∧
  0 ≤ followerWaitMinMs config ∧
  followerWaitMinMs config < followerWaitMaxMs config ∧
  followerWaitMaxMs config < 2 ^ 53.

(** The members of all the clusters of a report, cluster after cluster. *)
Definition reportedMembers (r : Results) : list string :=
  mjoin (s_members <$> r_clusters r).

End Sim.
(** ** JSON values *)
Module JsonValue.

(** A parsed JSON document; an object is the list of its entries in the
    order of [Object.entries] (array indices first, ascending, then the
    other keys as written), a number is kept as its literal. *)
Inductive Json :=
| JNull
| JBool (b : bool)
| JNumber (literal : string)
| JString (s : string)
| JArray (items : list Json)
| JObject (entries : list (string * Json)).

(** The own property [key] of an object, [None] when it has none. *)
Fixpoint getProperty {V} (key : string) (entries : list (string * V)) : option V :=
  match entries with
  | [] => None
  | (k, v) :: rest => if String.eqb k key then Some v else getProperty key rest
  end.

Definition owns {V} (key : string) (entries : list (string * V)) : bool :=
  existsb (λ kv, String.eqb kv.1 key) entries.

Definition digitOf (c : ascii) : option N :=
  let n := N_of_ascii c in
  if ((48 <=? n) && (n <=? 57))%N then Some (n - 48)%N else None.

Fixpoint decimal (s : string) (acc : N) : option N :=
  match s with
  | EmptyString => Some acc
  | String c rest =>
      match digitOf c with
      | Some d => decimal rest (10 * acc + d)%N
      | None => None
      end
  end.

(** A key is an array index when it is the canonical decimal numeral of
    an integer below [2^32 - 1]; such keys are listed first, in
    ascending order, by [Object.entries]. *)
Definition arrayIndex (key : string) : option N :=
  match key with
  | EmptyString => None
  | String "0" EmptyString => Some 0%N
  | String "0" _ => None
  | _ =>
      match decimal key 0 with
      | Some n => if (n <? 4294967295)%N then Some n else None
      | None => None
      end
  end.

Fixpoint replaceProperty {V} (key : string) (value : V) (entries : list (string * V))
    : list (string * V) :=
  match entries with
  | [] => []
  | (k, v) :: rest =>
      if String.eqb k key then (k, value) :: rest
      else (k, v) :: replaceProperty key value rest
  end.

(** A new array index goes before the first entry that is not a smaller
    array index. *)
Fixpoint insertIndexed {V} (n : N) (key : string) (value : V)
    (entries : list (string * V)) : list (string * V) :=
  match entries with
  | [] => [(key, value)]
  | (k, v) :: rest =>
      match arrayIndex k with
      | Some m =>
          if (m <? n)%N then (k, v) :: insertIndexed n key value rest
          else (key, value) :: (k, v) :: rest
      | None => (key, value) :: (k, v) :: rest
      end
  end.

(** [result[key] = value] where it writes an own data property: the
    entry is replaced where it is, or created at its place in the order of
    [Object.entries]. *)
Definition setProperty {V} (key : string) (value : V) (entries : list (string * V))
    : list (string * V) :=
  if owns key entries then replaceProperty key value entries
  else
    match arrayIndex key with
    | Some n => insertIndexed n key value entries
    | None => entries ++ [(key, value)]
    end.

End JsonValue.

(** ** Workflow registration (scripts/register.ts) *)
Module Register.
Import JsonValue.

(** The values [substituteEnvVars] returns: those of JSON, and what
    [process.env[name]] and [result.__proto__ = value] add to them.
    [VBuiltin name] is the function [Object.prototype[name]],
    [VObjectPrototype] is [Object.prototype] itself, and an object carries
    its prototype: [VObjectPrototype] for the [{}] of a literal, [VNull]
    for none. *)
Inductive Value :=
| VNull
| VBool (b : bool)
| VNumber (literal : string)
| VString (s : string)
| VArray (items : list Value)
| VObject (proto : Value) (entries : list (string * Value))
| VBuiltin (name : string)
| VObjectPrototype.

(** A JSON value as a value; the objects of [JSON.parse] have the
    prototype of a literal. *)
Fixpoint ofJson (j : Json) : Value :=
  match j with
  | JNull => VNull
  | JBool b => VBool b
  | JNumber n => VNumber n
  | JString s => VString s
  | JArray items => VArray (List.map ofJson items)
  | JObject entries =>
      VObject VObjectPrototype (List.map (λ kv, (kv.1, ofJson kv.2)) entries)
  end.

(** [s.startsWith('$')], with [s.slice(1)] when it does. *)
Definition afterDollar (s : string) : option string :=
  match s with
  | String "$"%char rest => Some rest
  | _ => None
  end.

Definition notSet (envVar : string) : string :=
  String.append "Environment variable " (String.append envVar " is not set").

(** [process.env[name]]: the value of the variable when it is set;
    otherwise the lookup goes on to [Object.prototype], and finds its
    member of that name when it has one. *)
Inductive EnvValue :=
| EnvString (value : string)
| EnvMember (name : string).

Definition lookupEnv (env : gmap string string) (name : string) : option EnvValue :=
  match env !! name with
  | Some value => Some (EnvString value)
  | None => if Js.inherited name then Some (EnvMember name) else None
  end.

(** The member [name] of [Object.prototype]: a built-in function, and
    for [__proto__] the prototype of [process.env]. *)
Definition memberValue (name : string) : Value :=
  if String.eqb name "__proto__" then VObjectPrototype else VBuiltin name.

(** The same as a property key; [constructor] is the function
    [Object]. *)
Definition memberText (name : string) : string :=
  if String.eqb name "__proto__" then "[object Object]"
  else
    String.append "function "
      (String.append (if String.eqb name "constructor" then "Object" else name)
         "() { [native code] }").

(** The key under which an entry is written:
    [key.startsWith('$') ? (process.env[key.slice(1)] ?? key) : key]. *)
Definition newKeyOf (env : gmap string string) (key : string) : string :=
  match afterDollar key with
  | Some envVar =>
      match lookupEnv env envVar with
      | Some (EnvString value) => value
      | Some (EnvMember name) => memberText name
      | None => key
      end
  | None => key
  end.

(** Where [result[key] = value] ends for a key that [result] does not
    own, by the prototype chain of [result]. *)
Inductive Assignment :=
| OwnProperty
| PrototypeSetter
| Refused.

(** At [Object.prototype]: [__proto__] is an accessor, every other
    member is writable. *)
Definition atObjectPrototype (key : string) : Assignment :=
  if String.eqb key "__proto__" then PrototypeSetter else OwnProperty.

(** [length], [name] and the [prototype] of [Object] are read-only
    properties of a function; [caller] and [arguments] are accessors of
    [Function.prototype] that throw. *)
Definition restricted (name key : string) : bool :=
  (String.eqb key "length" || String.eqb key "name" || String.eqb key "caller"
   || String.eqb key "arguments"
   || (String.eqb name "constructor" && String.eqb key "prototype"))%bool.

Fixpoint assignmentVia (proto : Value) (key : string) : Assignment :=
  match proto with
  | VNull => OwnProperty
  | VObject proto' entries =>
      if owns key entries then OwnProperty else assignmentVia proto' key
  | VBuiltin name => if restricted name key then Refused else atObjectPrototype key
  | _ => atObjectPrototype key
  end.

(** The message of the TypeError of a refused assignment, in module
    (strict) code. *)
Definition refusedMessage (key : string) : string :=
  if (String.eqb key "caller" || String.eqb key "arguments")%bool
  then "'caller', 'callee', and 'arguments' properties may not be accessed on strict mode functions or the arguments objects for calls to them"
  else
    String.append "Cannot assign to read only property '"
      (String.append key "' of object '#<Object>'").

(** [typeof value === 'object' || typeof value === 'function'], not
    [null]. *)
Definition isObject (value : Value) : bool :=
  match value with
  | VArray _ | VObject _ _ | VBuiltin _ | VObjectPrototype => true
  | _ => false
  end.

(** [result[key] = value] on an object given by its prototype and its
    entries.  The setter of [__proto__] changes the prototype to an
    object or to [null], and ignores every other value. *)
Definition assignProperty (key : string) (value : Value)
    (result : Value * list (string * Value)) : Outcome (Value * list (string * Value)) :=
  let '(proto, entries) := result in
  if owns key entries then Done (proto, replaceProperty key value entries)
  else
    match assignmentVia proto key with
    | OwnProperty => Done (proto, setProperty key value entries)
    | PrototypeSetter =>
        match value with
        | VNull => Done (VNull, entries)
        | _ => if isObject value then Done (value, entries) else Done (proto, entries)
        end
    | Refused => Threw (refusedMessage key)
    end.

Fixpoint substituteEnvVars (env : gmap string string) (obj : Json) : Outcome Value :=
  match obj with
  | JString s =>
      match afterDollar s with
      | Some envVar =>
          match lookupEnv env envVar with
          | Some (EnvString EmptyString) => Threw (notSet envVar)
          | Some (EnvString value) => Done (VString value)
          | Some (EnvMember name) => Done (memberValue name)
          | None => Threw (notSet envVar)
          end
      | None => Done (VString s)
      end
  | JArray items =>
      mapDone VArray ((fix mapItems (xs : list Json) : Outcome (list Value) :=
         match xs with
         | [] => Done []
         | x :: rest =>
             match substituteEnvVars env x with
             | Done x' =>
                 match mapItems rest with
                 | Done rest' => Done (x' :: rest')
                 | Threw msg => Threw msg
                 | OutOfFuel => OutOfFuel
                 end
             | Threw msg => Threw msg
             | OutOfFuel => OutOfFuel
             end
         end) items)
  | JObject entries =>
      mapDone (λ result, VObject result.1 result.2)
        ((fix eachEntry (es : list (string * Json)) (result : Value * list (string * Value))
           : Outcome (Value * list (string * Value)) :=
         match es with
         | [] => Done result
         | (key, value) :: rest =>
             match substituteEnvVars env value with
             | Done value' =>
                 match assignProperty (newKeyOf env key) value' result with
                 | Done result' => eachEntry rest result'
                 | Threw msg => Threw msg
                 | OutOfFuel => OutOfFuel
                 end
             | Threw msg => Threw msg
             | OutOfFuel => OutOfFuel
             end
         end) entries (VObjectPrototype, []))
  | JNull => Done VNull
  | JBool b => Done (VBool b)
  | JNumber n => Done (VNumber n)
  end.

Definition newline : string := String (ascii_of_nat 10) "".

(** The substitution step of [main]: what the three calls of
    [console.error] write and the exit code, or the configuration with
    which registration goes on. *)
Inductive Loaded :=
| Exit (code : Z) (stderr : list string)
| Config (config : Value).

Definition loadConfig (env : gmap string string) (rawWorkflow : Json) : Loaded :=
  match substituteEnvVars env rawWorkflow with
  | Done config => Config config
  | Threw message =>
      Exit 1 [ String.append newline (String.append "Error: " message);
               "Make sure all required environment variables are set.";
               "Required: SCATTER_KLADOS, KG_EXTRACTOR_KLADOS, KG_DEDUPE_RESOLVER_KLADOS, KG_CLUSTER_KLADOS, DESCRIBE_KLADOS" ]
  | OutOfFuel => Exit 1 []
  end.

(** Every string value of a document, keys not included. *)
Fixpoint stringValues (obj : Json) : list string :=
  match obj with
  | JString s => [s]
  | JArray items => flat_map stringValues items
  | JObject entries => flat_map (λ kv, stringValues kv.2) entries
  | _ => []
  end.

(** A string value that names an environment variable without a usable
    value: one that is set to the empty string, or that is not set and
    is not the name of a member of [Object.prototype]. *)
Definition missingIn (env : gmap string string) (s : string) : option string :=
  match afterDollar s with
  | Some envVar =>
      match lookupEnv env envVar with
      | Some (EnvString EmptyString) => Some envVar
      | Some _ => None
      | None => Some envVar
      end
  | None => None
  end.

(** The first such variable, in the order of the traversal. *)
Definition firstMissing (env : gmap string string) (obj : Json) : option string :=
  head (omap (missingIn env) (stringValues obj)).

(** The loops of [substituteEnvVars] over the items of an array and over
    the entries of an object, by name. *)
Definition mapItems (env : gmap string string) : list Json → Outcome (list Value) :=
  fix mapItems (xs : list Json) : Outcome (list Value) :=
    match xs with
    | [] => Done []
    | x :: rest =>
        match substituteEnvVars env x with
        | Done x' =>
            match mapItems rest with
            | Done rest' => Done (x' :: rest')
            | Threw msg => Threw msg
            | OutOfFuel => OutOfFuel
            end
        | Threw msg => Threw msg
        | OutOfFuel => OutOfFuel
        end
    end.

Definition eachEntry (env : gmap string string)
    : list (string * Json) → Value * list (string * Value)
      → Outcome (Value * list (string * Value)) :=
  fix eachEntry (es : list (string * Json)) (result : Value * list (string * Value))
      : Outcome (Value * list (string * Value)) :=
    match es with
    | [] => Done result
    | (key, value) :: rest =>
        match substituteEnvVars env value with
        | Done value' =>
            match assignProperty (newKeyOf env key) value' result with
            | Done result' => eachEntry rest result'
            | Threw msg => Threw msg
            | OutOfFuel => OutOfFuel
            end
        | Threw msg => Threw msg
        | OutOfFuel => OutOfFuel
        end
    end.



(** Every key of a document, at every depth. *)
Fixpoint keysOf (obj : Json) : list string :=
  match obj with
  | JArray items => flat_map keysOf items
  | JObject entries => flat_map (λ kv, kv.1 :: keysOf kv.2) entries
  | _ => []
  end.

(** [!s.startsWith('$')] *)
Definition noDollar (s : string) : bool :=
  match afterDollar s with
  | Some _ => false
  | None => true
  end.

(** [result[key] = value] writes a property of its own under every key
    but [__proto__], which names the prototype. *)
Definition writable (key : string) : bool := negb (String.eqb key "__proto__").


(** No object of the document lists a key twice, as in every value
    [JSON.parse] returns. *)
Fixpoint distinctKeys (obj : Json) : bool :=
  match obj with
  | JArray items => forallb distinctKeys items
  | JObject entries =>
      (bool_decide (NoDup entries.*1) && forallb (λ kv, distinctKeys kv.2) entries)%bool
  | _ => true
  end.

(** The keys of an object in the order of [Object.entries]: the array
    indices first, ascending, then the other keys. *)
Fixpoint inEntriesOrder (keys : list string) : bool :=
  match keys with
  | [] => true
  | key :: rest =>
      (match arrayIndex key with
       | Some n =>
           forallb (λ k, match arrayIndex k with
                         | Some m => (n <? m)%N
                         | None => true
                         end) rest
       | None => forallb (λ k, bool_decide (arrayIndex k = None)) rest
       end && inEntriesOrder rest)%bool
  end.

(** Every object of the document lists its entries in that order, as in
    every value [JSON.parse] returns. *)
Fixpoint entriesOrdered (obj : Json) : bool :=
  match obj with
  | JArray items => forallb entriesOrdered items
  | JObject entries =>
      (inEntriesOrder entries.*1 && forallb (λ kv, entriesOrdered kv.2) entries)%bool
  | _ => true
  end.

(** What the claim says of a string value: the value of the variable it
    names, and the string itself when it names none. *)
Definition valueFor (env : gmap string string) (s : string) : Value :=
  match afterDollar s with
  | Some envVar =>
      match lookupEnv env envVar with
      | Some (EnvString value) => VString value
      | Some (EnvMember name) => memberValue name
      | None => VString s
      end
  | None => VString s
  end.

(** The document with every string value replaced so, and everything
    else as it is. *)
Fixpoint replaced (env : gmap string string) (doc : Json) : Value :=
  match doc with
  | JNull => VNull
  | JBool b => VBool b
  | JNumber n => VNumber n
  | JString s => valueFor env s
  | JArray items => VArray (List.map (replaced env) items)
  | JObject entries =>
      VObject VObjectPrototype (List.map (λ kv, (kv.1, replaced env kv.2)) entries)
  end.

(** A definition without variables, and one whose keys collide after
    the substitution. *)
Definition plainWorkflow : Json :=
  JObject [
    ("label", JString "Scatter KG Recursive");
    ("version", JNumber "1");
    ("flow", JObject [
       ("scatter", JObject [("then", JArray [JString "extract"; JNull])]);
       ("extract", JObject [("done", JBool true)]) ]) ].

Definition collidingKeys : Json :=
  JObject [ ("$A", JString "first"); ("other", JString "kept"); ("x", JString "second") ].

(** Keys that become array indices, a key and a value that name a member
    of [Object.prototype], and an entry written under [__proto__]. *)
Definition indexKeys : Json :=
  JObject [ ("b", JString "first"); ("$TEN", JString "second"); ("$TWO", JString "third") ].

Definition memberNames : Json :=
  JObject [ ("$toString", JString "$constructor") ].

Definition prototypeKey : Json :=
  JObject [ ("__proto__", JObject [("label", JString "inherited")]);
            ("version", JString "1.0") ].

End Register.

(** ** The describe worker's JSON retry loop (tasks/todo.md,
    [callGeminiWithJsonRetry]) *)
Module Describe.
Import JsonValue.

(** Only [content] of a response is read. *)
Record GeminiResponse := mkResponse {
  content : string;
}.

(** [title] and [label] are copied from the parsed object as they are. *)
Record DescribeResult := mkResult {
  description : string;
  title : option Json;
  label : option Json;
}.

Definition JSON_PARSE_MAX_RETRIES : nat := 3.

Definition nl : string := String (ascii_of_nat 10) "".
Definition quote : string := String (ascii_of_nat 34) "".

Fixpoint concat (parts : list string) : string :=
  match parts with
  | [] => ""
  | p :: rest => String.append p (concat rest)
  end.

(** [s.slice(0, n)] *)
Definition slice0 (n : nat) (s : string) : string := String.substring 0 n s.

(** [part] occurs in [whole]. *)
Definition occursIn (part whole : string) : Prop :=
  ∃ before after, whole = String.append before (String.append part after).

(** The copy of the previous response put into the retry prompt. *)
Definition responseCopy (lastContent : string) : string := slice0 2000 lastContent.

Section retry.

(** The collaborators of the loop: [JSON.parse] ([inl] is the message of
    the SyntaxError it throws), the LLM call (which answers its [n]-th
    call as it pleases, [inl] when the request is rejected), and
    [config.update_label]. *)
Context (JSON_parse : string → string + Json).
Context (callGemini : nat → string → string → string → string + GeminiResponse).
Context (update_label : bool).

Definition missingDescription : string :=
  concat ["Missing or invalid "; quote; "description"; quote; " field"].

(** The body of the [try]: parse, then validate the required field;
    [inl] is the message of the error caught. *)
Definition parseResult (text : string) : string + DescribeResult :=
  match JSON_parse text with
  | inr (JObject entries) =>
      match getProperty "description" entries with
      | Some (JString d) =>
          inr {| description := d;
                 title := getProperty "title" entries;
                 label := getProperty "label" entries |}
      | _ => inl missingDescription
      end
  | inr JNull => inl "Cannot read properties of null (reading 'description')"
  | inr _ => inl missingDescription
  | inl message => inl message
  end.

Definition retrySection (lastError lastContent : string) : string :=
  concat [
    nl; nl; "## RETRY - JSON PARSE ERROR"; nl; nl;
    "Your previous response could not be parsed as valid JSON."; nl; nl;
    "**Error:** "; lastError; nl; nl;
    "**Your response was:**"; nl;
    "```"; nl;
    responseCopy lastContent;
    (if (2000 <? String.length lastContent)%nat then "...[truncated]" else "");
    nl; "```"; nl; nl;
    "Please provide a valid JSON response with the required fields: title, description";
    (if update_label then ", label" else ""); "." ].

(** [lastResponse && lastError]: both set, and the message not empty. *)
Definition effectivePrompt (userPrompt : string)
    (last : option (GeminiResponse * string)) : string :=
  match last with
  | Some (lastResponse, lastError) =>
      if String.eqb lastError "" then userPrompt
      else String.append userPrompt (retrySection lastError (content lastResponse))
  | None => userPrompt
  end.

Definition exhausted (last : option (GeminiResponse * string)) : string :=
  concat [
    "Failed to get valid JSON after "; pretty JSON_PARSE_MAX_RETRIES; " attempts. ";
    "Last error: "; from_option snd "null" last; ". ";
    "Last response preview: ";
    from_option (λ l, slice0 200 (content l.1)) "undefined" last; "..." ].

(** The [for] loop, [remaining] attempts from attempt number [attempt];
    [calls] are the user prompts sent so far.  The result is [inl] of
    the message of the error thrown, or [inr] of the value returned. *)
Fixpoint attempts (apiKey systemPrompt userPrompt : string)
    (remaining attempt : nat) (last : option (GeminiResponse * string))
    (calls : list string)
    : list string * (string + GeminiResponse * DescribeResult) :=
  match remaining with
  | O => (calls, inl (exhausted last))
  | S remaining' =>
      let effectiveUserPrompt := effectivePrompt userPrompt last in
      let calls := calls ++ [effectiveUserPrompt] in
      match callGemini attempt apiKey systemPrompt effectiveUserPrompt with
      | inr response =>
          match parseResult (content response) with
          | inr result => (calls, inr (response, result))
          | inl e =>
              attempts apiKey systemPrompt userPrompt remaining' (S attempt)
                (Some (response, e)) calls
          end
      | inl msg => (calls, inl msg)
      end
  end.

(** The prompts sent to the LLM, and the result or the error thrown. *)
Definition callGeminiWithJsonRetry (apiKey systemPrompt userPrompt : string)
    : list string * (string + GeminiResponse * DescribeResult) :=
  attempts apiKey systemPrompt userPrompt JSON_PARSE_MAX_RETRIES 0 None [].

(** The [n]-th call was answered by [response], which failed to parse
    with message [e]. *)
Definition failedAt (apiKey systemPrompt : string) (calls : list string)
    (n : nat) (response : GeminiResponse) (e : string) : Prop :=
  ∃ prompt, calls !! n = Some prompt ∧
    callGemini n apiKey systemPrompt prompt = inr response ∧
    parseResult (content response) = inl e.

(** Every call is answered, by a response that fails to parse or to
    validate. *)
Definition everyAttemptFails (apiKey systemPrompt : string) : Prop :=
  ∀ n prompt, ∃ response e,
    callGemini n apiKey systemPrompt prompt = inr response ∧
    parseResult (content response) = inl e.

End retry.

(** A parser and two LLMs to run the loop with: a response is valid when
    it is the text [ok]. *)
Definition toyParse (text : string) : string + Json :=
  if String.eqb text "ok" then inr (JObject [("description", JString "a cluster")])
  else inl "Unexpected token".

Definition alwaysMalformed (n : nat) (apiKey systemPrompt userPrompt : string)
    : string + GeminiResponse :=
  inr (mkResponse "not json").

Definition validAtThird (n : nat) (apiKey systemPrompt userPrompt : string)
    : string + GeminiResponse :=
  inr (mkResponse (if (n <? 2)%nat then "not json" else "ok")).

End Describe.
(** ** Facts about the workflow-tree observer *)
Module ObserverFacts.
Import Observer.

(** The loop of the code against the sum of the per-handoff
    contributions, for any running total. *)
Lemma handoffLoop_sum (hs : list Handoff) (total : Z) :
  handoffLoop total hs =
    match sum_contributions code_contribution hs with
    | Some s => total + s
    | None => UNKNOWN
    end.
Proof.
  revert total. induction hs as [|h rest IH]; intros total; simpl.
  - lia.
  - unfold code_contribution.
    destruct (String.eqb_spec (h_type h) "invoke") as [E|_].
    { rewrite E; simpl. rewrite IH.
      destruct (sum_contributions _ rest); [lia | done]. }
    destruct (String.eqb_spec (h_type h) "pass") as [E|_].
    { rewrite E; simpl. rewrite IH.
      destruct (sum_contributions _ rest); [lia | done]. }
    destruct (String.eqb_spec (h_type h) "gather") as [E|_].
    { rewrite E; simpl. rewrite IH.
      destruct (sum_contributions _ rest); [lia | done]. }
    simpl. destruct (String.eqb (h_type h) "scatter").
    + destruct (nonEmpty (outputs h)) as [outs|].
      { rewrite IH. destruct (sum_contributions _ rest); [lia | done]. }
      destruct (nonEmpty (invocations h)) as [invs|].
      { rewrite IH. destruct (sum_contributions _ rest); [lia | done]. }
      destruct (delegated h) as [[|]|]; try done;
        rewrite IH; destruct (sum_contributions _ rest); (lia || done).
    + rewrite IH. destruct (sum_contributions _ rest); [lia | done].
Qed.

(** C1, as stated, fails: on a scatter handoff whose [outputs] is present
    and empty the code counts one expected child, the reference
    definition of the specification counts [len(outputs) = 0]. *)
Lemma C1_empty_outputs_counterexample :
  getExpectedChildrenCount emptyScatterLog = 1 ∧
  spec_expected_children emptyScatterLog = 0 ∧
  ¬ (∀ log, getExpectedChildrenCount log = spec_expected_children log).
Proof.
  split; [reflexivity|]. split; [reflexivity|].
  intros H. specialize (H emptyScatterLog). vm_compute in H. discriminate.
Qed.

(** C1, amended: for every log the code's expected-children count is the
    first [numCopies] carried by a message, if any; otherwise the sum over
    the handoffs of +1 for invoke, pass and gather, and for a scatter
    +len(outputs) when outputs is present and not empty, else
    +len(invocations) when invocations is present and not empty, else
    UNKNOWN (-1, ending the iteration) when delegated, else +1. *)
Theorem C1_expected_children_amended (log : LogEntry) :
  getExpectedChildrenCount log = amended_expected_children log.
Proof.
  unfold getExpectedChildrenCount, amended_expected_children, expected_children.
  destruct (messagesNumCopies _); [done|].
  destruct (default [] (handoffs log)) as [|h rest] eqn:E; [done|].
  change (length (h :: rest) =? 0)%nat with false. cbv iota.
  rewrite handoffLoop_sum.
  destruct (sum_contributions _ _); simpl; [lia | done].
Qed.

(** The two definitions part only on arrays that are present and empty:
    on logs without such a scatter the code agrees with the specification's
    reference definition as written. *)
Lemma contribution_agree (h : Handoff) :
  outputs h ≠ Some [] → invocations h ≠ Some [] →
  code_contribution h = spec_contribution h.
Proof.
  intros Ho Hi. unfold code_contribution, spec_contribution.
  destruct (outputs h) as [[|]|], (invocations h) as [[|]|]; done.
Qed.

(** *** Induction over trees *)

Lemma TreeNode_induction (P : TreeNode → Prop) :
  (∀ i s k e a kids tm lf p, Forall P kids → P (mkNode i s k e a kids tm lf p)) →
  ∀ t, P t.
Proof.
  intros step. fix self 1. intros [i s k e a kids tm lf p].
  apply step. induction kids as [|c kids IH]; constructor; [apply self | exact IH].
Qed.

Lemma nodes_unfold (t : TreeNode) :
  nodes t = t :: flat_map nodes (children t).
Proof. by destruct t. Qed.

Lemma elem_of_flat_map {A B} (f : A → list B) (l : list A) (y : B) :
  y ∈ flat_map f l ↔ ∃ x, x ∈ l ∧ y ∈ f x.
Proof.
  rewrite list_elem_of_In, in_flat_map.
  split; intros (x & Hx & Hy); exists x.
  - by rewrite !list_elem_of_In.
  - by rewrite <- !list_elem_of_In.
Qed.

Lemma elem_of_nodes (t n : TreeNode) :
  n ∈ nodes t ↔ n = t ∨ ∃ c, c ∈ children t ∧ n ∈ nodes c.
Proof.
  rewrite nodes_unfold, elem_of_cons, elem_of_flat_map. done.
Qed.

Lemma nodes_self (t : TreeNode) : t ∈ nodes t.
Proof. apply elem_of_nodes. by left. Qed.

(** *** [collectLeaves] and [checkAllChildrenDiscovered], unfolded *)

Lemma collectLeaves_unfold (t : TreeNode) :
  collectLeaves t =
    match children t with
    | [] => [t]
    | _ => flat_map collectLeaves (children t)
    end.
Proof. by destruct t. Qed.

Lemma elem_of_collectLeaves (t l : TreeNode) :
  l ∈ collectLeaves t ↔ l ∈ nodes t ∧ leafNode l.
Proof.
  revert l. induction t as [i s k e a kids tm lf p IH] using TreeNode_induction.
  intros l. rewrite collectLeaves_unfold, elem_of_nodes. simpl.
  destruct kids as [|c kids].
  - rewrite list_elem_of_singleton. split.
    + intros ->. split; [by left | done].
    + intros [[->|(c & Hc & _)] _]; [done | by apply elem_of_nil in Hc].
  - rewrite elem_of_flat_map. split.
    + intros (x & Hx & Hl).
      rewrite Forall_forall in IH. apply IH in Hl; [|done].
      destruct Hl as [Hl Hleaf]. split; [right; eauto | done].
    + intros [[->|(x & Hx & Hl)] Hleaf]; [done|].
      exists x. split; [done|].
      rewrite Forall_forall in IH. by apply IH.
Qed.

Lemma allLeavesTerminal_iff (root : TreeNode) :
  forallb isTerminal (collectLeaves root) = true ↔ leavesTerminal root.
Proof.
  rewrite forallb_forall. unfold leavesTerminal. split.
  - intros H l Hl Hleaf. apply H, list_elem_of_In, elem_of_collectLeaves. by split.
  - intros H l Hl. apply list_elem_of_In, elem_of_collectLeaves in Hl as [??]. auto.
Qed.

Lemma checkAll_unfold (t : TreeNode) :
  checkAllChildrenDiscovered t =
    if negb (isTerminal t) then CheckOk
    else if expectedChildren t <? 0 then CheckFailed ExpectedIsMinusOne (n_id t)
    else if Z.of_nat (length (children t)) <? expectedChildren t
    then CheckFailed (TooFewChildren (length (children t)) (expectedChildren t)) (n_id t)
    else checkChildren (children t).
Proof. by destruct t. Qed.

Lemma checkChildren_ok (cs : list TreeNode) :
  ok (checkChildren cs) = true ↔
  ∀ c, c ∈ cs → ok (checkAllChildrenDiscovered c) = true.
Proof.
  induction cs as [|c cs IH]; simpl.
  - split; [|done]. intros _ c Hc. by apply elem_of_nil in Hc.
  - destruct (checkAllChildrenDiscovered c) eqn:E.
    + rewrite IH. split.
      * intros H x [->|Hx]%elem_of_cons; [by rewrite E | auto].
      * intros H x Hx. apply H. by right.
    + simpl. split; [done|]. intros H.
      specialize (H c (list_elem_of_here _ _)). by rewrite E in H.
Qed.

Lemma checkAll_ok (t : TreeNode) :
  ok (checkAllChildrenDiscovered t) = true ↔
  (isTerminal t = true →
     childrenDiscovered t ∧
     ∀ c, c ∈ children t → ok (checkAllChildrenDiscovered c) = true).
Proof.
  rewrite checkAll_unfold. unfold childrenDiscovered.
  destruct (isTerminal t); simpl; [|by split].
  destruct (Z.ltb_spec (expectedChildren t) 0) as [Hneg|Hpos].
  { simpl. split; [done|]. intros [[??] _]; [done | lia]. }
  destruct (Z.ltb_spec (Z.of_nat (length (children t))) (expectedChildren t)) as [Hfew|Hall].
  { simpl. split; [done|]. intros [[??] _]; [done | lia]. }
  rewrite checkChildren_ok. split; [intros Hk _; split; [lia | done] | intros Hk; by apply Hk].
Qed.

(** *** The nodes the check reaches *)

Lemma checked_below (root c n : TreeNode) :
  isTerminal root = true → c ∈ children root → checked c n → checked root n.
Proof.
  intros Ht Hc H. induction H as [|parent child _ IH Hp Hch].
  - by apply (checked_child root root c); [constructor | |].
  - by apply (checked_child root parent child).
Qed.

Lemma checked_inv (root n : TreeNode) :
  checked root n →
  n = root ∨ (isTerminal root = true ∧ ∃ c, c ∈ children root ∧ checked c n).
Proof.
  induction 1 as [|parent child _ IH Hp Hch]; [by left|].
  right. destruct IH as [->|(Ht & c & Hc & Hcp)].
  - split; [done|]. exists child. split; [done | constructor].
  - split; [done|]. exists c. split; [done|].
    by apply (checked_child c parent child).
Qed.

Lemma checked_in_nodes (root n : TreeNode) : checked root n → n ∈ nodes root.
Proof.
  revert n. induction root as [i s k e a kids tm lf p IH] using TreeNode_induction.
  intros n [->|(_ & c & Hc & Hn)]%checked_inv; [apply nodes_self|].
  apply elem_of_nodes. right. exists c. split; [done|].
  rewrite Forall_forall in IH. by apply IH.
Qed.

Lemma checkAll_checked (root : TreeNode) :
  ok (checkAllChildrenDiscovered root) = true ↔
  ∀ n, checked root n → isTerminal n = true → childrenDiscovered n.
Proof.
  induction root as [i s k e a kids tm lf p IH] using TreeNode_induction.
  rewrite Forall_forall in IH.
  rewrite checkAll_ok. simpl. split.
  - intros H n [->|(Ht & c & Hc & Hn)]%checked_inv Hterm.
    + by apply H.
    + simpl in *. destruct (H Ht) as [_ Hkids].
      apply (IH c); [done | by apply Hkids | done | done].
  - intros H Ht. split; [apply H; [constructor | done]|].
    intros c Hc. apply IH; [done|].
    intros n Hn. apply H. by apply (checked_below _ c).
Qed.

(** C2, as stated, fails: under a running root the terminal log [A] lacks
    one of its two expected children, and the observer reports the tree
    complete. *)
Lemma C2_running_root_counterexample :
  builtTree runningRootStore "root" = Some runningRootTree ∧
  observe (enoughFuel runningRootStore) runningRootStore "job" = Done (Some true) ∧
  isComplete runningRootTree = true ∧
  ¬ specComplete runningRootTree.
Proof.
  split; [vm_compute; reflexivity|].
  split; [vm_compute; reflexivity|].
  split; [vm_compute; reflexivity|].
  intros [_ Hb].
  pose (A := mkNode "A" "done" "stage" 2 1
               [ mkNode "B" "done" "stage" 0 0 [] true true None ]
               true false (Some (MISSING_CHILDREN 2 1))).
  assert (childrenDiscovered A) as [_ HA].
  { apply Hb; [|reflexivity]. apply elem_of_nodes. right. exists A.
    split; [apply list_elem_of_here | apply nodes_self]. }
  simpl in HA. lia.
Qed.

(** C2, amended: the observer reports isComplete = true if and only if
    (a) every leaf of the tree is terminal and (b) every terminal log that
    is reached from the root through terminal logs only has a non-negative
    expected-children count (so not UNKNOWN = -1) and at least that many
    children in the tree; logs below a running log are not examined. *)
Theorem C2_isComplete_amended (root : TreeNode) :
  isComplete root = true ↔ codeComplete root.
Proof.
  unfold isComplete, codeComplete.
  rewrite andb_true_iff, allLeavesTerminal_iff, checkAll_checked. done.
Qed.

Lemma node_ids_unfold (t : TreeNode) :
  node_ids t = n_id t :: flat_map node_ids (children t).
Proof.
  unfold node_ids at 1. rewrite nodes_unfold. simpl. f_equal.
  induction (children t) as [|c cs IH]; [done|].
  simpl flat_map. rewrite fmap_app. by f_equal.
Qed.

Section build.
Context (store : gmap string LogEntry).

Lemma grows_nil v : grows store v [] v.
Proof.
  split; [set_solver|]. split; [constructor|]. intros x Hx. by apply elem_of_nil in Hx.
Qed.

Lemma grows_app v ids1 v1 ids2 v2 :
  grows store v ids1 v1 → grows store v1 ids2 v2 → grows store v (ids1 ++ ids2) v2.
Proof.
  intros (-> & Hnd1 & H1) (-> & Hnd2 & H2). split; [|split].
  - rewrite list_to_set_app_L. set_solver.
  - apply NoDup_app. split; [done|]. split; [|done].
    intros x Hx1 Hx2. apply H2 in Hx2 as [Hx2 _]. set_solver.
  - intros x [Hx|Hx]%elem_of_app; [by apply H1|].
    apply H2 in Hx as [Hx ?]. split; [set_solver | done].
Qed.

Lemma buildChildren_grows rec :
  (∀ i v ot v', rec i v = Done (ot, v') → grows store v (opt_ids ot) v') →
  ∀ rels v acc kids v' v0,
    buildChildren rec rels v acc = Done (kids, v') →
    grows store v0 (flat_map node_ids acc) v →
    grows store v0 (flat_map node_ids kids) v'.
Proof.
  intros Hrec. induction rels as [|rel rels IH]; intros v acc kids v' v0; simpl.
  - intros [= <- <-]. done.
  - destruct (rec (peer rel) v) as [[[child|] v1]| |] eqn:E; try done.
    + intros Hb Hacc. apply (IH _ _ _ _ _ Hb).
      rewrite flat_map_app. simpl. rewrite app_nil_r.
      apply (grows_app _ _ v); [done|]. exact (Hrec _ _ (Some child) _ E).
    + intros Hb Hacc. apply (IH _ _ _ _ _ Hb).
      apply Hrec in E. destruct E as (-> & _ & _). simpl.
      rewrite (left_id_L ∅ (∪)). exact Hacc.
Qed.

Lemma buildTreeNode_grows fuel :
  ∀ logId v ot v',
    buildTreeNode fuel store logId v = Done (ot, v') → grows store v (opt_ids ot) v'.
Proof.
  induction fuel as [|fuel IH]; intros logId v ot v'; simpl; [done|].
  destruct (decide (logId ∈ v)) as [Hin|Hout].
  { intros [= <- <-]. apply grows_nil. }
  unfold fetchEntity. destruct (store !! logId) as [log|] eqn:Hlog; [|done].
  destruct (buildChildren _ _ _ _) as [[kids v1]| |] eqn:Hkids; try done.
  intros [= <- <-]. simpl. rewrite node_ids_unfold. simpl.
  apply (buildChildren_grows _ IH _ _ _ _ _ ({[logId]} ∪ v)) in Hkids; [|apply grows_nil].
  destruct Hkids as (-> & Hnd & Hk). split; [|split].
  - set_solver.
  - constructor; [|done]. intros Hx. apply Hk in Hx as [Hx _]. set_solver.
  - intros x [->|Hx]%elem_of_cons.
    + split; [done|]. apply elem_of_dom. eauto.
    + apply Hk in Hx as [Hx ?]. split; [set_solver | done].
Qed.

(** **** Termination: the unvisited part of the store pays for the calls *)

Lemma unvisited_mono (v v' : gset string) : v ⊆ v' → (unvisited store v' ≤ unvisited store v)%nat.
Proof. intros Hv. unfold unvisited. apply subseteq_size. set_solver. Qed.

Lemma unvisited_visit (logId : string) (v : gset string) :
  logId ∈ dom store → logId ∉ v →
  (unvisited store ({[logId]} ∪ v) < unvisited store v)%nat.
Proof.
  intros Hd Hv. unfold unvisited. apply subset_size. split; [set_solver|].
  intros Hsub. assert (logId ∈ dom store ∖ ({[logId]} ∪ v)) by set_solver.
  set_solver.
Qed.

Lemma buildChildren_terminates rec (bound : gset string) :
  (∀ i v ot v', rec i v = Done (ot, v') → v ⊆ v') →
  (∀ i v, bound ⊆ v → rec i v ≠ OutOfFuel) →
  ∀ rels v acc, bound ⊆ v → buildChildren rec rels v acc ≠ OutOfFuel.
Proof.
  intros Hmono Hterm. induction rels as [|rel rels IH]; intros v acc Hv; simpl; [done|].
  destruct (rec (peer rel) v) as [[[child|] v1]| |] eqn:E; try done.
  - apply IH. apply Hmono in E. set_solver.
  - apply IH. apply Hmono in E. set_solver.
  - by apply Hterm in E.
Qed.

Lemma buildTreeNode_visited_mono fuel logId v ot v' :
  buildTreeNode fuel store logId v = Done (ot, v') → v ⊆ v'.
Proof. intros (-> & _)%buildTreeNode_grows. set_solver. Qed.

Lemma buildTreeNode_terminates fuel :
  ∀ logId v, (unvisited store v < fuel)%nat → buildTreeNode fuel store logId v ≠ OutOfFuel.
Proof.
  induction fuel as [|fuel IH]; intros logId v Hfuel; [lia|]. simpl.
  destruct (decide (logId ∈ v)) as [Hin|Hout]; [done|].
  unfold fetchEntity. destruct (store !! logId) as [log|] eqn:Hlog; [|done].
  assert (logId ∈ dom store) as Hd by (apply elem_of_dom; eauto).
  pose proof (unvisited_visit _ _ Hd Hout) as Hlt.
  pose proof (buildChildren_terminates (buildTreeNode fuel store) ({[logId]} ∪ v)
                (buildTreeNode_visited_mono fuel)) as Hkids.
  destruct (buildChildren _ _ _ _) as [[kids v1]| |] eqn:E; try done.
  exfalso. revert E. apply Hkids; [|done].
  intros i w Hw. apply IH. pose proof (unvisited_mono _ _ Hw). lia.
Qed.

(** **** More fuel does not change a result *)

Lemma buildChildren_agree rec1 rec2 :
  (∀ i v, rec1 i v ≠ OutOfFuel → rec2 i v = rec1 i v) →
  ∀ rels v acc,
    buildChildren rec1 rels v acc ≠ OutOfFuel →
    buildChildren rec2 rels v acc = buildChildren rec1 rels v acc.
Proof.
  intros Hrec. induction rels as [|rel rels IH]; intros v acc; simpl; [done|].
  destruct (rec1 (peer rel) v) as [[[child|] v1]| |] eqn:E; intros Hne;
    try (rewrite Hrec, E by (rewrite E; done)); try done; by apply IH.
Qed.

Lemma buildTreeNode_fuel_S fuel :
  ∀ logId v,
    buildTreeNode fuel store logId v ≠ OutOfFuel →
    buildTreeNode (S fuel) store logId v = buildTreeNode fuel store logId v.
Proof.
  induction fuel as [|fuel IH]; intros logId v; [done|].
  change (buildTreeNode (S (S fuel)) store logId v) with
    (if decide (logId ∈ v) then Done (None, v)
     else match fetchEntity store logId with
          | None => Threw "TypeError"
          | Some log =>
              match buildChildren (buildTreeNode (S fuel) store) (sentToOf log)
                      ({[logId]} ∪ v) [] with
              | Done (kids, visited') =>
                  Done (Some {| n_id := logId; n_status := status log;
                                kladosId := klados_id log;
                                expectedChildren := getExpectedChildrenCount log;
                                actualChildren := length (sentToOf log);
                                children := kids;
                                isTerminal := statusTerminal (status log);
                                isLeaf := (String.eqb (status log) "error" ||
                                           (statusTerminal (status log) &&
                                            (getExpectedChildrenCount log =? 0)))%bool;
                                problem := detectProblem log (getExpectedChildrenCount log)
                                             (length (sentToOf log)) |},
                        visited')
              | Threw msg => Threw msg
              | OutOfFuel => OutOfFuel
              end
          end).
  simpl. destruct (decide (logId ∈ v)); [done|].
  destruct (fetchEntity store logId) as [log|]; [|done].
  intros Hne.
  rewrite (buildChildren_agree (buildTreeNode fuel store) (buildTreeNode (S fuel) store) IH);
    [done|].
  by destruct (buildChildren (buildTreeNode fuel store) _ _ _).
Qed.

Lemma buildTreeNode_fuel_le fuel fuel' logId v :
  (fuel ≤ fuel')%nat →
  buildTreeNode fuel store logId v ≠ OutOfFuel →
  buildTreeNode fuel' store logId v = buildTreeNode fuel store logId v.
Proof.
  induction 1 as [|fuel' Hle IH]; [done|]. intros Hne.
  rewrite buildTreeNode_fuel_S; rewrite IH; done.
Qed.

Lemma enoughFuel_unvisited : (unvisited store ∅ < enoughFuel store)%nat.
Proof.
  unfold unvisited, enoughFuel.
  replace (dom store ∖ ∅) with (dom store) by set_solver.
  rewrite size_dom. lia.
Qed.

Lemma buildTreeNode_enough fuel logId :
  (enoughFuel store ≤ fuel)%nat →
  buildTreeNode fuel store logId ∅ = buildTreeNode (enoughFuel store) store logId ∅ ∧
  buildTreeNode (enoughFuel store) store logId ∅ ≠ OutOfFuel.
Proof.
  intros Hle.
  pose proof (buildTreeNode_terminates _ logId ∅ enoughFuel_unvisited) as Hne.
  split; [by apply buildTreeNode_fuel_le | done].
Qed.

End build.

(** *** Each log has at most one parent in the tree *)

Lemma parentsOf_unfold (x : string) (t : TreeNode) :
  parentsOf x t =
    (if decide (x ∈ n_id <$> children t) then [t] else [])
      ++ flat_map (parentsOf x) (children t).
Proof.
  unfold parentsOf at 1. rewrite nodes_unfold, filter_cons.
  assert (filter (λ p, x ∈ n_id <$> children p) (flat_map nodes (children t))
          = flat_map (parentsOf x) (children t)) as ->.
  { induction (children t) as [|c cs IH]; [done|].
    simpl flat_map. rewrite filter_app. by f_equal. }
  by destruct (decide _).
Qed.

Lemma node_ids_self (t : TreeNode) : n_id t ∈ node_ids t.
Proof. rewrite node_ids_unfold. by left. Qed.

Lemma child_ids_below (t : TreeNode) (x : string) :
  x ∈ n_id <$> children t → x ∈ flat_map node_ids (children t).
Proof.
  intros (c & -> & Hc)%list_elem_of_fmap.
  apply elem_of_flat_map. exists c. split; [done | apply node_ids_self].
Qed.

Lemma parentsOf_none (x : string) (t : TreeNode) :
  x ∉ flat_map node_ids (children t) → parentsOf x t = [].
Proof.
  induction t as [i s k e a kids tm lf p IH] using TreeNode_induction.
  rewrite Forall_forall in IH. simpl. intros Hx.
  rewrite parentsOf_unfold. simpl.
  destruct (decide _) as [Hin|_]; [by apply (child_ids_below (mkNode i s k e a kids tm lf p)) in Hin|].
  simpl. induction kids as [|c cs IHcs]; [done|]. simpl.
  rewrite IH, IHcs; [done | | | by left |].
  - intros c' Hc'. apply IH. by right.
  - intros Hx'. apply Hx. simpl. apply elem_of_app. by right.
  - intros Hx'. apply Hx. simpl. apply elem_of_app. left.
    rewrite node_ids_unfold. by right.
Qed.

Lemma parentsOf_children (x : string) (cs : list TreeNode) :
  NoDup (flat_map node_ids cs) →
  (∀ c, c ∈ cs → NoDup (node_ids c) → (length (parentsOf x c) ≤ 1)%nat) →
  (length (flat_map (parentsOf x) cs) ≤ 1)%nat ∧
  (x ∈ n_id <$> cs → flat_map (parentsOf x) cs = []).
Proof.
  induction cs as [|c cs IH]; simpl; [by split; [lia|]|].
  intros (Hc & Hdisj & Hcs)%NoDup_app Hlen.
  destruct IH as [IHlen IHnone]; [done | intros c' Hc'; apply Hlen; by right |].
  assert (x ∈ node_ids c → flat_map (parentsOf x) cs = []) as Hrest.
  { intros Hx. clear -Hx Hdisj. induction cs as [|c' cs IH]; [done|]. simpl in *.
    rewrite parentsOf_none, IH; [done | |].
    - intros y Hy Hy'. apply (Hdisj y Hy), elem_of_app. by right.
    - intros Hx'. apply (Hdisj x Hx), elem_of_app. left.
      rewrite node_ids_unfold. by right. }
  split.
  - rewrite length_app.
    destruct (decide (x ∈ flat_map node_ids (children c))) as [Hin|Hout].
    + rewrite Hrest; [|rewrite node_ids_unfold; by right].
      simpl. pose proof (Hlen c ltac:(by left) Hc). lia.
    + rewrite parentsOf_none by done. simpl. lia.
  - intros [->|Hx]%elem_of_cons.
    + rewrite Hrest by apply node_ids_self.
      rewrite parentsOf_none; [done|].
      rewrite node_ids_unfold in Hc. by apply NoDup_cons in Hc as [? _].
    + rewrite IHnone by done. rewrite parentsOf_none; [done|].
      intros Hx'. apply (Hdisj x); [rewrite node_ids_unfold; by right|].
      apply elem_of_flat_map.
      apply list_elem_of_fmap in Hx as (c' & -> & Hc').
      exists c'. split; [done | apply node_ids_self].
Qed.

Lemma parentsOf_at_most_one (x : string) (t : TreeNode) :
  NoDup (node_ids t) → (length (parentsOf x t) ≤ 1)%nat.
Proof.
  induction t as [i s k e a kids tm lf p IH] using TreeNode_induction.
  rewrite Forall_forall in IH.
  rewrite node_ids_unfold, parentsOf_unfold. simpl.
  intros [_ Hkids]%NoDup_cons.
  destruct (parentsOf_children x kids Hkids) as [Hlen Hnone]; [by intros; apply IH|].
  rewrite length_app. destruct (decide _) as [Hin|_]; simpl; [|lia].
  rewrite Hnone by done. simpl. lia.
Qed.

(** *** Every node reflects its log *)

Section reflects.
Context (store : gmap string LogEntry).

Lemma buildChildren_reflects rec :
  (∀ i v c v', rec i v = Done (Some c, v') →
     n_id c = i ∧ Forall (reflects store) (nodes c)) →
  ∀ rels v acc kids v',
    buildChildren rec rels v acc = Done (kids, v') →
    ∃ new, kids = acc ++ new ∧
      (n_id <$> new) `sublist_of` (peer <$> rels) ∧
      Forall (reflects store) (flat_map nodes new).
Proof.
  intros Hrec. induction rels as [|rel rels IH]; intros v acc kids v'; simpl.
  - intros [= <- <-]. exists []. by rewrite app_nil_r.
  - destruct (rec (peer rel) v) as [[[child|] v1]| |] eqn:E; try done.
    + intros (new & -> & Hsub & Hall)%IH.
      apply Hrec in E as [Hid Hchild].
      exists (child :: new). rewrite <- app_assoc. split; [done|]. split.
      * simpl. rewrite Hid. by constructor.
      * simpl. by apply Forall_app.
    + intros (new & -> & Hsub & Hall)%IH.
      exists new. split; [done|]. split; [by constructor | done].
Qed.

Lemma buildTreeNode_reflects fuel :
  ∀ logId v root v',
    buildTreeNode fuel store logId v = Done (Some root, v') →
    n_id root = logId ∧ Forall (reflects store) (nodes root).
Proof.
  induction fuel as [|fuel IH]; intros logId v root v'; simpl; [done|].
  destruct (decide (logId ∈ v)); [done|].
  unfold fetchEntity. destruct (store !! logId) as [log|] eqn:Hlog; [|done].
  destruct (buildChildren _ _ _ _) as [[kids v1]| |] eqn:Hkids; try done.
  intros [= <- <-]. split; [done|].
  apply (buildChildren_reflects _ IH) in Hkids as (new & -> & Hsub & Hall).
  simpl. constructor; [|done].
  exists log. simpl. done.
Qed.
End reflects.

(** *** Examples: a fan-in and a cycle *)

(** The fan-in log [G] of the diamond is attached under [A], the first
    parent reached; [B] sent to one log and expects one child but has
    none in the tree, and the observer reports the tree incomplete. *)
Lemma diamond_first_parent_only :
  builtTree diamondStore "root" = Some diamondTree ∧
  n_id <$> parentsOf "G" diamondTree = ["A"] ∧
  observe (enoughFuel diamondStore) diamondStore "job" = Done (Some false).
Proof. repeat split; vm_compute; reflexivity. Qed.

(** A cycle is cut at the log already visited. *)
Lemma cycle_is_cut :
  node_ids <$> builtTree cycleStore "root" = Some ["root"; "A"].
Proof. vm_compute; reflexivity. Qed.

(** *** The observer with more fuel *)

Lemma observe_enough (store : gmap string LogEntry) (job : string) (fuel : nat) :
  (enoughFuel store ≤ fuel)%nat →
  observe fuel store job = observe (enoughFuel store) store job ∧
  observe (enoughFuel store) store job ≠ OutOfFuel.
Proof.
  intros Hfuel. unfold observe.
  destruct (List.find _ _) as [rel|]; [|done].
  destruct (buildTreeNode_enough store fuel (peer rel) Hfuel) as [-> Hne].
  split; [done|].
  by destruct (buildTreeNode (enoughFuel store) store (peer rel) ∅) as [[[?|] ?]| |].
Qed.

End ObserverFacts.
(** ** Facts about JavaScript containers *)
Module JsFacts.
Import Js.

Lemma mapGet_mapSet_eq {V} (k : string) (v : V) (m : Map V) :
  mapGet k (mapSet k v m) = Some v.
Proof.
  induction m as [|[k' v'] m IH]; simpl.
  - by rewrite String.eqb_refl.
  - destruct (String.eqb k' k) eqn:E; simpl; rewrite E; [done | exact IH].
Qed.

Lemma mapGet_mapSet_ne {V} (k k' : string) (v : V) (m : Map V) :
  k ≠ k' → mapGet k' (mapSet k v m) = mapGet k' m.
Proof.
  intros Hne. induction m as [|[k0 v0] m IH]; simpl.
  - by apply String.eqb_neq in Hne as ->.
  - destruct (String.eqb_spec k0 k) as [->|Hk]; simpl.
    + by apply String.eqb_neq in Hne as ->.
    + by rewrite IH.
Qed.

Lemma mapGet_mapDelete_eq {V} (k : string) (m : Map V) :
  mapGet k (mapDelete k m) = None.
Proof.
  unfold mapDelete. induction m as [|[k' v'] m IH]; [done|].
  rewrite filter_cons. simpl. destruct (decide (k' ≠ k)) as [Hne|Heq]; [|done].
  simpl. by apply String.eqb_neq in Hne as ->.
Qed.

Lemma mapGet_mapDelete_ne {V} (k k' : string) (m : Map V) :
  k ≠ k' → mapGet k' (mapDelete k m) = mapGet k' m.
Proof.
  intros Hne. unfold mapDelete. induction m as [|[k0 v0] m IH]; [done|].
  rewrite filter_cons. simpl. destruct (decide (k0 ≠ k)) as [Hk|Hk]; simpl.
  - by rewrite IH.
  - apply dec_stable in Hk as ->. by apply String.eqb_neq in Hne as ->.
Qed.

Lemma mapGet_mapDelete_Some {V} (k k' : string) (m : Map V) (v : V) :
  mapGet k' (mapDelete k m) = Some v → k ≠ k' ∧ mapGet k' m = Some v.
Proof.
  destruct (decide (k = k')) as [->|Hne].
  - by rewrite mapGet_mapDelete_eq.
  - by rewrite mapGet_mapDelete_ne.
Qed.

Lemma elem_of_setAdd (x y : string) (s : Set_) :
  y ∈ setAdd x s ↔ y = x ∨ y ∈ s.
Proof.
  unfold setAdd, setHas. case_bool_decide as Hx.
  - split; [by right | by intros [->|?]].
  - rewrite elem_of_app, list_elem_of_singleton. tauto.
Qed.

Lemma elem_of_setDelete (x y : string) (s : Set_) :
  y ∈ setDelete x s ↔ y ≠ x ∧ y ∈ s.
Proof. unfold setDelete. by rewrite list_elem_of_filter. Qed.

(** *** Arrays: a swap permutes the defined elements *)

Lemma arrGet_arrSet_eq {T} (i : nat) (v : option T) (a : list (option T)) :
  arrGet (arrSet i v a) i = v.
Proof.
  unfold arrGet, arrSet. destruct (Nat.ltb_spec i (length a)) as [Hlt|Hge].
  - by rewrite list_lookup_insert_eq.
  - rewrite lookup_app_r by done. rewrite lookup_app_r by (rewrite length_replicate; lia).
    rewrite length_replicate. by replace (i - length a - (i - length a))%nat with O by lia.
Qed.

Lemma arrGet_arrSet_ne {T} (i j : nat) (v : option T) (a : list (option T)) :
  i ≠ j → arrGet (arrSet i v a) j = arrGet a j.
Proof.
  intros Hne. unfold arrGet, arrSet. destruct (Nat.ltb_spec i (length a)) as [Hlt|Hge].
  - by rewrite list_lookup_insert_ne.
  - destruct (decide (j < length a)%nat) as [Hj|Hj].
    + by rewrite lookup_app_l.
    + rewrite lookup_app_r by lia. rewrite (lookup_ge_None_2 a j) by lia.
      destruct (decide (j - length a < i - length a)%nat) as [Hp|Hp].
      * rewrite lookup_app_l by (rewrite length_replicate; lia).
        rewrite lookup_replicate_2 by lia. done.
      * rewrite lookup_app_r by (rewrite length_replicate; lia).
        rewrite length_replicate. rewrite lookup_ge_None_2; [done|]. simpl. lia.
Qed.

Lemma defined_replicate_None {T} (n : nat) :
  defined (replicate n (@None T)) = [].
Proof. induction n as [|n IH]; [done|]. simpl. exact IH. Qed.

Lemma defined_cons {T} (o : option T) (l : list (option T)) :
  defined (o :: l) = defined [o] ++ defined l.
Proof. by destruct o. Qed.

Lemma defined_app {T} (l1 l2 : list (option T)) :
  defined (l1 ++ l2) = defined l1 ++ defined l2.
Proof. apply omap_app. Qed.

Lemma defined_Some {T} (l : list T) : defined (Some <$> l) = l.
Proof. induction l as [|x l IH]; [done|]. rewrite fmap_cons, defined_cons, IH. done. Qed.

Lemma arrSet_defined {T} (i : nat) (v : option T) (a : list (option T)) :
  defined (arrSet i v a) ++ defined [arrGet a i] ≡ₚ defined a ++ defined [v].
Proof.
  unfold arrGet, arrSet. destruct (Nat.ltb_spec i (length a)) as [Hlt|Hge].
  - destruct (lookup_lt_is_Some_2 a i Hlt) as [o Ho]. rewrite Ho. simpl.
    rewrite insert_take_drop by done.
    rewrite <- (take_drop_middle a i o Ho) at 3.
    rewrite !defined_app, (defined_cons v), (defined_cons o).
    rewrite <- !app_assoc.
    apply Permutation_app_head.
    rewrite (Permutation_app_comm (defined [o])), <- !app_assoc.
    rewrite (Permutation_app_comm (defined [v])), <- !app_assoc.
    apply Permutation_app_head, Permutation_app_comm.
  - rewrite (lookup_ge_None_2 a i) by done. simpl.
    rewrite !defined_app, defined_replicate_None, app_nil_r. done.
Qed.

Lemma swap_defined {T} (i j : nat) (a : list (option T)) :
  defined (swap i j a) ≡ₚ defined a.
Proof.
  unfold swap.
  pose proof (arrSet_defined j (arrGet a i) (arrSet i (arrGet a j) a)) as H1.
  pose proof (arrSet_defined i (arrGet a j) a) as H2.
  assert (arrGet (arrSet i (arrGet a j) a) j = arrGet a j) as Hj.
  { destruct (decide (i = j)) as [->|Hne].
    - by rewrite arrGet_arrSet_eq.
    - by rewrite arrGet_arrSet_ne. }
  rewrite Hj, H2 in H1.
  by apply Permutation_app_inv_r in H1.
Qed.

End JsFacts.

(** ** Facts about the cluster simulation *)
Module SimFacts.
Import Js JsFacts Sim.

(** *** The event queue is a bag *)

Lemma insertByTime_perm (ev : Event) (q : list Event) :
  insertByTime ev q ≡ₚ ev :: q.
Proof.
  induction q as [|x q IH]; simpl; [done|].
  destruct (time ev <? time x); [done|].
  rewrite IH. apply Permutation_swap.
Qed.

Lemma sortByTime_perm (q : list Event) : sortByTime q ≡ₚ q.
Proof.
  unfold sortByTime.
  assert (∀ acc, foldl (λ acc ev, insertByTime ev acc) acc q ≡ₚ acc ++ q) as H.
  { induction q as [|x q IH]; intros acc; simpl; [by rewrite app_nil_r|].
    rewrite IH, insertByTime_perm. simpl. apply Permutation_middle. }
  apply H.
Qed.

Lemma scheduleEvent_queue (ev : Event) (st : SimState) :
  eventQueue (scheduleEvent ev st) ≡ₚ ev :: eventQueue st.
Proof.
  simpl. rewrite sortByTime_perm. symmetry. apply Permutation_cons_append.
Qed.

(** *** Reading the state after an assignment *)

Lemma clusterIdOf_assign_ne (e e' : string) f (st : SimState) :
  e ≠ e' → clusterIdOf (assign e f st) e' = clusterIdOf st e'.
Proof. intros Hne. unfold clusterIdOf. simpl. by rewrite lookup_alter_ne. Qed.

Lemma clusterIdOf_assign_eq (e : string) f (st : SimState) :
  clusterIdOf (assign e f st) e = entityStates st !! e ≫= (λ s, clusterId (f s)).
Proof.
  unfold clusterIdOf. simpl. rewrite lookup_alter_eq.
  by destruct (entityStates st !! e).
Qed.

Lemma clusterIdOf_assign_flag (e e' : string) f (st : SimState) :
  (∀ s, clusterId (f s) = clusterId s) →
  clusterIdOf (assign e f st) e' = clusterIdOf st e'.
Proof.
  intros Hf. destruct (decide (e = e')) as [<-|Hne].
  - rewrite clusterIdOf_assign_eq. unfold clusterIdOf.
    destruct (entityStates st !! e); simpl; [apply Hf | done].
  - by apply clusterIdOf_assign_ne.
Qed.

Lemma assign_is_Some (e e' : string) f (st : SimState) :
  is_Some (entityStates (assign e f st) !! e') ↔ is_Some (entityStates st !! e').
Proof.
  simpl. destruct (decide (e = e')) as [<-|Hne].
  - rewrite lookup_alter_eq. by rewrite fmap_is_Some.
  - by rewrite lookup_alter_ne.
Qed.

(** *** Names of clusters *)

Lemma clusterName_inj (n m : N) : clusterName n = clusterName m → n = m.
Proof.
  unfold clusterName. simpl. intros [= H]. by apply pretty_N_inj in H.
Qed.

Lemma clusterName_fresh (st : SimState) :
  namesBelow st → Js.mapGet (clusterName (nextClusterId st)) (clusters st) = None.
Proof.
  intros Hn. destruct (mapGet _ _) as [cl|] eqn:E; [|done].
  apply Hn in E as (n & ->%clusterName_inj & Hlt). lia.
Qed.

(** *** Agreement of member sets and cluster ids, operation by operation *)

Lemma Core_ext (st st' : SimState) :
  (∀ e, clusterIdOf st' e = clusterIdOf st e) →
  clusters st' = clusters st → nextClusterId st' = nextClusterId st →
  Core st → Core st'.
Proof.
  intros Hid Hcl Hnext [Hms Hsm Hn]. split.
  - intros e c. unfold memberOf, membersOf. rewrite Hid, Hcl. apply Hms.
  - intros e c. unfold memberOf, membersOf. rewrite Hid, Hcl. apply Hsm.
  - unfold namesBelow. rewrite Hcl, Hnext. apply Hn.
Qed.

Lemma CoreExcept_ext (x : string) (st st' : SimState) :
  (∀ e, clusterIdOf st' e = clusterIdOf st e) →
  clusters st' = clusters st → nextClusterId st' = nextClusterId st →
  CoreExcept x st → CoreExcept x st'.
Proof.
  intros Hid Hcl Hnext [Hms Hsm Hn]. split.
  - intros e c. unfold memberOf, membersOf. rewrite Hid, Hcl. apply Hms.
  - intros e c. unfold memberOf, membersOf. rewrite Hid, Hcl. apply Hsm.
  - unfold namesBelow. rewrite Hcl, Hnext. apply Hn.
Qed.

Lemma Core_except (x : string) (st : SimState) :
  Core st → clusterIdOf st x = None → CoreExcept x st.
Proof.
  intros [Hms Hsm Hn] Hx. split; [|by auto|done].
  intros e c Hm. apply Hms in Hm as Hid. split; [|done].
  intros ->. congruence.
Qed.

Lemma except_Core (x : string) (st : SimState) :
  CoreExcept x st → clusterIdOf st x = None → Core st.
Proof.
  intros [Hms Hsm Hn] Hx. split; [by intros e c [_ ?]%Hms| |done].
  intros e c Hid. apply Hsm; [|done]. intros ->. congruence.
Qed.

(** Creating a cluster for [x] and recording it. *)
Lemma except_create (x c : string) (st st1 : SimState) f :
  CoreExcept x st → is_Some (entityStates st !! x) →
  createCluster x st = (c, st1) →
  (∀ s, clusterId (f s) = Some c) →
  Core (assign x f st1) ∧ clusterIdOf (assign x f st1) x = Some c ∧
  (∀ e, e ≠ x → clusterIdOf (assign x f st1) e = clusterIdOf st e).
Proof.
  intros [Hms Hsm Hn] [s Hs] [= Hc Hst1] Hf.
  pose proof (clusterName_fresh st Hn) as Hfresh. rewrite Hc in Hfresh.
  assert (clusterIdOf (assign x f st1) x = Some c) as Hx.
  { rewrite clusterIdOf_assign_eq. subst st1. simpl. rewrite Hs. simpl. apply Hf. }
  assert (∀ e, e ≠ x → clusterIdOf (assign x f st1) e = clusterIdOf st e) as Hframe.
  { intros e He. rewrite clusterIdOf_assign_ne by done. by subst st1. }
  assert (∀ e c0, memberOf (assign x f st1) e c0 ↔
                  (c0 = c ∧ e = x) ∨ (c0 ≠ c ∧ memberOf st e c0)) as Hmem.
  { intros e c0. unfold memberOf, membersOf. subst st1. simpl. rewrite Hc.
    destruct (decide (c = c0)) as [<-|Hne].
    - rewrite mapGet_mapSet_eq. simpl. split.
      + intros (ms & [= <-] & ->%list_elem_of_singleton). by left.
      + intros [[_ ->]|[? _]]; [|done]. eexists. split; [done | by left].
    - rewrite mapGet_mapSet_ne by done. split; [by right | intros [[-> _]|[_ ?]]; done]. }
  split; [split|by split].
  - intros e c0 [[-> ->]|[Hc0 Hm]]%Hmem; [done|].
    apply Hms in Hm as [He Hid]. by rewrite Hframe.
  - intros e c0 Hid. apply Hmem. destruct (decide (e = x)) as [->|He].
    + left. split; [congruence | done].
    + right. rewrite Hframe in Hid by done. apply Hsm in Hid as Hm; [|done].
      split; [|done]. intros ->. destruct Hm as (ms & Hm & _).
      unfold membersOf in Hm. by rewrite Hfresh in Hm.
  - intros c0 cl. subst st1. simpl. rewrite Hc.
    destruct (decide (c = c0)) as [<-|Hne].
    + intros _. exists (nextClusterId st). split; [done | lia].
    + rewrite mapGet_mapSet_ne by done. intros (n & -> & Hlt)%Hn.
      exists n. split; [done | lia].
Qed.

Lemma except_assign (x : string) (st : SimState) f :
  CoreExcept x st → CoreExcept x (assign x f st).
Proof.
  intros [Hms Hsm Hn]. split; [| |done].
  - intros e c [He Hid]%Hms. split; [done|]. by rewrite clusterIdOf_assign_ne.
  - intros e c He Hid. rewrite clusterIdOf_assign_ne in Hid by done. by apply Hsm.
Qed.

(** Joining an existing cluster. *)
Lemma except_join (x c : string) (st : SimState) :
  CoreExcept x st → is_Some (entityStates st !! x) →
  is_Some (Js.mapGet c (clusters st)) →
  ∃ st', joinCluster x c st = Done st' ∧
    Core st' ∧ clusterIdOf st' x = Some c ∧
    (∀ e, e ≠ x → clusterIdOf st' e = clusterIdOf st e) ∧
    eventQueue st' = eventQueue st ∧
    (∀ e, is_Some (entityStates st' !! e) ↔ is_Some (entityStates st !! e)).
Proof.
  intros [Hms Hsm Hn] [s Hs] [cl Hcl]. unfold joinCluster. rewrite Hcl. simpl. rewrite Hs.
  eexists. split; [done|].
  set (st1 := with_clusters _ st).
  assert (clusterIdOf (assign x (set_clusterId (Some c)) st1) x = Some c) as Hx.
  { rewrite clusterIdOf_assign_eq. simpl. by rewrite Hs. }
  assert (∀ e, e ≠ x →
            clusterIdOf (assign x (set_clusterId (Some c)) st1) e = clusterIdOf st e)
    as Hframe.
  { intros e He. by rewrite clusterIdOf_assign_ne. }
  assert (∀ e c0, memberOf (assign x (set_clusterId (Some c)) st1) e c0 ↔
                  (c0 = c ∧ e = x) ∨ memberOf st e c0) as Hmem.
  { intros e c0. unfold memberOf, membersOf. simpl.
    destruct (decide (c = c0)) as [<-|Hne].
    - rewrite mapGet_mapSet_eq, Hcl. simpl. split.
      + intros (ms & [= <-] & [->|?]%elem_of_setAdd); [by left|]. right. eauto.
      + intros [[_ ->]|(ms & [= <-] & ?)]; eexists; (split; [done|]);
          apply elem_of_setAdd; auto.
    - rewrite mapGet_mapSet_ne by done. split; [by right | intros [[-> _]|?]; done]. }
  split; [split|].
  - intros e c0 [[-> ->]|Hm]%Hmem; [done|].
    apply Hms in Hm as [He Hid]. by rewrite Hframe.
  - intros e c0 Hid. apply Hmem. destruct (decide (e = x)) as [->|He].
    + left. split; [congruence | done].
    + right. rewrite Hframe in Hid by done. by apply Hsm.
  - intros c0 cl0. simpl. destruct (decide (c = c0)) as [<-|Hne].
    + intros _. by apply (Hn c cl).
    + rewrite mapGet_mapSet_ne by done. apply Hn.
  - repeat split; try done; by apply (assign_is_Some x e _ st1).
Qed.

(** Leaving a cluster of which [x] is the only member. *)
Lemma core_leave (x c : string) (ms : list string) (st : SimState) :
  Core st → clusterIdOf st x = Some c →
  membersOf st c = Some ms → (length ms ≤ 1)%nat →
  leaveCluster x c st = with_clusters (Js.mapDelete c) st ∧
  CoreExcept x (with_clusters (Js.mapDelete c) st).
Proof.
  intros [Hms Hsm Hn] Hx Hmembers Hlen.
  assert (ms = [x]) as ->.
  { apply Hsm in Hx as (ms' & Hms' & Hin). rewrite Hmembers in Hms'. injection Hms' as <-.
    destruct ms as [|y [|]]; simpl in Hlen; [by apply elem_of_nil in Hin | | lia].
    by apply list_elem_of_singleton in Hin as ->. }
  unfold membersOf in Hmembers.
  destruct (mapGet c (clusters st)) as [cl|] eqn:Hcl; [|done].
  injection Hmembers as Hmembers.
  split.
  { unfold leaveCluster. rewrite Hcl, Hmembers. unfold setDelete.
    rewrite filter_cons, filter_nil. by destruct (decide (x ≠ x)). }
  assert (∀ e c0, memberOf (with_clusters (mapDelete c) st) e c0 ↔
                  c0 ≠ c ∧ memberOf st e c0) as Hmem.
  { intros e c0. unfold memberOf, membersOf. simpl.
    destruct (decide (c = c0)) as [<-|Hne].
    - rewrite mapGet_mapDelete_eq. simpl. split; [by intros (? & ? & _) | by intros [? _]].
    - rewrite mapGet_mapDelete_ne by done. split; [by split | by intros [_ ?]]. }
  split.
  - intros e c0 [Hc0 Hm]%Hmem. apply Hms in Hm as Hid. split; [|done].
    intros ->. congruence.
  - intros e c0 He Hid. apply Hmem. apply Hsm in Hid as Hm. split; [|done].
    intros ->. destruct Hm as (ms' & Hm & Hin). unfold membersOf in Hm.
    rewrite Hcl in Hm. simpl in Hm. injection Hm as <-. rewrite Hmembers in Hin.
    by apply list_elem_of_singleton in Hin.
  - intros c0 cl0. simpl. intros [_ ?]%mapGet_mapDelete_Some. by apply (Hn c0 cl0).
Qed.

(** *** The pending events *)

Lemma workerIds_cons (ev : Event) (q : list Event) :
  workerIds (ev :: q) =
    if isWorkerEvent ev then entityId ev :: workerIds q else workerIds q.
Proof. unfold workerIds. simpl. by destruct (isWorkerEvent ev). Qed.

Lemma workerIds_app (q1 q2 : list Event) :
  workerIds (q1 ++ q2) = workerIds q1 ++ workerIds q2.
Proof. unfold workerIds. by rewrite List.filter_app, fmap_app. Qed.

Lemma workerIds_perm (q q' : list Event) : q ≡ₚ q' → workerIds q ≡ₚ workerIds q'.
Proof.
  intros H. unfold workerIds. apply fmap_Permutation.
  induction H as [|x l l' _ IH|x y l|l l' l'' _ IH1 _ IH2]; simpl.
  - done.
  - destruct (isWorkerEvent x); [by constructor | done].
  - destruct (isWorkerEvent x), (isWorkerEvent y); try done. apply Permutation_swap.
  - by rewrite IH1.
Qed.

Lemma elem_of_workerIds (q : list Event) (ev : Event) :
  ev ∈ q → isWorkerEvent ev = true → entityId ev ∈ workerIds q.
Proof.
  intros Hin Hw. unfold workerIds. apply list_elem_of_fmap. exists ev. split; [done|].
  apply list_elem_of_In, List.filter_In. split; [by apply list_elem_of_In | done].
Qed.

Lemma eventExpects_ext (st st' : SimState) (ev : Event) :
  clusterIdOf st' (entityId ev) = clusterIdOf st (entityId ev) →
  eventExpects st ev → eventExpects st' ev.
Proof. unfold eventExpects. intros ->. done. Qed.

Lemma eventExpects_other (st : SimState) (ev : Event) :
  isWorkerEvent ev = false → eventExpects st ev.
Proof. unfold isWorkerEvent, eventExpects. by destruct (ev_type ev). Qed.

(** The invariant after an event of entity [x] has been processed:
    [new] are the events it scheduled, [rest] those that were pending. *)
Lemma invariant_finish (st st' : SimState) (rest new : list Event) :
  Core st' →
  NoDup (workerIds new ++ workerIds rest) →
  Forall (eventExpects st) rest →
  (∀ e, e ∈ workerIds rest → clusterIdOf st' e = clusterIdOf st e) →
  Forall (eventExpects st') new →
  eventQueue st' ≡ₚ new ++ rest →
  Invariant st'.
Proof.
  intros Hcore Hnd Hrest Hframe Hnew Hq. split; [done | |].
  - apply workerIds_perm in Hq. rewrite Hq, workerIds_app. done.
  - rewrite Hq. apply Forall_app. split; [done|].
    apply Forall_forall. intros ev Hev.
    destruct (isWorkerEvent ev) eqn:Hw; [|by apply eventExpects_other].
    apply (eventExpects_ext st); [|by apply (proj1 (Forall_forall _ _) Hrest)].
    apply Hframe. by apply elem_of_workerIds.
Qed.

(** *** Peers found by the searches have a cluster *)

Lemma clusterOf_clusterIdOf (st : SimState) (p c : string) :
  clusterOf st p = Some c → clusterIdOf st p = Some c.
Proof.
  unfold clusterOf, clusterIdOf. destruct (entityStates st !! p) as [s|]; [|done].
  simpl. unfold truthy. destruct (clusterId s) as [c'|]; [|done].
  destruct (String.eqb c' ""); [done|]. congruence.
Qed.

Lemma findClusteredPeer_Some (st : SimState) (peers : list SimilarityEntry) p c :
  findClusteredPeer st peers = Some (p, c) → clusterIdOf st p = Some c.
Proof.
  induction peers as [|peer peers IH]; simpl; [done|].
  destruct (clusterOf st (peerId peer)) as [c'|] eqn:E; [|done].
  intros [= <- <-]. by apply clusterOf_clusterIdOf.
Qed.

Lemma findOtherCluster_Some (st : SimState) (my : string) (peers : list string) c :
  findOtherCluster st my peers = Some c →
  c ≠ my ∧ ∃ p, clusterIdOf st p = Some c.
Proof.
  induction peers as [|p peers IH]; simpl; [done|].
  destruct (clusterOf st p) as [c'|] eqn:E; [|done].
  destruct (String.eqb_spec c' my) as [->|Hne]; [done|].
  intros [= <-]. split; [done|]. exists p. by apply clusterOf_clusterIdOf.
Qed.

Lemma lexLoop_JoinVia (st : SimState) (x my : string) (l : list Entity) c :
  lexLoop st x my l = JoinVia c → c ≠ my ∧ ∃ p, clusterIdOf st p = Some c.
Proof.
  induction l as [|ent l IH]; simpl; [done|].
  destruct (String.eqb (id ent) x); [done|].
  destruct (String.eqb (type ent) "cluster_leader"); [done|].
  destruct (clusterOf st (id ent)) as [c'|] eqn:E; [|done].
  destruct (String.eqb_spec c' my) as [->|Hne]; [done|].
  intros [= <-]. split; [done|]. exists (id ent). by apply clusterOf_clusterIdOf.
Qed.

(** *** The effect of each branch of [processEvent] *)

Section effects.
Context (config : SimConfig) (data : SimulationData).
Context (localeCompare : string → string → Z).

Lemma createAndWait_effect (x : string) (st : SimState) :
  Core st → clusterIdOf st x = None → is_Some (entityStates st !! x) →
  ∃ ev, stepEffect x st (createAndWait config x st) [ev].
Proof.
  intros Hcore Hx Hs. unfold createAndWait.
  destruct (createCluster x st) as [c st1] eqn:Hcreate.
  set (f := λ s, set_followerWaitStartTime _ (set_waitingForFollowers true
                   (set_isClusterLeader true (set_clusterId (Some c) s)))).
  destruct (except_create x c st st1 f (Core_except x st Hcore Hx) Hs Hcreate)
    as (Hcore2 & Hx2 & Hframe2); [done|].
  destruct (getJitteryWait config (assign x f st1)) as [w st3] eqn:Hwait.
  unfold getJitteryWait in Hwait.
  destruct (randomBelow _ _) as [r seed']. injection Hwait as <- <-.
  injection Hcreate as _ Hst1.
  eexists. split.
  - revert Hcore2. by apply Core_ext.
  - intros e He. by rewrite <- (Hframe2 e He).
  - simpl. rewrite sortByTime_perm, <- Hst1. simpl. symmetry. apply Permutation_cons_append.
  - constructor; [|done]. exists c. split; [done|]. exact Hx2.
  - by right.
Qed.

Lemma joinAndStop_effect (x c p : string) (st : SimState) :
  Core st → clusterIdOf st x = None → is_Some (entityStates st !! x) →
  clusterIdOf st p = Some c →
  ∃ st', joinAndStop x c st = Done st' ∧ stepEffect x st st' [].
Proof.
  intros Hcore Hx Hs Hp. unfold joinAndStop.
  assert (is_Some (mapGet c (clusters st))) as Hc.
  { apply Hcore in Hp as (ms & Hm & _). unfold membersOf in Hm.
    by destruct (mapGet c (clusters st)). }
  destruct (except_join x c st (Core_except x st Hcore Hx) Hs Hc)
    as (st' & -> & Hcore' & Hx' & Hframe & Hq & _).
  eexists. split; [done|]. split.
  - revert Hcore'. apply Core_ext; [|done..].
    intros e. by apply clusterIdOf_assign_flag.
  - intros e He. rewrite clusterIdOf_assign_flag by done. by apply Hframe.
  - simpl. by rewrite Hq.
  - constructor.
  - by left.
Qed.

Lemma switchCluster_effect (x c c' p : string) (ms : list string) (st : SimState) :
  Core st → clusterIdOf st x = Some c → is_Some (entityStates st !! x) →
  membersOf st c = Some ms → (length ms ≤ 1)%nat →
  c' ≠ c → clusterIdOf st p = Some c' →
  ∃ st', switchCluster x c c' st = Done st' ∧ stepEffect x st st' [].
Proof.
  intros Hcore Hx Hs Hms Hlen Hne Hp. unfold switchCluster.
  destruct (core_leave x c ms st Hcore Hx Hms Hlen) as [-> Hexc].
  assert (is_Some (mapGet c' (clusters (with_clusters (mapDelete c) st)))) as Hc'.
  { apply Hcore in Hp as (ms' & Hm & _). unfold membersOf in Hm. simpl.
    rewrite mapGet_mapDelete_ne by done. by destruct (mapGet c' (clusters st)). }
  destruct (except_join x c' _ Hexc Hs Hc') as (st' & -> & Hcore' & Hx' & Hframe & Hq & _).
  eexists. split; [done|]. split.
  - revert Hcore'. apply Core_ext; [|done..].
    intros e. by apply clusterIdOf_assign_flag.
  - intros e He. rewrite clusterIdOf_assign_flag by done. by apply Hframe.
  - simpl. by rewrite Hq.
  - constructor.
  - by left.
Qed.

Lemma stepEffect_refl (x : string) (st : SimState) :
  Core st → stepEffect x st st [].
Proof. intros Hcore. split; try done. by left. Qed.

Lemma runFallback_effect (x c : string) (layer : Z) (ms : list string) (st st' : SimState) :
  Core st → clusterIdOf st x = Some c → is_Some (entityStates st !! x) →
  membersOf st c = Some ms → (length ms ≤ 1)%nat →
  runFallback data localeCompare x c layer st = Done st' →
  stepEffect x st st' [].
Proof.
  intros Hcore Hx Hs Hms Hlen. unfold runFallback.
  destruct (findEntity data x) as [entity|]; [|done].
  destruct (similarTo data x) as [allSims| |]; [|done..].
  destruct (findOtherCluster _ _ _) as [theirs|] eqn:Hsem.
  { apply findOtherCluster_Some in Hsem as (Hne & p & Hp).
    destruct (switchCluster_effect x c theirs p ms st) as (st1 & -> & Heff); try done.
    by intros [= <-]. }
  destruct (lexLoop _ _ _ _) as [|theirs|] eqn:Hlex.
  - intros [= <-]. by apply stepEffect_refl.
  - apply lexLoop_JoinVia in Hlex as (Hne & p & Hp).
    destruct (switchCluster_effect x c theirs p ms st) as (st1 & -> & Heff); try done.
    by intros [= <-].
  - destruct (length _ =? 1)%nat; [|intros [= <-]; by apply stepEffect_refl].
    destruct Hs as [s Hs]. rewrite Hs. intros [= <-].
    destruct (core_leave x c ms st Hcore Hx Hms Hlen) as [_ Hexc].
    set (st1 := assign x (set_clusterId None) (with_clusters (mapDelete c) st)).
    assert (clusterIdOf st1 x = None) as Hx1.
    { unfold st1. rewrite clusterIdOf_assign_eq. simpl. by rewrite Hs. }
    split.
    + apply (Core_ext st1); [by intros e; apply clusterIdOf_assign_flag | done..|].
      apply (except_Core x); [by apply except_assign | done].
    + intros e He. rewrite clusterIdOf_assign_flag by done.
      unfold st1. by rewrite clusterIdOf_assign_ne.
    + done.
    + constructor.
    + by left.
Qed.

Lemma effect_invariant (x : string) (st0 st st' : SimState) (new : list Event) :
  stepEffect x st st' new →
  (∀ e, clusterIdOf st e = clusterIdOf st0 e) →
  Forall (eventExpects st0) (eventQueue st) →
  NoDup (x :: workerIds (eventQueue st)) →
  Invariant st'.
Proof.
  intros [Hcore Hframe Hq Hnew Hw] Hsame Hrest [Hx Hnd]%NoDup_cons.
  apply (invariant_finish st0 st' (eventQueue st) new); try done.
  - destruct Hw as [->| ->]; simpl; [done | by constructor].
  - intros e He. rewrite Hframe, Hsame; [done|]. by intros ->.
Qed.

Lemma flags_invariant (x : string) f (st : SimState) :
  (∀ s, clusterId (f s) = clusterId s) →
  Core st → NoDup (workerIds (eventQueue st)) →
  Forall (eventExpects st) (eventQueue st) →
  Invariant (assign x f st).
Proof.
  intros Hf Hcore Hnd Hrest.
  apply (invariant_finish st _ (eventQueue st) []); try done.
  - revert Hcore. apply Core_ext; [|done..]. intros e. by apply clusterIdOf_assign_flag.
  - intros e _. by apply clusterIdOf_assign_flag.
Qed.

Lemma processEvent_invariant (ev : Event) (st st' : SimState) :
  Core st →
  NoDup (workerIds (ev :: eventQueue st)) →
  Forall (eventExpects st) (ev :: eventQueue st) →
  processEvent config data localeCompare ev st = Done st' →
  Invariant st'.
Proof.
  intros Hcore Hnd [Hev Hrest]%Forall_cons. rewrite workerIds_cons in Hnd.
  unfold processEvent. unfold eventExpects in Hev. unfold isWorkerEvent in Hnd.
  set (x := entityId ev) in *.
  destruct (ev_type ev) eqn:Htype.
  - (* entity_arrives *)
    destruct (entityStates st !! x) as [s|] eqn:Hs; [|done].
    destruct (findEntity data x) as [entity|]; [|done]. intros [= <-].
    apply NoDup_cons in Hnd as [Hx Hnd].
    lazymatch goal with
    | |- Invariant (scheduleEvent ?e2 (scheduleEvent ?e1 _)) =>
        apply (invariant_finish st _ (eventQueue st) [e2; e1])
    end.
    + revert Hcore. apply Core_ext; [|done..]. intros e. by apply clusterIdOf_assign_flag.
    + rewrite !workerIds_cons. simpl. by constructor.
    + done.
    + intros e _. by apply (clusterIdOf_assign_flag x e (set_arrived true) st).
    + constructor; [|by constructor].
      apply (eventExpects_ext st); [by apply (clusterIdOf_assign_flag x _ (set_arrived true) st)|].
      exact Hev.
    + rewrite scheduleEvent_queue, scheduleEvent_queue. done.
  - (* entity_indexed *)
    destruct (entityStates st !! x) as [s|] eqn:Hs; [|done].
    destruct (findEntity data x) as [entity|]; [|done]. intros [= <-].
    by apply flags_invariant.
  - (* entity_searches *)
    destruct (entityStates st !! x) as [s|] eqn:Hs; [|done].
    destruct (findEntity data x) as [entity|]; [|done].
    set (st1 := assign x (set_processing true) st).
    assert (∀ e, clusterIdOf st1 e = clusterIdOf st e) as Hsame.
    { intros e. by apply clusterIdOf_assign_flag. }
    assert (Core st1) as Hcore1 by (revert Hcore; by apply Core_ext).
    assert (is_Some (entityStates st1 !! x)) as Hs1 by (apply assign_is_Some; eauto).
    assert (clusterIdOf st1 x = None) as Hx1 by (by rewrite Hsame).
    destruct (getVisiblePeers _ _ _ _ _) as [peers| |]; [|done..].
    destruct (length _ =? 0)%nat.
    { intros [= <-].
      destruct (createAndWait_effect x st1 Hcore1 Hx1 Hs1) as [ev' Heff].
      by apply (effect_invariant x st st1 _ [ev']). }
    destruct (findClusteredPeer st1 _) as [[p c]|] eqn:Hpeer.
    { apply findClusteredPeer_Some in Hpeer.
      destruct (joinAndStop_effect x c p st1) as (st2 & -> & Heff); try done.
      intros [= <-]. by apply (effect_invariant x st st1 _ []). }
    intros [= <-]. apply NoDup_cons in Hnd as [Hx Hnd].
    lazymatch goal with
    | |- Invariant (scheduleEvent ?e1 _) =>
        apply (invariant_finish st _ (eventQueue st) [e1])
    end.
    + revert Hcore1. by apply Core_ext.
    + rewrite !workerIds_cons. simpl. by constructor.
    + done.
    + intros e _. apply Hsame.
    + constructor; [|by constructor]. unfold eventExpects. simpl. exact Hx1.
    + by rewrite scheduleEvent_queue.
  - (* entity_rechecks *)
    destruct (entityStates st !! x) as [s|] eqn:Hs; [|done].
    destruct (findEntity data x) as [entity|]; [|done].
    assert (is_Some (entityStates st !! x)) as Hs' by eauto.
    destruct (getVisiblePeers _ _ _ _ _) as [peers| |]; [|done..].
    destruct (findClusteredPeer st _) as [[p c]|] eqn:Hpeer.
    { apply findClusteredPeer_Some in Hpeer.
      destruct (joinAndStop_effect x c p st) as (st2 & -> & Heff); try done.
      intros [= <-]. by apply (effect_invariant x st st _ []). }
    intros [= <-].
    destruct (createAndWait_effect x st Hcore Hev Hs') as [ev' Heff].
    by apply (effect_invariant x st st _ [ev']).
  - (* entity_creates_cluster *)
    intros [= <-]. by split.
  - (* entity_joins_cluster *)
    intros [= <-]. by split.
  - (* follower_wait_ends *)
    destruct (entityStates st !! x) as [s|] eqn:Hs; [|done].
    destruct Hev as (c & Hdata & Hx). rewrite Hdata. simpl.
    set (st1 := assign x (λ s, set_processing false (set_waitingForFollowers false s)) st).
    assert (∀ e, clusterIdOf st1 e = clusterIdOf st e) as Hsame.
    { intros e. by apply clusterIdOf_assign_flag. }
    assert (Core st1) as Hcore1 by (revert Hcore; by apply Core_ext).
    assert (is_Some (entityStates st1 !! x)) as Hs1 by (apply assign_is_Some; eauto).
    destruct (mapGet c (clusters st)) as [cluster|] eqn:Hcl; simpl.
    2:{ intros [= <-]. by apply (effect_invariant x st st1 _ []); [apply stepEffect_refl|..]. }
    destruct (findEntity data x) as [entity|]; [|done].
    destruct (1 <? length (members cluster))%nat eqn:Hsize.
    { intros [= <-]. by apply (effect_invariant x st st1 _ []); [apply stepEffect_refl|..]. }
    intros Hfall. apply Nat.ltb_ge in Hsize.
    apply (effect_invariant x st st1 _ []); try done.
    apply (runFallback_effect x c (_kg_layer entity) (members cluster) st1 st');
      try done.
    + by rewrite Hsame.
    + unfold membersOf. simpl. by rewrite Hcl.
Qed.

Lemma step_invariant (st st' : SimState) :
  Invariant st → step config data localeCompare st = Some (Done st') → Invariant st'.
Proof.
  intros [Hcore Hnd Hexp]. unfold step.
  destruct (eventQueue st) as [|ev rest] eqn:Hq; [done|]. intros [= Hproc].
  apply (processEvent_invariant ev _ _) in Hproc; [done | | done |].
  - revert Hcore. by apply Core_ext.
  - simpl. apply (Forall_impl _ _ _ Hexp). intros ev'. by apply eventExpects_ext.
Qed.

Lemma runSteps_invariant (n : nat) (st st' : SimState) :
  Invariant st → runSteps config data localeCompare n st = Done st' → Invariant st'.
Proof.
  revert st. induction n as [|n IH]; intros st Hinv; simpl; [by intros [= <-]|].
  destruct (step config data localeCompare st) as [[st1| |]|] eqn:Hstep; try done.
  - apply IH. by apply (step_invariant st).
  - by intros [= <-].
Qed.

End effects.

(** *** The state from which the event loop starts *)

Lemma shuffleLoop_defined {T} (i : nat) (a : list (option T)) (seed : Z) :
  defined (shuffleLoop i a seed).1 ≡ₚ defined a.
Proof.
  revert a seed. induction i as [|i IH]; intros a seed; [done|].
  change (shuffleLoop (S i) a seed) with
    (let '(j, seed') := randomBelow (Z.of_nat (S i) + 1) seed in
     shuffleLoop i (swap (S i) (Z.to_nat j) a) seed').
  destruct (randomBelow (Z.of_nat (S i) + 1) seed) as [j seed'].
  rewrite IH. apply swap_defined.
Qed.

Lemma shuffle_perm {T} (l es : list T) (seed : Z) :
  (shuffle l seed).1 = Some <$> es → es ≡ₚ l.
Proof.
  intros H. pose proof (shuffleLoop_defined (length l - 1) (Some <$> l) seed) as Hp.
  unfold shuffle in H. rewrite H, !defined_Some in Hp. done.
Qed.

Section start.
Context (config : SimConfig) (data : SimulationData).

Lemma scheduleArrivals_done (len : nat) (rest : list (option Entity)) :
  ∀ (i : nat) (st st' : SimState),
    scheduleArrivals config len i rest st = Done st' →
    ∃ es evs,
      rest = Some <$> es ∧
      eventQueue st' ≡ₚ evs ++ eventQueue st ∧
      Forall (λ ev, ev_type ev = entity_arrives) evs ∧
      entityId <$> evs ≡ₚ id <$> es ∧
      entityStates st' = entityStates st ∧
      clusters st' = clusters st ∧
      nextClusterId st' = nextClusterId st.
Proof.
  induction rest as [|[entity|] rest IH]; intros i st st'; simpl.
  - intros [= <-]. by exists [], [].
  - intros (es & evs & -> & Hq & Hall & Hids & Hes & Hcl & Hn)%IH.
    eexists (entity :: es), (evs ++ [_]). split; [done|]. split; [|split; [|split]].
    + rewrite Hq. simpl. rewrite sortByTime_perm, <- app_assoc.
      apply Permutation_app_head. symmetry. apply Permutation_cons_append.
    + apply Forall_app. split; [done|]. by constructor.
    + rewrite fmap_app, Hids. simpl. symmetry. apply Permutation_cons_append.
    + done.
  - done.
Qed.

Lemma initial_no_cluster (l : list Entity) (m : gmap string EntityState) (e : string) :
  m !! e ≫= clusterId = None →
  foldl (λ m entity,
           <[id entity := mkEntityState false false None false false false None]> m)
        m l !! e ≫= clusterId = None.
Proof.
  revert m. induction l as [|x l IH]; intros m Hm; simpl; [done|].
  apply IH. destruct (decide (id x = e)) as [->|Hne].
  - by rewrite lookup_insert_eq.
  - by rewrite lookup_insert_ne.
Qed.

Lemma scheduled_invariant (st : SimState) :
  NoDup (id <$> entities data) → scheduled config data = Done st → Invariant st.
Proof.
  intros Hnd. unfold scheduled.
  destruct (shuffle (entities data) (seed config)) as [shuffled seed'] eqn:Hsh.
  intros (es & evs & -> & Hq & Hall & Hids & Hes & Hcl & Hn)%scheduleArrivals_done.
  simpl in *. rewrite app_nil_r in Hq.
  assert (es ≡ₚ entities data) as Hperm.
  { apply (shuffle_perm _ _ (seed config)). by rewrite Hsh. }
  assert (∀ e, clusterIdOf st e = None) as Hnone.
  { intros e. unfold clusterIdOf. rewrite Hes. by apply initial_no_cluster. }
  split.
  - split.
    + intros e c (ms & Hm & _). unfold membersOf in Hm. by rewrite Hcl in Hm.
    + intros e c. by rewrite Hnone.
    + intros c cl. by rewrite Hcl.
  - rewrite (workerIds_perm _ _ Hq).
    assert (workerIds evs = entityId <$> evs) as ->.
    { clear -Hall. induction Hall as [|ev evs Hev _ IH]; [done|].
      rewrite workerIds_cons. unfold isWorkerEvent. rewrite Hev. simpl. by rewrite IH. }
    by rewrite Hids, Hperm.
  - rewrite Hq. apply Forall_forall. intros ev Hev.
    unfold eventExpects. rewrite (proj1 (Forall_forall _ _) Hall ev Hev). apply Hnone.
Qed.

End start.

(** *** Termination of the event loop (C7) *)

Section termination.
Context (config : SimConfig) (data : SimulationData).
Context (localeCompare : string → string → Z).

Lemma queueWeight_app (q1 q2 : list Event) :
  queueWeight (q1 ++ q2) = (queueWeight q1 + queueWeight q2)%nat.
Proof. induction q1 as [|ev q1 IH]; simpl; [done|]. rewrite IH. lia. Qed.

Lemma queueWeight_perm (q q' : list Event) : q ≡ₚ q' → queueWeight q = queueWeight q'.
Proof.
  induction 1 as [|x l l' _ IH|x y l|l l' l'' _ IH1 _ IH2]; simpl; lia.
Qed.

Lemma queueWeight_schedule (ev : Event) (st : SimState) :
  queueWeight (eventQueue (scheduleEvent ev st))
  = (eventWeight ev + queueWeight (eventQueue st))%nat.
Proof. by rewrite (queueWeight_perm _ _ (scheduleEvent_queue ev st)). Qed.

Lemma joinCluster_queue (x c : string) (st st' : SimState) :
  joinCluster x c st = Done st' → eventQueue st' = eventQueue st.
Proof.
  unfold joinCluster.
  destruct (mapGet c (clusters st)); simpl;
    destruct (entityStates st !! x); intros [= <-]; done.
Qed.

Lemma joinAndStop_queue (x c : string) (st st' : SimState) :
  joinAndStop x c st = Done st' → eventQueue st' = eventQueue st.
Proof.
  unfold joinAndStop. destruct (joinCluster x c st) as [st1| |] eqn:E; try done.
  intros [= <-]. simpl. by apply (joinCluster_queue x c).
Qed.

Lemma leaveCluster_queue (x c : string) (st : SimState) :
  eventQueue (leaveCluster x c st) = eventQueue st.
Proof.
  unfold leaveCluster. destruct (mapGet c (clusters st)); [|done].
  by destruct (length _ =? 0)%nat.
Qed.

Lemma switchCluster_queue (x c c' : string) (st st' : SimState) :
  switchCluster x c c' st = Done st' → eventQueue st' = eventQueue st.
Proof.
  unfold switchCluster. destruct (joinCluster _ _ _) as [st1| |] eqn:E; try done.
  intros [= <-]. simpl. apply joinCluster_queue in E. by rewrite E, leaveCluster_queue.
Qed.

Lemma runFallback_queue (x c : string) (layer : Z) (st st' : SimState) :
  runFallback data localeCompare x c layer st = Done st' →
  eventQueue st' = eventQueue st.
Proof.
  unfold runFallback. destruct (findEntity data x); [|done].
  destruct (similarTo data x) as [allSims| |]; [|done..].
  destruct (findOtherCluster _ _ _); [apply switchCluster_queue|].
  destruct (lexLoop _ _ _ _); [by intros [= <-] | apply switchCluster_queue |].
  destruct (length _ =? 1)%nat; [|by intros [= <-]].
  destruct (entityStates st !! x); [|done]. by intros [= <-].
Qed.

Lemma createAndWait_weight (x : string) (st : SimState) :
  queueWeight (eventQueue (createAndWait config x st))
  = S (queueWeight (eventQueue st)).
Proof.
  unfold createAndWait. destruct (createCluster x st) as [c st1] eqn:Hc.
  injection Hc as _ <-. unfold getJitteryWait.
  destruct (randomBelow _ _) as [r seed']. by rewrite queueWeight_schedule.
Qed.

(** Every processed event pays for the events it schedules. *)
Lemma processEvent_weight (ev : Event) (st st' : SimState) :
  processEvent config data localeCompare ev st = Done st' →
  (queueWeight (eventQueue st') < eventWeight ev + queueWeight (eventQueue st))%nat.
Proof.
  unfold processEvent, eventWeight.
  destruct (ev_type ev);
    try (destruct (entityStates st !! entityId ev) as [s|]; [|done]).
  - destruct (findEntity data _); [|done]. intros [= <-].
    rewrite !queueWeight_schedule. simpl. lia.
  - destruct (findEntity data _); [|done]. intros [= <-]. simpl. lia.
  - destruct (findEntity data _); [|done].
    destruct (getVisiblePeers _ _ _ _ _) as [peers| |]; [|done..].
    destruct (length _ =? 0)%nat.
    { intros [= <-]. rewrite createAndWait_weight. simpl. lia. }
    destruct (findClusteredPeer _ _) as [[p c]|].
    { intros ->%joinAndStop_queue. simpl. lia. }
    intros [= <-]. rewrite queueWeight_schedule. simpl. lia.
  - destruct (findEntity data _); [|done].
    destruct (getVisiblePeers _ _ _ _ _) as [peers| |]; [|done..].
    destruct (findClusteredPeer _ _) as [[p c]|].
    { intros ->%joinAndStop_queue. lia. }
    intros [= <-]. rewrite createAndWait_weight. lia.
  - intros [= <-]. lia.
  - intros [= <-]. lia.
  - destruct (_ ≫= _) as [[c cluster]|]; [|intros [= <-]; simpl; lia].
    destruct (findEntity data _); [|done].
    destruct (1 <? _)%nat; [intros [= <-]; simpl; lia|].
    intros ->%runFallback_queue. simpl. lia.
Qed.

Lemma step_weight (st st' : SimState) :
  step config data localeCompare st = Some (Done st') →
  (queueWeight (eventQueue st') < queueWeight (eventQueue st))%nat.
Proof.
  unfold step. destruct (eventQueue st) as [|ev rest]; [done|].
  intros [= H%processEvent_weight]. simpl in *. lia.
Qed.

(** Only the event loop consumes fuel. *)
Lemma joinCluster_fuel (x c : string) (st : SimState) :
  joinCluster x c st ≠ OutOfFuel.
Proof.
  unfold joinCluster. by destruct (mapGet c (clusters st)); simpl; destruct (_ !! x).
Qed.

Lemma joinAndStop_fuel (x c : string) (st : SimState) :
  joinAndStop x c st ≠ OutOfFuel.
Proof.
  unfold joinAndStop. pose proof (joinCluster_fuel x c st).
  by destruct (joinCluster x c st).
Qed.

Lemma switchCluster_fuel (x c c' : string) (st : SimState) :
  switchCluster x c c' st ≠ OutOfFuel.
Proof.
  unfold switchCluster. pose proof (joinCluster_fuel x c' (leaveCluster x c st)).
  by destruct (joinCluster x c' _).
Qed.

Lemma similarTo_fuel (x : string) : similarTo data x ≠ OutOfFuel.
Proof.
  unfold similarTo. destruct (similarities data !! x); [done|].
  by destruct (inherited x).
Qed.

Lemma getVisiblePeers_fuel (st : SimState) (x : string) (layer : Z) :
  getVisiblePeers config data st x layer ≠ OutOfFuel.
Proof.
  unfold getVisiblePeers. pose proof (similarTo_fuel x). by destruct (similarTo data x).
Qed.

Lemma runFallback_fuel (x c : string) (layer : Z) (st : SimState) :
  runFallback data localeCompare x c layer st ≠ OutOfFuel.
Proof.
  unfold runFallback. destruct (findEntity data x); [|done].
  pose proof (similarTo_fuel x).
  destruct (similarTo data x) as [allSims| |]; [|done..].
  destruct (findOtherCluster _ _ _); [apply switchCluster_fuel|].
  destruct (lexLoop _ _ _ _); [done | apply switchCluster_fuel |].
  destruct (length _ =? 1)%nat; [|done]. by destruct (entityStates st !! x).
Qed.

Lemma processEvent_fuel (ev : Event) (st : SimState) :
  processEvent config data localeCompare ev st ≠ OutOfFuel.
Proof.
  unfold processEvent.
  destruct (ev_type ev);
    try (destruct (entityStates st !! entityId ev) as [s|]; [|done]);
    try (destruct (findEntity data (entityId ev)); [|done]); try done.
  - match goal with |- context [getVisiblePeers ?c ?d ?s ?x ?l] =>
      pose proof (getVisiblePeers_fuel s x l);
      destruct (getVisiblePeers c d s x l) as [peers| |]; [|done..] end.
    destruct (length _ =? 0)%nat; [done|].
    destruct (findClusteredPeer _ _) as [[p c]|]; [apply joinAndStop_fuel | done].
  - match goal with |- context [getVisiblePeers ?c ?d ?s ?x ?l] =>
      pose proof (getVisiblePeers_fuel s x l);
      destruct (getVisiblePeers c d s x l) as [peers| |]; [|done..] end.
    destruct (findClusteredPeer _ _) as [[p c]|]; [apply joinAndStop_fuel | done].
  - destruct (_ ≫= _) as [[c cluster]|]; [|done].
    destruct (findEntity data _); [|done].
    destruct (1 <? _)%nat; [done | apply runFallback_fuel].
Qed.

Lemma step_fuel (st : SimState) :
  step config data localeCompare st ≠ Some OutOfFuel.
Proof.
  unfold step. destruct (eventQueue st) as [|ev rest]; [done|].
  intros [= H]. by apply processEvent_fuel in H.
Qed.

Lemma runLoop_terminates (fuel : nat) :
  ∀ st, (queueWeight (eventQueue st) ≤ fuel)%nat →
        runLoop config data localeCompare fuel st ≠ OutOfFuel.
Proof.
  induction fuel as [|fuel IH]; intros st Hw; simpl;
    pose proof (step_fuel st) as Hf;
    destruct (step config data localeCompare st) as [[st'| |]|] eqn:Hs; try done.
  - apply step_weight in Hs. lia.
  - apply IH. apply step_weight in Hs. lia.
Qed.

Lemma runLoop_fuel_S (fuel : nat) :
  ∀ st, runLoop config data localeCompare fuel st ≠ OutOfFuel →
        runLoop config data localeCompare (S fuel) st
        = runLoop config data localeCompare fuel st.
Proof.
  induction fuel as [|fuel IH]; intros st.
  - simpl. by destruct (step config data localeCompare st) as [[st'| |]|].
  - change (runLoop config data localeCompare (S (S fuel)) st) with
      (match step config data localeCompare st with
       | None => Done st
       | Some (Done st') => runLoop config data localeCompare (S fuel) st'
       | Some (Threw msg) => Threw msg
       | Some OutOfFuel => OutOfFuel
       end).
    change (runLoop config data localeCompare (S fuel) st) with
      (match step config data localeCompare st with
       | None => Done st
       | Some (Done st') => runLoop config data localeCompare fuel st'
       | Some (Threw msg) => Threw msg
       | Some OutOfFuel => OutOfFuel
       end).
    destruct (step config data localeCompare st) as [[st'| |]|]; try done. apply IH.
Qed.

Lemma runLoop_fuel_le (fuel fuel' : nat) (st : SimState) :
  (fuel ≤ fuel')%nat →
  runLoop config data localeCompare fuel st ≠ OutOfFuel →
  runLoop config data localeCompare fuel' st = runLoop config data localeCompare fuel st.
Proof.
  induction 1 as [|fuel' Hle IH]; [done|]. intros Hne.
  rewrite runLoop_fuel_S; rewrite IH; done.
Qed.

Lemma scheduled_weight (st : SimState) :
  scheduled config data = Done st →
  queueWeight (eventQueue st) = runFuel data.
Proof.
  unfold scheduled, runFuel.
  destruct (shuffle (entities data) (seed config)) as [shuffled seed'] eqn:Hsh.
  intros (es & evs & -> & Hq & Hall & Hids & _)%scheduleArrivals_done.
  simpl in *. rewrite app_nil_r in Hq.
  assert (es ≡ₚ entities data) as Hperm.
  { apply (shuffle_perm _ _ (seed config)). by rewrite Hsh. }
  rewrite (queueWeight_perm _ _ Hq), <- Hperm.
  apply Permutation_length in Hids. rewrite !length_fmap in Hids. rewrite <- Hids.
  clear -Hall. induction Hall as [|ev evs Hev _ IH]; [done|].
  simpl. unfold eventWeight at 1. rewrite Hev, IH. lia.
Qed.

Lemma run_enough (fuel : nat) :
  (runFuel data ≤ fuel)%nat →
  run config data localeCompare fuel = run config data localeCompare (runFuel data) ∧
  run config data localeCompare (runFuel data) ≠ OutOfFuel.
Proof.
  intros Hle. unfold run.
  destruct (scheduled config data) as [st| |] eqn:Hs; [|done|].
  - apply scheduled_weight in Hs.
    assert (runLoop config data localeCompare (runFuel data) st ≠ OutOfFuel) as Hne.
    { apply runLoop_terminates. lia. }
    split; [by apply runLoop_fuel_le | done].
  - exfalso. revert Hs. unfold scheduled.
    destruct (shuffle _ _) as [shuffled seed'].
    generalize (mkState (entityStates (initialState config data)) [] [] 0 1 seed').
    generalize 0%nat. generalize (length shuffled).
    induction shuffled as [|[e|] l IH]; intros len i st; simpl; [done | apply IH | done].
Qed.

End termination.

(** *** Membership uniqueness (C5) *)

Lemma Core_membershipUnique (st : SimState) : Core st → membershipUnique st.
Proof.
  intros [Hms Hsm _]. split; [|done].
  intros e c1 c2 H1%Hms H2%Hms. congruence.
Qed.

(** C5, as stated, fails on data that lists an entity twice: both
    arrivals find no peer and create a cluster, and the entity ends as a
    member of both, its [clusterId] naming the second. *)
Lemma C5_duplicate_id_counterexample :
  ∃ st,
    run (defaultConfig 42) twiceData codeUnitCompare (runFuel twiceData) = Done st ∧
    memberOf st "E1" "cluster_1" ∧ memberOf st "E1" "cluster_2" ∧
    ¬ membershipUnique st.
Proof.
  destruct (run (defaultConfig 42) twiceData codeUnitCompare (runFuel twiceData))
    as [st| |] eqn:Hrun; [|vm_compute in Hrun; discriminate..].
  exists st. split; [done|].
  vm_compute in Hrun. injection Hrun as <-.
  lazymatch goal with
  | |- memberOf ?s _ _ ∧ _ =>
      assert (memberOf s "E1" "cluster_1") as H1
        by (exists ["E1"]; split; [reflexivity | apply list_elem_of_here]);
      assert (memberOf s "E1" "cluster_2") as H2
        by (exists ["E1"]; split; [reflexivity | apply list_elem_of_here])
  end.
  split; [exact H1|]. split; [exact H2|].
  intros [Huniq _]. specialize (Huniq "E1" "cluster_1" "cluster_2" H1 H2). discriminate.
Qed.

(** C5, amended: when the ids of the entities are distinct, then in every
    state of a run (before the first event, between any two
    events, and at the end) every entity is a member of at most one
    cluster's member set, and a recorded [clusterId] names a cluster
    whose member set contains the entity. *)
Theorem C5_membership_unique
    (config : SimConfig) (data : SimulationData)
    (localeCompare : string → string → Z) (n : nat) (st : SimState)
    (Hids : NoDup (id <$> entities data))
    (Hrun : stateAfter config data localeCompare n = Done st) :
  membershipUnique st.
Proof.
  apply Core_membershipUnique, inv_core.
  unfold stateAfter in Hrun.
  destruct (scheduled config data) as [st0| |] eqn:Hsched; try done.
  apply (runSteps_invariant config data localeCompare n st0); [|done].
  by apply (scheduled_invariant config data).
Qed.

Lemma C5_two_leaders_witness : membershipUnique twoLeaders.
Proof.
  apply (C5_membership_unique scenario3 (pairData "a" "b") codeUnitCompare 6).
  - simpl. apply NoDup_cons. split; [|apply NoDup_singleton].
    intros H%list_elem_of_singleton. discriminate H.
  - vm_compute. reflexivity.
Defined.

(** *** The lexicographic step and the lone entity (C3) *)

Section fallback.
Context (config : SimConfig) (data : SimulationData).
Context (localeCompare : string → string → Z).

Lemma insertById_perm (e : Entity) (l : list Entity) :
  insertById localeCompare e l ≡ₚ e :: l.
Proof.
  induction l as [|x l IH]; simpl; [done|].
  destruct (localeCompare (id e) (id x) <? 0); [done|].
  rewrite IH. apply Permutation_swap.
Qed.

Lemma sortById_perm (l : list Entity) : sortById localeCompare l ≡ₚ l.
Proof.
  unfold sortById.
  assert (∀ acc, foldl (λ acc e, insertById localeCompare e acc) acc l ≡ₚ acc ++ l) as H.
  { induction l as [|x l IH]; intros acc; simpl; [by rewrite app_nil_r|].
    rewrite IH, insertById_perm. simpl. apply Permutation_middle. }
  apply H.
Qed.

Lemma findEntity_Some (x : string) (entity : Entity) :
  findEntity data x = Some entity → entity ∈ entities data ∧ id entity = x.
Proof.
  unfold findEntity. intros [Hin Heq]%List.find_some.
  split; [by apply list_elem_of_In | by apply String.eqb_eq].
Qed.

Lemma lexLoop_self (st : SimState) (x my : string) (l : list Entity) :
  x ∈ id <$> l → lexLoop st x my l ≠ LoopEnded.
Proof.
  induction l as [|ent l IH]; simpl; [by intros ?%elem_of_nil|].
  destruct (String.eqb_spec (id ent) x) as [_|Hne]; [done|].
  intros [?|Hin]%elem_of_cons; [done|].
  destruct (String.eqb (type ent) "cluster_leader"); [by apply IH|].
  destruct (clusterOf st (id ent)) as [c|]; [|by apply IH].
  destruct (String.eqb c my); [by apply IH | done].
Qed.

(** The loop over the entities of the layer always meets the entity
    itself or a cluster to join: the statements after the loop, which
    dissolve the cluster of an entity alone at its layer, are never
    reached. *)
Lemma dissolve_unreachable (st : SimState) (x my : string) (entity : Entity) :
  findEntity data x = Some entity →
  lexLoop st x my (layerEntitiesOf data localeCompare (_kg_layer entity)) ≠ LoopEnded.
Proof.
  intros [Hin Hid]%findEntity_Some. apply lexLoop_self.
  apply list_elem_of_fmap. exists entity. split; [done|].
  unfold layerEntitiesOf. rewrite sortById_perm.
  apply list_elem_of_In, List.filter_In. split; [by apply list_elem_of_In|].
  apply Z.eqb_refl.
Qed.

End fallback.

(** *** Determinism under a seed (C7) *)

Section collation.
Context (config : SimConfig) (data : SimulationData).
Context (cmp1 cmp2 : string → string → Z).
Context (Hagree : ∀ a b, a ∈ id <$> entities data → b ∈ id <$> entities data →
                    (cmp1 a b <? 0) = (cmp2 a b <? 0)).

Lemma insertById_agree (e : Entity) (l : list Entity) :
  id e ∈ id <$> entities data →
  Forall (λ x, id x ∈ id <$> entities data) l →
  insertById cmp1 e l = insertById cmp2 e l.
Proof.
  intros He Hl. induction Hl as [|x l Hx Hl IH]; [done|].
  simpl. rewrite (Hagree _ _ He Hx), IH. done.
Qed.

Lemma sortById_agree (l : list Entity) :
  Forall (λ x, id x ∈ id <$> entities data) l →
  sortById cmp1 l = sortById cmp2 l.
Proof.
  unfold sortById.
  assert (Forall (λ x, id x ∈ id <$> entities data) (@nil Entity)) as Hnil
    by apply List.Forall_nil.
  revert Hnil. generalize (@nil Entity).
  induction l as [|e l IH]; intros acc Hacc Hl; [done|].
  apply Forall_cons in Hl as [He Hl]. simpl.
  rewrite (insertById_agree e acc He Hacc). apply IH; [|done].
  rewrite (insertById_perm cmp2). by apply Forall_cons.
Qed.

Lemma layerEntitiesOf_agree (layer : Z) :
  layerEntitiesOf data cmp1 layer = layerEntitiesOf data cmp2 layer.
Proof.
  unfold layerEntitiesOf. apply sortById_agree.
  apply Forall_forall. intros e He%list_elem_of_In.
  apply List.filter_In in He as [He _]. apply list_elem_of_In in He.
  by apply list_elem_of_fmap_2.
Qed.

Lemma runFallback_agree (x c : string) (layer : Z) (st : SimState) :
  runFallback data cmp1 x c layer st = runFallback data cmp2 x c layer st.
Proof. unfold runFallback. by rewrite layerEntitiesOf_agree. Qed.

Lemma processEvent_agree (ev : Event) (st : SimState) :
  processEvent config data cmp1 ev st = processEvent config data cmp2 ev st.
Proof.
  unfold processEvent. destruct (ev_type ev); try done.
  destruct (entityStates st !! entityId ev); [|done].
  destruct (_ ≫= _) as [[c cl]|]; [|done].
  destruct (findEntity data (entityId ev)); [|done].
  by rewrite runFallback_agree.
Qed.

Lemma runLoop_agree (fuel : nat) (st : SimState) :
  runLoop config data cmp1 fuel st = runLoop config data cmp2 fuel st.
Proof.
  revert st. induction fuel as [|fuel IH]; intros st; simpl; unfold step;
    (destruct (eventQueue st) as [|ev rest]; [done|]);
    rewrite processEvent_agree;
    (destruct (processEvent config data cmp2 ev _) as [st'| |]; [|done..]); [done|].
  apply IH.
Qed.

Lemma run_agree (fuel : nat) :
  run config data cmp1 fuel = run config data cmp2 fuel.
Proof.
  unfold run. destruct (scheduled config data); [|done..]. apply runLoop_agree.
Qed.

End collation.

(** C7, as stated, leaves out an input of the run: the lexicographic
    step sorts the ids with [localeCompare], whose order is the one of the
    locale the process runs in.  On the entities CHA and CZA, without
    similarity lists, scenario 3 ends with cluster_1 led by CHA where CHA
    sorts first (English), and with cluster_2 led by CZA where CH sorts
    after CZ (Czech): same data, same config, same seed, different final
    clusters, entity states and [getResults()]. *)
Lemma C7_collation_counterexample :
  let data := strangers (person "CHA" 0) (person "CZA" 0) in
  mapDone (λ st, (λ kv, (kv.1, leaderId kv.2, members kv.2)) <$> clusters st)
    (run scenario3 data codeUnitCompare (runFuel data))
  = Done [("cluster_1", "CHA", ["CHA"; "CZA"])] ∧
  mapDone (λ st, (λ kv, (kv.1, leaderId kv.2, members kv.2)) <$> clusters st)
    (run scenario3 data czechCompare (runFuel data))
  = Done [("cluster_2", "CZA", ["CZA"; "CHA"])] ∧
  mapDone (λ st, clusterIdOf st "CHA") (run scenario3 data codeUnitCompare (runFuel data))
  = Done (Some "cluster_1") ∧
  mapDone (λ st, clusterIdOf st "CHA") (run scenario3 data czechCompare (runFuel data))
  = Done (Some "cluster_2") ∧
  results scenario3 data czechCompare (runFuel data)
  ≠ results scenario3 data codeUnitCompare (runFuel data).
Proof.
  intros data. repeat split; try (vm_compute; reflexivity).
  unfold results.
  destruct (run scenario3 data czechCompare (runFuel data)) as [st2| |] eqn:H2;
    [|vm_compute in H2; discriminate H2..].
  destruct (run scenario3 data codeUnitCompare (runFuel data)) as [st1| |] eqn:H1;
    [|vm_compute in H1; discriminate H1..].
  intros Heq.
  apply (f_equal (λ o, match o with
                       | Done r => s_id <$> r_clusters r
                       | _ => []
                       end)) in Heq.
  vm_compute in H1. injection H1 as <-.
  vm_compute in H2. injection H2 as <-.
  vm_compute in Heq. discriminate Heq.
Qed.

(** C7, amended: a run is a function of the data, the config and the
    order in which [localeCompare] puts the entity ids.  For two runs with
    the same data and config (seed included) whose collations agree on
    which of any two entity ids sorts first, the event loop ends in both
    (five turns per entity suffice), and they end alike: the same outcome,
    and when that is a final state, the same clusters with the same
    leaders and member sets, the same entity states, and the same
    [getResults()] output. *)
Theorem C7_run_deterministic_amended
    (config : SimConfig) (data : SimulationData)
    (localeCompare localeCompare' : string → string → Z) (fuel fuel' : nat)
    (Hcollation : ∀ a b, a ∈ id <$> entities data → b ∈ id <$> entities data →
        (localeCompare a b <? 0) = (localeCompare' a b <? 0))
    (Hfuel : (runFuel data ≤ fuel)%nat) (Hfuel' : (runFuel data ≤ fuel')%nat) :
  run config data localeCompare fuel ≠ OutOfFuel ∧
  run config data localeCompare' fuel' = run config data localeCompare fuel ∧
  (∀ st st',
     run config data localeCompare fuel = Done st →
     run config data localeCompare' fuel' = Done st' →
     clusters st' = clusters st ∧
     (∀ c, leaderId <$> Js.mapGet c (clusters st') = leaderId <$> Js.mapGet c (clusters st)) ∧
     (∀ c, membersOf st' c = membersOf st c) ∧
     entityStates st' = entityStates st) ∧
  results config data localeCompare' fuel' = results config data localeCompare fuel.
Proof.
  destruct (run_enough config data localeCompare fuel Hfuel) as [Heq Hne].
  destruct (run_enough config data localeCompare' fuel' Hfuel') as [Heq' _].
  assert (run config data localeCompare' fuel' = run config data localeCompare fuel) as Hsame.
  { rewrite Heq, Heq'. symmetry. by apply run_agree. }
  split; [by rewrite Heq|]. split; [done|]. split.
  - intros st st' Hst Hst'. rewrite Hsame, Hst in Hst'. injection Hst' as <-. done.
  - unfold results. by rewrite Hsame.
Qed.

Lemma C7_scenario3_witness :
  results scenario3 (pairData "a" "b") czechCompare 12
  = results scenario3 (pairData "a" "b") codeUnitCompare 10.
Proof.
  assert (∀ a b : string,
            a ∈ id <$> entities (pairData "a" "b") →
            b ∈ id <$> entities (pairData "a" "b") →
            (codeUnitCompare a b <? 0) = (czechCompare a b <? 0)) as Hc.
  { intros a b Ha Hb. simpl in Ha, Hb.
    apply list_elem_of_In in Ha, Hb. simpl in Ha, Hb.
    destruct Ha as [<-|[<-|[]]], Hb as [<-|[<-|[]]]; reflexivity. }
  assert (runFuel (pairData "a" "b") ≤ 10)%nat as H10 by (vm_compute; lia).
  assert (runFuel (pairData "a" "b") ≤ 12)%nat as H12 by (vm_compute; lia).
  exact (proj2 (proj2 (proj2 (C7_run_deterministic_amended scenario3 (pairData "a" "b")
                         codeUnitCompare czechCompare 10 12 Hc H10 H12)))).
Defined.

(** C3 fails on the code: the only entity of the run creates its
    cluster, its follower wait ends, the fallback returns at "Reached self
    in lex order", and the run ends with the entity still the single
    member of its cluster. *)
Lemma C3_lone_entity_keeps_cluster :
  ∃ st,
    run (defaultConfig 42) loneData codeUnitCompare (runFuel loneData) = Done st ∧
    eventQueue st = [] ∧
    clusterIdOf st "E1" = Some "cluster_1" ∧
    membersOf st "cluster_1" = Some ["E1"] ∧
    unclustered (getResults (defaultConfig 42) loneData st) = 0%nat ∧
    totalClusters (getResults (defaultConfig 42) loneData st) = 1%nat.
Proof.
  destruct (run (defaultConfig 42) loneData codeUnitCompare (runFuel loneData))
    as [st| |] eqn:Hrun; [|vm_compute in Hrun; discriminate..].
  exists st. split; [done|].
  vm_compute in Hrun. injection Hrun as <-.
  repeat split; vm_compute; reflexivity.
Qed.

(** *** Two leaders (C4) *)

(** Two entities [M] and [O] of one layer, in either order in the data. *)
Section pair.
Context (config : SimConfig) (data : SimulationData).
Context (localeCompare : string → string → Z).
Context (M O : Entity).
Context (Hpair : entities data = [M; O] ∨ entities data = [O; M]).
Context (Hdistinct : id M ≠ id O).
Context (Hlayer : _kg_layer M = _kg_layer O).

Lemma findEntity_self : findEntity data (id M) = Some M.
Proof.
  unfold findEntity. destruct Hpair as [-> | ->]; simpl.
  - by rewrite String.eqb_refl.
  - apply not_eq_sym, String.eqb_neq in Hdistinct as ->. by rewrite String.eqb_refl.
Qed.

Lemma findEntity_pair (x : string) (entity : Entity) :
  findEntity data x = Some entity → x = id M ∨ x = id O.
Proof.
  intros [Hin <-]%findEntity_Some.
  destruct Hpair as [Heq|Heq]; rewrite Heq in Hin;
    apply elem_of_cons in Hin as [->|Hin]; auto;
    apply list_elem_of_singleton in Hin as ->; auto.
Qed.

(** The entities of the layer in the order of [localeCompare]. *)
Lemma layerEntitiesOf_pair :
  layerEntitiesOf data localeCompare (_kg_layer M) = [M; O] ∨
  layerEntitiesOf data localeCompare (_kg_layer M) = [O; M].
Proof.
  unfold layerEntitiesOf, sortById.
  destruct Hpair as [-> | ->]; simpl; rewrite <- Hlayer, Z.eqb_refl; simpl;
    destruct (_ <? 0); auto.
Qed.

Lemma lexLoop_self_first (st : SimState) (cM : string) :
  lexLoop st (id M) cM [M; O] = ReachedSelf.
Proof. simpl. by rewrite String.eqb_refl. Qed.

Lemma lexLoop_other_first (st : SimState) (cM cO : string) :
  type O ≠ "cluster_leader" → clusterOf st (id O) = Some cO → cO ≠ cM →
  lexLoop st (id M) cM [O; M] = JoinVia cO.
Proof.
  intros Htype HO Hne. simpl.
  apply not_eq_sym, String.eqb_neq in Hdistinct as ->.
  apply String.eqb_neq in Htype as ->. rewrite HO.
  by apply String.eqb_neq in Hne as ->.
Qed.

(** The semantic step finds the cluster of the other entity or none. *)
Lemma findOtherCluster_pair (st : SimState) (cM cO : string) (l : list string) :
  (∀ p, p ∈ l → p = id M ∨ p = id O) →
  clusterOf st (id M) = Some cM → clusterOf st (id O) = Some cO → cO ≠ cM →
  findOtherCluster st cM l = None ∨ findOtherCluster st cM l = Some cO.
Proof.
  intros Hl HM HO Hne. induction l as [|p l IH]; [by left|].
  simpl. destruct (Hl p (list_elem_of_here _ _)) as [-> | ->].
  - rewrite HM, String.eqb_refl. apply IH. intros q Hq. apply Hl. by right.
  - rewrite HO. apply String.eqb_neq in Hne as ->. by right.
Qed.

(** The fallback of [M], a solo leader beside the solo leader [O]: it
    stays leader when it is the first of the two in the order of
    [localeCompare] (and the semantic step finds nothing), and moves to the
    cluster of [O] otherwise. *)
Lemma runFallback_pair (st : SimState) (cM cO : string) :
  listsOwned data = true → type O ≠ "cluster_leader" →
  clusterOf st (id M) = Some cM → clusterOf st (id O) = Some cO → cO ≠ cM →
  (runFallback data localeCompare (id M) cM (_kg_layer M) st = Done st ∧
   layerEntitiesOf data localeCompare (_kg_layer M) = [M; O]) ∨
  runFallback data localeCompare (id M) cM (_kg_layer M) st
  = switchCluster (id M) cM cO st.
Proof.
  intros Hlists Htype HM HO Hne. unfold runFallback. rewrite findEntity_self.
  assert (∃ sims, similarTo data (id M) = Done sims) as [sims ->].
  { unfold similarTo. destruct (similarities data !! id M) as [sims|] eqn:Hsims; [by eexists|].
    unfold listsOwned in Hlists. rewrite forallb_forall in Hlists.
    assert (In M (entities data)) as Hin by (destruct Hpair as [-> | ->]; simpl; auto).
    specialize (Hlists M Hin). rewrite Hsims in Hlists.
    apply negb_true_iff in Hlists as ->. by eexists. }
  destruct (findOtherCluster_pair st cM cO
              (peerId <$> List.filter (visibleAt data st (_kg_layer M)) sims))
    as [-> | ->]; try done.
  { intros p (s & -> & Hs)%list_elem_of_fmap.
    apply list_elem_of_In, List.filter_In in Hs as [_ Hvis].
    unfold visibleAt in Hvis.
    destruct (findEntity data (peerId s)) as [peer|] eqn:Hpeer; [|done].
    by apply findEntity_pair in Hpeer. }
  2:{ by right. }
  destruct layerEntitiesOf_pair as [-> | ->].
  - left. by rewrite lexLoop_self_first.
  - right. by rewrite (lexLoop_other_first st cM cO).
Qed.

(** When [O] comes first in the order, [M] moves. *)
Lemma runFallback_second (st : SimState) (cM cO : string) :
  listsOwned data = true → type O ≠ "cluster_leader" →
  clusterOf st (id M) = Some cM → clusterOf st (id O) = Some cO → cO ≠ cM →
  layerEntitiesOf data localeCompare (_kg_layer M) = [O; M] →
  runFallback data localeCompare (id M) cM (_kg_layer M) st
  = switchCluster (id M) cM cO st.
Proof.
  intros Hlists Htype HM HO Hne Horder.
  destruct (runFallback_pair st cM cO) as [[_ Heq]|Heq]; try done.
  rewrite Horder in Heq. injection Heq as Heq _.
  destruct Hdistinct. by rewrite Heq.
Qed.

(** Leaving a solo cluster for the other solo cluster. *)
Lemma switchCluster_pair (st : SimState) (cM cO : string) (clM clO : ClusterState)
    (sM : EntityState) :
  cM ≠ cO →
  clusters st = [(cM, clM); (cO, clO)] ∨ clusters st = [(cO, clO); (cM, clM)] →
  members clM = [id M] → members clO = [id O] →
  entityStates st !! id M = Some sM →
  ∃ st',
    switchCluster (id M) cM cO st = Done st' ∧
    eventQueue st' = eventQueue st ∧
    clusters st' = [(cO, set_members [id O; id M] clO)] ∧
    entityStates st' !! id M
    = Some (set_isClusterLeader false (set_clusterId (Some cO) sM)) ∧
    (∀ e, e ≠ id M → entityStates st' !! e = entityStates st !! e).
Proof.
  intros Hne Hclusters HmM HmO HsM.
  unfold switchCluster, leaveCluster, joinCluster.
  assert (mapGet cM (clusters st) = Some clM) as HgM.
  { destruct Hclusters as [-> | ->]; simpl.
    - by rewrite String.eqb_refl.
    - apply not_eq_sym, String.eqb_neq in Hne as ->. by rewrite String.eqb_refl. }
  rewrite HgM, HmM. unfold setDelete. rewrite filter_cons, filter_nil.
  destruct (decide (id M ≠ id M)) as [?|_]; [done|]. simpl.
  assert (mapDelete cM (clusters st) = [(cO, clO)]) as Hdel.
  { unfold mapDelete. destruct Hclusters as [-> | ->];
      rewrite !filter_cons, filter_nil; simpl;
      destruct (decide (cM ≠ cM)), (decide (cO ≠ cM)); try done; congruence. }
  assert (setAdd (id M) [id O] = [id O; id M]) as Hadd.
  { unfold setAdd, setHas. rewrite bool_decide_eq_false_2; [done|].
    by intros ?%list_elem_of_singleton. }
  simpl. rewrite Hdel. simpl. rewrite String.eqb_refl. simpl. rewrite HsM, HmO, Hadd.
  eexists. split; [done|]. simpl. rewrite Hdel. simpl. rewrite String.eqb_refl.
  repeat split; try done.
  - by rewrite !lookup_alter_eq, HsM.
  - intros e He. by rewrite !lookup_alter_ne.
Qed.

(** The turn of the event loop in which the follower wait of [M] ends. *)
Lemma step_wait_ends (st : SimState) (c : string) (cl : ClusterState)
    (t : Z) (rest : list Event) :
  eventQueue st = mkEvent t follower_wait_ends (id M) (Some (DataClusterId c)) :: rest →
  is_Some (entityStates st !! id M) →
  mapGet c (clusters st) = Some cl →
  step config data localeCompare st
  = Some (let st1 :=
            assign (id M) (λ s, set_processing false (set_waitingForFollowers false s))
              (mkState (entityStates st) (clusters st) rest t
                 (nextClusterId st) (rngSeed st)) in
          if (1 <? length (members cl))%nat then Done st1
          else runFallback data localeCompare (id M) c (_kg_layer M) st1).
Proof.
  intros Hq [s Hs] Hcl. unfold step. rewrite Hq. f_equal.
  unfold processEvent. simpl. rewrite Hs, Hcl. simpl. by rewrite findEntity_self.
Qed.

End pair.

Section two_leaders_run.
Context (config : SimConfig) (data : SimulationData).
Context (localeCompare : string → string → Z).

Lemma runLoop_empty (fuel : nat) (st : SimState) :
  eventQueue st = [] → runLoop config data localeCompare fuel st = Done st.
Proof. intros Hq. destruct fuel; unfold runLoop, step; by rewrite Hq. Qed.

Lemma runLoop_step (fuel : nat) (st st' : SimState) :
  step config data localeCompare st = Some (Done st') →
  runLoop config data localeCompare (S fuel) st
  = runLoop config data localeCompare fuel st'.
Proof.
  intros Hstep.
  change (runLoop config data localeCompare (S fuel) st) with
    (match step config data localeCompare st with
     | None => Done st
     | Some (Done st') => runLoop config data localeCompare fuel st'
     | Some (Threw msg) => Threw msg
     | Some OutOfFuel => OutOfFuel
     end).
  by rewrite Hstep.
Qed.

(** Events that only index one of the two entities leave the clusters,
    the cluster ids and the leaders as they are. *)
Lemma indexing_steps (A B : Entity) (q1 q2 : list Event)
    (Hentities : entities data = [A; B] ∨ entities data = [B; A])
    (Hdistinct : id A ≠ id B) :
  indexingOf [id A; id B] q1 →
  ∀ st,
    eventQueue st = q1 ++ q2 →
    is_Some (entityStates st !! id A) → is_Some (entityStates st !! id B) →
    ∃ st',
      (∀ fuel, runLoop config data localeCompare (length q1 + fuel) st
               = runLoop config data localeCompare fuel st') ∧
      eventQueue st' = q2 ∧ clusters st' = clusters st ∧
      (∀ e, clusterIdOf st' e = clusterIdOf st e) ∧
      (∀ e, leads st' e = leads st e).
Proof.
  induction 1 as [|ev q1 [Htype Hid] _ IH]; intros st Hq HA HB.
  - exists st. by repeat split.
  - set (st1 := assign (entityId ev) (set_indexed true)
                  (mkState (entityStates st) (clusters st) (q1 ++ q2) (time ev)
                     (nextClusterId st) (rngSeed st))).
    assert (step config data localeCompare st = Some (Done st1)) as Hstep.
    { unfold step, st1. rewrite Hq. simpl. f_equal. unfold processEvent. rewrite Htype. simpl.
      apply elem_of_cons in Hid as [Hid|Hid].
      - rewrite Hid. destruct HA as [s ->].
        by rewrite (findEntity_self data A B Hentities Hdistinct).
      - apply list_elem_of_singleton in Hid. rewrite Hid. destruct HB as [s ->].
        rewrite (findEntity_self data B A); [done | tauto | by apply not_eq_sym]. }
    destruct (IH st1) as (st' & Hrun & Hq' & Hcl & Hids & Hlead).
    { done. }
    { by apply (assign_is_Some _ _ _ (mkState _ _ _ _ _ _)). }
    { by apply (assign_is_Some _ _ _ (mkState _ _ _ _ _ _)). }
    exists st'. split; [|split; [done|split; [done|split]]].
    + intros fuel. change (length (ev :: q1) + fuel)%nat with (S (length q1 + fuel)).
      rewrite (runLoop_step _ st st1 Hstep). apply Hrun.
    + intros e. rewrite Hids. unfold st1. by rewrite clusterIdOf_assign_flag.
    + intros e. rewrite Hlead. unfold st1, leads. simpl.
      destruct (decide (entityId ev = e)) as [<-|Hne].
      * rewrite lookup_alter_eq. by destruct (entityStates st !! entityId ev).
      * by rewrite lookup_alter_ne.
Qed.

(** The end of a follower wait changes no cluster id and no leader. *)
Lemma wait_flags (x : string) (st : SimState) :
  let st1 := assign x (λ s, set_processing false (set_waitingForFollowers false s)) st in
  (∀ e, entityStates st1 !! e
        = (λ s, if decide (x = e)
                then set_processing false (set_waitingForFollowers false s) else s)
          <$> entityStates st !! e) ∧
  (∀ e, clusterIdOf st1 e = clusterIdOf st e) ∧ (∀ e, leads st1 e = leads st e).
Proof.
  simpl. split; [|split]; intros e; unfold clusterIdOf, leads; simpl;
    (destruct (decide (x = e)) as [<-|Hne];
       [rewrite lookup_alter_eq; by destruct (entityStates st !! x)
       |rewrite lookup_alter_ne by done; by destruct (entityStates st !! e)]).
Qed.

Lemma clusterOf_clusterIdOf_Some (st : SimState) (e c : string) :
  clusterIdOf st e = Some c → c ≠ "" → clusterOf st e = Some c.
Proof.
  unfold clusterIdOf, clusterOf. destruct (entityStates st !! e) as [s|]; [|done].
  simpl. intros -> Hne. simpl. by apply String.eqb_neq in Hne as ->.
Qed.

(** C4, amended: two entities of one layer, neither of type
    [cluster_leader]; when the first follower wait ends both lead a solo
    cluster of their own, and nothing but the other follower wait (and
    events that index the two) is pending.  Then the event loop ends with
    exactly one cluster, which contains both: exactly one of the two
    has dissolved its cluster, joined the other's and stopped leading,
    whether or not the two are indexed or in each other's similarity
    list, and whatever the order of [localeCompare] is. *)
Theorem C4_two_leaders_converge_amended
    (A B : Entity) (cA cB : string) (clA clB : ClusterState)
    (sA sB : EntityState) (tA tB : Z) (pre post : list Event)
    (st : SimState) (fuel : nat)
    (Hentities : entities data = [A; B] ∨ entities data = [B; A])
    (Hdistinct : id A ≠ id B)
    (Hlayer : _kg_layer A = _kg_layer B)
    (HtypeA : type A ≠ "cluster_leader") (HtypeB : type B ≠ "cluster_leader")
    (Hlists : listsOwned data = true)
    (HsA : entityStates st !! id A = Some sA) (HcA : clusterId sA = Some cA)
    (HsB : entityStates st !! id B = Some sB) (HcB : clusterId sB = Some cB)
    (HlA : isClusterLeader sA = true) (HlB : isClusterLeader sB = true)
    (Hne : cA ≠ cB) (HneA : cA ≠ "") (HneB : cB ≠ "")
    (Hclusters : clusters st = [(cA, clA); (cB, clB)] ∨
                 clusters st = [(cB, clB); (cA, clA)])
    (HmA : members clA = [id A]) (HmB : members clB = [id B])
    (Hqueue : eventQueue st =
                mkEvent tA follower_wait_ends (id A) (Some (DataClusterId cA))
                  :: pre
                  ++ mkEvent tB follower_wait_ends (id B) (Some (DataClusterId cB))
                  :: post)
    (Hpre : indexingOf [id A; id B] pre)
    (Hpost : indexingOf [id A; id B] post)
    (Hfuel : (length (eventQueue st) ≤ fuel)%nat) :
  ∃ st' c cl,
    runLoop config data localeCompare fuel st = Done st' ∧
    eventQueue st' = [] ∧
    clusters st' = [(c, cl)] ∧
    clusterIdOf st' (id A) = Some c ∧
    clusterIdOf st' (id B) = Some c ∧
    ((c = cB ∧ cl = set_members [id B; id A] clB ∧
      leads st' (id A) = Some false ∧ leads st' (id B) = Some true) ∨
     (c = cA ∧ cl = set_members [id A; id B] clA ∧
      leads st' (id B) = Some false ∧ leads st' (id A) = Some true)).
Proof.
  set (evB := mkEvent tB follower_wait_ends (id B) (Some (DataClusterId cB))) in *.
  assert (entities data = [B; A] ∨ entities data = [A; B]) as Hentities' by tauto.
  assert (id B ≠ id A) as Hdistinct' by (by apply not_eq_sym).
  assert (mapGet cA (clusters st) = Some clA) as HgA.
  { destruct Hclusters as [-> | ->]; simpl.
    - by rewrite String.eqb_refl.
    - apply not_eq_sym, String.eqb_neq in Hne as ->. by rewrite String.eqb_refl. }
  assert (mapGet cB (clusters st) = Some clB) as HgB.
  { destruct Hclusters as [-> | ->]; simpl.
    - apply String.eqb_neq in Hne as ->. by rewrite String.eqb_refl.
    - by rewrite String.eqb_refl. }
  (* the first follower wait ends *)
  set (st0 := mkState (entityStates st) (clusters st) (pre ++ evB :: post)
                tA (nextClusterId st) (rngSeed st)).
  set (st1 := assign (id A)
                (λ s, set_processing false (set_waitingForFollowers false s)) st0).
  destruct (wait_flags (id A) st0) as (Hes1 & Hid1 & Hlead1). fold st1 in Hes1, Hid1, Hlead1.
  pose proof (step_wait_ends config data localeCompare A B Hentities Hdistinct
                st cA clA tA (pre ++ evB :: post) Hqueue ltac:(eauto) HgA) as Hstep1.
  cbv zeta in Hstep1. fold st0 st1 in Hstep1. rewrite HmA in Hstep1. simpl in Hstep1.
  assert (clusterIdOf st (id A) = Some cA) as HidA by (unfold clusterIdOf; by rewrite HsA).
  assert (clusterIdOf st (id B) = Some cB) as HidB by (unfold clusterIdOf; by rewrite HsB).
  assert (leads st (id A) = Some true) as HleadA by (unfold leads; by rewrite HsA, <- HlA).
  assert (leads st (id B) = Some true) as HleadB by (unfold leads; by rewrite HsB, <- HlB).
  assert (clusterOf st1 (id A) = Some cA) as HofA.
  { apply clusterOf_clusterIdOf_Some; [|done]. by rewrite Hid1. }
  assert (clusterOf st1 (id B) = Some cB) as HofB.
  { apply clusterOf_clusterIdOf_Some; [|done]. by rewrite Hid1. }
  destruct (runFallback_pair data localeCompare A B Hentities Hdistinct Hlayer
              st1 cA cB Hlists HtypeB HofA HofB ltac:(by apply not_eq_sym))
    as [[Hfall Horder]|Hfall]; rewrite Hfall in Hstep1.
  - (* [A] is first in the order and stays leader: [B] moves when its wait ends *)
    destruct (indexing_steps A B pre (evB :: post) Hentities Hdistinct Hpre st1)
      as (st3 & Hrun3 & Hq3 & Hcl3 & Hid3 & Hlead3).
    { done. }
    { rewrite Hes1. simpl. by rewrite HsA. }
    { rewrite Hes1. simpl. by rewrite HsB. }
    assert (is_Some (entityStates st3 !! id B)) as HsB3.
    { specialize (Hid3 (id B)). rewrite Hid1 in Hid3. change (clusterIdOf st0 (id B))
        with (clusterIdOf st (id B)) in Hid3. rewrite HidB in Hid3.
      unfold clusterIdOf in Hid3. by destruct (entityStates st3 !! id B). }
    set (st4 := mkState (entityStates st3) (clusters st3) post tB
                  (nextClusterId st3) (rngSeed st3)).
    set (st5 := assign (id B)
                  (λ s, set_processing false (set_waitingForFollowers false s)) st4).
    destruct (wait_flags (id B) st4) as (Hes5 & Hid5 & Hlead5).
    fold st5 in Hes5, Hid5, Hlead5.
    pose proof (step_wait_ends config data localeCompare B A Hentities' Hdistinct'
                  st3 cB clB tB post Hq3 HsB3 ltac:(by rewrite Hcl3)) as Hstep5.
    cbv zeta in Hstep5. fold st4 st5 in Hstep5. rewrite HmB in Hstep5. simpl in Hstep5.
    assert (∀ e, clusterIdOf st5 e = clusterIdOf st e) as Hsame5.
    { intros e. rewrite Hid5. change (clusterIdOf st4 e) with (clusterIdOf st3 e).
      by rewrite Hid3, Hid1. }
    assert (∀ e, leads st5 e = leads st e) as Hleads5.
    { intros e. rewrite Hlead5. change (leads st4 e) with (leads st3 e).
      by rewrite Hlead3, Hlead1. }
    rewrite (runFallback_second data localeCompare B A Hentities' Hdistinct'
               (eq_sym Hlayer) st5 cB cA) in Hstep5; try done.
    2:{ apply clusterOf_clusterIdOf_Some; [by rewrite Hsame5 | done]. }
    2:{ apply clusterOf_clusterIdOf_Some; [by rewrite Hsame5 | done]. }
    2:{ by rewrite <- Hlayer. }
    destruct (entityStates st5 !! id B) as [sB5|] eqn:HsB5.
    2:{ specialize (Hsame5 (id B)). unfold clusterIdOf in Hsame5 at 1.
        rewrite HsB5, HidB in Hsame5. done. }
    destruct (switchCluster_pair B A Hdistinct' st5 cB cA clB clA sB5)
      as (st6 & Hswitch & Hq6 & Hcl6 & HsB6 & Hes6); try done.
    { unfold st5, st4. simpl. rewrite Hcl3. simpl. tauto. }
    rewrite Hswitch in Hstep5.
    destruct (indexing_steps A B post [] Hentities Hdistinct Hpost st6)
      as (st7 & Hrun7 & Hq7 & Hcl7 & Hid7 & Hlead7).
    { by rewrite app_nil_r, Hq6. }
    { rewrite Hes6 by done. specialize (Hsame5 (id A)). rewrite HidA in Hsame5.
      unfold clusterIdOf in Hsame5. by destruct (entityStates st5 !! id A). }
    { by rewrite HsB6. }
    exists st7, cA, (set_members [id A; id B] clA).
    assert (runLoop config data localeCompare (length (eventQueue st)) st = Done st7)
      as Hrun.
    { rewrite Hqueue. rewrite length_cons, length_app, length_cons.
      rewrite (runLoop_step _ st st1 Hstep1), Hrun3, (runLoop_step _ st3 st6 Hstep5).
      rewrite <- (Nat.add_0_r (length post)), Hrun7. by apply runLoop_empty. }
    split.
    { rewrite (runLoop_fuel_le config data localeCompare _ fuel st Hfuel); rewrite Hrun; done. }
    split; [done|]. split; [by rewrite Hcl7|].
    assert (clusterIdOf st6 (id A) = Some cA) as HA6.
    { unfold clusterIdOf. rewrite Hes6 by done.
      change (clusterIdOf st5 (id A) = Some cA). by rewrite Hsame5. }
    assert (leads st6 (id A) = Some true) as HlA6.
    { unfold leads. rewrite Hes6 by done.
      change (leads st5 (id A) = Some true). by rewrite Hleads5. }
    split; [by rewrite Hid7|]. split.
    { rewrite Hid7. unfold clusterIdOf. by rewrite HsB6. }
    right. split; [done|]. split; [done|]. split.
    + rewrite Hlead7. unfold leads. by rewrite HsB6.
    + by rewrite Hlead7.
  - (* [A] moves to the cluster of [B], which then has two members *)
    destruct (entityStates st1 !! id A) as [sA1|] eqn:HsA1.
    2:{ rewrite Hes1 in HsA1. simpl in HsA1. by rewrite HsA in HsA1. }
    destruct (switchCluster_pair A B Hdistinct st1 cA cB clA clB sA1)
      as (st2 & Hswitch & Hq2 & Hcl2 & HsA2 & Hes2); try done.
    rewrite Hswitch in Hstep1.
    assert (entityStates st2 !! id B = Some sB) as HsB2.
    { rewrite Hes2 by done. rewrite Hes1. simpl. rewrite HsB. simpl.
      by destruct (decide (id A = id B)). }
    destruct (indexing_steps A B pre (evB :: post) Hentities Hdistinct Hpre st2)
      as (st3 & Hrun3 & Hq3 & Hcl3 & Hid3 & Hlead3).
    { by rewrite Hq2. }
    { by rewrite HsA2. }
    { by rewrite HsB2. }
    assert (is_Some (entityStates st3 !! id B)) as HsB3.
    { specialize (Hid3 (id B)). unfold clusterIdOf in Hid3. rewrite HsB2 in Hid3.
      simpl in Hid3. rewrite HcB in Hid3. by destruct (entityStates st3 !! id B). }
    pose proof (step_wait_ends config data localeCompare B A Hentities' Hdistinct'
                  st3 cB (set_members [id B; id A] clB) tB post Hq3 HsB3) as Hstep4.
    cbv zeta in Hstep4. simpl in Hstep4.
    set (st4 := assign (id B)
                  (λ s, set_processing false (set_waitingForFollowers false s))
                  (mkState (entityStates st3) (clusters st3) post tB
                     (nextClusterId st3) (rngSeed st3))) in *.
    destruct (wait_flags (id B) (mkState (entityStates st3) (clusters st3) post tB
                                   (nextClusterId st3) (rngSeed st3)))
      as (Hes4 & Hid4 & Hlead4). fold st4 in Hes4, Hid4, Hlead4.
    specialize (Hstep4 ltac:(rewrite Hcl3, Hcl2; simpl; by rewrite String.eqb_refl)).
    destruct (indexing_steps A B post [] Hentities Hdistinct Hpost st4)
      as (st5 & Hrun5 & Hq5 & Hcl5 & Hid5 & Hlead5).
    { by rewrite app_nil_r. }
    { rewrite Hes4. simpl. specialize (Hid3 (id A)). unfold clusterIdOf in Hid3.
      rewrite HsA2 in Hid3. simpl in Hid3. by destruct (entityStates st3 !! id A). }
    { rewrite Hes4. simpl. destruct HsB3 as [s ->]. by eexists. }
    exists st5, cB, (set_members [id B; id A] clB).
    assert (runLoop config data localeCompare (length (eventQueue st)) st = Done st5)
      as Hrun.
    { rewrite Hqueue. rewrite length_cons, length_app, length_cons.
      rewrite (runLoop_step _ st st2 Hstep1), Hrun3, (runLoop_step _ st3 st4 Hstep4).
      rewrite <- (Nat.add_0_r (length post)), Hrun5. by apply runLoop_empty. }
    split.
    { rewrite (runLoop_fuel_le config data localeCompare _ fuel st Hfuel); rewrite Hrun; done. }
    split; [done|]. split.
    { rewrite Hcl5. unfold st4. simpl. by rewrite Hcl3. }
    assert (∀ e, clusterIdOf st5 e = clusterIdOf st2 e) as Hsame.
    { intros e. rewrite Hid5, Hid4. simpl. apply Hid3. }
    assert (∀ e, leads st5 e = leads st2 e) as Hleads.
    { intros e. rewrite Hlead5, Hlead4. simpl. apply Hlead3. }
    split; [rewrite Hsame; unfold clusterIdOf; by rewrite HsA2|].
    split; [rewrite Hsame; unfold clusterIdOf; by rewrite HsB2|].
    left. split; [done|]. split; [done|]. split.
    + rewrite Hleads. unfold leads. by rewrite HsA2.
    + rewrite Hleads. unfold leads. by rewrite HsB2, <- HlB.
Qed.

End two_leaders_run.

(** C4, as stated, fails: [b] arrives first, finds nobody indexed and
    creates cluster_1; its follower wait ends before [a] has arrived and
    the lexicographic step finds [a] without a cluster; [a] then creates
    cluster_2, is first in lexicographic order and stays leader.  Both
    follower waits and fallbacks are over and two solo clusters remain.
    It fails also when both clusters exist in time but one entity is of
    type [cluster_leader] and not indexed: the lexicographic step of the
    other skips it. *)
Lemma C4_lagging_index_counterexample :
  (∃ st,
     run lagConfig (pairData "b" "a") codeUnitCompare (runFuel (pairData "b" "a"))
       = Done st ∧
     eventQueue st = [] ∧
     (λ kv, (kv.1, leaderId kv.2, members kv.2)) <$> clusters st
       = [("cluster_1", "b", ["b"]); ("cluster_2", "a", ["a"])] ∧
     clusterIdOf st "a" = Some "cluster_2" ∧
     clusterIdOf st "b" = Some "cluster_1") ∧
  mapDone (λ st, (eventQueue st,
                  (λ kv, (kv.1, leaderId kv.2, members kv.2)) <$> clusters st))
    (run slowIndexConfig leaderTypedPair codeUnitCompare (runFuel leaderTypedPair))
  = Done ([], [("cluster_1", "a", ["a"]); ("cluster_2", "b", ["b"])]).
Proof.
  split; [|vm_compute; reflexivity].
  destruct (run lagConfig (pairData "b" "a") codeUnitCompare (runFuel (pairData "b" "a")))
    as [st| |] eqn:Hrun; [|vm_compute in Hrun; discriminate..].
  exists st. split; [done|].
  vm_compute in Hrun. injection Hrun as <-.
  repeat split; vm_compute; reflexivity.
Qed.

Lemma C4_scenario3_witness :
  stateAfter scenario3 (pairData "a" "b") codeUnitCompare 6 = Done twoLeaders ∧
  ∃ st' c cl,
    runLoop scenario3 (pairData "a" "b") codeUnitCompare 2 twoLeaders = Done st' ∧
    eventQueue st' = [] ∧
    clusters st' = [(c, cl)] ∧
    clusterIdOf st' "a" = Some c ∧
    clusterIdOf st' "b" = Some c.
Proof.
  split; [vm_compute; reflexivity|].
  destruct (C4_two_leaders_converge_amended scenario3 (pairData "a" "b") codeUnitCompare
           (person "a" 0) (person "b" 0) "cluster_1" "cluster_2"
           (mkCluster "cluster_1" "a" ["a"] 0) (mkCluster "cluster_2" "b" ["b"] 50)
           (mkEntityState true true (Some "cluster_1") true true true (Some 0))
           (mkEntityState true true (Some "cluster_2") true true true (Some 50))
           61189 84946 [] [] twoLeaders 2)
    as (st' & c & cl & Hrun & Hq & Hcl & Ha & Hb & _).
  - left. reflexivity.
  - discriminate.
  - reflexivity.
  - discriminate.
  - discriminate.
  - vm_compute. reflexivity.
  - vm_compute. reflexivity.
  - reflexivity.
  - vm_compute. reflexivity.
  - reflexivity.
  - reflexivity.
  - reflexivity.
  - discriminate.
  - discriminate.
  - discriminate.
  - left. reflexivity.
  - reflexivity.
  - reflexivity.
  - reflexivity.
  - constructor.
  - constructor.
  - simpl. lia.
  - exists st', c, cl. repeat split; assumption.
Defined.

(** With nobody indexed when the follower waits end, the lexicographic
    step alone brings the two leaders together, in either order of
    arrival. *)
Lemma unindexed_leaders_converge :
  mapDone (λ st, (λ kv, (kv.1, leaderId kv.2, members kv.2)) <$> clusters st)
    (run slowIndexConfig (pairData "a" "b") codeUnitCompare 10)
  = Done [("cluster_1", "a", ["a"; "b"])] ∧
  mapDone (λ st, (λ kv, (kv.1, leaderId kv.2, members kv.2)) <$> clusters st)
    (run slowIndexConfig (pairData "b" "a") codeUnitCompare 10)
  = Done [("cluster_2", "a", ["a"; "b"])].
Proof. split; vm_compute; reflexivity. Qed.

(** An entity of type [cluster_leader] is skipped by the lexicographic
    step: beside it the other leader keeps its solo cluster. *)
Lemma cluster_leader_type_is_skipped :
  mapDone (λ st, (λ kv, (kv.1, leaderId kv.2, members kv.2)) <$> clusters st)
    (run slowIndexConfig
       (strangers (mkEntity "a" "cluster_leader" "a" None 0) (person "b" 0))
       codeUnitCompare 10)
  = Done [("cluster_1", "a", ["a"]); ("cluster_2", "b", ["b"])].
Proof. vm_compute; reflexivity. Qed.

End SimFacts.
(** ** Facts about the describe worker's retry loop *)
Module DescribeFacts.
Import JsonValue Describe.

Lemma slice0_length (n : nat) (s : string) : (String.length (slice0 n s) ≤ n)%nat.
Proof.
  unfold slice0. revert s. induction n as [|n IH]; intros s.
  - destruct s; simpl; lia.
  - destruct s as [|c s]; simpl; [lia|]. specialize (IH s). lia.
Qed.

Lemma append_assoc (a b c : string) :
  String.append (String.append a b) c = String.append a (String.append b c).
Proof.
  induction a as [|ch a IH]; [done|].
  change (String ch (String.append (String.append a b) c)
          = String ch (String.append a (String.append b c))).
  by rewrite IH.
Qed.

Lemma occursIn_concat (part : string) (parts : list string) :
  part ∈ parts → occursIn part (concat parts).
Proof.
  induction parts as [|p parts IH]; [by intros ?%elem_of_nil|].
  intros [->|Hin]%elem_of_cons.
  - exists "", (concat parts). reflexivity.
  - destruct (IH Hin) as (before & after & Heq).
    exists (String.append p before), after.
    rewrite append_assoc, <- Heq. reflexivity.
Qed.

Lemma occursIn_append (part a b : string) :
  occursIn part b → occursIn part (String.append a b).
Proof.
  intros (before & after & ->). exists (String.append a before), after.
  by rewrite append_assoc.
Qed.

Lemma append_cons (ch : ascii) (a b : string) :
  String.append (String ch a) b = String ch (String.append a b).
Proof. reflexivity. Qed.

Lemma slice0_short (n : nat) (s : string) :
  (String.length s ≤ n)%nat → slice0 n s = s.
Proof.
  unfold slice0. revert s. induction n as [|n IH]; intros [|ch s]; simpl; try done; [lia|].
  intros Hle. rewrite IH; [done | lia].
Qed.

Lemma slice0_long (n : nat) (s : string) :
  (n ≤ String.length s)%nat →
  String.length (slice0 n s) = n ∧ ∃ rest, s = String.append (slice0 n s) rest.
Proof.
  unfold slice0. revert s. induction n as [|n IH]; intros s Hle.
  - split; [by destruct s|]. exists s. by destruct s.
  - destruct s as [|ch s]; simpl in Hle; [lia|].
    destruct (IH s) as [Hlen [rest Hrest]]; [lia|].
    simpl. split; [by rewrite Hlen|]. exists rest. rewrite append_cons. by rewrite <- Hrest.
Qed.

(** [part] occurs in the text made of [parts] when it is made of
    consecutive ones. *)
Lemma occursIn_middle (before middle after : list string) :
  occursIn (concat middle) (concat (before ++ middle ++ after)).
Proof.
  assert (∀ a b, concat (a ++ b) = String.append (concat a) (concat b)) as Happ.
  { induction a as [|p a IH]; intros b; [done|]. simpl. by rewrite IH, append_assoc. }
  exists (concat before), (concat after). by rewrite !Happ.
Qed.

(** The copy of a response is its beginning, 2000 characters of it
    or all there is. *)
Lemma responseCopy_prefix (c : string) :
  String.length (responseCopy c) = Nat.min 2000 (String.length c) ∧
  ∃ rest, c = String.append (responseCopy c) rest.
Proof.
  unfold responseCopy. destruct (Nat.le_gt_cases (String.length c) 2000) as [Hle|Hlt].
  - rewrite (slice0_short 2000 c Hle). split; [lia|]. exists "".
    clear Hle. induction c as [|ch c IH]; [done|]. rewrite append_cons. by rewrite <- IH.
  - destruct (slice0_long 2000 c) as [Hlen Hrest]; [lia|]. split; [lia | done].
Qed.

Section retry_facts.
Context (JSON_parse : string → string + Json).
Context (callGemini : nat → string → string → string → string + GeminiResponse).
Context (update_label : bool).
Context (Hmessage : ∀ text message, JSON_parse text = inl message → message ≠ "").

Lemma parseResult_message (text e : string) :
  parseResult JSON_parse text = inl e → e ≠ "".
Proof.
  unfold parseResult. destruct (JSON_parse text) as [message|parsed] eqn:Hp.
  - intros [= <-]. by apply (Hmessage text).
  - destruct parsed as [|b|n|s|items|entries]; try (intros [= <-]; done).
    destruct (getProperty "description" entries) as [[|b|n|s|items|es]|];
      intros [= <-]; done.
Qed.

Lemma effectivePrompt_retry (userPrompt e : string) (response : GeminiResponse) :
  e ≠ "" →
  effectivePrompt update_label userPrompt (Some (response, e))
  = String.append userPrompt (retrySection update_label e (content response)).
Proof. intros He. unfold effectivePrompt. by apply String.eqb_neq in He as ->. Qed.

(** The retry prompt holds the error message and the copy of the
    previous response. *)
Lemma retry_prompt_holds (userPrompt e c : string) :
  occursIn e (String.append userPrompt (retrySection update_label e c)) ∧
  occursIn (responseCopy c) (String.append userPrompt (retrySection update_label e c)).
Proof.
  split; apply occursIn_append, occursIn_concat; unfold retrySection;
    repeat (first [apply list_elem_of_here | apply list_elem_of_further]).
Qed.

(** Where they stand in the retry section: the message after its
    label, the copy between the fences. *)
Lemma retry_section_layout (e c : string) :
  occursIn (concat ["## RETRY - JSON PARSE ERROR"; nl; nl;
                    "Your previous response could not be parsed as valid JSON."; nl; nl;
                    "**Error:** "; e; nl; nl;
                    "**Your response was:**"; nl; "```"; nl; responseCopy c])
    (retrySection update_label e c) ∧
  occursIn (String.append (responseCopy c)
              (if (2000 <? String.length c)%nat
               then concat ["...[truncated]"; nl; "```"] else concat [nl; "```"]))
    (retrySection update_label e c).
Proof.
  unfold retrySection. split.
  - apply (occursIn_middle [nl; nl]
             ["## RETRY - JSON PARSE ERROR"; nl; nl;
              "Your previous response could not be parsed as valid JSON."; nl; nl;
              "**Error:** "; e; nl; nl;
              "**Your response was:**"; nl; "```"; nl; responseCopy c] _).
  - destruct (2000 <? String.length c)%nat.
    + apply (occursIn_middle
               [nl; nl; "## RETRY - JSON PARSE ERROR"; nl; nl;
                "Your previous response could not be parsed as valid JSON."; nl; nl;
                "**Error:** "; e; nl; nl; "**Your response was:**"; nl; "```"; nl]
               [responseCopy c; "...[truncated]"; nl; "```"] _).
    + apply (occursIn_middle
               [nl; nl; "## RETRY - JSON PARSE ERROR"; nl; nl;
                "Your previous response could not be parsed as valid JSON."; nl; nl;
                "**Error:** "; e; nl; nl; "**Your response was:**"; nl; "```"; nl]
               [responseCopy c; ""; nl; "```"] _).
Qed.

Lemma attempts_S (apiKey systemPrompt userPrompt : string) (remaining attempt : nat)
    (last : option (GeminiResponse * string)) (calls : list string) :
  attempts JSON_parse callGemini update_label apiKey systemPrompt userPrompt
    (S remaining) attempt last calls
  = match callGemini attempt apiKey systemPrompt
            (effectivePrompt update_label userPrompt last) with
    | inr response =>
        match parseResult JSON_parse (content response) with
        | inr result =>
            (calls ++ [effectivePrompt update_label userPrompt last],
             inr (response, result))
        | inl e =>
            attempts JSON_parse callGemini update_label apiKey systemPrompt userPrompt
              remaining (S attempt) (Some (response, e))
              (calls ++ [effectivePrompt update_label userPrompt last])
        end
    | inl msg => (calls ++ [effectivePrompt update_label userPrompt last], inl msg)
    end.
Proof. reflexivity. Qed.

(** The three attempts, unrolled: the prompts sent and the outcome. *)
Lemma retry_cases (apiKey systemPrompt userPrompt : string) :
  let run := callGeminiWithJsonRetry JSON_parse callGemini update_label
               apiKey systemPrompt userPrompt in
  let retry r e := String.append userPrompt (retrySection update_label e (content r)) in
  (* the first call is rejected *)
  (∃ msg, callGemini 0 apiKey systemPrompt userPrompt = inl msg ∧
          run = ([userPrompt], inl msg)) ∨
  (* the first response is valid *)
  (∃ r0 res, callGemini 0 apiKey systemPrompt userPrompt = inr r0 ∧
             parseResult JSON_parse (content r0) = inr res ∧
             run = ([userPrompt], inr (r0, res))) ∨
  (∃ r0 e0, callGemini 0 apiKey systemPrompt userPrompt = inr r0 ∧
            parseResult JSON_parse (content r0) = inl e0 ∧
     ((∃ msg, callGemini 1 apiKey systemPrompt (retry r0 e0) = inl msg ∧
              run = ([userPrompt; retry r0 e0], inl msg)) ∨
      (∃ r1 res, callGemini 1 apiKey systemPrompt (retry r0 e0) = inr r1 ∧
                 parseResult JSON_parse (content r1) = inr res ∧
                 run = ([userPrompt; retry r0 e0], inr (r1, res))) ∨
      (∃ r1 e1, callGemini 1 apiKey systemPrompt (retry r0 e0) = inr r1 ∧
                parseResult JSON_parse (content r1) = inl e1 ∧
         ((∃ msg, callGemini 2 apiKey systemPrompt (retry r1 e1) = inl msg ∧
                  run = ([userPrompt; retry r0 e0; retry r1 e1], inl msg)) ∨
          (∃ r2 res, callGemini 2 apiKey systemPrompt (retry r1 e1) = inr r2 ∧
                     parseResult JSON_parse (content r2) = inr res ∧
                     run = ([userPrompt; retry r0 e0; retry r1 e1], inr (r2, res))) ∨
          (∃ r2 e2, callGemini 2 apiKey systemPrompt (retry r1 e1) = inr r2 ∧
                    parseResult JSON_parse (content r2) = inl e2 ∧
                    run = ([userPrompt; retry r0 e0; retry r1 e1],
                           inl (exhausted (Some (r2, e2))))))))).
Proof.
  intros run retry. unfold run, callGeminiWithJsonRetry, JSON_PARSE_MAX_RETRIES.
  rewrite attempts_S. change (effectivePrompt update_label userPrompt None) with userPrompt.
  destruct (callGemini 0 apiKey systemPrompt userPrompt) as [msg|r0] eqn:H0;
    [left; by exists msg|].
  destruct (parseResult JSON_parse (content r0)) as [e0|res] eqn:P0;
    [|right; left; by exists r0, res].
  right; right. exists r0, e0. split; [done|]. split; [done|].
  rewrite attempts_S.
  rewrite (effectivePrompt_retry userPrompt e0 r0 (parseResult_message _ _ P0)).
  fold (retry r0 e0).
  destruct (callGemini 1 apiKey systemPrompt (retry r0 e0)) as [msg|r1] eqn:H1;
    [left; by exists msg|].
  destruct (parseResult JSON_parse (content r1)) as [e1|res] eqn:P1;
    [|right; left; by exists r1, res].
  right; right. exists r1, e1. split; [done|]. split; [done|].
  rewrite attempts_S.
  rewrite (effectivePrompt_retry userPrompt e1 r1 (parseResult_message _ _ P1)).
  fold (retry r1 e1).
  destruct (callGemini 2 apiKey systemPrompt (retry r1 e1)) as [msg|r2] eqn:H2;
    [left; by exists msg|].
  destruct (parseResult JSON_parse (content r2)) as [e2|res] eqn:P2;
    [|right; left; by exists r2, res].
  right; right. by exists r2, e2.
Qed.

End retry_facts.
(** C8: when a response fails JSON parsing or validation the call is made
    again, three calls at most; every call after the first sends the user
    prompt followed by a retry section, in which the message of the error
    stands after its label and, between the fences, a copy of the
    previous response: the response itself when it has at most 2000
    characters, its first 2000 characters otherwise (then followed by the
    marker [...[truncated]]); a result is returned only for a response
    that parsed and validated; and when every attempt fails the function
    throws after the third.  (The messages of [JSON.parse]'s errors are
    not empty.) *)
Theorem C8_json_retry
    (JSON_parse : string → string + Json)
    (callGemini : nat → string → string → string → string + GeminiResponse)
    (update_label : bool) (apiKey systemPrompt userPrompt : string)
    (Hmessage : ∀ text message, JSON_parse text = inl message → message ≠ "") :
  let calls := (callGeminiWithJsonRetry JSON_parse callGemini update_label
                  apiKey systemPrompt userPrompt).1 in
  let outcome := (callGeminiWithJsonRetry JSON_parse callGemini update_label
                    apiKey systemPrompt userPrompt).2 in
  (length calls ≤ JSON_PARSE_MAX_RETRIES)%nat ∧
  calls !! 0%nat = Some userPrompt ∧
  (∀ n prompt, calls !! S n = Some prompt →
     ∃ response e,
       failedAt JSON_parse callGemini apiKey systemPrompt calls n response e ∧
       prompt = String.append userPrompt
                  (retrySection update_label e (content response)) ∧
       occursIn e prompt ∧
       occursIn (responseCopy (content response)) prompt ∧
       (String.length (responseCopy (content response)) ≤ 2000)%nat ∧
       String.length (responseCopy (content response))
       = Nat.min 2000 (String.length (content response)) ∧
       (∃ rest, content response = String.append (responseCopy (content response)) rest) ∧
       occursIn (concat ["## RETRY - JSON PARSE ERROR"; nl; nl;
                         "Your previous response could not be parsed as valid JSON.";
                         nl; nl; "**Error:** "; e; nl; nl;
                         "**Your response was:**"; nl; "```"; nl;
                         responseCopy (content response)])
         (retrySection update_label e (content response)) ∧
       occursIn (String.append (responseCopy (content response))
                   (if (2000 <? String.length (content response))%nat
                    then concat ["...[truncated]"; nl; "```"] else concat [nl; "```"]))
         (retrySection update_label e (content response))) ∧
  (∀ response result, outcome = inr (response, result) →
     parseResult JSON_parse (content response) = inr result) ∧
  (everyAttemptFails JSON_parse callGemini apiKey systemPrompt →
     length calls = JSON_PARSE_MAX_RETRIES ∧
     ∃ response e,
       failedAt JSON_parse callGemini apiKey systemPrompt calls 2 response e ∧
       outcome = inl (exhausted (Some (response, e)))).
Proof.
  intros calls outcome. unfold JSON_PARSE_MAX_RETRIES.
  pose proof (retry_cases JSON_parse callGemini update_label Hmessage
                apiKey systemPrompt userPrompt) as Hcases.
  simpl in Hcases. unfold calls, outcome.
  assert (∀ s, (String.length (responseCopy s) ≤ 2000)%nat) as Hcopy
    by (intros s; apply slice0_length).
  destruct Hcases as
    [(msg & H0 & ->)
    |[(r0 & res & H0 & P0 & ->)
     |(r0 & e0 & H0 & P0 &
        [(msg & H1 & ->)
        |[(r1 & res & H1 & P1 & ->)
         |(r1 & e1 & H1 & P1 &
            [(msg & H2 & ->)
            |[(r2 & res & H2 & P2 & ->)
             |(r2 & e2 & H2 & P2 & ->)]])]])]]; simpl.
  all: split; [lia|]; split; [done|].
  all: split;
    [intros [|[|n]] prompt; simpl; try done; intros [= <-];
     first [ exists r0, e0; split; [by eexists|]; split; [done|];
             split; [apply retry_prompt_holds|]; split; [apply retry_prompt_holds|];
             split; [done|]; split; [apply responseCopy_prefix|];
             split; [apply responseCopy_prefix|]; apply retry_section_layout
           | exists r1, e1; split; [by eexists|]; split; [done|];
             split; [apply retry_prompt_holds|]; split; [apply retry_prompt_holds|];
             split; [done|]; split; [apply responseCopy_prefix|];
             split; [apply responseCopy_prefix|]; apply retry_section_layout ]|].
  all: split; [intros response result; try done; by intros [= <- <-]|].
  all: intros Hfail.
  - destruct (Hfail 0%nat userPrompt) as (r & e & Hr & _). congruence.
  - destruct (Hfail 0%nat userPrompt) as (r & e & Hr & He). congruence.
  - destruct (Hfail 1%nat (String.append userPrompt
                (retrySection update_label e0 (content r0)))) as (r & e & Hr & _).
    congruence.
  - destruct (Hfail 1%nat (String.append userPrompt
                (retrySection update_label e0 (content r0)))) as (r & e & Hr & He).
    congruence.
  - destruct (Hfail 2%nat (String.append userPrompt
                (retrySection update_label e1 (content r1)))) as (r & e & Hr & _).
    congruence.
  - destruct (Hfail 2%nat (String.append userPrompt
                (retrySection update_label e1 (content r1)))) as (r & e & Hr & He).
    congruence.
  - split; [done|]. exists r2, e2. split; [by eexists|done].
Qed.

Lemma C8_malformed_witness :
  (callGeminiWithJsonRetry toyParse alwaysMalformed true "key" "system" "user").2
  = inl "Failed to get valid JSON after 3 attempts. Last error: Unexpected token. Last response preview: not json..." ∧
  ∃ prompt,
    (callGeminiWithJsonRetry toyParse alwaysMalformed true "key" "system" "user").1 !! 1%nat
    = Some prompt ∧
    occursIn "Unexpected token" prompt ∧ occursIn "not json" prompt.
Proof.
  assert (∀ text message, toyParse text = inl message → message ≠ "") as Hmessage.
  { intros text message. unfold toyParse. destruct (String.eqb text "ok"); [discriminate|].
    intros [= <-]. discriminate. }
  pose proof (C8_json_retry toyParse alwaysMalformed true "key" "system" "user" Hmessage)
    as (_ & _ & Hretry & _ & Hfail).
  assert (everyAttemptFails toyParse alwaysMalformed "key" "system") as Hevery.
  { intros n prompt. exists (mkResponse "not json"), "Unexpected token".
    split; reflexivity. }
  split.
  - destruct (Hfail Hevery) as (_ & response & e & (prompt & _ & Hcall & Hparse) & Hthrow).
    injection Hcall as <-. injection Hparse as <-.
    exact Hthrow.
  - destruct ((callGeminiWithJsonRetry toyParse alwaysMalformed true "key" "system" "user").1
                !! 1%nat) as [prompt|] eqn:Hprompt; [|vm_compute in Hprompt; discriminate].
    exists prompt. split; [reflexivity|].
    destruct (Hretry 0%nat prompt Hprompt)
      as (response & e & (prompt0 & _ & Hcall & Hparse) & _ & He & Hcopy & _).
    injection Hcall as <-. injection Hparse as <-.
    split; [exact He | exact Hcopy].
Defined.

(** Malformed twice, then valid: three calls, two of them retries, and
    the result of the third response. *)
Lemma valid_at_third :
  let run := callGeminiWithJsonRetry toyParse validAtThird false "key" "system" "user" in
  length run.1 = 3%nat ∧
  run.2 = inr (mkResponse "ok", mkResult "a cluster" None None).
Proof. split; vm_compute; reflexivity. Qed.

End DescribeFacts.
(** ** Facts about the environment substitution *)
Module RegisterFacts.
Import JsonValue Register.

Lemma Json_induction (P : Json → Prop) :
  P JNull → (∀ b, P (JBool b)) → (∀ n, P (JNumber n)) → (∀ s, P (JString s)) →
  (∀ items, Forall P items → P (JArray items)) →
  (∀ entries, Forall (λ kv, P kv.2) entries → P (JObject entries)) →
  ∀ j, P j.
Proof.
  intros Hnull Hbool Hnum Hstr Harr Hobj. fix self 1. intros [|b|n|s|items|entries].
  - exact Hnull.
  - apply Hbool.
  - apply Hnum.
  - apply Hstr.
  - apply Harr. induction items as [|x items IH]; constructor; [apply self | exact IH].
  - apply Hobj. induction entries as [|[k v] entries IH]; constructor;
      [apply self | exact IH].
Qed.

Lemma substitute_array (env : gmap string string) (items : list Json) :
  substituteEnvVars env (JArray items) = mapDone VArray (mapItems env items).
Proof. reflexivity. Qed.

Lemma substitute_object (env : gmap string string) (entries : list (string * Json)) :
  substituteEnvVars env (JObject entries)
  = mapDone (λ result, VObject result.1 result.2)
      (eachEntry env entries (VObjectPrototype, [])).
Proof. reflexivity. Qed.

Lemma mapItems_cons (env : gmap string string) (x : Json) (rest : list Json) :
  mapItems env (x :: rest)
  = match substituteEnvVars env x with
    | Done x' =>
        match mapItems env rest with
        | Done rest' => Done (x' :: rest')
        | Threw msg => Threw msg
        | OutOfFuel => OutOfFuel
        end
    | Threw msg => Threw msg
    | OutOfFuel => OutOfFuel
    end.
Proof. reflexivity. Qed.

Lemma eachEntry_cons (env : gmap string string) (key : string) (value : Json)
    (rest : list (string * Json)) (result : Value * list (string * Value)) :
  eachEntry env ((key, value) :: rest) result
  = match substituteEnvVars env value with
    | Done value' =>
        match assignProperty (newKeyOf env key) value' result with
        | Done result' => eachEntry env rest result'
        | Threw msg => Threw msg
        | OutOfFuel => OutOfFuel
        end
    | Threw msg => Threw msg
    | OutOfFuel => OutOfFuel
    end.
Proof. reflexivity. Qed.

Lemma head_omap_app {A B} (f : A → option B) (l1 l2 : list A) :
  head (omap f (l1 ++ l2)) =
    match head (omap f l1) with
    | Some x => Some x
    | None => head (omap f l2)
    end.
Proof. rewrite omap_app. by destruct (omap f l1). Qed.

(** *** Assignments *)

Lemma owns_elem_of {V} (key : string) (entries : list (string * V)) :
  owns key entries = true ↔ key ∈ entries.*1.
Proof.
  unfold owns. induction entries as [|[k v] entries IH]; simpl.
  - split; [done | by intros ?%elem_of_nil].
  - rewrite orb_true_iff, IH, elem_of_cons.
    destruct (String.eqb_spec k key) as [->|Hne]; naive_solver.
Qed.

Lemma owns_false {V} (key : string) (entries : list (string * V)) :
  owns key entries = false ↔ key ∉ entries.*1.
Proof.
  rewrite <- owns_elem_of. by destruct (owns key entries).
Qed.


(** Under a key other than [__proto__] an object with the prototype of
    a literal gets an own property. *)
Lemma assignProperty_writable (key : string) (value : Value)
    (entries : list (string * Value)) :
  writable key = true →
  assignProperty key value (VObjectPrototype, entries)
  = Done (VObjectPrototype, setProperty key value entries).
Proof.
  intros Hw. unfold assignProperty, setProperty.
  destruct (owns key entries); [done|].
  simpl. unfold atObjectPrototype. unfold writable in Hw.
  by destruct (String.eqb key "__proto__").
Qed.

(** *** The substitution never runs out, and returns only when nothing
    is missing *)






(** *** The document with its variables replaced *)

Lemma inEntriesOrder_prefix (l1 l2 : list string) :
  inEntriesOrder (l1 ++ l2) = true → inEntriesOrder l1 = true.
Proof.
  induction l1 as [|k l1 IH]; [done|]. simpl.
  rewrite !andb_true_iff. intros [Hk Hrest]. split; [|by apply IH].
  destruct (arrayIndex k); rewrite forallb_app, andb_true_iff in Hk; apply Hk.
Qed.

(** A key that comes last in the order of [Object.entries] is
    appended. *)
Lemma setProperty_last {V} (key : string) (value : V) (entries : list (string * V)) :
  key ∉ entries.*1 →
  inEntriesOrder (entries.*1 ++ [key]) = true →
  setProperty key value entries = entries ++ [(key, value)].
Proof.
  intros Hnot%owns_false Horder. unfold setProperty. rewrite Hnot.
  destruct (arrayIndex key) as [n|] eqn:Hkey; [|done].
  clear Hnot. induction entries as [|[k v] entries IH]; [done|].
  simpl in Horder. apply andb_true_iff in Horder as [Hk Hrest].
  cbn [insertIndexed].
  destruct (arrayIndex k) as [m|]; rewrite forallb_app, andb_true_iff in Hk;
    destruct Hk as [_ Hk]; cbn [forallb] in Hk; rewrite Hkey, andb_true_r in Hk.
  - rewrite Hk. by rewrite IH.
  - by apply bool_decide_eq_true in Hk.
Qed.

Lemma newKeyOf_plain (env : gmap string string) (key : string) :
  noDollar key = true → newKeyOf env key = key.
Proof. unfold noDollar, newKeyOf. by destruct (afterDollar key). Qed.

(** On a document whose keys are written as they are, each under a key
    of its own and in their order, the substitution replaces the string
    values that name a variable and keeps everything else. *)
Lemma substitute_replaced (env : gmap string string) (doc : Json) :
  distinctKeys doc = true →
  entriesOrdered doc = true →
  forallb noDollar (keysOf doc) = true →
  forallb writable (keysOf doc) = true →
  firstMissing env doc = None →
  substituteEnvVars env doc = Done (replaced env doc).
Proof.
  induction doc as [|b|n|s|items IH|entries IH] using Json_induction;
    intros Hkeys Horder Hnames Hwrite Hmissing; try reflexivity.
  - unfold firstMissing in Hmissing. simpl in Hmissing. unfold missingIn in Hmissing.
    simpl. unfold valueFor.
    destruct (afterDollar s) as [envVar|]; [|done].
    destruct (lookupEnv env envVar) as [[[|c value]|name]|]; done.
  - rewrite substitute_array.
    assert (mapItems env items = Done (List.map (replaced env) items)) as ->; [|done].
    unfold firstMissing in Hmissing. simpl in Hkeys, Horder, Hnames, Hwrite, Hmissing.
    induction IH as [|x items Hx _ IHitems]; [done|].
    simpl in Hkeys, Horder, Hnames, Hwrite, Hmissing.
    rewrite forallb_app in Hnames, Hwrite.
    apply andb_true_iff in Hkeys as [Hk1 Hk2].
    apply andb_true_iff in Horder as [Ho1 Ho2].
    apply andb_true_iff in Hnames as [Hn1 Hn2].
    apply andb_true_iff in Hwrite as [Hw1 Hw2].
    rewrite head_omap_app in Hmissing.
    destruct (head (omap (missingIn env) (stringValues x))) eqn:Hm1; [done|].
    rewrite mapItems_cons, (Hx Hk1 Ho1 Hn1 Hw1 Hm1), (IHitems Hk2 Ho2 Hn2 Hw2 Hmissing).
    done.
  - rewrite substitute_object.
    unfold firstMissing in Hmissing. simpl in Hkeys, Horder, Hnames, Hwrite, Hmissing.
    apply andb_true_iff in Hkeys as [Hnd Hkeys]. apply bool_decide_eq_true in Hnd.
    apply andb_true_iff in Horder as [Hord Horder].
    assert (∀ result0,
              NoDup (result0.*1 ++ entries.*1) →
              inEntriesOrder (result0.*1 ++ entries.*1) = true →
              eachEntry env entries (VObjectPrototype, result0)
              = Done (VObjectPrototype,
                      result0 ++ List.map (λ kv, (kv.1, replaced env kv.2)) entries))
      as Heach.
    { induction IH as [|[key value] rest Hvalue _ IHrest]; intros result0 Hfresh Hsorted.
      - simpl. by rewrite app_nil_r.
      - simpl in Hkeys, Horder, Hnames, Hwrite, Hmissing, Hnd, Hord, Hvalue.
        rewrite forallb_app in Hnames, Hwrite.
        apply andb_true_iff in Hkeys as [Hk1 Hk2].
        apply andb_true_iff in Horder as [Ho1 Ho2].
        apply andb_true_iff in Hnames as [Hkey Hnames].
        apply andb_true_iff in Hnames as [Hn1 Hn2].
        apply andb_true_iff in Hwrite as [Hwkey Hwrite].
        apply andb_true_iff in Hwrite as [Hw1 Hw2].
        apply andb_true_iff in Hord as [_ Hord].
        apply NoDup_cons in Hnd as [_ Hnd].
        rewrite head_omap_app in Hmissing.
        destruct (head (omap (missingIn env) (stringValues value))) eqn:Hm1; [done|].
        rewrite eachEntry_cons, (Hvalue Hk1 Ho1 Hn1 Hw1 Hm1), (newKeyOf_plain env key Hkey).
        rewrite (assignProperty_writable _ _ _ Hwkey).
        rewrite fmap_cons in Hfresh, Hsorted. simpl in Hfresh, Hsorted.
        rewrite setProperty_last.
        + rewrite (IHrest Hnd Hk2 Hord Ho2 Hn2 Hw2 Hmissing).
          * simpl. by rewrite <- app_assoc.
          * rewrite fmap_app. simpl. by rewrite <- app_assoc.
          * rewrite fmap_app. simpl. by rewrite <- app_assoc.
        + apply NoDup_app in Hfresh as (_ & Hfresh & _). intros Hin.
          apply (Hfresh key Hin). apply list_elem_of_here.
        + apply (inEntriesOrder_prefix _ rest.*1). by rewrite <- app_assoc.
    }
    rewrite (Heach []); [done | done | done].
Qed.




End RegisterFacts.
(** ** More about the simulator: the generator, the queue, whole runs *)
Module RandomFacts.
Import Js Sim.

(** *** Rounding *)

Lemma roundShift_bounds (m s : Z) :
  0 ≤ m → 0 < s →
  Z.shiftr m s ≤ roundShift m s ≤ Z.shiftr m s + 1.
Proof.
  intros Hm Hs. unfold roundShift.
  destruct (Z.eqb_spec s 0); [lia|].
  destruct (_ <? _); [lia|]. destruct (_ <? _); [lia|].
  destruct (Z.even _); lia.
Qed.

Lemma shiftr_shiftl_le (m s : Z) : 0 ≤ m → 0 ≤ s → Z.shiftr m s * 2 ^ s ≤ m.
Proof.
  intros Hm Hs. rewrite Z.shiftr_div_pow2 by done.
  pose proof (Z.pow_pos_nonneg 2 s ltac:(lia) Hs).
  pose proof (Z.mul_div_le m (2 ^ s) ltac:(lia)). lia.
Qed.

(** The integer operations are exact below [2^53]. *)
Lemma round53_small (m : Z) : Z.abs m < 2 ^ 53 → toZ (round53 m 0) = m.
Proof.
  intros Hm. unfold round53.
  assert (Z.log2 (Z.abs m) - 52 ≤ 0) as Hs.
  { destruct (decide (Z.abs m = 0)) as [->|Hne]; [simpl; lia|].
    assert (Z.log2 (Z.abs m) < 53); [|lia].
    apply Z.log2_lt_pow2; lia. }
  apply Z.leb_le in Hs. rewrite Hs. unfold toZ. simpl. apply Z.shiftl_0_r.
Qed.

(** From [2^53] on the result is even, and as large. *)
Lemma round53_big (m : Z) :
  2 ^ 53 ≤ Z.abs m →
  Z.even (toZ (round53 m 0)) = true ∧ 2 ^ 53 ≤ Z.abs (toZ (round53 m 0)).
Proof.
  intros Hm. unfold round53.
  assert (53 ≤ Z.log2 (Z.abs m)) as Hlog by (apply Z.log2_le_pow2; lia).
  set (s := Z.log2 (Z.abs m) - 52).
  assert (0 < s) as Hs by (unfold s; lia).
  destruct (s <=? 0) eqn:E; [apply Z.leb_le in E; lia|].
  unfold toZ. simpl expo. simpl mant.
  assert ((0 <=? 0 + s) = true) as -> by (apply Z.leb_le; lia).
  rewrite Z.shiftl_mul_pow2 by lia. replace (0 + s) with s by lia.
  pose proof (roundShift_bounds (Z.abs m) s ltac:(lia) Hs) as [Hlo _].
  assert (2 ^ 52 ≤ Z.shiftr (Z.abs m) s) as Hq.
  { rewrite Z.shiftr_div_pow2 by lia.
    apply Z.div_le_lower_bound; [apply Z.pow_pos_nonneg; lia|].
    rewrite <- Z.pow_add_r by lia. replace (s + 52) with (Z.log2 (Z.abs m)) by (unfold s; lia).
    apply Z.log2_spec. lia. }
  split.
  - rewrite Z.even_mul. apply orb_true_iff. right.
    replace s with (Z.succ (s - 1)) by lia. rewrite Z.pow_succ_r by lia.
    rewrite Z.even_mul. done.
  - set (r := roundShift (Z.abs m) s) in *.
    assert (2 ^ 1 ≤ 2 ^ s) as Hpow by (apply Z.pow_le_mono_r; lia).
    assert (2 ^ 53 ≤ r * 2 ^ s) as Hbig by (change (2 ^ 53) with (2 ^ 52 * 2 ^ 1); nia).
    destruct m as [|p|p]; simpl Z.sgn; simpl in Hm; lia.
Qed.

(** *** The generator *)

Lemma land_mask (x : Z) : land x 2147483647 = x mod 2 ^ 31.
Proof.
  unfold land. change (ToInt32 2147483647) with (Z.ones 31).
  rewrite Z.land_ones by lia. unfold ToInt32.
  change (2 ^ 32) with (2 * 2 ^ 31).
  rewrite Zminus_mod, Z_mod_same_full, Z.sub_0_r, Z.mod_mod by lia.
  rewrite (Z.mul_comm 2), Z.rem_mul_r by lia.
  rewrite Z.mul_comm, Z_mod_plus_full, Z.mod_mod by lia.
  rewrite Zplus_mod, Z_mod_same_full, Z.add_0_r, Z.mod_mod by lia. done.
Qed.

(** The state of the generator stays below [2^31 - 1], whatever the
    seed: [random()] is never 1. *)
Lemma random_state (seed : Z) : 0 ≤ (random seed).2 ≤ 2147483646.
Proof.
  unfold random. simpl. rewrite land_mask. unfold add, mul.
  set (P := toZ (round53 (seed * 1103515245) 0)).
  set (x := toZ (round53 (P + 12345) 0)).
  change (2 ^ 31) with 2147483648.
  pose proof (Z.mod_pos_bound x 2147483648 ltac:(lia)) as Hmod.
  pose proof (Z.div_mod x 2147483648 ltac:(lia)) as Hdiv.
  assert (x mod 2147483648 ≠ 2147483647); [|lia].
  assert (Z.even x = true → x mod 2147483648 ≠ 2147483647) as Heven.
  { intros He Hx. apply Z.even_spec in He as [h Hh]. lia. }
  destruct (decide (Z.abs (P + 12345) < 2 ^ 53)) as [Hsum|Hsum].
  2:{ apply Heven. apply round53_big. lia. }
  assert (x = P + 12345) as Hx by (by apply round53_small).
  destruct (decide (Z.abs (seed * 1103515245) < 2 ^ 53)) as [Hprod|Hprod].
  - assert (P = seed * 1103515245) as HP by (by apply round53_small).
    intros Hbad.
    assert (seed = 2147483648 * (x / 2147483648 * 1857678181
                                 - seed * 954594553 + 1857667501)
                   + 230538014) as Heq by lia.
    lia.
  - destruct (round53_big (seed * 1103515245) ltac:(lia)) as [He Hbig]. fold P in He, Hbig.
    apply Z.even_spec in He as [h Hh]. lia.
Qed.

(** [seed / 0x7fffffff] for a state of the generator: a double
    [mant * 2^-E] below [1 - 2^-32]. *)
Lemma div_below_one (a : Z) :
  0 < a ≤ 2147483646 →
  ∃ E, expo (div a 2147483647) = - E ∧ 52 ≤ E ∧
    0 ≤ mant (div a 2147483647) ∧
    2 ^ 32 * mant (div a 2147483647) ≤ (2 ^ 32 - 1) * 2 ^ E.
Proof.
  intros Ha. unfold div.
  destruct (Z.eqb_spec a 0) as [|_]; [lia|].
  change (Z.log2 2147483647) with 30.
  pose proof (Z.log2_spec a ltac:(lia)) as Hlog.
  pose proof (Z.log2_nonneg a) as Hl0.
  assert (Z.log2 a ≤ 30) as Hl30.
  { assert (Z.log2 a < 31); [|lia]. apply Z.log2_lt_pow2; lia. }
  set (l := Z.log2 a) in *.
  replace (Z.max 0 (56 + 30 - l)) with (86 - l) by lia.
  set (p := 86 - l). rewrite Z.shiftl_mul_pow2 by (unfold p; lia).
  set (n := a * 2 ^ p).
  assert (0 < 2 ^ p) as Hp by (apply Z.pow_pos_nonneg; unfold p; lia).
  assert (2 ^ l * 2 ^ p = 2 ^ 86) as Hlp.
  { rewrite <- Z.pow_add_r by (unfold p; lia). f_equal. unfold p. lia. }
  assert (2 ^ 86 ≤ n < 2 ^ 87) as Hn.
  { unfold n. replace (2 ^ Z.succ l) with (2 * 2 ^ l) in Hlog
      by (rewrite Z.pow_succ_r; lia).
    change (2 ^ 87) with (2 * 2 ^ 86). rewrite <- Hlp. nia. }
  set (q := n / 2147483647).
  set (sticky := if n mod 2147483647 =? 0 then 0 else 1).
  assert (0 ≤ sticky ≤ 1) as Hst by (unfold sticky; destruct (_ =? _); lia).
  assert (2 ^ 55 ≤ q < 2 ^ 57) as Hq.
  { unfold q. split.
    - apply Z.div_le_lower_bound; lia.
    - apply Z.div_lt_upper_bound; lia. }
  assert (q * 2147483647 ≤ n) as HqM.
  { unfold q. pose proof (Z.mul_div_le n 2147483647 ltac:(lia)). lia. }
  set (X := 2 * q + sticky) in *.
  assert (2 ^ 56 ≤ X < 2 ^ 58) as HX by (unfold X; lia).
  unfold round53.
  assert (56 ≤ Z.log2 (Z.abs X) ≤ 57) as HlX.
  { rewrite Z.abs_eq by lia. split.
    - apply Z.log2_le_pow2; lia.
    - assert (Z.log2 X < 58); [|lia]. apply Z.log2_lt_pow2; lia. }
  set (s := Z.log2 (Z.abs X) - 52).
  destruct (Z.leb_spec s 0) as [|_]; [unfold s in *; lia|].
  simpl expo. simpl mant.
  assert (Z.sgn X = 1) as -> by lia. rewrite Z.abs_eq by lia.
  exists (p + 1 - s). split; [lia|]. split; [unfold p, s; lia|].
  pose proof (roundShift_bounds X s ltac:(lia) ltac:(unfold s; lia)) as [Hlo Hhi].
  pose proof (shiftr_shiftl_le X s ltac:(lia) ltac:(unfold s; lia)) as Hfloor.
  assert (0 ≤ Z.shiftr X s) as Hsh by (apply Z.shiftr_nonneg; lia).
  split; [lia|].
  set (m := roundShift X s) in *.
  assert (2 ^ (p + 1 - s) * 2 ^ s = 2 * 2 ^ p) as Hpow.
  { rewrite <- Z.pow_add_r by (unfold p, s; lia).
    replace (p + 1 - s + s) with (Z.succ p) by lia. rewrite Z.pow_succ_r; unfold p; lia. }
  assert (2 ^ 52 ≤ 2 ^ (p + 1 - s)) as HE by (apply Z.pow_le_mono_r; unfold p, s; lia).
  set (T := 2 ^ (p + 1 - s)) in *.
  assert (n ≤ 2147483646 * 2 ^ p) as Hna by (unfold n; nia).
  assert (s = 4 ∨ s = 5) as [Hs|Hs] by (unfold s; lia); rewrite Hs in *;
    change (2 ^ 4) with 16 in *; change (2 ^ 5) with 32 in *; lia.
Qed.

(** [Math.floor(d * n)] for such a double stays below [n]: neither the
    rounding of the product nor the floor reaches [n]. *)
Lemma floor_scale_below (d : double) (E n : Z) :
  expo d = - E → 0 < E → 0 ≤ mant d →
  2 ^ 32 * mant d ≤ (2 ^ 32 - 1) * 2 ^ E →
  0 < n →
  0 ≤ floor (scale d n) < n.
Proof.
  intros He HE Hm Hd Hn. unfold floor, scale, round53. rewrite He.
  assert (0 < 2 ^ E) as HT by (apply Z.pow_pos_nonneg; lia).
  set (T := 2 ^ E) in *.
  set (Y := mant d * n).
  assert (0 ≤ Y) as HY by (unfold Y; nia).
  assert (2 ^ 32 * Y ≤ (2 ^ 32 - 1) * (T * n)) as HYn by (unfold Y; nia).
  assert (0 < T * n) as HTn by nia.
  rewrite (Z.abs_eq Y) by done.
  destruct (Z.leb_spec (Z.log2 Y - 52) 0) as [Hs|Hs].
  - unfold toZ. simpl. destruct (Z.leb_spec 0 (- E)) as [|_]; [lia|].
    rewrite Z.opp_involutive, Z.shiftr_div_pow2 by lia. fold T. split.
    + apply Z.div_pos; lia.
    + apply Z.div_lt_upper_bound; lia.
  - assert (0 < Y) as HYpos.
    { destruct (Z.le_gt_cases Y 0) as [H0|]; [|lia].
      rewrite (Z.log2_nonpos Y H0) in Hs. lia. }
    set (s := Z.log2 Y - 52) in *.
    assert (Z.sgn Y = 1) as -> by lia. rewrite Z.mul_1_l.
    pose proof (roundShift_bounds Y s ltac:(lia) Hs) as [Hlo Hhi].
    pose proof (shiftr_shiftl_le Y s ltac:(lia) ltac:(lia)) as Hfloor.
    assert (0 ≤ Z.shiftr Y s) as Hsh by (apply Z.shiftr_nonneg; lia).
    assert (0 < 2 ^ s) as HS by (apply Z.pow_pos_nonneg; lia).
    assert (2 ^ s * 2 ^ 52 ≤ Y) as Hulp.
    { rewrite <- Z.pow_add_r by lia. replace (s + 52) with (Z.log2 Y) by (unfold s; lia).
      apply Z.log2_spec. lia. }
    set (m := roundShift Y s) in *. set (S := 2 ^ s) in *.
    assert (m * S < T * n) as HW.
    { assert (m * S ≤ Y + S) by nia. change (2 ^ 52) with 4503599627370496 in Hulp.
      change (2 ^ 32) with 4294967296 in HYn. lia. }
    unfold toZ. simpl.
    destruct (Z.leb_spec 0 (- E + s)) as [Hpos|Hneg].
    + rewrite Z.shiftl_mul_pow2 by done.
      assert (S = 2 ^ (- E + s) * T) as HSeq.
      { unfold S, T. rewrite <- Z.pow_add_r by lia. f_equal. lia. }
      assert (0 < 2 ^ (- E + s)) by (apply Z.pow_pos_nonneg; lia).
      split; [nia|]. rewrite HSeq in HW. nia.
    + replace (- (- E + s)) with (E - s) by lia.
      rewrite Z.shiftr_div_pow2 by lia.
      assert (T = 2 ^ (E - s) * S) as HTeq.
      { unfold S, T. rewrite <- Z.pow_add_r by lia. f_equal. lia. }
      assert (0 < 2 ^ (E - s)) by (apply Z.pow_pos_nonneg; lia).
      split; [apply Z.div_pos; lia|].
      apply Z.div_lt_upper_bound; [done|]. rewrite HTeq in HW. nia.
Qed.

(** [Math.floor(random() * n)] is an index below [n], for every seed. *)
Lemma randomBelow_range (n seed : Z) :
  0 < n → 0 ≤ (randomBelow n seed).1 < n.
Proof.
  intros Hn. unfold randomBelow.
  pose proof (random_state seed) as Hstate.
  destruct (random seed) as [r seed'] eqn:Hr. simpl in *.
  assert (r = div seed' 2147483647) as ->.
  { unfold random in Hr. by injection Hr as <- <-. }
  destruct (decide (seed' = 0)) as [->|Hne].
  - change (div 0 2147483647) with (mkDouble 0 0). unfold scale.
    change (mant (mkDouble 0 0) * n) with 0. change (floor _) with 0. lia.
  - destruct (div_below_one seed' ltac:(lia)) as (E & He & HE & Hm & Hd).
    apply (floor_scale_below _ E); try done. lia.
Qed.

(** *** [shuffle] *)

Lemma swap_in_range {T} (i j : nat) (l : list T) :
  (i < length l)%nat → (j < length l)%nat →
  ∃ l', swap i j (Some <$> l) = Some <$> l' ∧ length l' = length l.
Proof.
  intros Hi Hj. unfold swap, arrGet.
  destruct (lookup_lt_is_Some_2 l i Hi) as [x Hx].
  destruct (lookup_lt_is_Some_2 l j Hj) as [y Hy].
  rewrite !list_lookup_fmap, Hx, Hy. simpl.
  exists (<[j := x]> (<[i := y]> l)). split; [|by rewrite !length_insert].
  unfold arrSet. rewrite length_fmap.
  destruct (Nat.ltb_spec i (length l)); [|lia].
  rewrite <- list_fmap_insert, length_fmap, length_insert.
  destruct (Nat.ltb_spec j (length l)); [|lia].
  by rewrite <- list_fmap_insert.
Qed.

(** Every swap of the loop is within the array, so no element is lost
    and no hole appears. *)
Lemma shuffleLoop_in_range {T} (i : nat) (l : list T) (seed : Z) :
  (i ≤ length l - 1)%nat →
  ∃ l', (shuffleLoop i (Some <$> l) seed).1 = Some <$> l' ∧ length l' = length l.
Proof.
  revert l seed. induction i as [|i IH]; intros l seed Hi; [by exists l|].
  change (shuffleLoop (S i) (Some <$> l) seed) with
    (let '(j, seed') := randomBelow (Z.of_nat (S i) + 1) seed in
     shuffleLoop i (swap (S i) (Z.to_nat j) (Some <$> l)) seed').
  pose proof (randomBelow_range (Z.of_nat (S i) + 1) seed ltac:(lia)) as Hj.
  destruct (randomBelow (Z.of_nat (S i) + 1) seed) as [j seed']. simpl in Hj.
  destruct (swap_in_range (S i) (Z.to_nat j) l) as (l1 & -> & Hlen); [lia..|].
  destruct (IH l1 seed') as (l' & -> & Hlen'); [lia|].
  exists l'. split; [done | lia].
Qed.

End RandomFacts.

Module QueueFacts.
Import Js Sim JsFacts SimFacts.

(** *** [scheduleEvent] keeps the queue sorted, first come first served *)

Lemma insertByTime_sorted (ev : Event) (q : list Event) :
  Sorted byTime q → Sorted byTime (insertByTime ev q).
Proof.
  induction q as [|x q IH]; intros Hs; simpl.
  - by repeat constructor.
  - destruct (Z.ltb_spec (time ev) (time x)) as [Hlt|Hge].
    + constructor; [done|]. constructor. unfold byTime. lia.
    + apply Sorted_inv in Hs as [Hs Hhd]. constructor; [by apply IH|].
      destruct q as [|y q]; simpl.
      * constructor. done.
      * destruct (time ev <? time y); constructor; [done|]. by apply HdRel_inv in Hhd.
Qed.

Lemma sortByTime_snoc (q : list Event) (ev : Event) :
  sortByTime (q ++ [ev]) = insertByTime ev (sortByTime q).
Proof. unfold sortByTime. by rewrite foldl_app. Qed.

Lemma sortByTime_sorted (q : list Event) : Sorted byTime (sortByTime q).
Proof.
  induction q as [|ev q IH] using rev_ind; [constructor|].
  rewrite sortByTime_snoc. by apply insertByTime_sorted.
Qed.

Lemma byTime_trans : Transitive byTime.
Proof. intros a b c. unfold byTime. lia. Qed.

Lemma filter_none {A} (P : A → Prop) `{∀ x, Decision (P x)} (l : list A) :
  Forall (λ x, ¬ P x) l → filter P l = [].
Proof.
  induction 1 as [|x l Hx _ IH]; [done|]. by rewrite filter_cons_False.
Qed.

Lemma filter_all {A} (P : A → Prop) `{∀ x, Decision (P x)} (l : list A) :
  Forall P l → filter P l = l.
Proof.
  induction 1 as [|x l Hx _ IH]; [done|]. by rewrite filter_cons_True, IH.
Qed.

(** In a sorted queue the new event goes behind the events that are not
    later than it. *)
Lemma insertByTime_stable (ev : Event) (q : list Event) :
  Sorted byTime q →
  insertByTime ev q
  = filter (λ x, time x ≤ time ev) q ++ ev :: filter (λ x, time ev < time x) q.
Proof.
  intros Hs. apply (@Sorted_StronglySorted _ _ byTime_trans) in Hs.
  induction Hs as [|x q Hs IH Hall]; [done|]. simpl.
  destruct (Z.ltb_spec (time ev) (time x)) as [Hlt|Hge].
  - assert (Forall (λ y, time ev < time y) (x :: q)) as Hlater.
    { constructor; [done|]. apply (Forall_impl _ _ _ Hall). unfold byTime. lia. }
    rewrite (filter_all _ _ Hlater), filter_none; [done|].
    apply (Forall_impl _ _ _ Hlater). lia.
  - rewrite filter_cons_True, filter_cons_False by lia. by rewrite IH.
Qed.

(** A sorted queue is left as it is by [sort]. *)
Lemma sortByTime_id (q : list Event) : Sorted byTime q → sortByTime q = q.
Proof.
  induction q as [|ev q IH] using rev_ind; [done|]. intros Hs.
  apply (@Sorted_StronglySorted _ _ byTime_trans) in Hs.
  apply StronglySorted_app in Hs as (Hle & Hq & _).
  apply StronglySorted_Sorted in Hq.
  rewrite sortByTime_snoc, IH, insertByTime_stable by done.
  assert (Forall (λ x, time x ≤ time ev) q) as Hall.
  { apply Forall_forall. intros x Hx. apply (Hle x ev Hx). apply list_elem_of_here. }
  rewrite (filter_all _ _ Hall), filter_none; [done|].
  apply (Forall_impl _ _ _ Hall). lia.
Qed.

Lemma scheduleEvent_stable (ev : Event) (st : SimState) :
  Sorted byTime (eventQueue st) →
  eventQueue (scheduleEvent ev st)
  = filter (λ x, time x ≤ time ev) (eventQueue st)
    ++ ev :: filter (λ x, time ev < time x) (eventQueue st).
Proof.
  intros Hs. simpl. by rewrite sortByTime_snoc, sortByTime_id, insertByTime_stable.
Qed.

End QueueFacts.

Module RunFacts.
Import Js Sim JsFacts SimFacts RandomFacts QueueFacts.

(** *** What each operation does to the three parts of the state *)

Section shapes.
Context (config : SimConfig) (data : SimulationData).
Context (localeCompare : string → string → Z).

(** The similarity lookup returns a list for every entity of data all
    of whose lookups stay clear of [Object.prototype]. *)
Lemma listsOwned_similarTo (x : string) :
  listsOwned data = true → x ∈ id <$> entities data →
  ∃ sims, similarTo data x = Done sims.
Proof.
  intros Hall (e & -> & He)%list_elem_of_fmap. unfold listsOwned in Hall.
  apply list_elem_of_In in He.
  pose proof (proj1 (forallb_forall _ _) Hall e He) as Hx. cbv beta in Hx.
  unfold similarTo. destruct (similarities data !! id e); [by eexists|].
  apply negb_true_iff in Hx. rewrite Hx. by eexists.
Qed.

Lemma getVisiblePeers_returns (st : SimState) (x : string) (layer : Z) sims :
  similarTo data x = Done sims →
  getVisiblePeers config data st x layer
  = Done (slice0 (k config) (List.filter (visibleAt data st layer) sims)).
Proof. intros H. unfold getVisiblePeers. by rewrite H. Qed.

Lemma createAndWait_shape (x : string) (st : SimState) :
  entityStates (createAndWait config x st)
  = alter (created (clusterName (nextClusterId st)) (currentTime st)) x (entityStates st) ∧
  clusters (createAndWait config x st)
  = mapSet (clusterName (nextClusterId st))
      (mkCluster (clusterName (nextClusterId st)) x [x] (currentTime st)) (clusters st) ∧
  eventQueue (createAndWait config x st)
  = scheduleAll
      [ mkEvent
          (add (currentTime st)
             (add (followerWaitMinMs config)
                (randomBelow (sub (followerWaitMaxMs config) (followerWaitMinMs config))
                   (rngSeed st)).1))
          follower_wait_ends x (Some (DataClusterId (clusterName (nextClusterId st)))) ]
      (eventQueue st) ∧
  currentTime (createAndWait config x st) = currentTime st.
Proof.
  unfold createAndWait, createCluster, getJitteryWait. cbv beta iota zeta.
  simpl rngSeed. destruct (randomBelow _ (rngSeed st)) as [r seed']. done.
Qed.

Lemma joinCluster_shape (x c : string) (st : SimState) :
  is_Some (entityStates st !! x) →
  ∃ st', joinCluster x c st = Done st' ∧
    entityStates st' = alter (set_clusterId (Some c)) x (entityStates st) ∧
    clusters st' = joined x c (clusters st) ∧
    eventQueue st' = eventQueue st.
Proof.
  intros [s Hs]. unfold joinCluster, joined.
  destruct (mapGet c (clusters st)) as [cl|]; simpl; rewrite Hs; by eexists.
Qed.

Lemma joinAndStop_shape (x c : string) (st : SimState) :
  is_Some (entityStates st !! x) →
  ∃ st', joinAndStop x c st = Done st' ∧
    entityStates st'
    = alter (λ s, set_processing false (set_clusterId (Some c) s)) x (entityStates st) ∧
    clusters st' = joined x c (clusters st) ∧
    eventQueue st' = eventQueue st.
Proof.
  intros Hs. unfold joinAndStop.
  destruct (joinCluster_shape x c st Hs) as (st1 & -> & Hes & Hcl & Hq).
  eexists. split; [done|]. simpl. rewrite Hes, Hcl, Hq.
  by rewrite alter_alter_eq.
Qed.

Lemma switchCluster_shape (x c c' : string) (ms : list string) (st : SimState) :
  Core st → clusterIdOf st x = Some c → is_Some (entityStates st !! x) →
  membersOf st c = Some ms → (length ms ≤ 1)%nat →
  ∃ st', switchCluster x c c' st = Done st' ∧
    entityStates st'
    = alter (λ s, set_isClusterLeader false (set_clusterId (Some c') s)) x (entityStates st) ∧
    clusters st' = joined x c' (mapDelete c (clusters st)) ∧
    eventQueue st' = eventQueue st.
Proof.
  intros Hcore Hx Hs Hms Hlen. unfold switchCluster.
  destruct (core_leave x c ms st Hcore Hx Hms Hlen) as [-> _].
  destruct (joinCluster_shape x c' (with_clusters (mapDelete c) st) Hs)
    as (st1 & -> & Hes & Hcl & Hq).
  eexists. split; [done|]. simpl. rewrite Hes, Hcl, Hq.
  by rewrite alter_alter_eq.
Qed.

(** The fallback either changes nothing or moves [x] from its solo
    cluster, which is deleted, to the cluster of another entity. *)
Lemma runFallback_shape (x c : string) (entity : Entity) (ms : list string)
    (st st' : SimState) :
  Core st → clusterIdOf st x = Some c → is_Some (entityStates st !! x) →
  membersOf st c = Some ms → (length ms ≤ 1)%nat →
  findEntity data x = Some entity →
  runFallback data localeCompare x c (_kg_layer entity) st = Done st' →
  st' = st ∨
  ∃ c' p, c' ≠ c ∧ clusterIdOf st p = Some c' ∧
    entityStates st'
    = alter (λ s, set_isClusterLeader false (set_clusterId (Some c') s)) x (entityStates st) ∧
    clusters st' = joined x c' (mapDelete c (clusters st)) ∧
    eventQueue st' = eventQueue st.
Proof.
  intros Hcore Hx Hs Hms Hlen Hent. unfold runFallback. rewrite Hent.
  destruct (similarTo data x) as [allSims| |]; [|done..].
  destruct (findOtherCluster _ _ _) as [theirs|] eqn:Hsem.
  { apply findOtherCluster_Some in Hsem as (Hne & p & Hp).
    destruct (switchCluster_shape x c theirs ms st) as (st1 & -> & Hshape); try done.
    intros [= <-]. right. by exists theirs, p. }
  pose proof (dissolve_unreachable data localeCompare st x c entity Hent) as Hloop.
  destruct (lexLoop _ _ _ _) as [|theirs|] eqn:Hlex; [|  |done].
  - intros [= <-]. by left.
  - apply lexLoop_JoinVia in Hlex as (Hne & p & Hp).
    destruct (switchCluster_shape x c theirs ms st) as (st1 & -> & Hshape); try done.
    intros [= <-]. right. by exists theirs, p.
Qed.

Lemma joinAndStop_time (x c : string) (st st' : SimState) :
  joinAndStop x c st = Done st' → currentTime st' = currentTime st.
Proof.
  unfold joinAndStop, joinCluster.
  destruct (mapGet c (clusters st)); simpl; destruct (_ !! x); by intros [= <-].
Qed.

Lemma switchCluster_time (x c c' : string) (st st' : SimState) :
  switchCluster x c c' st = Done st' → currentTime st' = currentTime st.
Proof.
  unfold switchCluster, joinCluster, leaveCluster.
  destruct (mapGet c (clusters st)) as [cl|]; [destruct (_ =? _)%nat|]; simpl;
    destruct (mapGet c' _); simpl; destruct (_ !! x); by intros [= <-].
Qed.

Lemma runFallback_time (x c : string) (layer : Z) (st st' : SimState) :
  runFallback data localeCompare x c layer st = Done st' →
  currentTime st' = currentTime st.
Proof.
  unfold runFallback. destruct (findEntity data x); [|done].
  destruct (similarTo data x) as [allSims| |]; [|done..].
  destruct (findOtherCluster _ _ _); [apply switchCluster_time|].
  destruct (lexLoop _ _ _ _); [by intros [= <-] | apply switchCluster_time |].
  destruct (length _ =? 1)%nat; [|by intros [= <-]].
  destruct (entityStates st !! x); by intros [= <-].
Qed.

(** Every branch of [processEvent], on an event the entity of which is
    known: it returns, and what it does is one of [Branch]. *)
Lemma processEvent_branch (ev : Event) (st : SimState) :
  Core st → eventExpects st ev →
  is_Some (entityStates st !! entityId ev) →
  is_Some (findEntity data (entityId ev)) →
  (∃ sims, similarTo data (entityId ev) = Done sims) →
  ∃ st' f cs new,
    processEvent config data localeCompare ev st = Done st' ∧
    Branch config st ev f cs new ∧
    entityStates st' = alter f (entityId ev) (entityStates st) ∧
    clusters st' = cs ∧
    eventQueue st' = scheduleAll new (eventQueue st) ∧
    currentTime st' = currentTime st.
Proof.
  intros Hcore Hev [s Hs] [entity Hent] [sims Hsims].
  unfold processEvent. unfold eventExpects in Hev.
  set (x := entityId ev) in *. rewrite Hs, Hent.
  destruct (ev_type ev) eqn:Htype.
  - (* entity_arrives *)
    eexists _, _, _, _. split; [done|]. split; [by apply br_arrives|]. done.
  - (* entity_indexed *)
    eexists _, _, _, _. split; [done|]. split; [by apply br_indexed|]. done.
  - (* entity_searches *)
    set (st1 := assign x (set_processing true) st).
    assert (∀ e, clusterIdOf st1 e = clusterIdOf st e) as Hsame.
    { intros e. by apply clusterIdOf_assign_flag. }
    assert (is_Some (entityStates st1 !! x)) as Hs1 by (apply assign_is_Some; eauto).
    rewrite (getVisiblePeers_returns st1 x (_kg_layer entity) sims Hsims).
    destruct (length _ =? 0)%nat.
    { destruct (createAndWait_shape x st1) as (Hes & Hcl & Hq & Ht).
      eexists _, _, _, _. split; [done|].
      split; [apply (br_create _ _ _ (set_processing true)); by left|].
      rewrite Hes, Hcl, Hq, Ht. unfold st1.
      simpl rngSeed; simpl nextClusterId; simpl currentTime; simpl clusters;
        simpl entityStates; simpl eventQueue.
      rewrite alter_alter_eq. repeat split; reflexivity. }
    destruct (findClusteredPeer st1 _) as [[p c]|] eqn:Hpeer.
    { apply findClusteredPeer_Some in Hpeer. rewrite Hsame in Hpeer.
      destruct (joinAndStop_shape x c st1 Hs1) as (st2 & Hjoin & Hes & Hcl & Hq).
      rewrite Hjoin. eexists _, _, _, _. split; [done|].
      split; [apply (br_join _ _ _ (set_processing true) p c); [by left | done]|].
      rewrite Hes, Hcl, Hq, (joinAndStop_time _ _ _ _ Hjoin). unfold st1.
      simpl currentTime; simpl clusters; simpl entityStates; simpl eventQueue.
      rewrite alter_alter_eq. repeat split; reflexivity. }
    eexists _, _, _, _. split; [done|]. split; [by apply br_recheck|]. done.
  - (* entity_rechecks *)
    rewrite (getVisiblePeers_returns st x (_kg_layer entity) sims Hsims).
    destruct (findClusteredPeer st _) as [[p c]|] eqn:Hpeer.
    { apply findClusteredPeer_Some in Hpeer.
      destruct (joinAndStop_shape x c st) as (st2 & Hjoin & Hes & Hcl & Hq); [by eauto|].
      rewrite Hjoin. eexists _, _, _, _. split; [done|].
      split; [apply (br_join _ _ _ (λ s, s) p c); [by right | done]|].
      rewrite Hes, Hcl, Hq, (joinAndStop_time _ _ _ _ Hjoin). done. }
    destruct (createAndWait_shape x st) as (Hes & Hcl & Hq & Ht).
    eexists _, _, _, _. split; [done|].
    split; [apply (br_create _ _ _ (λ s, s)); by right|].
    rewrite Hes, Hcl, Hq, Ht. done.
  - (* entity_creates_cluster *)
    eexists _, _, _, _. split; [done|]. split; [apply br_idle; by left|].
    by rewrite alter_id.
  - (* entity_joins_cluster *)
    eexists _, _, _, _. split; [done|]. split; [apply br_idle; by right|].
    by rewrite alter_id.
  - (* follower_wait_ends *)
    destruct Hev as (c & Hdata & Hx). rewrite Hdata. simpl.
    set (st1 := assign x (λ s, set_processing false (set_waitingForFollowers false s)) st).
    assert (∀ e, clusterIdOf st1 e = clusterIdOf st e) as Hsame.
    { intros e. by apply clusterIdOf_assign_flag. }
    assert (Core st1) as Hcore1 by (revert Hcore; by apply Core_ext).
    assert (is_Some (entityStates st1 !! x)) as Hs1 by (apply assign_is_Some; eauto).
    destruct (mapGet c (clusters st)) as [cluster|] eqn:Hcl; simpl.
    2:{ eexists _, _, _, _. split; [done|]. split; [by apply br_keep|]. done. }
    destruct (1 <? length (members cluster))%nat eqn:Hsize.
    { eexists _, _, _, _. split; [done|]. split; [by apply br_keep|]. done. }
    apply Nat.ltb_ge in Hsize.
    assert (membersOf st c = Some (members cluster)) as Hms.
    { unfold membersOf. by rewrite Hcl. }
    assert (members cluster = [x]) as Hsolo.
    { destruct (core_state_member st Hcore x c Hx) as (ms & Hms' & Hin).
      rewrite Hms in Hms'. injection Hms' as <-.
      destruct (members cluster) as [|y [|z l]]; simpl in Hsize; try lia.
      - by apply elem_of_nil in Hin.
      - by apply list_elem_of_singleton in Hin as ->. }
    destruct (runFallback data localeCompare x c (_kg_layer entity) st1) as [st'| |] eqn:Hfall.
    + pose proof (runFallback_time _ _ _ _ _ Hfall) as Ht.
      apply (runFallback_shape x c entity (members cluster)) in Hfall
        as [->|(c' & p & Hne & Hp & Hes & Hcs & Hq)]; try done.
      * eexists _, _, _, _. split; [done|]. split; [by apply br_keep|]. done.
      * eexists _, _, _, _. split; [done|].
        split; [apply (br_switch _ _ _ c c' p); try done|].
        -- fold x. by rewrite <- Hsolo.
        -- by rewrite <- Hsame.
        -- rewrite Hes, Hcs, Hq, Ht. unfold st1.
           simpl currentTime; simpl clusters; simpl entityStates; simpl eventQueue.
           rewrite alter_alter_eq. repeat split; reflexivity.
      * by rewrite Hsame.
    + exfalso. revert Hfall. unfold runFallback. rewrite Hent, Hsims.
      destruct (findOtherCluster _ _ _) as [theirs|].
      { destruct (switchCluster_shape x c theirs (members cluster) st1)
          as (st2 & -> & _); try done. by rewrite Hsame. }
      destruct (lexLoop _ _ _ _) as [|theirs|]; [done| |].
      { destruct (switchCluster_shape x c theirs (members cluster) st1)
          as (st2 & -> & _); try done. by rewrite Hsame. }
      destruct (length _ =? 1)%nat; [|done]. destruct Hs1 as [s1 ->]. done.
    + by apply runFallback_fuel in Hfall.
Qed.

End shapes.

(** *** A run never throws *)

Lemma scheduleAll_perm (new q : list Event) : scheduleAll new q ≡ₚ new ++ q.
Proof.
  revert q. induction new as [|ev new IH]; intros q; [done|].
  unfold scheduleAll. simpl. fold (scheduleAll new (sortByTime (q ++ [ev]))).
  rewrite IH, sortByTime_perm. rewrite (Permutation_app_comm q [ev]). simpl.
  by rewrite Permutation_middle.
Qed.

Lemma scheduleAll_sorted (new q : list Event) :
  Sorted byTime q → Sorted byTime (scheduleAll new q).
Proof.
  revert q. induction new as [|ev new IH]; intros q Hq; [done|].
  unfold scheduleAll. simpl. fold (scheduleAll new (sortByTime (q ++ [ev]))).
  apply IH, sortByTime_sorted.
Qed.

Lemma Frame_refl (x : string) (st : SimState) : Frame x st st.
Proof. split; [done | by exists [] | done]. Qed.

Lemma Frame_trans (x : string) (st1 st2 st3 : SimState) :
  Frame x st1 st2 → Frame x st2 st3 → Frame x st1 st3.
Proof.
  intros [Hs1 (new1 & Hq1 & Hn1) Hsort1] [Hs2 (new2 & Hq2 & Hn2) Hsort2]. split.
  - intros e. by rewrite Hs2.
  - exists (new2 ++ new1). split; [by rewrite Hq2, Hq1, app_assoc|].
    by apply Forall_app.
  - intros H. by apply Hsort2, Hsort1.
Qed.

Lemma Frame_assign (x e : string) f (st : SimState) : Frame x st (assign e f st).
Proof. split; [intros e'; apply assign_is_Some | by exists [] | done]. Qed.

Lemma Frame_clusters (x : string) f (st : SimState) : Frame x st (with_clusters f st).
Proof. split; [done | by exists [] | done]. Qed.

Lemma Frame_schedule (ev : Event) (st : SimState) :
  Frame (entityId ev) st (scheduleEvent ev st).
Proof.
  split; [done | | intros _; apply sortByTime_sorted].
  exists [ev]. split; [|by constructor].
  simpl. rewrite sortByTime_perm. symmetry. apply Permutation_cons_append.
Qed.

Section arrivals.
Context (config : SimConfig) (data : SimulationData).

Lemma scheduleArrivals_returns (len : nat) (es : list Entity) :
  ∀ (i : nat) (st : SimState),
    ∃ st', scheduleArrivals config len i (Some <$> es) st = Done st'.
Proof.
  induction es as [|entity es IH]; intros i st; simpl; [by eexists | apply IH].
Qed.

Lemma initialState_states (e : string) :
  is_Some (entityStates (initialState config data) !! e) ↔ e ∈ id <$> entities data.
Proof.
  unfold initialState. simpl.
  assert (∀ (l : list Entity) (m : gmap string EntityState),
    is_Some (foldl (λ m entity,
               <[id entity := mkEntityState false false None false false false None]> m)
             m l !! e) ↔ is_Some (m !! e) ∨ e ∈ id <$> l) as Hfold.
  { induction l as [|x l IH]; intros m; simpl.
    - rewrite elem_of_nil. tauto.
    - rewrite IH, elem_of_cons. destruct (decide (id x = e)) as [->|Hne].
      + rewrite lookup_insert_eq. split; [right; by left | left; by eexists].
      + rewrite lookup_insert_ne by done. split; [tauto|].
        intros [?|[?|?]]; [tauto | congruence | tauto]. }
  rewrite Hfold, lookup_empty. split; [intros [[? [=]]|?]; done | tauto].
Qed.

Lemma scheduled_known :
  ∃ st, scheduled config data = Done st ∧ Known data st.
Proof.
  unfold scheduled.
  destruct (shuffle (entities data) (seed config)) as [shuffled seed'] eqn:Hsh.
  destruct (shuffleLoop_in_range (length (entities data) - 1) (entities data)
              (seed config)) as (es & Hes & _); [done|].
  fold (shuffle (entities data) (seed config)) in Hes. rewrite Hsh in Hes. simpl in Hes.
  subst shuffled.
  assert (es ≡ₚ entities data) as Hperm.
  { apply (shuffle_perm _ _ (seed config)). by rewrite Hsh. }
  set (st0 := mkState _ _ _ _ _ _).
  destruct (scheduleArrivals_returns (length (Some <$> es)) es 0%nat st0) as [st Hst].
  exists st. split; [done|].
  apply scheduleArrivals_done in Hst as (es' & evs & Hes' & Hq & _ & Hids & Hstates & _).
  apply (inj (fmap Some)) in Hes' as <-.
  split.
  - intros e. rewrite Hstates. apply initialState_states.
  - rewrite Hq. simpl. rewrite app_nil_r.
    apply Forall_forall. intros ev Hev.
    rewrite <- Hperm, <- Hids. apply list_elem_of_fmap. by exists ev.
Qed.

End arrivals.

Section returns.
Context (config : SimConfig) (data : SimulationData).
Context (localeCompare : string → string → Z).

Lemma Frame_createAndWait (x : string) (st : SimState) :
  Frame x st (createAndWait config x st).
Proof.
  destruct (createAndWait_shape config x st) as (Hes & _ & Hq & _). split.
  - intros e. rewrite Hes. apply (assign_is_Some x e _ st).
  - eexists [_]. rewrite Hq. split; [apply scheduleAll_perm | by constructor].
  - rewrite Hq. apply scheduleAll_sorted.
Qed.

Lemma joinCluster_returns (x c : string) (st : SimState) :
  is_Some (entityStates st !! x) →
  ∃ st', joinCluster x c st = Done st' ∧ Frame x st st'.
Proof.
  intros Hs. destruct (joinCluster_shape x c st Hs) as (st' & -> & Hes & _ & Hq).
  exists st'. split; [done|]. split.
  - intros e. rewrite Hes. apply (assign_is_Some x e _ st).
  - exists []. by rewrite Hq.
  - by rewrite Hq.
Qed.

Lemma joinAndStop_returns (x c : string) (st : SimState) :
  is_Some (entityStates st !! x) →
  ∃ st', joinAndStop x c st = Done st' ∧ Frame x st st'.
Proof.
  intros Hs. unfold joinAndStop.
  destruct (joinCluster_returns x c st Hs) as (st1 & -> & Hf).
  eexists. split; [done|]. apply (Frame_trans _ _ st1); [done | apply Frame_assign].
Qed.

Lemma Frame_leaveCluster (x c : string) (st : SimState) :
  Frame x st (leaveCluster x c st).
Proof.
  unfold leaveCluster. destruct (mapGet c (clusters st)) as [cl|]; [|apply Frame_refl].
  destruct (_ =? _)%nat; apply Frame_clusters.
Qed.

Lemma switchCluster_returns (x c c' : string) (st : SimState) :
  is_Some (entityStates st !! x) →
  ∃ st', switchCluster x c c' st = Done st' ∧ Frame x st st'.
Proof.
  intros Hs. unfold switchCluster.
  pose proof (Frame_leaveCluster x c st) as Hleave.
  destruct (joinCluster_returns x c' (leaveCluster x c st)) as (st1 & -> & Hf).
  { by apply Hleave. }
  eexists. split; [done|].
  apply (Frame_trans _ _ st1); [by apply (Frame_trans _ _ (leaveCluster x c st))|].
  apply Frame_assign.
Qed.

Lemma runFallback_returns (x c : string) (layer : Z) (st : SimState) :
  is_Some (entityStates st !! x) → is_Some (findEntity data x) →
  (∃ sims, similarTo data x = Done sims) →
  ∃ st', runFallback data localeCompare x c layer st = Done st' ∧ Frame x st st'.
Proof.
  intros Hs [entity Hent] [sims Hsims]. unfold runFallback. rewrite Hent, Hsims.
  destruct (findOtherCluster _ _ _) as [theirs|]; [by apply switchCluster_returns|].
  destruct (lexLoop _ _ _ _) as [|theirs|].
  - eexists. split; [done | apply Frame_refl].
  - by apply switchCluster_returns.
  - destruct (length _ =? 1)%nat; [|eexists; split; [done | apply Frame_refl]].
    destruct Hs as [s Hs]. rewrite Hs. eexists. split; [done|].
    apply (Frame_trans _ _ (with_clusters (mapDelete c) st)); [apply Frame_clusters|].
    apply (Frame_trans _ _ (assign x (set_clusterId None) (with_clusters (mapDelete c) st)));
      apply Frame_assign.
Qed.

(** [processEvent] returns on every event of a known entity. *)
Lemma processEvent_returns (ev : Event) (st : SimState) :
  is_Some (entityStates st !! entityId ev) →
  is_Some (findEntity data (entityId ev)) →
  (∃ sims, similarTo data (entityId ev) = Done sims) →
  ∃ st', processEvent config data localeCompare ev st = Done st' ∧
         Frame (entityId ev) st st'.
Proof.
  intros [s Hs] [entity Hent] [sims Hsims]. unfold processEvent.
  set (x := entityId ev) in *. rewrite Hs, Hent.
  destruct (ev_type ev) eqn:Htype.
  - eexists. split; [done|].
    eapply Frame_trans; [|apply (Frame_schedule (mkEvent _ _ x _))].
    eapply Frame_trans; [|apply (Frame_schedule (mkEvent _ _ x _))].
    apply Frame_assign.
  - eexists. split; [done | apply Frame_assign].
  - set (st1 := assign x (set_processing true) st).
    assert (Frame x st st1) as H1 by apply Frame_assign.
    assert (is_Some (entityStates st1 !! x)) as Hs1 by (apply H1; eauto).
    rewrite (getVisiblePeers_returns config data st1 x (_kg_layer entity) sims Hsims).
    destruct (length _ =? 0)%nat.
    { eexists. split; [done|]. apply (Frame_trans _ _ st1); [done|].
      apply Frame_createAndWait. }
    destruct (findClusteredPeer st1 _) as [[p c]|].
    { destruct (joinAndStop_returns x c st1 Hs1) as (st2 & -> & H2).
      eexists. split; [done|]. by apply (Frame_trans _ _ st1). }
    eexists. split; [done|]. apply (Frame_trans _ _ st1); [done|].
    apply (Frame_schedule (mkEvent _ _ x _)).
  - rewrite (getVisiblePeers_returns config data st x (_kg_layer entity) sims Hsims).
    destruct (findClusteredPeer st _) as [[p c]|].
    { destruct (joinAndStop_returns x c st) as (st2 & -> & H2); [by eauto|].
      by eexists. }
    eexists. split; [done | apply Frame_createAndWait].
  - eexists. split; [done | apply Frame_refl].
  - eexists. split; [done | apply Frame_refl].
  - set (st1 := assign x (λ s, set_processing false (set_waitingForFollowers false s)) st).
    assert (Frame x st st1) as H1 by apply Frame_assign.
    assert (is_Some (entityStates st1 !! x)) as Hs1 by (apply H1; eauto).
    destruct (_ ≫= _) as [[c cluster]|]; [|by eexists].
    destruct (1 <? _)%nat; [by eexists|].
    destruct (runFallback_returns x c (_kg_layer entity) st1) as (st2 & -> & H2);
      [done | by eauto | by eauto |].
    eexists. split; [done|]. by apply (Frame_trans _ _ st1).
Qed.

Lemma findEntity_known (x : string) :
  x ∈ id <$> entities data → is_Some (findEntity data x).
Proof.
  intros (entity & -> & Hin)%list_elem_of_fmap. unfold findEntity.
  destruct (List.find _ _) as [e|] eqn:Hfind; [by eexists|].
  apply list_elem_of_In in Hin.
  apply (List.find_none _ _ Hfind entity) in Hin. by rewrite String.eqb_refl in Hin.
Qed.

Lemma step_known (st : SimState) :
  listsOwned data = true →
  Known data st →
  eventQueue st = [] ∨
  ∃ st', step config data localeCompare st = Some (Done st') ∧ Known data st' ∧
         (Sorted byTime (eventQueue st) → Sorted byTime (eventQueue st')).
Proof.
  intros Hlists [Hstates Hevents]. unfold step.
  destruct (eventQueue st) as [|ev rest] eqn:Hq; [by left|]. right.
  apply Forall_cons in Hevents as [Hev Hrest].
  set (st1 := mkState _ _ _ _ _ _).
  destruct (processEvent_returns ev st1) as (st' & -> & [Hs' (new & Hq' & Hnew) Hsort]).
  { by apply Hstates. }
  { by apply findEntity_known. }
  { by apply (listsOwned_similarTo data). }
  exists st'. split; [done|]. split; [split|].
  - intros e. rewrite Hs'. apply Hstates.
  - rewrite Hq'. apply Forall_app. split; [|done].
    apply (Forall_impl _ _ _ Hnew). by intros ev' ->.
  - intros [Hs _]%Sorted_inv. by apply Hsort.
Qed.

Lemma runSteps_returns (n : nat) :
  listsOwned data = true →
  ∀ st, Known data st → Sorted byTime (eventQueue st) →
    ∃ st', runSteps config data localeCompare n st = Done st' ∧
           Known data st' ∧ Sorted byTime (eventQueue st').
Proof.
  intros Hlists.
  induction n as [|n IH]; intros st Hknown Hsorted; simpl; [by exists st|].
  destruct (step_known st Hlists Hknown) as [Hq|(st1 & Hstep & Hknown1 & Hsort1)].
  - unfold step. rewrite Hq. by exists st.
  - rewrite Hstep. apply IH; [done | by apply Hsort1].
Qed.

Lemma runLoop_returns (fuel : nat) :
  listsOwned data = true →
  ∀ st, Known data st →
    runLoop config data localeCompare fuel st ≠ OutOfFuel →
    ∃ st', runLoop config data localeCompare fuel st = Done st' ∧
           eventQueue st' = [] ∧ Known data st'.
Proof.
  intros Hlists.
  induction fuel as [|fuel IH]; intros st Hknown; simpl;
    (destruct (step_known st Hlists Hknown) as [Hq|(st1 & Hstep & Hknown1 & _)];
     [unfold step; rewrite Hq; by exists st | rewrite Hstep]); [done|].
  by apply IH.
Qed.

Lemma scheduleArrivals_sorted (len : nat) (rest : list (option Entity)) :
  ∀ (i : nat) (st st' : SimState),
    Sorted byTime (eventQueue st) →
    scheduleArrivals config len i rest st = Done st' →
    Sorted byTime (eventQueue st').
Proof.
  induction rest as [|[entity|] rest IH]; intros i st st' Hs; simpl.
  - by intros [= <-].
  - apply IH. simpl. apply sortByTime_sorted.
  - done.
Qed.

Lemma stateAfter_returns (n : nat) :
  listsOwned data = true →
  ∃ st, stateAfter config data localeCompare n = Done st ∧
        Known data st ∧ Sorted byTime (eventQueue st).
Proof.
  intros Hlists.
  destruct (scheduled_known config data) as (st0 & Hsched & Hknown).
  unfold stateAfter. rewrite Hsched. apply runSteps_returns; [done | done |].
  revert Hsched. unfold scheduled. destruct (shuffle _ _) as [shuffled seed'].
  apply scheduleArrivals_sorted. constructor.
Qed.

Lemma run_returns :
  listsOwned data = true →
  ∃ st, run config data localeCompare (runFuel data) = Done st ∧
        eventQueue st = [] ∧ Known data st.
Proof.
  intros Hlists.
  destruct (scheduled_known config data) as (st0 & Hsched & Hknown).
  destruct (run_enough config data localeCompare (runFuel data)) as [_ Hne]; [done|].
  unfold run in *. rewrite Hsched in *. by apply runLoop_returns.
Qed.

End returns.

End RunFacts.

Module SettledFacts.
Import Js Sim JsFacts SimFacts RandomFacts QueueFacts RunFacts.

(** *** Keys and entries of a [Map] *)

Lemma elem_of_mapSet_keys {V} (k k' : string) (v : V) (m : Map V) :
  k' ∈ (mapSet k v m).*1 ↔ k' = k ∨ k' ∈ m.*1.
Proof.
  induction m as [|[k0 v0] m IH]; simpl.
  - rewrite list_elem_of_singleton, elem_of_nil. tauto.
  - destruct (String.eqb_spec k0 k) as [->|Hne]; simpl.
    + rewrite !elem_of_cons. tauto.
    + rewrite !elem_of_cons, IH. tauto.
Qed.

Lemma mapSet_keys_NoDup {V} (k : string) (v : V) (m : Map V) :
  NoDup m.*1 → NoDup (mapSet k v m).*1.
Proof.
  induction m as [|[k0 v0] m IH]; simpl; [intros _; apply NoDup_singleton|].
  intros [Hk0 Hnd]%NoDup_cons. destruct (String.eqb_spec k0 k) as [->|Hne]; simpl.
  - by apply NoDup_cons.
  - apply NoDup_cons. split; [|by apply IH].
    rewrite elem_of_mapSet_keys. intros [?|?]; done.
Qed.

Lemma mapDelete_keys_NoDup {V} (k : string) (m : Map V) :
  NoDup m.*1 → NoDup (mapDelete k m).*1.
Proof.
  unfold mapDelete. induction m as [|[k0 v0] m IH]; [done|].
  intros [Hk0 Hnd]%NoDup_cons. rewrite filter_cons.
  destruct (decide _); simpl; [|by apply IH].
  apply NoDup_cons. split; [|by apply IH].
  intros ((k1 & v1) & Hk1 & Hin)%list_elem_of_fmap. simpl in Hk1. subst k1.
  apply list_elem_of_filter in Hin as [_ Hin]. apply Hk0.
  apply list_elem_of_fmap. by exists (k0, v1).
Qed.

Lemma mapGet_elem_of {V} (k : string) (v : V) (m : Map V) :
  mapGet k m = Some v → (k, v) ∈ m.
Proof.
  induction m as [|[k0 v0] m IH]; simpl; [done|].
  destruct (String.eqb_spec k0 k) as [->|Hne].
  - intros [= ->]. apply list_elem_of_here.
  - intros H. apply list_elem_of_further. by apply IH.
Qed.

Lemma elem_of_mapGet {V} (k : string) (v : V) (m : Map V) :
  NoDup m.*1 → (k, v) ∈ m → mapGet k m = Some v.
Proof.
  induction m as [|[k0 v0] m IH]; simpl; [by intros _ ?%elem_of_nil|].
  intros [Hk0 Hnd]%NoDup_cons [[= -> ->]|Hin]%elem_of_cons.
  - by rewrite String.eqb_refl.
  - destruct (String.eqb_spec k0 k) as [->|Hne]; [|by apply IH].
    exfalso. apply Hk0. apply list_elem_of_fmap. by exists (k, v).
Qed.

Lemma setAdd_NoDup (x : string) (s : Set_) : NoDup s → NoDup (setAdd x s).
Proof.
  intros Hnd. unfold setAdd, setHas. case_bool_decide as Hx; [done|].
  apply NoDup_app. split; [done|]. split; [|apply NoDup_singleton].
  intros y Hy ->%list_elem_of_singleton. done.
Qed.

(** *** [joined] *)

Lemma mapGet_joined_eq (x c : string) (cs : Map ClusterState) :
  mapGet c (joined x c cs)
  = (λ cl, set_members (setAdd x (members cl)) cl) <$> mapGet c cs.
Proof.
  unfold joined. destruct (mapGet c cs) as [cl|] eqn:E; simpl.
  - by rewrite mapGet_mapSet_eq.
  - done.
Qed.

Lemma mapGet_joined_ne (x c k : string) (cs : Map ClusterState) :
  k ≠ c → mapGet k (joined x c cs) = mapGet k cs.
Proof.
  intros Hne. unfold joined. destruct (mapGet c cs) as [cl|]; [|done].
  by rewrite mapGet_mapSet_ne.
Qed.

Lemma joined_keys_NoDup (x c : string) (cs : Map ClusterState) :
  NoDup cs.*1 → NoDup (joined x c cs).*1.
Proof.
  intros Hnd. unfold joined. destruct (mapGet c cs) as [cl|]; [|done].
  by apply mapSet_keys_NoDup.
Qed.

(** A cluster after the join: the same cluster, [x] added if it is the
    one joined. *)
Lemma mapGet_joined_Some (x c k : string) (cs : Map ClusterState) (cl' : ClusterState) :
  mapGet k (joined x c cs) = Some cl' →
  ∃ cl, mapGet k cs = Some cl ∧ c_id cl' = c_id cl ∧ leaderId cl' = leaderId cl ∧
        (members cl' = members cl ∨ (k = c ∧ members cl' = setAdd x (members cl))).
Proof.
  destruct (decide (k = c)) as [->|Hne].
  - rewrite mapGet_joined_eq. destruct (mapGet c cs) as [cl|]; [|done].
    intros [= <-]. exists cl. repeat split; try done. by right.
  - rewrite mapGet_joined_ne by done. intros H. exists cl'. repeat split; try done.
    by left.
Qed.

(** *** Pending events *)

Lemma pending_perm (q q' : list Event) (ty : EventType) (e : string) :
  q ≡ₚ q' → pending q ty e → pending q' ty e.
Proof. intros Hp (ev & Hin & H). exists ev. by rewrite <- Hp. Qed.

Lemma pending_scheduled (new rest : list Event) (ty : EventType) (e : string) :
  pending (new ++ rest) ty e → pending (scheduleAll new rest) ty e.
Proof. apply pending_perm. symmetry. apply scheduleAll_perm. Qed.

Lemma pending_old (new rest : list Event) (ty : EventType) (e : string) :
  pending rest ty e → pending (scheduleAll new rest) ty e.
Proof.
  intros (ev & Hin & H). apply pending_scheduled. exists ev. split; [|done].
  apply elem_of_app. by right.
Qed.

Lemma pending_tail (ev : Event) (rest : list Event) (ty : EventType) (e : string) :
  pending (ev :: rest) ty e → entityId ev ≠ e ∨ ev_type ev ≠ ty → pending rest ty e.
Proof.
  intros (ev' & [->|Hin]%elem_of_cons & Hty & He) Hne.
  - destruct Hne; done.
  - by exists ev'.
Qed.

Lemma workerIds_scheduled (new rest : list Event) (e : string) :
  e ∈ workerIds (new ++ rest) → e ∈ workerIds (scheduleAll new rest).
Proof.
  intros H. by rewrite (workerIds_perm _ _ (scheduleAll_perm new rest)).
Qed.

(** *** The bookkeeping is kept by every turn of the event loop *)

Section settled.
Context (config : SimConfig) (data : SimulationData).
Context (localeCompare : string → string → Z).

(** An entity other than the one whose event is processed. *)
Lemma tracked_other (st0 st' : SimState) (ev : Event) (rest new : list Event)
    (e : string) (s : EntityState) :
  eventQueue st0 = ev :: rest →
  eventQueue st' = scheduleAll new rest →
  e ≠ entityId ev →
  (∀ c cl, mapGet c (clusters st0) = Some cl → leaderId cl = e →
     ∃ cl', mapGet c (clusters st') = Some cl' ∧ leaderId cl' = e) →
  Tracked st0 e s → Tracked st' e s.
Proof.
  intros Hq Hq' Hne Hpers [Hp Ha Hi Hr Hw Hl]. rewrite Hq in *.
  assert (∀ ty, pending (ev :: rest) ty e → pending (eventQueue st') ty e) as Hold.
  { intros ty H. rewrite Hq'. apply pending_old. apply (pending_tail ev); [done|].
    left. congruence. }
  split.
  - intros Hc. rewrite Hq'. apply workerIds_scheduled. rewrite workerIds_app.
    apply elem_of_app. right. specialize (Hp Hc). rewrite workerIds_cons in Hp.
    destruct (isWorkerEvent ev); [|done].
    apply elem_of_cons in Hp as [?|?]; done.
  - intros H. by apply Hold, Ha.
  - intros H. destruct (Hi H); [left | right]; by apply Hold.
  - intros H. destruct (Hr H); [left | right]; by apply Hold.
  - intros H. by apply Hold, Hw.
  - intros H. destruct (Hl H) as (c & cl & Hc & Hcl & Hlead).
    destruct (Hpers c cl Hcl Hlead) as (cl' & Hcl' & Hlead'). by exists c, cl'.
Qed.

(** A cluster that is not the solo cluster of [x] is still there after
    the event of [x], with the same leader, and at most [x] added. *)
Lemma branch_cluster_kept (st : SimState) (ev : Event) f cs new
    (k : string) (cl : ClusterState) :
  Branch config st ev f cs new → namesBelow st →
  mapGet k (clusters st) = Some cl → members cl ≠ [entityId ev] →
  ∃ cl', mapGet k cs = Some cl' ∧ c_id cl' = c_id cl ∧ leaderId cl' = leaderId cl ∧
    (members cl' = members cl ∨ members cl' = setAdd (entityId ev) (members cl)).
Proof.
  intros Hbr Hnames Hcl Hsolo.
  assert (∀ c, mapGet k (joined (entityId ev) c (clusters st)) = Some cl ∨
               mapGet k (joined (entityId ev) c (clusters st))
               = Some (set_members (setAdd (entityId ev) (members cl)) cl)) as Hjoin.
  { intros c. destruct (decide (k = c)) as [->|Hne].
    - right. by rewrite mapGet_joined_eq, Hcl.
    - left. by rewrite mapGet_joined_ne. }
  destruct Hbr as [Htype|Htype|Htype|pre Hpre|pre p c Hpre Hpc|peers Htype|Htype
                  |c c' p Htype Hxc Hms Hcc Hpc].
  1-3,6-7: exists cl; repeat split; try done; by left.
  - exists cl. rewrite mapGet_mapSet_ne; [repeat split; try done; by left|].
    intros <-. by rewrite (clusterName_fresh st Hnames) in Hcl.
  - destruct (Hjoin c) as [H|H]; eexists; (split; [exact H|]); repeat split; try done;
      [by left | by right].
  - assert (k ≠ c) as Hkc.
    { intros ->. unfold membersOf in Hms. rewrite Hcl in Hms. simpl in Hms. congruence. }
    destruct (decide (k = c')) as [->|Hne].
    + rewrite mapGet_joined_eq, mapGet_mapDelete_ne, Hcl by done. simpl.
      eexists. split; [done|]. repeat split; try done. by right.
    + rewrite mapGet_joined_ne, mapGet_mapDelete_ne, Hcl by done.
      exists cl. repeat split; try done. by left.
Qed.

(** A cluster after the event of [x]: one that was there, with at most
    [x] added, or the one [x] has just created. *)
Lemma branch_cluster_from (st : SimState) (ev : Event) f cs new
    (k : string) (cl' : ClusterState) :
  Branch config st ev f cs new →
  mapGet k cs = Some cl' →
  (∃ cl, mapGet k (clusters st) = Some cl ∧ c_id cl' = c_id cl ∧
         leaderId cl' = leaderId cl ∧
         (members cl' = members cl ∨ members cl' = setAdd (entityId ev) (members cl))) ∨
  (cl' = mkCluster k (entityId ev) [entityId ev] (currentTime st) ∧
   ∀ s, isClusterLeader (f s) = true).
Proof.
  intros Hbr Hcl'.
  assert (∀ c cs0, mapGet k (joined (entityId ev) c cs0) = Some cl' →
            ∃ cl, mapGet k cs0 = Some cl ∧ c_id cl' = c_id cl ∧
              leaderId cl' = leaderId cl ∧
              (members cl' = members cl ∨
               members cl' = setAdd (entityId ev) (members cl))) as Hjoin.
  { intros c cs0 H. apply mapGet_joined_Some in H as (cl & H1 & H2 & H3 & [H4|[_ H4]]);
      exists cl; repeat split; try done; [by left | by right]. }
  destruct Hbr as [Htype|Htype|Htype|pre Hpre|pre p c Hpre Hpc|peers Htype|Htype
                  |c c' p Htype Hxc Hms Hcc Hpc].
  1-3,6-7: left; exists cl'; repeat split; try done; by left.
  - destruct (decide (k = clusterName (nextClusterId st))) as [->|Hne].
    + rewrite mapGet_mapSet_eq in Hcl'. injection Hcl' as <-. by right.
    + rewrite mapGet_mapSet_ne in Hcl' by done. left. exists cl'.
      repeat split; try done. by left.
  - left. by apply (Hjoin c).
  - left. apply Hjoin in Hcl' as (cl & [_ H1]%mapGet_mapDelete_Some & H2). by exists cl.
Qed.

(** The leader flag of [x] is kept, unless [x] gives up its cluster. *)
Lemma branch_flag (st : SimState) (ev : Event) f cs new :
  Branch config st ev f cs new →
  (∀ s, isClusterLeader s = true → isClusterLeader (f s) = true) ∨
  (∃ c, clusterIdOf st (entityId ev) = Some c ∧ mapGet c cs = None).
Proof.
  intros Hbr.
  destruct Hbr as [Htype|Htype|Htype|pre Hpre|pre p c Hpre Hpc|peers Htype|Htype
                  |c c' p Htype Hxc Hms Hcc Hpc].
  1-3,6-7: by left.
  - by left.
  - left. by destruct Hpre as [[_ ->]|[_ ->]].
  - right. exists c. split; [done|].
    by rewrite mapGet_joined_ne, mapGet_mapDelete_eq.
Qed.

Lemma branch_keys (st : SimState) (ev : Event) f cs new :
  Branch config st ev f cs new → NoDup (clusters st).*1 → NoDup cs.*1.
Proof.
  intros Hbr Hnd.
  destruct Hbr as [Htype|Htype|Htype|pre Hpre|pre p c Hpre Hpc|peers Htype|Htype
                  |c c' p Htype Hxc Hms Hcc Hpc]; try done.
  - by apply mapSet_keys_NoDup.
  - by apply joined_keys_NoDup.
  - by apply joined_keys_NoDup, mapDelete_keys_NoDup.
Qed.

Lemma step_settled (st0 st' : SimState) :
  listsOwned data = true →
  Settled data st0 →
  step config data localeCompare st0 = Some (Done st') →
  Settled data st'.
Proof.
  intros Hlists Hset Hstep.
  assert (Invariant st') as Hinv' by (eapply step_invariant; [apply Hset | done]).
  assert (Known data st') as Hknown'.
  { destruct (step_known config data localeCompare st0 Hlists (se_known _ _ Hset))
      as [Hq|(st2 & Hstep2 & Hk & _)].
    - unfold step in Hstep. by rewrite Hq in Hstep.
    - rewrite Hstep in Hstep2. by injection Hstep2 as <-. }
  destruct Hset as [[Hcore Hnd Hexp] Hknown Htr Hwf Hkeys].
  unfold step in Hstep. destruct (eventQueue st0) as [|ev rest] eqn:Hq; [done|].
  injection Hstep as Hproc.
  apply Forall_cons in Hexp as [Hev Hrest].
  pose proof (known_events _ _ Hknown) as Hevents. rewrite Hq in Hevents.
  apply Forall_cons in Hevents as [Hevx _].
  set (st := mkState _ _ _ _ _ _) in Hproc.
  set (x := entityId ev) in *.
  assert (∀ e, clusterIdOf st e = clusterIdOf st0 e) as Hsame by done.
  assert (Core st) as Hcore1 by (revert Hcore; by apply Core_ext).
  destruct (processEvent_branch config data localeCompare ev st)
    as (st2 & f & cs & new & Hproc2 & Hbr & Hes & Hcs & Hq' & _).
  { done. }
  { by apply (eventExpects_ext st0). }
  { by apply (known_states _ _ Hknown). }
  { by apply findEntity_known. }
  { by apply (listsOwned_similarTo data). }
  rewrite Hproc in Hproc2. injection Hproc2 as <-.
  change (entityStates st) with (entityStates st0) in Hes.
  change (eventQueue st) with rest in Hq'. fold x in Hes.
  assert (∀ ty, pending (ev :: rest) ty x → ev_type ev ≠ ty →
                pending (eventQueue st') ty x) as Hold.
  { intros ty H Hty. rewrite Hq'. apply pending_old. apply (pending_tail ev); [done|].
    by right. }
  assert (∀ t ty d, mkEvent t ty x d ∈ new → pending (eventQueue st') ty x) as Hnew.
  { intros t ty d Hin. rewrite Hq'. apply pending_scheduled. exists (mkEvent t ty x d).
    split; [|done]. apply elem_of_app. by left. }
  assert (isWorkerEvent ev = false → ∀ e, e ∈ workerIds (ev :: rest) →
          e ∈ workerIds (eventQueue st')) as Hidle.
  { intros Hw e He. rewrite workerIds_cons, Hw in He. rewrite Hq'.
    apply workerIds_scheduled. rewrite workerIds_app. apply elem_of_app. by right. }
  assert (∀ t ty d, isWorkerEvent (mkEvent t ty x d) = true → mkEvent t ty x d ∈ new →
          x ∈ workerIds (eventQueue st')) as Hwork.
  { intros t ty d Hw Hin. rewrite Hq'. apply workerIds_scheduled. rewrite workerIds_app.
    apply elem_of_app. left. by apply (elem_of_workerIds new (mkEvent t ty x d)). }
  destruct (proj2 (known_states _ _ Hknown x) Hevx) as [s Hs].
  pose proof (Htr x s Hs) as [Hp Ha Hi Hr Hw Hl]. rewrite Hq in Hp, Ha, Hi, Hr, Hw.
  assert (clusterIdOf st0 x = clusterId s) as Hcx.
  { unfold clusterIdOf. by rewrite Hs. }
  unfold eventExpects in Hev. fold x in Hev.
  split; [done | done | | |].
  - (* the flags *)
    intros e s'. rewrite Hes. destruct (decide (e = x)) as [->|Hne].
    + rewrite lookup_alter_eq, Hs. intros [= <-].
      destruct Hbr as [Htype|Htype|Htype|pre Hpre|pre p c Hpre Hpc|peers Htype|Htype
                      |c c' p Htype Hxc Hms Hcc Hpc].
      3: assert (isWorkerEvent ev = false) as Hnw
           by (unfold isWorkerEvent; by destruct Htype as [-> | ->]).
      3: assert (∀ ty, ty ≠ entity_creates_cluster → ty ≠ entity_joins_cluster →
                       ev_type ev ≠ ty) as Hty by (intros ty; destruct Htype; congruence).
      4,5: destruct Hpre as [[Htype ->]|[Htype ->]].
      all: rewrite ?Htype in Hev.
      all: split; simpl.
      all: try (intros [=]; fail).
      all: try (intros _; eapply Hwork; [|apply list_elem_of_here]; done).
      all: try (intros _; eapply Hwork;
                [|apply list_elem_of_further, list_elem_of_here]; done).
      all: try (intros _; eapply Hnew;
                first [apply list_elem_of_here
                      | apply list_elem_of_further, list_elem_of_here]).
      all: try (intros _; right; eapply Hnew; apply list_elem_of_here).
      all: try (intros _; left; eapply Hnew; apply list_elem_of_here).
      all: try (intros H; apply Hold; [by apply Ha | rewrite Htype; discriminate]).
      all: try (intros H; apply Hold; [by apply Hw | rewrite Htype; discriminate]).
      all: try (intros H; destruct (Hi H); [left | right]; apply Hold;
                [done | rewrite Htype; discriminate | done | rewrite Htype; discriminate]).
      all: try (intros H; destruct (Hr H); [left | right]; apply Hold;
                [done | rewrite Htype; discriminate | done | rewrite Htype; discriminate]).
      all: try (intros H; apply Hold; [by apply Ha | by apply Hty]).
      all: try (intros H; apply Hold; [by apply Hw | by apply Hty]).
      all: try (intros H; destruct (Hi H); [left | right]; apply Hold;
                [done | by apply Hty | done | by apply Hty]).
      all: try (intros H; destruct (Hr H); [left | right]; apply Hold;
                [done | by apply Hty | done | by apply Hty]).
      all: try (intros H; apply Hidle;
                [unfold isWorkerEvent; by rewrite ?Htype | by apply Hp]).
      all: try (intros H; destruct (Hl H) as (c0 & cl & Hc0 & Hcl0 & Hlead);
                exists c0, cl; rewrite Hcs; done).
      all: try (intros H; destruct (Hl H) as (c0 & cl & Hc0 & Hcl0 & Hlead); congruence).
      all: try (intros H; destruct Hev as (c0 & _ & Hc0); congruence).
      all: try (intros _; eexists _, _; split; [done|]; rewrite Hcs;
                split; [apply mapGet_mapSet_eq | done]).
    + rewrite lookup_alter_ne by done. intros Hse.
      apply (tracked_other st0 st' ev rest new); try done; [|by apply Htr].
      intros c0 cl Hcl Hlead. rewrite Hcs.
      destruct (branch_cluster_kept st ev f cs new c0 cl Hbr) as (cl' & H1 & _ & H2 & _).
      * apply Hcore1.
      * done.
      * intros Hsolo. pose proof (wf_leader _ _ _ (Hwf c0 cl Hcl)) as Hin.
        rewrite Hsolo, Hlead in Hin. by apply list_elem_of_singleton in Hin.
      * exists cl'. split; [done | congruence].
  - (* the clusters *)
    intros k cl' Hcl'. rewrite Hcs in Hcl'.
    assert (∀ l s0, entityStates st0 !! l = Some s0 → isClusterLeader s0 = true →
              (l = x → isClusterLeader (f s0) = true) →
              ∃ s1, entityStates st' !! l = Some s1 ∧ isClusterLeader s1 = true) as Hflag.
    { intros l s0 Hs0 Hl0 Hfx. rewrite Hes. destruct (decide (l = x)) as [->|Hne].
      - rewrite lookup_alter_eq, Hs0. eexists. split; [done|]. by apply Hfx.
      - rewrite lookup_alter_ne by done. by exists s0. }
    destruct (branch_cluster_from st ev f cs new k cl' Hbr Hcl')
      as [(cl & Hcl & Hid & Hlead & Hmem)|[-> Hf]].
    + change (clusters st) with (clusters st0) in Hcl.
      destruct (Hwf k cl Hcl) as [Hwid Hwnd Hwl (s0 & Hs0 & Hfl)]. split.
      * congruence.
      * destruct Hmem as [-> | ->]; [done | by apply setAdd_NoDup].
      * rewrite Hlead. destruct Hmem as [-> | ->]; [done|].
        apply elem_of_setAdd. by right.
      * rewrite Hlead. apply (Hflag _ s0 Hs0 Hfl). intros Hlx.
        destruct (branch_flag st ev f cs new Hbr) as [Hkeep|(c & Hxc & Hgone)];
          [by apply Hkeep|].
        exfalso. assert (k = c) as ->; [|congruence].
        assert (memberOf st0 x k) as Hmember.
        { exists (members cl). split; [unfold membersOf; by rewrite Hcl|].
          by rewrite <- Hlx. }
        apply (core_member_state _ Hcore) in Hmember. rewrite Hsame in Hxc.
        fold x in Hxc. congruence.
    + split; simpl; [done | apply NoDup_singleton | apply list_elem_of_here|].
      rewrite Hes. fold x. rewrite lookup_alter_eq, Hs. eexists. split; [done | apply Hf].
  - rewrite Hcs. by apply (branch_keys st ev f cs new).
Qed.

Lemma initialState_lookup (e : string) (s : EntityState) :
  entityStates (initialState config data) !! e = Some s →
  s = mkEntityState false false None false false false None.
Proof.
  unfold initialState. simpl.
  assert (∀ (l : list Entity) (m : gmap string EntityState),
    (∀ s0, m !! e = Some s0 → s0 = mkEntityState false false None false false false None) →
    foldl (λ m entity,
             <[id entity := mkEntityState false false None false false false None]> m)
          m l !! e = Some s →
    s = mkEntityState false false None false false false None) as Hfold.
  { induction l as [|x l IH]; intros m Hm; simpl; [apply Hm|].
    apply IH. intros s0. destruct (decide (id x = e)) as [->|Hne].
    - rewrite lookup_insert_eq. congruence.
    - rewrite lookup_insert_ne by done. apply Hm. }
  apply Hfold. intros s0. by rewrite lookup_empty.
Qed.

Lemma scheduled_settled (st : SimState) :
  NoDup (id <$> entities data) → scheduled config data = Done st → Settled data st.
Proof.
  intros Hnd Hsched.
  pose proof (scheduled_invariant config data st Hnd Hsched) as Hinv.
  assert (Known data st) as Hknown.
  { destruct (scheduled_known config data) as (st1 & Hsched1 & Hknown).
    by replace st with st1 by congruence. }
  revert Hsched. unfold scheduled.
  destruct (shuffle (entities data) (seed config)) as [shuffled seed'] eqn:Hsh.
  intros (es & evs & -> & Hq & Hall & Hids & Hes & Hcl & Hn)%scheduleArrivals_done.
  simpl in *. rewrite app_nil_r in Hq.
  assert (es ≡ₚ entities data) as Hperm.
  { apply (shuffle_perm _ _ (seed config)). by rewrite Hsh. }
  assert (∀ e, e ∈ id <$> entities data → pending (eventQueue st) entity_arrives e)
    as Harrives.
  { intros e He. rewrite <- Hperm, <- Hids in He.
    apply list_elem_of_fmap in He as (ev & -> & Hev). exists ev.
    split; [by rewrite Hq|]. split; [|done].
    by apply (proj1 (Forall_forall _ _) Hall). }
  split; [done | done | | |].
  - intros e s Hs.
    assert (e ∈ id <$> entities data) as He by (apply Hknown; eauto).
    rewrite Hes in Hs. apply initialState_lookup in Hs as ->.
    split; simpl; try done.
    + intros _. destruct (Harrives e He) as (ev & Hin & Hty & <-).
      apply elem_of_workerIds; [done|]. unfold isWorkerEvent. by rewrite Hty.
    + intros _. by apply Harrives.
    + intros _. left. by apply Harrives.
  - intros c cl. by rewrite Hcl.
  - rewrite Hcl. constructor.
Qed.

Lemma runLoop_settled (fuel : nat) :
  listsOwned data = true →
  ∀ st st', Settled data st →
    runLoop config data localeCompare fuel st = Done st' → Settled data st'.
Proof.
  intros Hlists.
  induction fuel as [|fuel IH]; intros st st' Hset; simpl;
    destruct (step config data localeCompare st) as [[st1| |]|] eqn:Hstep; try done.
  - by intros [= <-].
  - apply IH. by apply (step_settled st).
  - by intros [= <-].
Qed.

Lemma runSteps_settled (n : nat) :
  listsOwned data = true →
  ∀ st st', Settled data st →
    runSteps config data localeCompare n st = Done st' → Settled data st'.
Proof.
  intros Hlists.
  induction n as [|n IH]; intros st st' Hset; simpl; [by intros [= <-]|].
  destruct (step config data localeCompare st) as [[st1| |]|] eqn:Hstep; try done.
  - apply IH. by apply (step_settled st).
  - by intros [= <-].
Qed.

Lemma runLoop_queue (fuel : nat) :
  ∀ st st', runLoop config data localeCompare fuel st = Done st' → eventQueue st' = [].
Proof.
  induction fuel as [|fuel IH]; intros st st'; simpl;
    destruct (step config data localeCompare st) as [[st1| |]|] eqn:Hstep; try done.
  - intros [= <-]. unfold step in Hstep. by destruct (eventQueue st).
  - apply IH.
  - intros [= <-]. unfold step in Hstep. by destruct (eventQueue st).
Qed.

(** The state in which a run ends. *)
Lemma run_settled (fuel : nat) (st : SimState) :
  listsOwned data = true →
  NoDup (id <$> entities data) →
  run config data localeCompare fuel = Done st →
  Settled data st ∧ eventQueue st = [].
Proof.
  intros Hlists Hnd. unfold run.
  destruct (scheduled config data) as [st0| |] eqn:Hsched; [|done..].
  intros Hrun. split; [|by apply (runLoop_queue fuel st0)].
  apply (runLoop_settled fuel Hlists st0); [|done]. by apply scheduled_settled.
Qed.

Lemma stateAfter_settled (n : nat) (st : SimState) :
  listsOwned data = true →
  NoDup (id <$> entities data) →
  stateAfter config data localeCompare n = Done st → Settled data st.
Proof.
  intros Hlists Hnd. unfold stateAfter.
  destruct (scheduled config data) as [st0| |] eqn:Hsched; [|done..].
  apply runSteps_settled; [done|]. by apply scheduled_settled.
Qed.

End settled.

End SettledFacts.

Module ReportFacts.
Import Js Sim JsFacts SimFacts RandomFacts QueueFacts RunFacts SettledFacts.

(** *** What [getResults] reports at the end of a run *)

Lemma members_NoDup (L : Map ClusterState) :
  NoDup L.*1 →
  (∀ k cl, (k, cl) ∈ L → NoDup (members cl)) →
  (∀ k1 cl1 k2 cl2 x, (k1, cl1) ∈ L → (k2, cl2) ∈ L →
     x ∈ members cl1 → x ∈ members cl2 → k1 = k2) →
  NoDup (mjoin (members <$> mapValues L)).
Proof.
  induction L as [|[k cl] L IH]; [constructor|].
  intros [Hk Hnd]%NoDup_cons Hmem Hdisj. simpl.
  apply NoDup_app. split; [|split].
  - apply (Hmem k cl). apply list_elem_of_here.
  - intros x Hx (ms & Hin & (cl2 & -> & ([k2 cl2'] & Heq & Hin2)%list_elem_of_fmap)
                   %list_elem_of_fmap)%list_elem_of_join.
    simpl in Heq. subst cl2'.
    assert (k = k2) as <-.
    { apply (Hdisj k cl k2 cl2 x); try done;
        [apply list_elem_of_here | by apply list_elem_of_further]. }
    apply Hk. apply list_elem_of_fmap. by exists (k, cl2).
  - apply IH; [done | |].
    + intros k1 cl1 H1. apply (Hmem k1 cl1). by apply list_elem_of_further.
    + intros k1 cl1 k2 cl2 x H1 H2. apply (Hdisj k1 cl1 k2 cl2 x);
        by apply list_elem_of_further.
Qed.

Lemma clusterName_truthy (n : N) : truthy (Some (clusterName n)) = Some (clusterName n).
Proof. unfold truthy, clusterName. simpl. done. Qed.

Section report.
Context (config : SimConfig) (data : SimulationData).

(** In a settled state without pending events every entity has a
    cluster. *)
Lemma settled_clustered (st : SimState) (e : string) :
  Settled data st → eventQueue st = [] → e ∈ id <$> entities data →
  ∃ s c cl, entityStates st !! e = Some s ∧
    arrived s = true ∧ indexed s = true ∧
    processing s = false ∧ waitingForFollowers s = false ∧
    clusterId s = Some c ∧ truthy (clusterId s) = Some c ∧
    mapGet c (clusters st) = Some cl ∧ e ∈ members cl.
Proof.
  intros [Hinv Hknown Htr Hwf Hkeys] Hq He.
  destruct (proj2 (known_states _ _ Hknown e) He) as [s Hs].
  destruct (Htr e s Hs) as [Hp Ha Hi Hr Hw Hl]. rewrite Hq in *.
  assert (∀ ty, ¬ pending [] ty e) as Hnone.
  { intros ty (ev & Hin & _). by apply elem_of_nil in Hin. }
  destruct (clusterId s) as [c|] eqn:Hc.
  2:{ specialize (Hp eq_refl). by apply elem_of_nil in Hp. }
  assert (clusterIdOf st e = Some c) as Hce.
  { unfold clusterIdOf. rewrite Hs. done. }
  destruct (core_state_member _ (inv_core _ Hinv) e c Hce) as (ms & Hms & Hin).
  unfold membersOf in Hms. destruct (mapGet c (clusters st)) as [cl|] eqn:Hcl; [|done].
  injection Hms as <-.
  destruct (core_names _ (inv_core _ Hinv) c cl Hcl) as (n & -> & _).
  exists s, (clusterName n), cl. rewrite Hc.
  repeat split; try done.
  - destruct (arrived s); [done|]. by destruct (Hnone _ (Ha eq_refl)).
  - destruct (indexed s); [done|]. destruct (Hi eq_refl) as [H|H]; by destruct (Hnone _ H).
  - destruct (processing s); [|done]. destruct (Hr eq_refl) as [H|H]; by destruct (Hnone _ H).
  - destruct (waitingForFollowers s); [|done]. by destruct (Hnone _ (Hw eq_refl)).
Qed.

(** The member sets of the clusters partition the entities. *)
Lemma members_partition (st : SimState) :
  NoDup (id <$> entities data) →
  Settled data st → eventQueue st = [] →
  mjoin (members <$> mapValues (clusters st)) ≡ₚ id <$> entities data.
Proof.
  intros Hids Hset Hq. pose proof Hset as [Hinv Hknown Htr Hwf Hkeys].
  assert (∀ k cl, (k, cl) ∈ clusters st → mapGet k (clusters st) = Some cl) as Hget.
  { intros k cl. by apply elem_of_mapGet. }
  apply NoDup_Permutation; [|done|].
  - apply members_NoDup; [done | |].
    + intros k cl Hin. apply (wf_members st k cl). apply Hwf. by apply Hget.
    + intros k1 cl1 k2 cl2 x H1 H2 Hx1 Hx2.
      assert (memberOf st x k1) as Hm1.
      { exists (members cl1). unfold membersOf. by rewrite (Hget _ _ H1). }
      assert (memberOf st x k2) as Hm2.
      { exists (members cl2). unfold membersOf. by rewrite (Hget _ _ H2). }
      apply (core_member_state _ (inv_core _ Hinv)) in Hm1, Hm2. congruence.
  - intros x. rewrite list_elem_of_join. split.
    + intros (ms & Hx & (cl & -> & ([k cl'] & Heq & Hin)%list_elem_of_fmap)
                 %list_elem_of_fmap).
      simpl in Heq. subst cl'.
      assert (memberOf st x k) as Hm.
      { exists (members cl). unfold membersOf. by rewrite (Hget _ _ Hin). }
      apply (core_member_state _ (inv_core _ Hinv)) in Hm.
      apply (known_states _ _ Hknown). unfold clusterIdOf in Hm.
      destruct (entityStates st !! x); [by eexists | done].
    + intros Hx.
      destruct (settled_clustered st x Hset Hq Hx)
        as (s & c & cl & _ & _ & _ & _ & _ & _ & _ & Hcl & Hin).
      exists (members cl). split; [done|].
      apply list_elem_of_fmap. exists cl. split; [done|].
      apply list_elem_of_fmap. exists (c, cl). split; [done|]. by apply mapGet_elem_of.
Qed.

(** What [getResults] says of such a state. *)
Lemma settled_results (st : SimState) :
  NoDup (id <$> entities data) →
  Settled data st → eventQueue st = [] →
  unclustered (getResults config data st) = 0%nat ∧
  reportedMembers (getResults config data st) ≡ₚ id <$> entities data ∧
  Forall (λ c, s_size c = length (s_members c) ∧ (1 ≤ s_size c)%nat)
    (r_clusters (getResults config data st)).
Proof.
  intros Hids Hset Hq. pose proof Hset as [Hinv Hknown Htr Hwf Hkeys].
  split; [|split].
  - simpl. apply map_size_empty_iff, map_empty. intros e.
    apply map_lookup_filter_None. destruct (entityStates st !! e) as [s|] eqn:Hs; [|by left].
    right. intros s' [= <-]. simpl.
    assert (e ∈ id <$> entities data) as He by (apply Hknown; eauto).
    destruct (settled_clustered st e Hset Hq He)
      as (s' & c & cl & Hs' & _ & _ & _ & _ & _ & Htruthy & _).
    rewrite Hs in Hs'. injection Hs' as <-. by rewrite Htruthy.
  - unfold reportedMembers. simpl. rewrite <- list_fmap_compose.
    by apply members_partition.
  - simpl. apply Forall_fmap, Forall_forall. intros cl Hcl. simpl. split; [done|].
    apply list_elem_of_fmap in Hcl as ([k cl'] & -> & Hin). simpl.
    apply (elem_of_mapGet _ _ _ Hkeys) in Hin.
    pose proof (wf_leader _ _ _ (Hwf k cl' Hin)) as Hlead.
    destruct (members cl'); [by apply elem_of_nil in Hlead | simpl; lia].
Qed.

End report.

Lemma length_join_nonempty {A} (ls : list (list A)) :
  Forall (λ l, (1 ≤ length l)%nat) ls → (length ls ≤ length (mjoin ls))%nat.
Proof.
  induction 1 as [|l ls Hl _ IH]; simpl; [done|]. rewrite length_app. lia.
Qed.

(** *** The statistics of [getResults] *)

Lemma distribution_count (sizes : list nat) :
  ∀ (d : gmap nat nat) (size : nat),
    default O (foldl (λ d size, <[size := S (default O (d !! size))]> d) d sizes !! size)
    = (default O (d !! size) + length (List.filter (λ s, (s =? size)%nat) sizes))%nat.
Proof.
  induction sizes as [|s sizes IH]; intros d size; simpl; [lia|].
  rewrite IH. destruct (Nat.eqb_spec s size) as [->|Hne]; simpl.
  - rewrite lookup_insert_eq. simpl. lia.
  - by rewrite lookup_insert_ne.
Qed.

Lemma max_bound (l : list Z) :
  0 ≤ foldr Z.max 0 l ∧ Forall (λ x, x ≤ foldr Z.max 0 l) l.
Proof.
  induction l as [|x l [IH0 IH]]; simpl; [split; [lia | constructor]|].
  split; [lia|]. constructor; [lia|].
  apply (Forall_impl _ _ _ IH). intros y Hy. simpl in Hy. lia.
Qed.

Lemma min_bound (l : list Z) (a : Z) :
  foldr Z.min a l ≤ a ∧ Forall (λ x, foldr Z.min a l ≤ x) l ∧
  ∀ b, b ≤ a → Forall (λ x, b ≤ x) l → b ≤ foldr Z.min a l.
Proof.
  induction l as [|x l (IHa & IH & IHb)]; simpl.
  - split; [lia|]. split; [constructor|]. intros b Hb _. done.
  - split; [lia|]. split.
    + constructor; [lia|]. apply (Forall_impl _ _ _ IH). intros y Hy. simpl in Hy. lia.
    + intros b Hb [Hx Hl]%Forall_cons. specialize (IHb b Hb Hl). lia.
Qed.

Lemma sum_sizes (sizes : list nat) (a : Z) :
  foldl (λ a b, a + Z.of_nat b) a sizes = a + Z.of_nat (sum_list sizes).
Proof.
  revert a. induction sizes as [|s sizes IH]; intros a; simpl; [lia|].
  rewrite IH. unfold id. lia.
Qed.

Lemma length_join_sum {A} (ls : list (list A)) :
  length (mjoin ls) = sum_list (length <$> ls).
Proof.
  induction ls as [|l ls IH]; simpl; [done|]. by rewrite length_app, IH.
Qed.

End ReportFacts.

(** ** Properties of the simulator beyond the claims *)
Module SimExtra.
Import Js Sim JsFacts SimFacts RandomFacts QueueFacts RunFacts SettledFacts ReportFacts.

(** X1 ([seededRandom], and [Math.floor(random() * n)] as [shuffle] and
    [getJitteryWait] use it): for every integer seed and every positive
    [n] the index drawn is at least 0 and below [n], and the state of
    the generator stays between 0 and [2^31 - 2]: [random()] never
    returns 1. *)
Theorem X1_random_index_in_range (n seed : Z) (Hn : 0 < n) :
  0 ≤ (randomBelow n seed).1 < n ∧
  0 ≤ (randomBelow n seed).2 ≤ 2147483646.
Proof.
  split; [by apply randomBelow_range|].
  unfold randomBelow. pose proof (random_state seed). by destruct (random seed).
Qed.

Lemma X1_random_index_witness :
  0 < 2 ∧ 0 ≤ (randomBelow 2 42).1 < 2 ∧ 0 ≤ (randomBelow 2 42).2 ≤ 2147483646.
Proof. split; [lia|]. apply (X1_random_index_in_range 2 42). lia. Defined.

(** X2 ([shuffle]): for every array and every seed the result has no
    hole and is a permutation of the array. *)
Theorem X2_shuffle_permutes {T} (array : list T) (seed : Z) :
  ∃ es, (shuffle array seed).1 = Some <$> es ∧ es ≡ₚ array.
Proof.
  destruct (shuffleLoop_in_range (length array - 1) array seed) as (es & Hes & _); [done|].
  exists es. split; [done|]. by apply (shuffle_perm _ _ seed).
Qed.

(** X3 ([scheduleEvent]): after every call the queue is sorted by time
    and holds the new event and the events it held, nothing else. *)
Theorem X3_scheduleEvent_sorts (ev : Event) (st : SimState) :
  Sorted byTime (eventQueue (scheduleEvent ev st)) ∧
  eventQueue (scheduleEvent ev st) ≡ₚ ev :: eventQueue st.
Proof.
  split; [apply sortByTime_sorted|]. simpl. rewrite sortByTime_perm.
  symmetry. apply Permutation_cons_append.
Qed.

(** X4 ([scheduleEvent], the stable [sort]): in a sorted queue the new
    event is placed behind every event that is not later than it, and
    the other events keep their order: events of the same time are
    processed in the order in which they were scheduled. *)
Theorem X4_scheduleEvent_first_come (ev : Event) (st : SimState)
    (Hsorted : Sorted byTime (eventQueue st)) :
  eventQueue (scheduleEvent ev st)
  = filter (λ x, time x ≤ time ev) (eventQueue st)
    ++ ev :: filter (λ x, time ev < time x) (eventQueue st).
Proof. by apply scheduleEvent_stable. Qed.

Lemma X4_same_time_witness :
  Sorted byTime (eventQueue twoLeaders) ∧
  eventQueue (scheduleEvent (mkEvent 61189 entity_indexed "b" None) twoLeaders)
  = filter (λ x, time x ≤ 61189) (eventQueue twoLeaders)
    ++ mkEvent 61189 entity_indexed "b" None
       :: filter (λ x, 61189 < time x) (eventQueue twoLeaders).
Proof.
  assert (Sorted byTime (eventQueue twoLeaders)) as Hs.
  { simpl. repeat constructor. unfold byTime. simpl. lia. }
  split; [exact Hs|].
  exact (X4_scheduleEvent_first_come (mkEvent 61189 entity_indexed "b" None) twoLeaders Hs).
Defined.

(** X5 ([run], [processEvent]): on every data set in which each entity
    id has a similarity list of its own or is not the name of a member of
    [Object.prototype] (for such a name [this.similarities[id]] is the
    inherited member, and [.filter] on it throws), and with every
    configuration, a run returns: with five units of fuel per entity the
    event loop ends with an empty queue, and no step throws. *)
Theorem X5_run_returns (config : SimConfig) (data : SimulationData)
    (localeCompare : string → string → Z)
    (Hlists : listsOwned data = true) :
  ∃ st, run config data localeCompare (runFuel data) = Done st ∧ eventQueue st = [].
Proof.
  destruct (run_returns config data localeCompare Hlists) as (st & Hrun & Hq & _).
  by exists st.
Qed.

Lemma X5_pair_witness :
  listsOwned (pairData "a" "b") = true ∧
  ∃ st, run scenario3 (pairData "a" "b") codeUnitCompare (runFuel (pairData "a" "b"))
        = Done st ∧ eventQueue st = [].
Proof.
  assert (listsOwned (pairData "a" "b") = true) as Hl by (vm_compute; reflexivity).
  split; [exact Hl|].
  exact (X5_run_returns scenario3 (pairData "a" "b") codeUnitCompare Hl).
Defined.

(** An entity named after a member of [Object.prototype], without a
    similarity list of its own: the first search throws. *)
Lemma inherited_name_throws :
  run scenario3 (strangers (person "constructor" 0) (person "b" 0)) codeUnitCompare 10
  = Threw "TypeError".
Proof. vm_compute. reflexivity. Qed.

(** X6 (the event loop of [run]): when each entity id has a similarity
    list of its own or is not the name of a member of [Object.prototype],
    then after any number of processed events the queue is sorted by
    time, and every pending event belongs to an entity of the data. *)
Theorem X6_queue_sorted_throughout (config : SimConfig) (data : SimulationData)
    (localeCompare : string → string → Z) (n : nat)
    (Hlists : listsOwned data = true) :
  ∃ st, stateAfter config data localeCompare n = Done st ∧
        Sorted byTime (eventQueue st) ∧
        Forall (λ ev, entityId ev ∈ id <$> entities data) (eventQueue st).
Proof.
  destruct (stateAfter_returns config data localeCompare n Hlists)
    as (st & Hst & Hknown & Hs).
  exists st. split; [done|]. split; [done|]. apply Hknown.
Qed.

Lemma X6_pair_witness :
  listsOwned (pairData "a" "b") = true ∧
  ∃ st, stateAfter scenario3 (pairData "a" "b") codeUnitCompare 6 = Done st ∧
        Sorted byTime (eventQueue st) ∧
        Forall (λ ev, entityId ev ∈ id <$> entities (pairData "a" "b")) (eventQueue st).
Proof.
  assert (listsOwned (pairData "a" "b") = true) as Hl by (vm_compute; reflexivity).
  split; [exact Hl|].
  exact (X6_queue_sorted_throughout scenario3 (pairData "a" "b") codeUnitCompare 6 Hl).
Defined.

(** X7 ([run]): when the ids of the entities are distinct, and each has
    a similarity list of its own or is not the name of a member of
    [Object.prototype], a run ends with every entity arrived, indexed, neither processing nor waiting
    for followers, and a member of exactly one cluster, the one its
    [clusterId] names: no entity is left without a cluster. *)
Theorem X7_run_ends_clustered (config : SimConfig) (data : SimulationData)
    (localeCompare : string → string → Z)
    (Hids : NoDup (id <$> entities data))
    (Hlists : listsOwned data = true) :
  ∃ st, run config data localeCompare (runFuel data) = Done st ∧
    ∀ e, e ∈ id <$> entities data →
      ∃ s c cl, entityStates st !! e = Some s ∧
        arrived s = true ∧ indexed s = true ∧
        processing s = false ∧ waitingForFollowers s = false ∧
        clusterId s = Some c ∧
        mapGet c (clusters st) = Some cl ∧ e ∈ members cl ∧
        ∀ c', memberOf st e c' → c' = c.
Proof.
  destruct (run_returns config data localeCompare Hlists) as (st & Hrun & Hq & _).
  exists st. split; [done|]. intros e He.
  destruct (run_settled config data localeCompare _ st Hlists Hids Hrun) as [Hset _].
  destruct (settled_clustered data st e Hset Hq He)
    as (s & c & cl & Hs & Ha & Hi & Hp & Hw & Hc & _ & Hcl & Hin).
  exists s, c, cl. repeat split; try done.
  intros c' Hm. apply (core_member_state _ (inv_core _ (se_invariant _ _ Hset))) in Hm.
  unfold clusterIdOf in Hm. rewrite Hs in Hm. simpl in Hm. congruence.
Qed.

Lemma X7_pair_witness :
  NoDup (id <$> entities (pairData "a" "b")) ∧
  listsOwned (pairData "a" "b") = true ∧
  ∃ st, run scenario3 (pairData "a" "b") codeUnitCompare (runFuel (pairData "a" "b"))
        = Done st ∧
    ∀ e, e ∈ id <$> entities (pairData "a" "b") →
      ∃ s c cl, entityStates st !! e = Some s ∧
        arrived s = true ∧ indexed s = true ∧
        processing s = false ∧ waitingForFollowers s = false ∧
        clusterId s = Some c ∧
        mapGet c (clusters st) = Some cl ∧ e ∈ members cl ∧
        ∀ c', memberOf st e c' → c' = c.
Proof.
  assert (NoDup (id <$> entities (pairData "a" "b"))) as Hnd.
  { simpl. apply NoDup_cons. split; [|apply NoDup_singleton].
    intros H%list_elem_of_singleton. discriminate H. }
  assert (listsOwned (pairData "a" "b") = true) as Hl by (vm_compute; reflexivity).
  split; [exact Hnd|]. split; [exact Hl|].
  exact (X7_run_ends_clustered scenario3 (pairData "a" "b") codeUnitCompare Hnd Hl).
Defined.

(** X8 ([getResults] after [run]): when the ids of the entities are
    distinct, and each has a similarity list of its own or is not the
    name of a member of [Object.prototype], the report of a finished run counts no unclustered entity,
    the member lists of its clusters partition the entities (each entity
    in exactly one list), no cluster is empty, each size is the length of
    its member list, and there are at most as many clusters as
    entities. *)
Theorem X8_results_partition (config : SimConfig) (data : SimulationData)
    (localeCompare : string → string → Z)
    (Hids : NoDup (id <$> entities data))
    (Hlists : listsOwned data = true) :
  ∃ r, results config data localeCompare (runFuel data) = Done r ∧
    unclustered r = 0%nat ∧
    reportedMembers r ≡ₚ id <$> entities data ∧
    Forall (λ c, s_size c = length (s_members c) ∧ (1 ≤ s_size c)%nat) (r_clusters r) ∧
    totalClusters r = length (r_clusters r) ∧
    totalEntities r = length (reportedMembers r) ∧
    (totalClusters r ≤ totalEntities r)%nat.
Proof.
  destruct (run_returns config data localeCompare Hlists) as (st & Hrun & Hq & _).
  destruct (run_settled config data localeCompare _ st Hlists Hids Hrun) as [Hset _].
  destruct (settled_results config data st Hids Hset Hq) as (Hun & Hperm & Hall).
  unfold results. rewrite Hrun. eexists. split; [done|].
  split; [done|]. split; [done|]. split; [done|].
  assert (totalEntities (getResults config data st)
          = length (reportedMembers (getResults config data st))) as Htotal.
  { rewrite Hperm. simpl. by rewrite length_fmap. }
  split; [simpl; unfold mapValues; by rewrite !length_fmap|]. split; [done|].
  rewrite Htotal. unfold reportedMembers.
  transitivity (length (s_members <$> r_clusters (getResults config data st))).
  { simpl. unfold mapValues. by rewrite !length_fmap. }
  apply length_join_nonempty. apply Forall_fmap.
  apply (Forall_impl _ _ _ Hall). intros c [Heq H]. simpl. lia.
Qed.

Lemma X8_pair_witness :
  NoDup (id <$> entities (pairData "a" "b")) ∧
  listsOwned (pairData "a" "b") = true ∧
  ∃ r, results scenario3 (pairData "a" "b") codeUnitCompare (runFuel (pairData "a" "b"))
       = Done r ∧
    unclustered r = 0%nat ∧
    reportedMembers r ≡ₚ id <$> entities (pairData "a" "b") ∧
    Forall (λ c, s_size c = length (s_members c) ∧ (1 ≤ s_size c)%nat) (r_clusters r) ∧
    totalClusters r = length (r_clusters r) ∧
    totalEntities r = length (reportedMembers r) ∧
    (totalClusters r ≤ totalEntities r)%nat.
Proof.
  assert (NoDup (id <$> entities (pairData "a" "b"))) as Hnd.
  { simpl. apply NoDup_cons. split; [|apply NoDup_singleton].
    intros H%list_elem_of_singleton. discriminate H. }
  assert (listsOwned (pairData "a" "b") = true) as Hl by (vm_compute; reflexivity).
  split; [exact Hnd|]. split; [exact Hl|].
  exact (X8_results_partition scenario3 (pairData "a" "b") codeUnitCompare Hnd Hl).
Defined.

(** X9 ([createCluster], [joinCluster], the leave-then-join of
    [runFallback]): when the ids of the entities are distinct, and each
    has a similarity list of its own or is not the name of a member of
    [Object.prototype], after any number of processed events every cluster of the map is filed under
    its own id, no two entries share an id, its members are distinct
    entities of the data whose [clusterId] is this cluster, and its
    leader is one of them: no cluster is empty and none has lost its
    leader. *)
Theorem X9_clusters_well_formed (config : SimConfig) (data : SimulationData)
    (localeCompare : string → string → Z) (n : nat)
    (Hids : NoDup (id <$> entities data))
    (Hlists : listsOwned data = true) :
  ∃ st, stateAfter config data localeCompare n = Done st ∧
    NoDup (clusters st).*1 ∧
    ∀ c cl, mapGet c (clusters st) = Some cl →
      c_id cl = c ∧ NoDup (members cl) ∧ leaderId cl ∈ members cl ∧
      ∀ m, m ∈ members cl → m ∈ id <$> entities data ∧ clusterIdOf st m = Some c.
Proof.
  destruct (stateAfter_returns config data localeCompare n Hlists)
    as (st & Hst & Hknown & _).
  pose proof (stateAfter_settled config data localeCompare n st Hlists Hids Hst)
    as [Hinv _ _ Hwf Hkeys].
  exists st. split; [done|]. split; [done|]. intros c cl Hcl.
  destruct (Hwf c cl Hcl) as [Hid Hnd Hlead _]. repeat split; try done.
  - apply (known_states _ _ Hknown).
    assert (clusterIdOf st m = Some c) as Hm.
    { apply (core_member_state _ (inv_core _ Hinv)). exists (members cl).
      unfold membersOf. by rewrite Hcl. }
    unfold clusterIdOf in Hm. destruct (entityStates st !! m); [by eexists | done].
  - apply (core_member_state _ (inv_core _ Hinv)). exists (members cl).
    unfold membersOf. by rewrite Hcl.
Qed.

Lemma X9_pair_witness :
  NoDup (id <$> entities (pairData "a" "b")) ∧
  listsOwned (pairData "a" "b") = true ∧
  ∃ st, stateAfter scenario3 (pairData "a" "b") codeUnitCompare 6 = Done st ∧
    NoDup (clusters st).*1 ∧
    ∀ c cl, mapGet c (clusters st) = Some cl →
      c_id cl = c ∧ NoDup (members cl) ∧ leaderId cl ∈ members cl ∧
      ∀ m, m ∈ members cl →
        m ∈ id <$> entities (pairData "a" "b") ∧ clusterIdOf st m = Some c.
Proof.
  assert (NoDup (id <$> entities (pairData "a" "b"))) as Hnd.
  { simpl. apply NoDup_cons. split; [|apply NoDup_singleton].
    intros H%list_elem_of_singleton. discriminate H. }
  assert (listsOwned (pairData "a" "b") = true) as Hl by (vm_compute; reflexivity).
  split; [exact Hnd|]. split; [exact Hl|].
  exact (X9_clusters_well_formed scenario3 (pairData "a" "b") codeUnitCompare 6 Hnd Hl).
Defined.

(** X10 ([isClusterLeader]): when the ids of the entities are distinct,
    and each has a similarity list of its own or is not the name of a
    member of [Object.prototype], after any number of processed events the flag is set for exactly
    the entities that lead a cluster of the map, and such an entity is in
    the cluster it leads. *)
Theorem X10_leader_flag (config : SimConfig) (data : SimulationData)
    (localeCompare : string → string → Z) (n : nat)
    (Hids : NoDup (id <$> entities data))
    (Hlists : listsOwned data = true) :
  ∃ st, stateAfter config data localeCompare n = Done st ∧
    ∀ e s, entityStates st !! e = Some s →
      (isClusterLeader s = true ↔
       ∃ c cl, mapGet c (clusters st) = Some cl ∧ leaderId cl = e) ∧
      (isClusterLeader s = true →
       ∃ c cl, clusterId s = Some c ∧ mapGet c (clusters st) = Some cl ∧ leaderId cl = e).
Proof.
  destruct (stateAfter_returns config data localeCompare n Hlists)
    as (st & Hst & Hknown & _).
  pose proof (stateAfter_settled config data localeCompare n st Hlists Hids Hst)
    as [Hinv _ Htr Hwf Hkeys].
  exists st. split; [done|]. intros e s Hs. split; [split|].
  - intros H. destruct (tr_leader _ _ _ (Htr e s Hs) H) as (c & cl & _ & Hcl & Hlead).
    by exists c, cl.
  - intros (c & cl & Hcl & <-).
    destruct (wf_flag _ _ _ (Hwf c cl Hcl)) as (s' & Hs' & Hflag). congruence.
  - apply (tr_leader _ _ _ (Htr e s Hs)).
Qed.

Lemma X10_pair_witness :
  NoDup (id <$> entities (pairData "a" "b")) ∧
  listsOwned (pairData "a" "b") = true ∧
  ∃ st, stateAfter scenario3 (pairData "a" "b") codeUnitCompare 6 = Done st ∧
    ∀ e s, entityStates st !! e = Some s →
      (isClusterLeader s = true ↔
       ∃ c cl, mapGet c (clusters st) = Some cl ∧ leaderId cl = e) ∧
      (isClusterLeader s = true →
       ∃ c cl, clusterId s = Some c ∧ mapGet c (clusters st) = Some cl ∧ leaderId cl = e).
Proof.
  assert (NoDup (id <$> entities (pairData "a" "b"))) as Hnd.
  { simpl. apply NoDup_cons. split; [|apply NoDup_singleton].
    intros H%list_elem_of_singleton. discriminate H. }
  assert (listsOwned (pairData "a" "b") = true) as Hl by (vm_compute; reflexivity).
  split; [exact Hnd|]. split; [exact Hl|].
  exact (X10_leader_flag scenario3 (pairData "a" "b") codeUnitCompare 6 Hnd Hl).
Defined.

(** X11 ([getJitteryWait]): with [0 ≤ followerWaitMinMs <
    followerWaitMaxMs < 2^53] the wait drawn is at least the minimum and
    below the maximum; the call changes nothing but the state of the
    generator. *)
Theorem X11_jittery_wait_in_range (config : SimConfig) (st : SimState)
    (Hmin : 0 ≤ followerWaitMinMs config)
    (Hrange : followerWaitMinMs config < followerWaitMaxMs config)
    (Hmax : followerWaitMaxMs config < 2 ^ 53) :
  followerWaitMinMs config ≤ (getJitteryWait config st).1 < followerWaitMaxMs config ∧
  entityStates (getJitteryWait config st).2 = entityStates st ∧
  clusters (getJitteryWait config st).2 = clusters st ∧
  eventQueue (getJitteryWait config st).2 = eventQueue st ∧
  currentTime (getJitteryWait config st).2 = currentTime st ∧
  nextClusterId (getJitteryWait config st).2 = nextClusterId st.
Proof.
  unfold getJitteryWait.
  assert (sub (followerWaitMaxMs config) (followerWaitMinMs config)
          = followerWaitMaxMs config - followerWaitMinMs config) as ->.
  { unfold sub. apply round53_small. lia. }
  pose proof (randomBelow_range (followerWaitMaxMs config - followerWaitMinMs config)
                (rngSeed st) ltac:(lia)) as Hr.
  destruct (randomBelow _ (rngSeed st)) as [r seed']. simpl in *.
  split; [|done]. unfold add. rewrite round53_small by lia. lia.
Qed.

Lemma X11_scenario3_witness :
  0 ≤ 30000 ∧ 30000 < 90000 ∧ 90000 < 2 ^ 53 ∧
  30000 ≤ (getJitteryWait scenario3 twoLeaders).1 < 90000.
Proof.
  split; [lia|]. split; [lia|]. split; [lia|].
  apply (X11_jittery_wait_in_range scenario3 twoLeaders); simpl; lia.
Defined.

(** X12 ([getVisiblePeers]): for [k ≥ 0] and an entity with a
    similarity list of its own, the peers returned are at most [k], they
    come from that list in its order, and each of them is an entity of
    the data at the requested layer whose state is indexed.  An entity
    without a list sees nobody, unless its id is the name of a member of
    [Object.prototype]: then [this.similarities[entityId]] is that
    member, and the call throws a TypeError. *)
Theorem X12_visible_peers (config : SimConfig) (data : SimulationData)
    (st : SimState) (entityId : string) (layer : Z)
    (Hk : 0 ≤ k config) :
  (∀ sims, similarities data !! entityId = Some sims →
     ∃ peers, getVisiblePeers config data st entityId layer = Done peers ∧
       peers `sublist_of` sims ∧
       Z.of_nat (length peers) ≤ k config ∧
       Forall (λ p, ∃ peer s,
                 findEntity data (peerId p) = Some peer ∧ _kg_layer peer = layer ∧
                 entityStates st !! peerId p = Some s ∧ indexed s = true) peers) ∧
  (similarities data !! entityId = None → inherited entityId = false →
     getVisiblePeers config data st entityId layer = Done []) ∧
  (similarities data !! entityId = None → inherited entityId = true →
     getVisiblePeers config data st entityId layer = Threw "TypeError").
Proof.
  unfold getVisiblePeers, similarTo, slice0.
  destruct (Z.ltb_spec (k config) 0) as [|_]; [lia|].
  split; [|split].
  2:{ intros -> ->. simpl. by rewrite take_nil. }
  2:{ intros -> ->. done. }
  intros sims ->. eexists. split; [done|].
  assert (List.filter (visibleAt data st layer) sims = filter (visibleAt data st layer) sims)
    as ->.
  { induction sims as [|p sims IH]; [done|]. simpl. rewrite filter_cons, IH.
    by destruct (visibleAt data st layer p). }
  split; [|split].
  - etransitivity; [apply sublist_take | apply sublist_filter].
  - rewrite length_take. lia.
  - apply Forall_take, Forall_forall. intros p [Hp _]%list_elem_of_filter.
    unfold visibleAt in Hp. apply Is_true_true in Hp.
    destruct (findEntity data (peerId p)) as [peer|]; [|done].
    destruct (Z.eqb_spec (_kg_layer peer) layer) as [Hl|]; [|done]. simpl in Hp.
    destruct (entityStates st !! peerId p) as [s|]; [|done].
    by exists peer, s.
Qed.

Lemma X12_two_leaders_witness :
  0 ≤ k scenario3 ∧
  ∃ peers, getVisiblePeers scenario3 (pairData "a" "b") twoLeaders "a" 0 = Done peers ∧
    peers `sublist_of` [mkSim "b" 900000] ∧
    Z.of_nat (length peers) ≤ k scenario3.
Proof.
  assert (0 ≤ k scenario3) as Hk by (simpl; lia).
  split; [exact Hk|].
  destruct (proj1 (X12_visible_peers scenario3 (pairData "a" "b") twoLeaders "a" 0 Hk)
              [mkSim "b" 900000] eq_refl) as (peers & Hp & Hsub & Hlen & _).
  exists peers. split; [exact Hp|]. split; [exact Hsub | exact Hlen].
Defined.

(** X23 ([getResults]): in the report of any state, [totalClusters] is
    the number of clusters listed, [distribution[size]] is the number
    of clusters of that size ([singletons] is [distribution[1]], 0 when
    there is none), and every cluster size lies between [minClusterSize]
    and [maxClusterSize], which are not negative. *)
Theorem X23_results_statistics (config : SimConfig) (data : SimulationData)
    (st : SimState) :
  let r := getResults config data st in
  totalClusters r = length (r_clusters r) ∧
  (∀ size, default O (distribution r !! size)
           = length (filter (λ c, s_size c = size) (r_clusters r))) ∧
  singletons r = default O (distribution r !! 1%nat) ∧
  Forall (λ c, minClusterSize r ≤ Z.of_nat (s_size c) ≤ maxClusterSize r) (r_clusters r) ∧
  0 ≤ minClusterSize r ≤ maxClusterSize r.
Proof.
  intros r. subst r. simpl. unfold mapValues.
  split; [by rewrite !length_fmap|].
  generalize (clusters st).*2. intros vals.
  split; [|split; [|split]].
  - intros size. rewrite distribution_count, lookup_empty.
    change (default O None) with O. rewrite Nat.add_0_l.
    induction vals as [|cl vals IH]; [done|].
    rewrite !fmap_cons. cbn [List.filter].
    destruct (Nat.eqb_spec (length (members cl)) size) as [Heq|Hne].
    + rewrite filter_cons_True by done. cbn [length]. by rewrite IH.
    + by rewrite filter_cons_False by done.
  - by rewrite distribution_count, lookup_empty.
  - apply Forall_fmap, Forall_forall. intros cl Hcl. simpl.
    assert (Z.of_nat (length (members cl))
            ∈ Z.of_nat <$> ((λ c, length (members c)) <$> vals)) as Hin.
    { apply list_elem_of_fmap. exists (length (members cl)). split; [done|].
      apply list_elem_of_fmap. by exists cl. }
    split.
    + destruct vals as [|cl0 vals]; [by apply elem_of_nil in Hcl|].
      simpl in *. destruct (min_bound (Z.of_nat <$> ((λ c, length (members c)) <$> vals))
                              (Z.of_nat (length (members cl0)))) as (Ha & Hall & _).
      apply elem_of_cons in Hin as [->|Hin]; [done|].
      rewrite Forall_forall in Hall. by apply Hall.
    + destruct (max_bound (Z.of_nat <$> ((λ c, length (members c)) <$> vals))) as [_ Hall].
      rewrite Forall_forall in Hall. by apply Hall.
  - destruct vals as [|cl0 vals]; [simpl; lia|].
    rewrite !fmap_cons. cbn [foldr].
    destruct (min_bound (Z.of_nat <$> ((λ c, length (members c)) <$> vals))
                (Z.of_nat (length (members cl0)))) as (Ha & _ & Hb).
    destruct (max_bound (Z.of_nat <$> ((λ c, length (members c)) <$> vals))) as [H0 _].
    split; [|lia]. apply Hb; [lia|].
    apply Forall_fmap, Forall_forall. intros x _. simpl. lia.
Qed.

(** X24 ([getResults] after [run]): when the ids of the entities are
    distinct, and each has a similarity list of its own or is not the
    name of a member of [Object.prototype], the cluster sizes of the report of a finished run add up
    to [totalEntities], no cluster is larger than that, the average is
    [totalEntities / totalClusters], and, when there is an entity, there
    is a cluster and the smallest has at least one member. *)
Theorem X24_results_add_up (config : SimConfig) (data : SimulationData)
    (localeCompare : string → string → Z)
    (Hids : NoDup (id <$> entities data))
    (Hlists : listsOwned data = true) :
  ∃ r, results config data localeCompare (runFuel data) = Done r ∧
    sum_list_with s_size (r_clusters r) = totalEntities r ∧
    maxClusterSize r ≤ Z.of_nat (totalEntities r) ∧
    avgClusterSize r
    = (if (0 <? totalClusters r)%nat
       then Js.div (Z.of_nat (totalEntities r)) (Z.of_nat (totalClusters r))
       else Js.mkDouble 0 0) ∧
    (entities data ≠ [] → (1 ≤ totalClusters r)%nat ∧ 1 ≤ minClusterSize r).
Proof.
  destruct (run_returns config data localeCompare Hlists) as (st & Hrun & Hq & _).
  destruct (run_settled config data localeCompare _ st Hlists Hids Hrun) as [Hset _].
  destruct (settled_results config data st Hids Hset Hq) as (_ & _ & Hall).
  pose proof (members_partition data st Hids Hset Hq) as Hperm.
  unfold results. rewrite Hrun. eexists. split; [done|].
  simpl in Hall. simpl. unfold mapValues in *.
  assert (length (clusters st) = length (clusters st).*2) as Hlen
    by (by rewrite length_fmap).
  rewrite !Hlen. clear Hlen. revert Hall Hperm.
  generalize (clusters st).*2. intros vals Hall Hperm.
  assert (sum_list ((λ c, length (members c)) <$> vals) = length (entities data)) as Hsum.
  { rewrite <- (length_fmap id (entities data)), <- Hperm, length_join_sum.
    by rewrite <- list_fmap_compose. }
  split; [|split; [|split]].
  - rewrite <- Hsum. clear. induction vals as [|cl vals IH]; [done|].
    rewrite !fmap_cons.
    change (length (members cl) + sum_list_with s_size
              ((λ c, mkSummary (c_id c) (length (members c)) (members c)) <$> vals)
            = length (members cl) + sum_list ((λ c, length (members c)) <$> vals))%nat.
    by rewrite IH.
  - rewrite <- Hsum.
    assert (∀ sizes : list nat, foldr Z.max 0 (Z.of_nat <$> sizes) ≤ Z.of_nat (sum_list sizes))
      as Hmax.
    { induction sizes as [|s sizes IH]; [simpl; lia|].
      rewrite fmap_cons.
      change (Z.max (Z.of_nat s) (foldr Z.max 0 (Z.of_nat <$> sizes))
              ≤ Z.of_nat (s + sum_list sizes)). lia. }
    apply Hmax.
  - rewrite sum_sizes, Hsum, !length_fmap. rewrite Z.add_0_l. done.
  - intros Hne.
    destruct vals as [|cl0 vals].
    { simpl in Hsum. destruct (entities data); [done | discriminate Hsum]. }
    simpl. split; [lia|].
    apply Forall_fmap in Hall. simpl in Hall.
    apply Forall_cons in Hall as [[_ H0] Hall]. simpl in H0.
    destruct (min_bound (Z.of_nat <$> ((λ c, length (members c)) <$> vals))
                (Z.of_nat (length (members cl0)))) as (_ & _ & Hb).
    apply Hb; [lia|]. apply Forall_fmap, Forall_fmap.
    apply (Forall_impl _ _ _ Hall). intros c [_ Hc]. simpl in *. lia.
Qed.

Lemma X24_pair_witness :
  NoDup (id <$> entities (pairData "a" "b")) ∧
  listsOwned (pairData "a" "b") = true ∧
  ∃ r, results scenario3 (pairData "a" "b") codeUnitCompare (runFuel (pairData "a" "b"))
       = Done r ∧
    sum_list_with s_size (r_clusters r) = totalEntities r.
Proof.
  assert (NoDup (id <$> entities (pairData "a" "b"))) as Hnd.
  { simpl. apply NoDup_cons. split; [|apply NoDup_singleton].
    intros H%list_elem_of_singleton. discriminate H. }
  assert (listsOwned (pairData "a" "b") = true) as Hl by (vm_compute; reflexivity).
  split; [exact Hnd|]. split; [exact Hl|].
  destruct (X24_results_add_up scenario3 (pairData "a" "b") codeUnitCompare Hnd Hl)
    as (r & Hr & Hsum & _).
  exists r. split; [exact Hr | exact Hsum].
Defined.

End SimExtra.
(** ** More about the observer: the traversal and the other reports *)
Module TraversalFacts.
Import Observer ObserverFacts.

Section traversal.
Context (store : gmap string LogEntry).

Lemma closedIn_mono (ids : list string) (V V' : gset string) :
  V ⊆ V' → closedIn store ids V → closedIn store ids V'.
Proof. intros HV H x log p Hx Hlog Hp. apply HV. by apply (H x log p). Qed.

Lemma closedIn_app (ids1 ids2 : list string) (V : gset string) :
  closedIn store ids1 V → closedIn store ids2 V → closedIn store (ids1 ++ ids2) V.
Proof.
  intros H1 H2 x log p [Hx|Hx]%elem_of_app; [by apply H1 | by apply H2].
Qed.

(** Every peer of the loop has been visited when it ends. *)
Lemma buildChildren_closed rec :
  (∀ i v ot v', rec i v = Done (ot, v') →
     closedIn store (opt_ids ot) v' ∧ i ∈ v' ∧ v ⊆ v') →
  ∀ rels v acc kids v',
    buildChildren rec rels v acc = Done (kids, v') →
    closedIn store (flat_map node_ids acc) v →
    closedIn store (flat_map node_ids kids) v' ∧ v ⊆ v' ∧
    ∀ rel, rel ∈ rels → peer rel ∈ v'.
Proof.
  intros Hrec. induction rels as [|rel rels IH]; intros v acc kids v'; simpl.
  - intros [= <- <-] Hacc. split; [done|]. split; [done|]. by intros rel ?%elem_of_nil.
  - destruct (rec (peer rel) v) as [[[child|] v1]| |] eqn:E; try done.
    + intros Hb Hacc. apply Hrec in E as (Hc & Hi & Hv).
      apply IH in Hb as (Hk & Hv' & Hrels).
      * split; [done|]. split; [set_solver|].
        intros r [->|Hr]%elem_of_cons; [set_solver | by apply Hrels].
      * rewrite flat_map_app. simpl. rewrite app_nil_r.
        apply closedIn_app; [by apply (closedIn_mono _ v) | done].
    + intros Hb Hacc. apply Hrec in E as (_ & Hi & Hv).
      apply IH in Hb as (Hk & Hv' & Hrels).
      * split; [done|]. split; [set_solver|].
        intros r [->|Hr]%elem_of_cons; [set_solver | by apply Hrels].
      * by apply (closedIn_mono _ v).
Qed.

Lemma buildTreeNode_closed fuel :
  ∀ logId v ot v',
    buildTreeNode fuel store logId v = Done (ot, v') →
    closedIn store (opt_ids ot) v' ∧ logId ∈ v' ∧ v ⊆ v'.
Proof.
  induction fuel as [|fuel IH]; intros logId v ot v'; simpl; [done|].
  destruct (decide (logId ∈ v)) as [Hin|Hout].
  { intros [= <- <-]. split; [|done]. by intros x log p ?%elem_of_nil. }
  unfold fetchEntity. destruct (store !! logId) as [log|] eqn:Hlog; [|done].
  destruct (buildChildren _ _ _ _) as [[kids v1]| |] eqn:Hkids; try done.
  intros [= <- <-].
  apply (buildChildren_closed _ IH) in Hkids as (Hk & Hv & Hrels);
    [|by intros x l p ?%elem_of_nil].
  split; [|set_solver]. simpl. rewrite node_ids_unfold. simpl.
  intros x log' p [->|Hx]%elem_of_cons Hlog' Hp.
  - rewrite Hlog in Hlog'. injection Hlog' as <-.
    apply list_elem_of_fmap in Hp as (rel & -> & Hrel). by apply Hrels.
  - by apply (Hk x log' p).
Qed.

(** The nodes of the tree are reached from its root. *)
Lemma tree_reachable (root : TreeNode) :
  Forall (reflects store) (nodes root) →
  ∀ n, n ∈ nodes root → reachable store (n_id root) (n_id n).
Proof.
  induction root as [i s k e a kids tm lf p IH] using TreeNode_induction.
  rewrite nodes_unfold. simpl. intros [Hroot Hkids]%Forall_cons n Hn.
  apply elem_of_cons in Hn as [->|Hn]; [apply reach_here|].
  apply elem_of_flat_map in Hn as (c & Hc & Hn).
  destruct Hroot as (log & Hlog & Hsub & _). simpl in Hlog, Hsub.
  apply (reach_step store i log (n_id c)); [done | |].
  - apply (sublist_subseteq _ _ Hsub). apply list_elem_of_fmap. by exists c.
  - rewrite Forall_forall in IH. apply (IH c Hc); [|done].
    apply Forall_forall. intros m Hm. rewrite Forall_forall in Hkids. apply Hkids.
    apply elem_of_flat_map. by exists c.
Qed.

Lemma reachable_closed (ids : list string) (V : gset string) (a y : string) :
  closedIn store ids V → (∀ x, x ∈ V → x ∈ ids) →
  reachable store a y → a ∈ V → y ∈ V.
Proof.
  intros Hclosed Hids. induction 1 as [|x log p y Hlog Hp _ IH]; [done|].
  intros Hx. apply IH. apply (Hclosed x log p); [by apply Hids | done..].
Qed.

Lemma buildTreeNode_null fuel logId v v' :
  buildTreeNode fuel store logId v = Done (None, v') → logId ∈ v.
Proof.
  destruct fuel as [|fuel]; simpl; [done|].
  destruct (decide (logId ∈ v)); [done|].
  destruct (fetchEntity store logId); [|done].
  by destruct (buildChildren _ _ _ _) as [[kids v1]| |].
Qed.

(** The tree holds exactly the logs reached from the root. *)
Lemma buildTreeNode_reaches fuel logId root visited :
  buildTreeNode fuel store logId ∅ = Done (Some root, visited) →
  ∀ x, x ∈ node_ids root ↔ reachable store logId x.
Proof.
  intros Hrun.
  pose proof (buildTreeNode_grows store _ _ _ _ _ Hrun) as (Hv & _ & _).
  pose proof (buildTreeNode_reflects store _ _ _ _ _ Hrun) as (Hid & Hrefl).
  pose proof (buildTreeNode_closed _ _ _ _ _ Hrun) as (Hclosed & Hroot & _).
  simpl in Hv, Hclosed. intros x. split.
  - intros (n & -> & Hn)%list_elem_of_fmap. rewrite <- Hid. by apply tree_reachable.
  - intros Hreach.
    assert (x ∈ visited) as Hx.
    { apply (reachable_closed (node_ids root) visited logId x); try done.
      intros y. rewrite Hv. set_solver. }
    rewrite Hv in Hx. set_solver.
Qed.

(** Only a log that is missing from the store makes the build throw. *)
Lemma buildChildren_no_throw rec rels :
  (∀ rel v msg, rel ∈ rels → rec (peer rel) v ≠ Threw msg) →
  ∀ v acc msg, buildChildren rec rels v acc ≠ Threw msg.
Proof.
  induction rels as [|rel rels IH]; intros Hrec v acc msg; simpl; [done|].
  destruct (rec (peer rel) v) as [[[child|] v1]|msg'|] eqn:E; try done.
  - apply IH. intros r w m Hr. apply Hrec. by apply list_elem_of_further.
  - apply IH. intros r w m Hr. apply Hrec. by apply list_elem_of_further.
  - exfalso. revert E. apply Hrec. apply list_elem_of_here.
Qed.

Lemma buildTreeNode_no_throw fuel :
  ∀ logId v msg,
    (∀ x, reachable store logId x → x ∈ dom store) →
    buildTreeNode fuel store logId v ≠ Threw msg.
Proof.
  induction fuel as [|fuel IH]; intros logId v msg Hdom; simpl; [done|].
  destruct (decide (logId ∈ v)); [done|].
  unfold fetchEntity. destruct (store !! logId) as [log|] eqn:Hlog.
  2:{ exfalso. specialize (Hdom logId (reach_here store logId)).
      apply elem_of_dom in Hdom as [? ?]. congruence. }
  pose proof (buildChildren_no_throw (buildTreeNode fuel store) (sentToOf log)) as Hkids.
  destruct (buildChildren _ _ _ _) as [[kids v1]|msg'|] eqn:E; try done.
  exfalso. revert E. apply Hkids. intros rel w m Hrel. apply IH.
  intros x Hx. apply Hdom. apply (reach_step store logId log (peer rel)); [done | | done].
  apply list_elem_of_fmap. by exists rel.
Qed.

End traversal.

End TraversalFacts.

Module ReportsFacts.
Import Observer ObserverFacts TraversalFacts.

(** *** [countStatus] *)

Lemma countStatus_unfold (t : TreeNode) (counts : nat * nat) :
  countStatus t counts
  = foldl (λ counts child, countStatus child counts)
      (if isTerminal t then (S counts.1, counts.2) else (counts.1, S counts.2))
      (children t).
Proof. by destruct t. Qed.

Lemma countStatus_counts (t : TreeNode) :
  ∀ counts,
    countStatus t counts
    = ((counts.1 + length (List.filter isTerminal (nodes t)))%nat,
       (counts.2 + length (List.filter (λ n, negb (isTerminal n)) (nodes t)))%nat).
Proof.
  induction t as [i s k e a kids tm lf p IH] using TreeNode_induction.
  intros counts. rewrite countStatus_unfold, nodes_unfold. simpl.
  assert (∀ c0,
    foldl (λ counts child, countStatus child counts) c0 kids
    = ((c0.1 + length (List.filter isTerminal (flat_map nodes kids)))%nat,
       (c0.2 + length (List.filter (λ n, negb (isTerminal n)) (flat_map nodes kids)))%nat))
    as Hfold.
  { clear counts. induction IH as [|c kids Hc _ IHkids]; intros c0; simpl.
    - destruct c0. simpl. f_equal; lia.
    - rewrite Hc, IHkids. simpl. rewrite !List.filter_app, !length_app. f_equal; lia. }
  rewrite Hfold. destruct tm; simpl; f_equal; lia.
Qed.

Lemma filter_negb_length {A} (f : A → bool) (l : list A) :
  (length (List.filter f l) + length (List.filter (λ x, negb (f x)) l))%nat = length l.
Proof.
  induction l as [|x l IH]; [done|]. simpl. destruct (f x); simpl; lia.
Qed.

Lemma filter_negb_nil {A} (f : A → bool) (l : list A) :
  length (List.filter (λ x, negb (f x)) l) = O ↔ ∀ x, x ∈ l → f x = true.
Proof.
  induction l as [|x l IH]; simpl.
  - split; [|done]. intros _ y Hy. by apply elem_of_nil in Hy.
  - destruct (f x) eqn:E; simpl.
    + rewrite IH. split.
      * intros H y [->|Hy]%elem_of_cons; [done | by apply H].
      * intros H y Hy. apply H. by apply list_elem_of_further.
    + split; [done|]. intros H. specialize (H x (list_elem_of_here _ _)). congruence.
Qed.

Lemma filter_negb_forallb {A} (f : A → bool) (l : list A) :
  List.filter (λ x, negb (f x)) l = [] ↔ forallb f l = true.
Proof.
  induction l as [|x l IH]; simpl; [done|].
  destruct (f x); simpl; [done|]. split; discriminate.
Qed.

Lemma simpleComplete_iff (root : TreeNode) :
  simpleComplete root = true ↔ ∀ n, n ∈ nodes root → isTerminal n = true.
Proof.
  unfold simpleComplete. rewrite countStatus_counts. simpl.
  rewrite Nat.eqb_eq. apply filter_negb_nil.
Qed.

(** When every log is terminal the check reaches every node. *)
Lemma all_terminal_checked (root : TreeNode) :
  (∀ n, n ∈ nodes root → isTerminal n = true) →
  ∀ n, n ∈ nodes root → checked root n.
Proof.
  induction root as [i s k e a kids tm lf p IH] using TreeNode_induction.
  intros Hall n [->|(c & Hc & Hn)]%elem_of_nodes; [constructor|].
  simpl in Hc. rewrite Forall_forall in IH.
  apply (checked_below _ c); [apply Hall, nodes_self | done |].
  apply IH; [done | | done].
  intros m Hm. apply Hall. apply elem_of_nodes. right. by exists c.
Qed.

Lemma all_terminal_complete (root : TreeNode) :
  (∀ n, n ∈ nodes root → isTerminal n = true) →
  isComplete root = true ↔ ∀ n, n ∈ nodes root → childrenDiscovered n.
Proof.
  intros Hall. unfold isComplete.
  rewrite andb_true_iff, allLeavesTerminal_iff, checkAll_checked. split.
  - intros [_ Hb] n Hn. apply Hb; [by apply all_terminal_checked | by apply Hall].
  - intros H. split.
    + intros l Hl _. by apply Hall.
    + intros n Hn _. by apply H, checked_in_nodes.
Qed.

(** *** [collectProblems] *)

Lemma collectProblems_unfold (t : TreeNode) (d : nat) :
  collectProblems t d
  = (match problem t with Some _ => [(t, d)] | None => [] end)
    ++ flat_map (λ child, collectProblems child (S d)) (children t).
Proof. by destruct t. Qed.

Lemma collectProblems_nodes (t : TreeNode) :
  ∀ d, (collectProblems t d).*1 = filter (λ n, is_Some (problem n)) (nodes t).
Proof.
  induction t as [i s k e a kids tm lf p IH] using TreeNode_induction.
  intros d. rewrite collectProblems_unfold, nodes_unfold, fmap_app. simpl.
  assert ((flat_map (λ child, collectProblems child (S d)) kids).*1
          = filter (λ n, is_Some (problem n)) (flat_map nodes kids)) as ->.
  { induction IH as [|c kids Hc _ IHkids]; [done|]. simpl.
    by rewrite fmap_app, filter_app, Hc, IHkids. }
  destruct p as [pr|].
  - rewrite filter_cons_True by (by eexists). done.
  - rewrite filter_cons_False; [done|]. by intros [? ?].
Qed.

Lemma collectProblems_nil (t : TreeNode) (d : nat) :
  collectProblems t d = [] ↔ ∀ n, n ∈ nodes t → problem n = None.
Proof.
  split.
  - intros H n Hn. destruct (problem n) as [pr|] eqn:E; [|done]. exfalso.
    assert (n ∈ (collectProblems t d).*1) as Hin.
    { rewrite collectProblems_nodes. apply list_elem_of_filter. split; [by eexists | done]. }
    rewrite H in Hin. by apply elem_of_nil in Hin.
  - intros H. apply fmap_nil_inv with (f := fst). rewrite collectProblems_nodes.
    apply QueueFacts.filter_none. apply Forall_forall. intros n Hn [pr Hpr].
    rewrite (H n Hn) in Hpr. done.
Qed.

(** Every entry carries the depth of its node below the root. *)
Lemma collectProblems_depth (t : TreeNode) :
  ∀ d n k, (n, k) ∈ collectProblems t d → (d ≤ k)%nat.
Proof.
  induction t as [i s k0 e a kids tm lf p IH] using TreeNode_induction.
  intros d n k. rewrite collectProblems_unfold. simpl.
  intros [Hin|Hin]%elem_of_app.
  - destruct p; [|by apply elem_of_nil in Hin].
    apply list_elem_of_singleton in Hin. injection Hin as _ <-. done.
  - apply elem_of_flat_map in Hin as (c & Hc & Hin).
    rewrite Forall_forall in IH. apply (IH c Hc) in Hin. lia.
Qed.

(** *** The problem recorded for the node of a log *)

Lemma detectProblem_None (log : LogEntry) (expected : Z) (actual : nat) :
  detectProblem log expected actual = None ↔
  (statusTerminal (status log) = true ∧ 0 ≤ expected ≤ Z.of_nat actual).
Proof.
  unfold detectProblem.
  destruct (Z.ltb_spec expected 0); [split; [done | lia]|].
  destruct (statusTerminal (status log)); simpl.
  - destruct (Z.ltb_spec (Z.of_nat actual) expected); [split; [done | lia]|].
    split; [intros _; split; [done | lia] | done].
  - split; [done | by intros [? _]].
Qed.

Section each.
Context (store : gmap string LogEntry) (P : TreeNode → Prop).
Context (Hnode : ∀ logId log kids,
  store !! logId = Some log →
  P {| n_id := logId; n_status := status log; kladosId := klados_id log;
       expectedChildren := getExpectedChildrenCount log;
       actualChildren := length (sentToOf log);
       children := kids;
       isTerminal := statusTerminal (status log);
       isLeaf := (String.eqb (status log) "error" ||
                  (statusTerminal (status log) &&
                   (getExpectedChildrenCount log =? 0)))%bool;
       problem := detectProblem log (getExpectedChildrenCount log)
                    (length (sentToOf log)) |}).

Lemma buildChildren_each rec :
  (∀ i v c v', rec i v = Done (Some c, v') → Forall P (nodes c)) →
  ∀ rels v acc kids v',
    buildChildren rec rels v acc = Done (kids, v') →
    Forall P (flat_map nodes acc) → Forall P (flat_map nodes kids).
Proof.
  intros Hrec. induction rels as [|rel rels IH]; intros v acc kids v'; simpl.
  - by intros [= <- <-].
  - destruct (rec (peer rel) v) as [[[child|] v1]| |] eqn:E; try done.
    + intros Hb Hacc. apply (IH _ _ _ _ Hb).
      rewrite flat_map_app. simpl. rewrite app_nil_r. apply Forall_app. split; [done|].
      by apply Hrec in E.
    + intros Hb Hacc. by apply (IH _ _ _ _ Hb).
Qed.

(** Every node of the tree is the record [buildTreeNode] makes of a log
    of the store. *)
Lemma buildTreeNode_each fuel :
  ∀ logId v root v',
    buildTreeNode fuel store logId v = Done (Some root, v') → Forall P (nodes root).
Proof.
  induction fuel as [|fuel IH]; intros logId v root v'; simpl; [done|].
  destruct (decide (logId ∈ v)); [done|].
  unfold fetchEntity. destruct (store !! logId) as [log|] eqn:Hlog; [|done].
  destruct (buildChildren _ _ _ _) as [[kids v1]| |] eqn:Hkids; try done.
  intros [= <- <-].
  apply (buildChildren_each _ IH) in Hkids; [|constructor].
  simpl. constructor; [by apply Hnode | done].
Qed.

End each.

Lemma buildTreeNode_diagnosed (store : gmap string LogEntry) fuel logId v root v' :
  buildTreeNode fuel store logId v = Done (Some root, v') →
  Forall diagnosed (nodes root).
Proof.
  apply (buildTreeNode_each store diagnosed).
  intros i log kids _. unfold diagnosed. simpl. apply detectProblem_None.
Qed.

(** *** [printTree] *)

Lemma printTree_unfold (t : TreeNode) (d m : nat) :
  printTree t d m
  = if (m <? d)%nat then []
    else NodeLine d t
         :: flat_map (λ child, printTree child (S d) m) (take 3 (children t))
         ++ (if (3 <? length (children t))%nat
             then [MoreLine d (length (children t) - 3)] else []).
Proof.
  destruct t as [i s k e a kids tm lf p]. simpl. destruct (m <? d)%nat; [done|].
  f_equal. f_equal. generalize 3%nat at 1 2. intros n. revert n.
  induction kids as [|c kids IH]; intros [|n]; simpl; try done. by rewrite IH.
Qed.

Lemma nodeLines_app (l1 l2 : list TreeLine) :
  nodeLines (l1 ++ l2) = nodeLines l1 ++ nodeLines l2.
Proof. apply omap_app. Qed.

Lemma printTree_bound (m : nat) (t : TreeNode) :
  ∀ d, (length (nodeLines (printTree t d m)) ≤ printBound (S m - d))%nat.
Proof.
  induction t as [i s k e a kids tm lf p IH] using TreeNode_induction.
  intros d. rewrite printTree_unfold. simpl children.
  destruct (Nat.ltb_spec m d) as [Hlt|Hge]; [simpl; lia|].
  replace (S m - d)%nat with (S (m - d)) by lia. simpl printBound.
  change (nodeLines (NodeLine d ?n :: ?l)) with ((d, n) :: nodeLines l).
  rewrite length_cons, nodeLines_app, length_app.
  assert (length (nodeLines (if (3 <? length kids)%nat
            then [MoreLine d (length kids - 3)] else [])) = O) as ->
    by (by destruct (3 <? length kids)%nat).
  assert (∀ cs, Forall (λ c, ∀ d, (length (nodeLines (printTree c d m))
                                   ≤ printBound (S m - d))%nat) cs →
    (length (nodeLines (flat_map (λ child, printTree child (S d) m) cs))
     ≤ length cs * printBound (m - d))%nat) as Hsum.
  { induction 1 as [|c cs Hc _ IHcs]; simpl; [done|].
    rewrite nodeLines_app, length_app. specialize (Hc (S d)).
    replace (S m - S d)%nat with (m - d)%nat in Hc by lia. lia. }
  specialize (Hsum (take 3 kids) (Forall_take _ 3%nat _ IH)).
  pose proof (length_take kids 3) as Hlen. nia.
Qed.

Lemma printTree_lines (m : nat) (t : TreeNode) :
  ∀ d k n, (k, n) ∈ nodeLines (printTree t d m) → (d ≤ k ≤ m)%nat ∧ n ∈ nodes t.
Proof.
  induction t as [i s k0 e a kids tm lf p IH] using TreeNode_induction.
  intros d k n. rewrite printTree_unfold. simpl children.
  destruct (Nat.ltb_spec m d) as [Hlt|Hge]; [by intros ?%elem_of_nil|].
  change (nodeLines (NodeLine d ?x :: ?l)) with ((d, x) :: nodeLines l).
  rewrite nodeLines_app.
  intros [Heq|[Hin|Hin]%elem_of_app]%elem_of_cons.
  - injection Heq as -> ->. split; [lia | apply nodes_self].
  - apply list_elem_of_omap in Hin as (line & Hline & Hnode).
    apply elem_of_flat_map in Hline as (c & Hc & Hline).
    apply subseteq_take in Hc. rewrite Forall_forall in IH.
    destruct (IH c Hc (S d) k n) as [Hk Hn].
    { apply list_elem_of_omap. by exists line. }
    split; [lia|]. apply elem_of_nodes. right. by exists c.
  - destruct (3 <? length kids)%nat; [|by apply elem_of_nil in Hin].
    by apply elem_of_nil in Hin.
Qed.

(** In a built tree a node has at most as many children as its log has
    [sent_to] relationships. *)
Lemma reflects_children (store : gmap string LogEntry) (n : TreeNode) :
  reflects store n → (length (children n) ≤ actualChildren n)%nat.
Proof.
  intros (log & _ & Hsub & -> & _). apply sublist_length in Hsub.
  by rewrite !length_fmap in Hsub.
Qed.

Lemma builtTree_run (store : gmap string LogEntry) (logId : string) (root : TreeNode) :
  builtTree store logId = Some root →
  ∃ visited, buildTreeNode (enoughFuel store) store logId ∅ = Done (Some root, visited).
Proof.
  unfold builtTree.
  destruct (buildTreeNode _ _ _ _) as [[[t|] v]| |]; try done.
  intros [= <-]. by exists v.
Qed.

Lemma builtTree_succeeds (store : gmap string LogEntry) (logId : string) :
  is_Some (builtTree store logId) ↔ ∀ x, reachable store logId x → x ∈ dom store.
Proof.
  split.
  - intros [root (visited & Hrun)%builtTree_run] x Hx.
    apply (buildTreeNode_reaches store _ _ _ _ Hrun) in Hx.
    pose proof (buildTreeNode_grows store _ _ _ _ _ Hrun) as (_ & _ & Hin).
    by apply Hin.
  - intros Hdom. unfold builtTree.
    destruct (buildTreeNode_enough store (enoughFuel store) logId) as [_ Hfuel]; [done|].
    pose proof (buildTreeNode_no_throw store (enoughFuel store) logId ∅) as Hthrow.
    destruct (buildTreeNode _ _ _ _) as [[[t|] v]|msg|] eqn:E.
    + by eexists.
    + apply buildTreeNode_null in E. set_solver.
    + by destruct (Hthrow msg Hdom).
    + done.
Qed.

Lemma problems_nil_built (store : gmap string LogEntry) (logId : string) (root : TreeNode) :
  builtTree store logId = Some root →
  collectProblems root 0 = [] ↔
  ∀ n, n ∈ nodes root →
    isTerminal n = true ∧ 0 ≤ expectedChildren n ≤ Z.of_nat (actualChildren n).
Proof.
  intros (visited & Hrun)%builtTree_run.
  pose proof (buildTreeNode_diagnosed store _ _ _ _ _ Hrun) as Hd.
  rewrite Forall_forall in Hd. rewrite collectProblems_nil. split.
  - intros H n Hn. by apply (Hd n Hn), H.
  - intros H n Hn. by apply (Hd n Hn), H.
Qed.

Lemma complete_no_problems (store : gmap string LogEntry) (logId : string) (root : TreeNode) :
  builtTree store logId = Some root →
  simpleComplete root = true → isComplete root = true →
  collectProblems root 0 = [].
Proof.
  intros Hbuilt Hsimple Hcomplete.
  apply (problems_nil_built store logId root Hbuilt).
  apply builtTree_run in Hbuilt as (visited & Hrun).
  pose proof (buildTreeNode_reflects store _ _ _ _ _ Hrun) as (_ & Hrefl).
  rewrite Forall_forall in Hrefl.
  rewrite simpleComplete_iff in Hsimple.
  pose proof (proj1 (all_terminal_complete root Hsimple) Hcomplete) as Hdisc.
  intros n Hn. split; [by apply Hsimple|].
  destruct (Hdisc n Hn) as [H0 Hle].
  pose proof (reflects_children store n (Hrefl n Hn)). lia.
Qed.

Lemma problems_nil_complete (store : gmap string LogEntry) (logId : string) (root : TreeNode) :
  builtTree store logId = Some root →
  collectProblems root 0 = [] →
  simpleComplete root = true ∧
  (isComplete root = true ↔
   ∀ n, n ∈ nodes root → expectedChildren n ≤ Z.of_nat (length (children n))).
Proof.
  intros Hbuilt Hempty.
  pose proof (proj1 (problems_nil_built store logId root Hbuilt) Hempty) as Hnil.
  assert (∀ n, n ∈ nodes root → isTerminal n = true) as Hall
    by (intros n Hn; by apply Hnil).
  split; [by apply simpleComplete_iff|].
  rewrite (all_terminal_complete root Hall). split.
  - intros H n Hn. by apply H.
  - intros H n Hn. split; [by apply Hnil | by apply H].
Qed.

End ReportsFacts.

(** ** Properties of the diagnostic beyond the claims *)

Module ObserverExtra.
Import Observer ObserverFacts TraversalFacts ReportsFacts.

(** X13 ([buildTreeNode], [fetchEntity]): from a fresh visited set the
    traversal returns a tree exactly when every log reached from the
    root along [sent_to] relationships is in the store; otherwise it
    throws on the first missing one.  It never returns [null] and never
    fails to end. *)
Theorem X13_build_succeeds_iff_closed
    (store : gmap string LogEntry) (logId : string) :
  (is_Some (builtTree store logId) ↔
   ∀ x, reachable store logId x → x ∈ dom store) ∧
  (builtTree store logId = None →
   ∃ msg, buildTreeNode (enoughFuel store) store logId ∅ = Threw msg).
Proof.
  split; [apply builtTree_succeeds|].
  unfold builtTree.
  destruct (buildTreeNode_enough store (enoughFuel store) logId) as [_ Hfuel]; [done|].
  destruct (buildTreeNode _ _ _ _) as [[[t|] v]|msg|] eqn:E; try done.
  - apply buildTreeNode_null in E. set_solver.
  - intros _. by exists msg.
Qed.

(** X14 ([buildTreeNode]): the tree built from a root holds exactly the
    logs reached from it along [sent_to] relationships, each once, so
    "Total logs discovered" ([visited.size]) is the number of reachable
    logs and the number of nodes of the tree. *)
Theorem X14_tree_is_reachable_set
    (store : gmap string LogEntry) (logId : string) (root : TreeNode) (visited : gset string)
    (Hrun : buildTreeNode (enoughFuel store) store logId ∅ = Done (Some root, visited)) :
  (∀ x, x ∈ node_ids root ↔ reachable store logId x) ∧
  (∀ x, x ∈ visited ↔ reachable store logId x) ∧
  size visited = length (nodes root).
Proof.
  pose proof (buildTreeNode_reaches store _ _ _ _ Hrun) as Hreach.
  pose proof (buildTreeNode_grows store _ _ _ _ _ Hrun) as (Hv & Hnd & _).
  simpl in Hv, Hnd.
  assert (visited = list_to_set (node_ids root)) as -> by set_solver.
  split; [done|]. split.
  - intros x. rewrite elem_of_list_to_set. apply Hreach.
  - rewrite size_list_to_set by done. unfold node_ids. by rewrite length_fmap.
Qed.

Lemma X14_diamond_witness :
  buildTreeNode (enoughFuel diamondStore) diamondStore "root" ∅
    = Done (Some diamondTree, list_to_set ["root"; "A"; "G"; "B"]) ∧
  reachable diamondStore "root" "G".
Proof.
  assert (buildTreeNode (enoughFuel diamondStore) diamondStore "root" ∅
          = Done (Some diamondTree, list_to_set ["root"; "A"; "G"; "B"])) as Hrun
    by (vm_compute; reflexivity).
  split; [exact Hrun|].
  apply (X14_tree_is_reachable_set _ _ _ _ Hrun). vm_compute. set_solver.
Defined.

(** X15 ([countStatus], "Simple isComplete", the non-terminal leaves):
    the two counters add up to the number of nodes of the tree; the
    simple check holds exactly when every node is terminal, and then
    [isComplete] holds exactly when every node has a known expected
    count and at least that many children in the tree.  The list of
    non-terminal leaves is empty exactly when all leaves are terminal, so
    it is empty whenever one of the two checks holds. *)
Theorem X15_simple_check (root : TreeNode) :
  ((countStatus root (O, O)).1 + (countStatus root (O, O)).2)%nat = length (nodes root) ∧
  (simpleComplete root = true ↔ ∀ n, n ∈ nodes root → isTerminal n = true) ∧
  (simpleComplete root = true →
   (isComplete root = true ↔ ∀ n, n ∈ nodes root → childrenDiscovered n)) ∧
  (nonTerminalLeaves root = [] ↔ leavesTerminal root) ∧
  (simpleComplete root = true ∨ isComplete root = true → nonTerminalLeaves root = []).
Proof.
  split; [|split; [|split; [|split]]].
  - rewrite countStatus_counts. simpl. apply filter_negb_length.
  - apply simpleComplete_iff.
  - intros H. apply all_terminal_complete. by apply simpleComplete_iff.
  - unfold nonTerminalLeaves. rewrite filter_negb_forallb. apply allLeavesTerminal_iff.
  - unfold nonTerminalLeaves. rewrite filter_negb_forallb, allLeavesTerminal_iff.
    intros [Hsimple|Hcomplete].
    + intros l Hl _. by apply (proj1 (simpleComplete_iff root) Hsimple).
    + unfold isComplete in Hcomplete. apply andb_true_iff in Hcomplete as [Hleaves _].
      by apply allLeavesTerminal_iff.
Qed.

(** X16 ([collectProblems], [buildTreeNode]): on a built tree the list of
    problems is empty exactly when every log is terminal and its expected
    count is known and at most its number of [sent_to] relationships.  A
    tree that passes both completeness checks has no problems; a tree
    without problems passes the simple check, and passes [isComplete]
    only if every node has as many children in the tree as it expects. *)
Theorem X16_problems_and_completeness
    (store : gmap string LogEntry) (logId : string) (root : TreeNode)
    (Hbuilt : builtTree store logId = Some root) :
  (collectProblems root 0 = [] ↔
   ∀ n, n ∈ nodes root →
     isTerminal n = true ∧ 0 ≤ expectedChildren n ≤ Z.of_nat (actualChildren n)) ∧
  (simpleComplete root = true → isComplete root = true → collectProblems root 0 = []) ∧
  (collectProblems root 0 = [] →
   simpleComplete root = true ∧
   (isComplete root = true ↔
    ∀ n, n ∈ nodes root → expectedChildren n ≤ Z.of_nat (length (children n)))).
Proof.
  split; [|split].
  - by apply (problems_nil_built store logId).
  - by apply (complete_no_problems store logId).
  - by apply (problems_nil_complete store logId).
Qed.

Lemma X16_diamond_witness :
  builtTree diamondStore "root" = Some diamondTree ∧
  collectProblems diamondTree 0 = [] ∧ simpleComplete diamondTree = true ∧
  isComplete diamondTree = false.
Proof.
  assert (builtTree diamondStore "root" = Some diamondTree) as Hbuilt
    by (vm_compute; reflexivity).
  assert (collectProblems diamondTree 0 = []) as Hnil by reflexivity.
  split; [exact Hbuilt|]. split; [exact Hnil|].
  destruct (X16_problems_and_completeness _ _ _ Hbuilt) as (_ & _ & H).
  destruct (H Hnil) as [Hsimple _]. split; [exact Hsimple | reflexivity].
Defined.

(** X17 ([collectProblems]): the entries are the nodes that carry a
    problem, in the order of the tree (a node before its descendants),
    each with a depth that is at least the depth the call started from. *)
Theorem X17_problems_in_tree_order (root : TreeNode) (depth : nat) :
  (collectProblems root depth).*1 = filter (λ n, is_Some (problem n)) (nodes root) ∧
  ∀ n k, (n, k) ∈ collectProblems root depth → (depth ≤ k)%nat.
Proof.
  split; [apply collectProblems_nodes | apply collectProblems_depth].
Qed.

(** X18 ([printTree]): [printTree(root, 0, 3)] prints at most 40 nodes
    whatever the size of the tree; each is a node of the tree, at depth
    0 to 3 (four levels under the heading "first 3 levels"). *)
Theorem X18_printTree_bounded (root : TreeNode) :
  (length (nodeLines (printTree root 0 3)) ≤ 40)%nat ∧
  ∀ k n, (k, n) ∈ nodeLines (printTree root 0 3) → (k ≤ 3)%nat ∧ n ∈ nodes root.
Proof.
  split.
  - apply (printTree_bound 3 root 0).
  - intros k n Hin. apply printTree_lines in Hin as [[_ Hk] Hn]. done.
Qed.

End ObserverExtra.
(** ** More on the environment substitution *)
Module SubstituteFacts.
Import JsonValue Register RegisterFacts.

Lemma getProperty_None {V} (k : string) (entries : list (string * V)) :
  getProperty k entries = None ↔ k ∉ entries.*1.
Proof.
  induction entries as [|[k0 v0] entries IH]; simpl.
  - split; [intros _ Hin; by apply elem_of_nil in Hin | done].
  - destruct (String.eqb_spec k0 k) as [->|Hne].
    + split; [done|]. intros Hnot. destruct Hnot. apply list_elem_of_here.
    + rewrite IH, not_elem_of_cons. naive_solver.
Qed.

Lemma getProperty_app {V} (k : string) (l1 l2 : list (string * V)) :
  getProperty k (l1 ++ l2)
  = match getProperty k l1 with
    | Some v => Some v
    | None => getProperty k l2
    end.
Proof.
  induction l1 as [|[k0 v0] l1 IH]; simpl; [done|].
  by destruct (String.eqb k0 k).
Qed.

Lemma getProperty_replaceProperty {V} (key k : string) (value : V)
    (entries : list (string * V)) :
  key ∈ entries.*1 →
  getProperty k (replaceProperty key value entries)
  = if decide (key = k) then Some value else getProperty k entries.
Proof.
  induction entries as [|[k0 v0] entries IH]; simpl.
  - by intros ?%elem_of_nil.
  - intros Hin. destruct (String.eqb_spec k0 key) as [->|Hne]; simpl.
    + destruct (String.eqb_spec key k); by destruct (decide (key = k)).
    + apply elem_of_cons in Hin as [->|Hin]; [done|].
      destruct (String.eqb_spec k0 k) as [->|Hne'].
      * by destruct (decide (key = k)).
      * by apply IH.
Qed.

Lemma getProperty_insertIndexed {V} (n : N) (key k : string) (value : V)
    (entries : list (string * V)) :
  key ∉ entries.*1 →
  getProperty k (insertIndexed n key value entries)
  = if decide (key = k) then Some value else getProperty k entries.
Proof.
  induction entries as [|[k0 v0] entries IH]; simpl.
  - intros _. destruct (String.eqb_spec key k); by destruct (decide (key = k)).
  - intros [Hne Hnot]%not_elem_of_cons.
    assert (getProperty k ((key, value) :: (k0, v0) :: entries)
            = if decide (key = k) then Some value
              else if String.eqb k0 k then Some v0 else getProperty k entries) as Hhere.
    { simpl. destruct (String.eqb_spec key k); by destruct (decide (key = k)). }
    destruct (arrayIndex k0) as [m|]; [|exact Hhere].
    destruct (m <? n)%N; [|exact Hhere].
    simpl. rewrite (IH Hnot).
    destruct (String.eqb_spec k0 k) as [->|_]; [|done].
    by destruct (decide (key = k)).
Qed.

(** Reading after writing: the property written holds the value, every
    other property is as before. *)
Lemma getProperty_setProperty {V} (key k : string) (value : V)
    (entries : list (string * V)) :
  getProperty k (setProperty key value entries)
  = if decide (key = k) then Some value else getProperty k entries.
Proof.
  unfold setProperty. destruct (owns key entries) eqn:Howns.
  - apply getProperty_replaceProperty. by apply owns_elem_of.
  - apply owns_false in Howns. destruct (arrayIndex key) as [n|].
    + by apply getProperty_insertIndexed.
    + rewrite getProperty_app. simpl.
      destruct (decide (key = k)) as [<-|Hne].
      * rewrite (proj2 (getProperty_None key entries) Howns).
        by rewrite String.eqb_refl.
      * destruct (String.eqb_spec key k); [done|]. by destruct (getProperty k entries).
Qed.

Lemma replaceProperty_keys {V} (key : string) (value : V) (entries : list (string * V)) :
  (replaceProperty key value entries).*1 = entries.*1.
Proof.
  induction entries as [|[k0 v0] entries IH]; [done|]. simpl.
  destruct (String.eqb k0 key); [done|]. rewrite !fmap_cons. by rewrite IH.
Qed.

Lemma insertIndexed_keys {V} (n : N) (key : string) (value : V)
    (entries : list (string * V)) :
  (insertIndexed n key value entries).*1 ≡ₚ key :: entries.*1.
Proof.
  induction entries as [|[k0 v0] entries IH]; [done|]. simpl.
  destruct (arrayIndex k0) as [m|]; [|done].
  destruct (m <? n)%N; [|done].
  rewrite !fmap_cons, IH. apply Permutation_swap.
Qed.

(** Writing keeps the keys distinct. *)
Lemma setProperty_NoDup {V} (key : string) (value : V) (entries : list (string * V)) :
  NoDup entries.*1 → NoDup (setProperty key value entries).*1.
Proof.
  intros Hnd. unfold setProperty. destruct (owns key entries) eqn:Howns.
  - by rewrite replaceProperty_keys.
  - apply owns_false in Howns. destruct (arrayIndex key) as [n|].
    + rewrite insertIndexed_keys. by apply NoDup_cons.
    + rewrite fmap_app. apply NoDup_app. split; [done|]. split; [|apply NoDup_singleton].
      intros x Hx ->%list_elem_of_singleton. done.
Qed.

Section substitution.
Context (env : gmap string string).

(** The entries written by the loop over an object, none of them under
    [__proto__]: one per new key, holding what the last entry with that
    key substitutes to; the prototype stays the one of a literal. *)
Lemma eachEntry_lookup (es : list (string * Json)) :
  ∀ result0 final,
    forallb (λ kv, writable (newKeyOf env kv.1)) es = true →
    eachEntry env es (VObjectPrototype, result0) = Done final →
    NoDup result0.*1 →
    ∃ result, final = (VObjectPrototype, result) ∧
    NoDup result.*1 ∧
    ∀ k, match last (filter (λ kv, newKeyOf env kv.1 = k) es) with
         | Some (_, value) =>
             ∃ value', substituteEnvVars env value = Done value' ∧
               getProperty k result = Some value'
         | None => getProperty k result = getProperty k result0
         end.
Proof.
  induction es as [|[key value] rest IH]; intros result0 final Hw.
  - intros [= <-] Hnd. by exists result0.
  - simpl in Hw. apply andb_true_iff in Hw as [Hkey Hw].
    rewrite eachEntry_cons.
    destruct (substituteEnvVars env value) as [value'| |] eqn:Hvalue; try done.
    rewrite (assignProperty_writable _ _ _ Hkey).
    intros Hrest Hnd.
    destruct (IH _ _ Hw Hrest (setProperty_NoDup (newKeyOf env key) value' result0 Hnd))
      as (result & -> & Hnd' & Hlook).
    exists result. split; [done|]. split; [done|]. intros k. specialize (Hlook k).
    rewrite getProperty_setProperty in Hlook.
    destruct (decide (newKeyOf env key = k)) as [Hk|Hk].
    + rewrite filter_cons_True by done.
      destruct (filter _ rest) as [|kv l] eqn:Hf.
      * simpl in *. by exists value'.
      * rewrite last_cons. destruct (last (kv :: l)) as [[k1 v1]|] eqn:Hlast; [done|].
        by apply last_None in Hlast.
    + by rewrite filter_cons_False by done.
Qed.

(** Without variables nothing is missing and nothing is replaced. *)
Lemma plain_not_missing (doc : Json) :
  forallb noDollar (stringValues doc) = true →
  firstMissing env doc = None ∧ replaced env doc = ofJson doc.
Proof.
  unfold firstMissing.
  induction doc as [|b|n|s|items IH|entries IH] using Json_induction;
    intros Hvalues; try done.
  - simpl in Hvalues. rewrite andb_true_r in Hvalues. unfold noDollar in Hvalues.
    simpl. unfold missingIn, valueFor. by destruct (afterDollar s).
  - simpl in Hvalues. simpl.
    enough (head (omap (missingIn env) (flat_map stringValues items)) = None ∧
            List.map (replaced env) items = List.map ofJson items) as [-> ->] by done.
    induction IH as [|x items Hx _ IHitems]; [done|].
    simpl in Hvalues. rewrite forallb_app in Hvalues.
    apply andb_true_iff in Hvalues as [Hv1 Hv2].
    destruct (Hx Hv1) as [Hm1 Hr1]. destruct (IHitems Hv2) as [Hm2 Hr2].
    simpl. by rewrite head_omap_app, Hm1, Hm2, Hr1, Hr2.
  - simpl in Hvalues. simpl.
    enough (head (omap (missingIn env) (flat_map (λ kv, stringValues kv.2) entries)) = None ∧
            List.map (λ kv, (kv.1, replaced env kv.2)) entries
            = List.map (λ kv, (kv.1, ofJson kv.2)) entries) as [-> ->] by done.
    induction IH as [|[k v] entries Hx _ IHentries]; [done|].
    simpl in Hvalues, Hx. rewrite forallb_app in Hvalues.
    apply andb_true_iff in Hvalues as [Hv1 Hv2].
    destruct (Hx Hv1) as [Hm1 Hr1]. destruct (IHentries Hv2) as [Hm2 Hr2].
    simpl. by rewrite head_omap_app, Hm1, Hm2, Hr1, Hr2.
Qed.

End substitution.

(** The keys that become array indices come first in the result, in
    ascending order, wherever their entries stood. *)
Lemma index_keys_first :
  substituteEnvVars {[ "TEN" := "10"; "TWO" := "2" ]} indexKeys
  = Done (VObject VObjectPrototype
            [("2", VString "third"); ("10", VString "second"); ("b", VString "first")]).
Proof. vm_compute. reflexivity. Qed.

(** An entry written under [__proto__] becomes the prototype of the
    result, not a property of it. *)
Lemma prototype_key_sets_prototype :
  substituteEnvVars ∅ prototypeKey
  = Done (VObject (VObject VObjectPrototype [("label", VString "inherited")])
            [("version", VString "1.0")]).
Proof. vm_compute. reflexivity. Qed.

End SubstituteFacts.

(** ** Properties of the registration script beyond the claims *)
Module RegisterExtra.
Import JsonValue Register RegisterFacts SubstituteFacts.

(** X19 ([substituteEnvVars]): a parsed document (no object lists a key
    twice, and each lists its entries in the order of [Object.entries])
    in which no string value and no key begins with '$' (and no key is
    [__proto__]) is returned unchanged, keys in their order, whatever the
    environment holds. *)
Theorem X19_plain_document_unchanged
    (env : gmap string string) (doc : Json)
    (Hparsed : distinctKeys doc = true)
    (Hordered : entriesOrdered doc = true)
    (Hvalues : forallb noDollar (stringValues doc) = true)
    (Hkeys : forallb noDollar (keysOf doc) = true)
    (Hwritable : forallb writable (keysOf doc) = true) :
  substituteEnvVars env doc = Done (ofJson doc) ∧ loadConfig env doc = Config (ofJson doc).
Proof.
  destruct (plain_not_missing env doc Hvalues) as [Hmissing Hsame].
  pose proof (substitute_replaced env doc Hparsed Hordered Hkeys Hwritable Hmissing) as Hdoc.
  rewrite Hsame in Hdoc.
  split; [done|]. unfold loadConfig. by rewrite Hdoc.
Qed.

Lemma X19_plain_workflow_witness :
  substituteEnvVars {[ "label" := "x" ]} plainWorkflow = Done (ofJson plainWorkflow).
Proof.
  apply (X19_plain_document_unchanged {[ "label" := "x" ]} plainWorkflow);
    vm_compute; reflexivity.
Defined.

(** X20 ([substituteEnvVars], object branch): the new key of [$NAME] is
    the value of the variable when it is set (the empty string
    included); when it is not set it is the key itself, unless [NAME] is
    the name of a member of [Object.prototype]: then it is that member as
    a string, [function NAME() { [native code] }] for a function.  A key
    without '$' is kept.  When no entry is written under [__proto__], the
    object returned has the prototype of a literal and one entry for each
    new key; under a new key it holds the substituted value of the last
    source entry that is written under that key, so when two keys collide
    after the substitution the later entry wins; it has no entry under
    any other key. *)
Theorem X20_object_entries
    (env : gmap string string) (entries : list (string * Json)) (config : Value)
    (Hwritable : forallb (λ kv, writable (newKeyOf env kv.1)) entries = true)
    (Hdone : substituteEnvVars env (JObject entries) = Done config) :
  (∀ name value, env !! name = Some value → newKeyOf env (String "$" name) = value) ∧
  (∀ name, env !! name = None → Js.inherited name = false →
     newKeyOf env (String "$" name) = String "$" name) ∧
  (∀ name, env !! name = None → Js.inherited name = true →
     newKeyOf env (String "$" name) = memberText name) ∧
  (∀ key, noDollar key = true → newKeyOf env key = key) ∧
  ∃ result, config = VObject VObjectPrototype result ∧
    NoDup result.*1 ∧
    (∀ k, getProperty k result = None ↔ k ∉ newKeyOf env <$> entries.*1) ∧
    (∀ pre key value post,
       entries = pre ++ (key, value) :: post →
       newKeyOf env key ∉ newKeyOf env <$> post.*1 →
       ∃ value', substituteEnvVars env value = Done value' ∧
         getProperty (newKeyOf env key) result = Some value').
Proof.
  split; [|split; [|split; [|split]]].
  { intros name value Hv. unfold newKeyOf, lookupEnv. simpl. by rewrite Hv. }
  { intros name Hv Hi. unfold newKeyOf, lookupEnv. simpl. by rewrite Hv, Hi. }
  { intros name Hv Hi. unfold newKeyOf, lookupEnv. simpl. by rewrite Hv, Hi. }
  { apply newKeyOf_plain. }
  rewrite substitute_object in Hdone.
  destruct (eachEntry env entries _) as [final| |] eqn:Heach; try done.
  injection Hdone as <-.
  destruct (eachEntry_lookup env entries [] final Hwritable Heach)
    as (result & -> & Hnd & Hlook); [constructor|].
  exists result. split; [done|]. split; [done|]. split.
  - intros k. specialize (Hlook k).
    destruct (last _) as [[k1 value]|] eqn:Hlast.
    + destruct Hlook as (value' & _ & ->). split; [done|]. intros Hnot. destruct Hnot.
      apply last_Some_elem_of, list_elem_of_filter in Hlast as [Hk Hin]. simpl in Hk.
      rewrite <- Hk. apply list_elem_of_fmap. exists k1. split; [done|].
      apply list_elem_of_fmap. by exists (k1, value).
    + rewrite Hlook. simpl. split; [|done]. intros _ Hin.
      apply list_elem_of_fmap in Hin as (k0 & -> & Hin).
      apply list_elem_of_fmap in Hin as ([k1 v1] & -> & Hin).
      apply last_None in Hlast.
      apply (elem_of_nil (k1, v1)). rewrite <- Hlast.
      by apply list_elem_of_filter.
  - intros pre key value post -> Hpost.
    specialize (Hlook (newKeyOf env key)).
    rewrite filter_app, filter_cons_True in Hlook by done.
    assert (filter (λ kv, newKeyOf env kv.1 = newKeyOf env key) post = []) as Hnone.
    { apply QueueFacts.filter_none. apply Forall_forall. intros [k1 v1] Hin Hk.
      apply Hpost. simpl in Hk. rewrite <- Hk. apply list_elem_of_fmap. exists k1.
      split; [done|]. apply list_elem_of_fmap. by exists (k1, v1). }
    rewrite Hnone, last_snoc in Hlook. done.
Qed.

Lemma X20_colliding_keys_witness :
  substituteEnvVars {[ "A" := "x" ]} collidingKeys
    = Done (VObject VObjectPrototype [("x", VString "second"); ("other", VString "kept")]) ∧
  getProperty "x" [("x", VString "second"); ("other", VString "kept")]
    = Some (VString "second") ∧
  newKeyOf {[ "A" := "x" ]} "$toString" = "function toString() { [native code] }".
Proof.
  assert (substituteEnvVars {[ "A" := "x" ]} collidingKeys
          = Done (VObject VObjectPrototype
                    [("x", VString "second"); ("other", VString "kept")])) as Hdone
    by (vm_compute; reflexivity).
  split; [exact Hdone|].
  assert (forallb (λ kv, writable (newKeyOf {[ "A" := "x" ]} kv.1))
            [("$A", JString "first"); ("other", JString "kept"); ("x", JString "second")]
          = true) as Hwritable by (vm_compute; reflexivity).
  destruct (X20_object_entries _ _ _ Hwritable Hdone)
    as (_ & _ & Hmember & _ & result & Hresult & _ & _ & Hlast).
  injection Hresult as <-.
  split.
  - destruct (Hlast [("$A", JString "first"); ("other", JString "kept")]
                "x" (JString "second") []) as (value' & Hvalue & Hget);
      [reflexivity | vm_compute; set_solver |].
    injection Hvalue as <-. exact Hget.
  - exact (Hmember "toString" eq_refl eq_refl).
Defined.

End RegisterExtra.
(** ** More on the JSON retry loop *)
Module RetryFacts.
Import JsonValue Describe DescribeFacts.

Lemma length_append (a b : string) :
  String.length (String.append a b) = (String.length a + String.length b)%nat.
Proof.
  induction a as [|ch a IH]; [done|]. rewrite append_cons. simpl. by rewrite IH.
Qed.

Lemma length_concat (parts : list string) :
  String.length (concat parts) = sum_list (String.length <$> parts).
Proof.
  induction parts as [|p parts IH]; [done|]. simpl. by rewrite length_append, IH.
Qed.

Section loop.
Context (JSON_parse : string → string + Json).
Context (callGemini : nat → string → string → string → string + GeminiResponse).
Context (update_label : bool) (apiKey systemPrompt userPrompt : string).

(** The call that ends the loop is the last one made. *)
Lemma attempts_stops (remaining : nat) :
  ∀ attempt last calls0,
    let run := attempts JSON_parse callGemini update_label apiKey systemPrompt userPrompt
                 remaining attempt last calls0 in
    ∃ new, run.1 = calls0 ++ new ∧ (length new ≤ remaining)%nat ∧
      (remaining ≠ O → new ≠ []) ∧
      ∀ i prompt, new !! i = Some prompt →
        match callGemini (attempt + i)%nat apiKey systemPrompt prompt with
        | inl msg => run.2 = inl msg ∧ length new = S i
        | inr response =>
            match parseResult JSON_parse (content response) with
            | inr result => run.2 = inr (response, result) ∧ length new = S i
            | inl e => True
            end
        end.
Proof.
  induction remaining as [|remaining IH]; intros attempt last calls0 run.
  - exists []. subst run. simpl. rewrite app_nil_r. repeat split; try done.
  - subst run. rewrite attempts_S.
    set (prompt0 := effectivePrompt update_label userPrompt last).
    destruct (callGemini attempt apiKey systemPrompt prompt0) as [msg|response] eqn:Hcall.
    { exists [prompt0]. simpl. split; [done|]. split; [lia|]. split; [done|].
      intros [|i] prompt; simpl; [|done]. intros [= <-].
      rewrite Nat.add_0_r, Hcall. done. }
    destruct (parseResult JSON_parse (content response)) as [e|result] eqn:Hparse.
    2:{ exists [prompt0]. simpl. split; [done|]. split; [lia|]. split; [done|].
        intros [|i] prompt; simpl; [|done]. intros [= <-].
        rewrite Nat.add_0_r, Hcall, Hparse. done. }
    destruct (IH (S attempt) (Some (response, e)) (calls0 ++ [prompt0]))
      as (new & Hcalls & Hlen & _ & Hnew).
    exists (prompt0 :: new). rewrite Hcalls, <- app_assoc. simpl.
    split; [done|]. split; [lia|]. split; [done|].
    intros [|i] prompt; simpl.
    + intros [= <-]. rewrite Nat.add_0_r, Hcall, Hparse. done.
    + intros Hi. specialize (Hnew i prompt Hi).
      replace (attempt + S i)%nat with (S attempt + i)%nat by lia.
      destruct (callGemini (S attempt + i)%nat apiKey systemPrompt prompt) as [msg|r];
        [destruct Hnew as [-> ->]; done|].
      destruct (parseResult JSON_parse (content r)); [done|].
      destruct Hnew as [-> ->]. done.
Qed.

End loop.

End RetryFacts.

(** ** Properties of the retry loop beyond the claim *)
Module DescribeExtra.
Import JsonValue Describe DescribeFacts RetryFacts.

(** X21 ([callGeminiWithJsonRetry]): at least one call is made, and the
    loop stops at the first call that is rejected or whose response
    parses and validates: that call is the last one made.  The error
    of a rejected call is thrown as it is, without another attempt; the
    result returned is the one of the first valid response. *)
Theorem X21_retry_stops_at_first_decision
    (JSON_parse : string → string + Json)
    (callGemini : nat → string → string → string → string + GeminiResponse)
    (update_label : bool) (apiKey systemPrompt userPrompt : string) :
  let calls := (callGeminiWithJsonRetry JSON_parse callGemini update_label
                  apiKey systemPrompt userPrompt).1 in
  let outcome := (callGeminiWithJsonRetry JSON_parse callGemini update_label
                    apiKey systemPrompt userPrompt).2 in
  calls ≠ [] ∧
  ∀ n prompt, calls !! n = Some prompt →
    (∀ msg, callGemini n apiKey systemPrompt prompt = inl msg →
       outcome = inl msg ∧ length calls = S n) ∧
    (∀ response result,
       callGemini n apiKey systemPrompt prompt = inr response →
       parseResult JSON_parse (content response) = inr result →
       outcome = inr (response, result) ∧ length calls = S n).
Proof.
  intros calls outcome. subst calls outcome. unfold callGeminiWithJsonRetry.
  destruct (attempts_stops JSON_parse callGemini update_label apiKey systemPrompt userPrompt
              JSON_PARSE_MAX_RETRIES 0 None []) as (new & Hcalls & _ & Hne & Hnew).
  change ([] ++ new) with new in Hcalls. rewrite Hcalls. split; [by apply Hne|].
  intros n prompt Hn. specialize (Hnew n prompt Hn).
  change (0 + n)%nat with n in Hnew. split.
  - intros msg Hmsg. by rewrite Hmsg in Hnew.
  - intros response result Hr Hp. by rewrite Hr, Hp in Hnew.
Qed.

(** X22 ([callGeminiWithJsonRetry], retry section): a previous response
    of at most 2000 characters is copied whole into the retry section
    and is followed at once by the closing fence; a longer one is cut
    to its first 2000 characters, followed by the marker
    [...[truncated]].  The section is never longer than the error
    message plus 2239 characters. *)
Theorem X22_retry_section_copy (update_label : bool) (lastError lastContent : string) :
  ((String.length lastContent ≤ 2000)%nat →
   responseCopy lastContent = lastContent ∧
   occursIn (concat [lastContent; nl; "```"])
     (retrySection update_label lastError lastContent)) ∧
  ((2000 < String.length lastContent)%nat →
   String.length (responseCopy lastContent) = 2000%nat ∧
   (∃ rest, lastContent = String.append (responseCopy lastContent) rest) ∧
   occursIn (concat [responseCopy lastContent; "...[truncated]"; nl; "```"])
     (retrySection update_label lastError lastContent)) ∧
  (String.length (retrySection update_label lastError lastContent)
   ≤ String.length lastError + 2239)%nat.
Proof.
  split; [|split].
  - intros Hle. pose proof (slice0_short 2000 lastContent Hle) as Hcopy.
    fold (responseCopy lastContent) in Hcopy. split; [done|].
    unfold retrySection. rewrite Hcopy.
    apply Nat.ltb_ge in Hle as ->.
    apply (occursIn_middle
             [nl; nl; "## RETRY - JSON PARSE ERROR"; nl; nl;
              "Your previous response could not be parsed as valid JSON."; nl; nl;
              "**Error:** "; lastError; nl; nl; "**Your response was:**"; nl; "```"; nl]
             [lastContent; ""; nl; "```"] _).
  - intros Hlt.
    destruct (slice0_long 2000 lastContent) as [Hlen Hrest]; [lia|].
    fold (responseCopy lastContent) in Hlen, Hrest. split; [done|]. split; [done|].
    unfold retrySection. apply Nat.ltb_lt in Hlt as ->.
    apply (occursIn_middle
             [nl; nl; "## RETRY - JSON PARSE ERROR"; nl; nl;
              "Your previous response could not be parsed as valid JSON."; nl; nl;
              "**Error:** "; lastError; nl; nl; "**Your response was:**"; nl; "```"; nl]
             [responseCopy lastContent; "...[truncated]"; nl; "```"] _).
  - unfold retrySection. rewrite length_concat.
    pose proof (slice0_length 2000 lastContent) as Hcopy.
    fold (responseCopy lastContent) in Hcopy.
    generalize dependent (responseCopy lastContent). intros copy Hcopy.
    destruct (2000 <? String.length lastContent)%nat; destruct update_label;
      simpl; lia.
Qed.

End DescribeExtra.
(** ** The clock of the simulation *)
Module ClockFacts.
Import Js Sim JsFacts SimFacts RandomFacts QueueFacts RunFacts SettledFacts.

(** *** Rounding of integers *)

Lemma round53_big_eq (m : Z) :
  2 ^ 53 ≤ m →
  toZ (round53 m 0)
  = roundShift m (Z.log2 m - 52) * 2 ^ (Z.log2 m - 52) ∧ 0 < Z.log2 m - 52.
Proof.
  intros Hm. unfold round53. rewrite Z.abs_eq by lia.
  assert (53 ≤ Z.log2 m) as Hlog by (apply Z.log2_le_pow2; lia).
  destruct (Z.leb_spec (Z.log2 m - 52) 0) as [?|Hs]; [lia|].
  split; [|done]. unfold toZ. simpl expo. simpl mant.
  destruct (Z.leb_spec 0 (0 + (Z.log2 m - 52))) as [_|?]; [|lia].
  rewrite Z.shiftl_mul_pow2 by lia. rewrite Z.sgn_pos by lia.
  rewrite Z.add_0_l. lia.
Qed.

Lemma shift_range (m : Z) :
  2 ^ 53 ≤ m →
  2 ^ 52 ≤ Z.shiftr m (Z.log2 m - 52) < 2 ^ 53 ∧
  2 ^ (52 + (Z.log2 m - 52)) ≤ m.
Proof.
  intros Hm.
  assert (53 ≤ Z.log2 m) as Hlog by (apply Z.log2_le_pow2; lia).
  set (s := Z.log2 m - 52) in *. assert (0 < s) as Hs by (unfold s; lia).
  destruct (Z.log2_spec m) as [Hlo Hhi]; [lia|].
  replace (Z.log2 m) with (52 + s) in Hlo by (unfold s; lia).
  replace (Z.succ (Z.log2 m)) with (53 + s) in Hhi by (unfold s; lia).
  rewrite Z.pow_add_r in Hlo, Hhi by lia.
  pose proof (Z.pow_pos_nonneg 2 s ltac:(lia) ltac:(lia)) as Hpos.
  rewrite Z.shiftr_div_pow2 by lia. split; [split|].
  - apply Z.div_le_lower_bound; lia.
  - apply Z.div_lt_upper_bound; lia.
  - rewrite Z.pow_add_r by lia. done.
Qed.

Lemma roundShift_exact (q s : Z) : 0 ≤ q → 0 < s → roundShift (q * 2 ^ s) s = q.
Proof.
  intros Hq Hs. unfold roundShift.
  pose proof (Z.pow_pos_nonneg 2 s ltac:(lia) ltac:(lia)) as Hpos.
  pose proof (Z.pow_pos_nonneg 2 (s - 1) ltac:(lia) ltac:(lia)) as Hhalf.
  rewrite Z.shiftr_div_pow2, Z.div_mul by lia.
  rewrite !Z.shiftl_mul_pow2 by lia.
  destruct (Z.eqb_spec s 0); [lia|].
  destruct (Z.ltb_spec (q * 2 ^ s - q * 2 ^ s) (1 * 2 ^ (s - 1))); [done | lia].
Qed.

Lemma representable_small (x : Z) : Z.abs x < 2 ^ 53 → representable x.
Proof. apply round53_small. Qed.

(** A significand of at most 53 bits, scaled by a power of two. *)
Lemma representable_scaled (k e : Z) :
  0 ≤ k ≤ 2 ^ 53 → 0 ≤ e → representable (k * 2 ^ e).
Proof.
  intros Hk He. pose proof (Z.pow_pos_nonneg 2 e ltac:(lia) He) as Hpos.
  destruct (decide (k * 2 ^ e < 2 ^ 53)) as [Hsmall|Hbig].
  { apply representable_small. rewrite Z.abs_eq; [done | nia]. }
  assert (0 < k) as Hk0 by nia.
  unfold representable.
  destruct (round53_big_eq (k * 2 ^ e)) as [-> Hs]; [lia|].
  set (s := Z.log2 (k * 2 ^ e) - 52) in *.
  assert (∃ q, 0 ≤ q ∧ k * 2 ^ e = q * 2 ^ s) as (q & Hq & Heq).
  { destruct (decide (k = 2 ^ 53)) as [->|Hne].
    - exists (2 ^ 52). split; [lia|].
      assert (s = e + 1) as ->.
      { unfold s. rewrite Z.log2_mul_pow2 by lia. change (Z.log2 (2 ^ 53)) with 53. lia. }
      rewrite Z.pow_add_r by lia. lia.
    - assert (Z.log2 k ≤ 52) as Hlog.
      { assert (Z.log2 k < 53); [|lia]. apply Z.log2_lt_pow2; lia. }
      assert (s = e + Z.log2 k - 52) as Hse.
      { unfold s. rewrite Z.log2_mul_pow2 by lia. lia. }
      exists (k * 2 ^ (e - s)). split.
      + pose proof (Z.pow_pos_nonneg 2 (e - s) ltac:(lia) ltac:(lia)). lia.
      + rewrite <- Z.mul_assoc, <- Z.pow_add_r by lia. f_equal. f_equal. lia. }
  rewrite Heq, roundShift_exact by lia. done.
Qed.

(** Rounding a non-negative integer gives a non-negative integer that a
    double holds. *)
Lemma round53_representable (m : Z) :
  0 ≤ m → representable (toZ (round53 m 0)).
Proof.
  intros Hm. destruct (decide (m < 2 ^ 53)) as [Hsmall|Hbig].
  { rewrite round53_small by (rewrite Z.abs_eq; lia).
    apply representable_small. rewrite Z.abs_eq; lia. }
  destruct (round53_big_eq m) as [-> Hs]; [lia|].
  destruct (shift_range m) as [[Hlo Hhi] _]; [lia|].
  pose proof (roundShift_bounds m (Z.log2 m - 52) Hm Hs).
  apply representable_scaled; lia.
Qed.

(** Rounding is monotone above the numbers a double holds. *)
Lemma round53_above (a m : Z) :
  0 ≤ a → a ≤ m → representable a → a ≤ toZ (round53 m 0).
Proof.
  intros Ha Hle Hrep. destruct (decide (m < 2 ^ 53)) as [Hsmall|Hbig].
  { rewrite round53_small by (rewrite Z.abs_eq; lia). done. }
  destruct (round53_big_eq m) as [-> Hs]; [lia|].
  destruct (shift_range m) as [[Hlo Hhi] Hpow]; [lia|].
  pose proof (roundShift_bounds m (Z.log2 m - 52) ltac:(lia) Hs) as [Hrs _].
  set (s := Z.log2 m - 52) in *.
  pose proof (Z.pow_pos_nonneg 2 s ltac:(lia) ltac:(lia)) as Hpos.
  assert (a ≤ Z.shiftr m s * 2 ^ s); [|nia].
  destruct (decide (a < 2 ^ 53)) as [Ha53|Ha53].
  { assert (2 ^ 53 ≤ 2 ^ 52 * 2 ^ s); [|nia].
    change (2 ^ 53) with (2 ^ 52 * 2 ^ 1).
    apply Z.mul_le_mono_nonneg_l; [lia|]. apply Z.pow_le_mono_r; lia. }
  unfold representable in Hrep.
  destruct (round53_big_eq a) as [Heq Ht]; [lia|]. rewrite Heq in Hrep.
  set (t := Z.log2 a - 52) in *.
  assert (t ≤ s) as Hts.
  { unfold t, s. pose proof (Z.log2_le_mono a m Hle). lia. }
  destruct (decide (t = s)) as [Heqs|Hne].
  - rewrite Heqs in Hrep. rewrite Z.shiftr_div_pow2 by lia.
    assert (roundShift a s ≤ m / 2 ^ s); [|nia].
    apply Z.div_le_lower_bound; [lia|]. rewrite <- Hrep in Hle. lia.
  - destruct (Z.log2_spec a) as [_ Hhi']; [lia|].
    assert (2 ^ Z.succ (Z.log2 a) ≤ 2 ^ (52 + s)) as Hp
      by (apply Z.pow_le_mono_r; unfold t in *; lia).
    rewrite Z.pow_add_r in Hp by lia. nia.
Qed.

Lemma round53_nonneg (m : Z) : 0 ≤ m → 0 ≤ toZ (round53 m 0).
Proof.
  intros Hm. apply round53_above; [done..|]. by apply representable_small.
Qed.

(** [a + b] for a delay [b] that is not negative is not before [a]. *)
Lemma add_forward (a b : Z) :
  0 ≤ a → representable a → 0 ≤ b →
  a ≤ Js.add a b ∧ representable (Js.add a b).
Proof.
  intros Ha Hrep Hb. unfold Js.add. split.
  - apply round53_above; [done | lia | done].
  - apply round53_representable. lia.
Qed.

Lemma round53_mant (m e : Z) : 0 ≤ m → 0 ≤ mant (round53 m e) ≤ 2 ^ 53.
Proof.
  intros Hm. unfold round53. rewrite Z.abs_eq by done.
  destruct (Z.leb_spec (Z.log2 m - 52) 0) as [Hs|Hs]; simpl.
  - split; [done|]. destruct (decide (m = 0)) as [->|Hne]; [done|].
    assert (m < 2 ^ 53); [|lia]. apply Z.log2_lt_pow2; lia.
  - assert (2 ^ 53 ≤ m) as Hbig.
    { destruct (Z.log2_spec m) as [Hlo _].
      { destruct (decide (m = 0)) as [->|]; [simpl in Hs; lia | lia]. }
      assert (2 ^ 53 ≤ 2 ^ Z.log2 m); [|lia]. apply Z.pow_le_mono_r; lia. }
    destruct (shift_range m Hbig) as [[Hlo Hhi] _].
    pose proof (roundShift_bounds m (Z.log2 m - 52) Hm Hs).
    rewrite Z.sgn_pos by lia. lia.
Qed.

Lemma toZ_representable (d : double) :
  0 ≤ mant d ≤ 2 ^ 53 → 0 ≤ toZ d ∧ representable (toZ d).
Proof.
  intros Hd. unfold toZ. destruct (Z.leb_spec 0 (expo d)) as [He|He].
  - rewrite Z.shiftl_mul_pow2 by done.
    pose proof (Z.pow_pos_nonneg 2 (expo d) ltac:(lia) He).
    split; [nia|]. by apply representable_scaled.
  - rewrite Z.shiftr_div_pow2 by lia.
    pose proof (Z.pow_pos_nonneg 2 (- expo d) ltac:(lia) ltac:(lia)) as Hpos.
    assert (0 ≤ mant d / 2 ^ (- expo d) ≤ mant d) as Hq.
    { split; [apply Z.div_pos; lia|]. apply Z.div_le_upper_bound; [lia|]. nia. }
    split; [lia|].
    replace (mant d / 2 ^ (- expo d)) with (mant d / 2 ^ (- expo d) * 2 ^ 0) by lia.
    apply representable_scaled; lia.
Qed.

Lemma div_mant (a b : Z) : 0 ≤ a → 0 ≤ b → 0 ≤ mant (div a b) ≤ 2 ^ 53.
Proof.
  intros Ha Hb. unfold div. destruct (Z.eqb_spec a 0) as [_|Hne]; [simpl; lia|].
  apply round53_mant.
  set (shifted := Z.shiftl a _).
  assert (0 ≤ shifted) as Hn by (unfold shifted; apply Z.shiftl_nonneg; lia).
  assert (0 ≤ shifted / b) as Hq.
  { destruct (decide (b = 0)) as [->|Hb0]; [by rewrite Z.div_0_r | apply Z.div_pos; lia]. }
  destruct (_ =? _); lia.
Qed.

(** The arrival times are not negative. *)
Lemma arrival_time (i len : nat) (spread : Z) :
  0 ≤ spread →
  0 ≤ floor (scale (div (Z.of_nat i) (Z.of_nat len)) spread) ∧
  representable (floor (scale (div (Z.of_nat i) (Z.of_nat len)) spread)).
Proof.
  intros Hspread. unfold floor, scale. apply toZ_representable, round53_mant.
  pose proof (div_mant (Z.of_nat i) (Z.of_nat len) ltac:(lia) ltac:(lia)). nia.
Qed.

(** *** The invariant of the event loop *)

Lemma scheduleEvent_timely (ev : Event) (st : SimState) :
  Timely st → currentTime st ≤ time ev → representable (time ev) →
  Timely (scheduleEvent ev st).
Proof.
  intros [Hclock Hexact Hevents] Hle Hrep. split; [done..|].
  simpl. rewrite sortByTime_perm. apply Forall_app. split; [done|].
  by constructor.
Qed.

Section clock.
Context (config : SimConfig) (data : SimulationData).
Context (localeCompare : string → string → Z).
Context (Hdelays : forwardDelays config).
Context (Hlists : listsOwned data = true).

Lemma scheduleArrivals_timely (len : nat) (rest : list (option Entity)) :
  ∀ (i : nat) (st st' : SimState),
    Timely st → currentTime st = 0 →
    scheduleArrivals config len i rest st = Done st' → Timely st'.
Proof.
  destruct Hdelays as (Hspread & _).
  induction rest as [|[entity|] rest IH]; intros i st st' Hst Hzero; simpl.
  - by intros [= <-].
  - apply IH; [|done].
    destruct (arrival_time i len (arrivalSpreadMs config) Hspread) as [H0 Hrep].
    apply scheduleEvent_timely; [done | simpl; lia | done].
  - done.
Qed.

Lemma scheduled_timely (st : SimState) :
  scheduled config data = Done st → Timely st.
Proof.
  unfold scheduled. destruct (shuffle _ _) as [shuffled seed'].
  apply scheduleArrivals_timely; [|done].
  split; simpl; [lia | by apply representable_small | constructor].
Qed.

(** The wait of a new leader is not negative. *)
Lemma wait_forward (seed : Z) :
  0 ≤ Js.add (followerWaitMinMs config)
        (randomBelow (Js.sub (followerWaitMaxMs config) (followerWaitMinMs config)) seed).1.
Proof.
  destruct Hdelays as (_ & _ & _ & Hmin & Hrange & Hmax).
  assert (Js.sub (followerWaitMaxMs config) (followerWaitMinMs config)
          = followerWaitMaxMs config - followerWaitMinMs config) as ->.
  { unfold Js.sub. apply round53_small. lia. }
  pose proof (randomBelow_range (followerWaitMaxMs config - followerWaitMinMs config)
                seed ltac:(lia)).
  unfold Js.add. apply round53_nonneg. lia.
Qed.

(** The events a branch schedules are not before the clock. *)
Lemma branch_forward (st : SimState) (ev : Event) f cs new :
  0 ≤ currentTime st → representable (currentTime st) →
  Branch config st ev f cs new →
  Forall (λ x, currentTime st ≤ time x ∧ representable (time x)) new.
Proof.
  intros Hclock Hexact Hbr.
  destruct Hdelays as (_ & Hindex & Hrecheck & _).
  pose proof (add_forward (currentTime st)) as Hadd.
  destruct Hbr as [_|_|_|pre _|pre p c _ _|peers _|_|c c' p _ _ _ _ _].
  - apply Forall_cons. split; [cbn [time]; by apply Hadd|].
    apply Forall_cons. split; [cbn [time]; split; [apply Z.le_refl | exact Hexact]|].
    apply Forall_nil_2.
  - apply Forall_nil_2.
  - apply Forall_nil_2.
  - apply Forall_cons. split; [|apply Forall_nil_2].
    cbn [time]. apply Hadd; [exact Hclock | exact Hexact | apply wait_forward].
  - apply Forall_nil_2.
  - apply Forall_cons. split; [|apply Forall_nil_2].
    cbn [time]. by apply Hadd.
  - apply Forall_nil_2.
  - apply Forall_nil_2.
Qed.

Lemma step_timely (st0 st' : SimState) :
  Settled data st0 → Sorted byTime (eventQueue st0) → Timely st0 →
  step config data localeCompare st0 = Some (Done st') →
  Timely st' ∧ currentTime st0 ≤ currentTime st'.
Proof.
  intros [[Hcore Hnd Hexp] Hknown Htr Hwf Hkeys] Hsorted [Hclock Hexact Hevents] Hstep.
  unfold step in Hstep. destruct (eventQueue st0) as [|ev rest] eqn:Hq; [done|].
  injection Hstep as Hproc.
  apply Forall_cons in Hexp as [Hev Hrest].
  pose proof (known_events _ _ Hknown) as Hevs. rewrite Hq in Hevs.
  apply Forall_cons in Hevs as [Hevx _].
  apply Forall_cons in Hevents as [[Hle Hrep] Hothers].
  apply (@Sorted_StronglySorted _ _ byTime_trans) in Hsorted.
  apply StronglySorted_inv in Hsorted as [_ Hfirst].
  set (st := mkState _ _ _ _ _ _) in Hproc.
  assert (Core st) as Hcore1 by (revert Hcore; by apply Core_ext).
  destruct (processEvent_branch config data localeCompare ev st)
    as (st2 & f & cs & new & Hproc2 & Hbr & _ & _ & Hq' & Htime).
  { done. }
  { by apply (eventExpects_ext st0). }
  { by apply (known_states _ _ Hknown). }
  { by apply findEntity_known. }
  { by apply (listsOwned_similarTo data). }
  rewrite Hproc in Hproc2. injection Hproc2 as <-.
  change (currentTime st) with (time ev) in Htime.
  change (eventQueue st) with rest in Hq'.
  split; [|lia]. split.
  - lia.
  - by rewrite Htime.
  - rewrite Htime, Hq'. rewrite scheduleAll_perm. apply Forall_app. split.
    + apply (branch_forward st ev f cs new); [simpl; lia | done | done].
    + rewrite Forall_forall in Hfirst, Hothers. apply Forall_forall. intros x Hx.
      split; [apply (Hfirst x Hx) | apply (Hothers x Hx)].
Qed.

Lemma runSteps_timely (n : nat) :
  ∀ st st',
    Settled data st → Sorted byTime (eventQueue st) → Timely st →
    runSteps config data localeCompare n st = Done st' →
    Settled data st' ∧ Sorted byTime (eventQueue st') ∧ Timely st'.
Proof.
  induction n as [|n IH]; intros st st' Hset Hsorted Htimely; simpl;
    [by intros [= <-]|].
  destruct (step config data localeCompare st) as [[st1| |]|] eqn:Hstep; try done.
  - apply IH.
    + by apply (step_settled config data localeCompare st).
    + destruct (step_known config data localeCompare st Hlists (se_known _ _ Hset))
        as [Hq|(st2 & Hstep2 & _ & Hs)].
      * unfold step in Hstep. by rewrite Hq in Hstep.
      * rewrite Hstep in Hstep2. injection Hstep2 as <-. by apply Hs.
    + by apply (step_timely st).
  - by intros [= <-].
Qed.

Lemma stateAfter_timely (n : nat) (st : SimState) :
  NoDup (id <$> entities data) →
  stateAfter config data localeCompare n = Done st →
  Settled data st ∧ Sorted byTime (eventQueue st) ∧ Timely st.
Proof.
  intros Hnd. unfold stateAfter.
  destruct (scheduled config data) as [st0| |] eqn:Hsched; [|done..].
  apply runSteps_timely.
  - by apply (scheduled_settled config data).
  - revert Hsched. unfold scheduled. destruct (shuffle _ _) as [shuffled seed'].
    apply scheduleArrivals_sorted. constructor.
  - by apply scheduled_timely.
Qed.

End clock.

End ClockFacts.

(** ** The clock never goes back *)
Module ClockExtra.
Import Js Sim JsFacts SimFacts RandomFacts QueueFacts RunFacts SettledFacts ClockFacts.

(** X25 ([run], [processEvent], [scheduleEvent]): when the delays of the
    configuration are not negative, the follower wait has
    [0 ≤ min < max < 2^53] and the ids of the entities are distinct, each
    with a similarity list of its own or not the name of a member of
    [Object.prototype], then after any number of processed events the clock is not negative, no
    pending event is earlier than the clock, and the next event
    processed does not set the clock back: events are processed in
    the order of their times. *)
Theorem X25_clock_never_goes_back (config : SimConfig) (data : SimulationData)
    (localeCompare : string → string → Z) (n : nat)
    (Hids : NoDup (id <$> entities data))
    (Hlists : listsOwned data = true)
    (Hdelays : forwardDelays config) :
  ∃ st, stateAfter config data localeCompare n = Done st ∧
    0 ≤ currentTime st ∧
    Forall (λ ev, currentTime st ≤ time ev) (eventQueue st) ∧
    ∀ st', step config data localeCompare st = Some (Done st') →
           currentTime st ≤ currentTime st'.
Proof.
  destruct (stateAfter_returns config data localeCompare n Hlists) as (st & Hrun & _).
  destruct (stateAfter_timely config data localeCompare Hdelays Hlists n st Hids Hrun)
    as (Hset & Hsorted & Htimely).
  exists st. split; [done|]. split; [apply Htimely|]. split.
  - apply (Forall_impl _ _ _ (ti_events _ Htimely)). by intros ev [Hle _].
  - intros st' Hstep.
    by destruct (step_timely config data localeCompare Hdelays Hlists st st'
                   Hset Hsorted Htimely Hstep).
Qed.

Lemma X25_pair_witness :
  NoDup (id <$> entities (pairData "a" "b")) ∧
  listsOwned (pairData "a" "b") = true ∧ forwardDelays scenario3 ∧
  ∃ st, stateAfter scenario3 (pairData "a" "b") codeUnitCompare 3 = Done st ∧
    0 ≤ currentTime st ∧
    Forall (λ ev, currentTime st ≤ time ev) (eventQueue st).
Proof.
  assert (NoDup (id <$> entities (pairData "a" "b"))) as Hnd.
  { simpl. apply NoDup_cons. split; [|apply NoDup_singleton].
    intros H%list_elem_of_singleton. discriminate H. }
  assert (forwardDelays scenario3) as Hdelays by (unfold forwardDelays; simpl; lia).
  assert (listsOwned (pairData "a" "b") = true) as Hl by (vm_compute; reflexivity).
  split; [exact Hnd|]. split; [exact Hl|]. split; [exact Hdelays|].
  destruct (X25_clock_never_goes_back scenario3 (pairData "a" "b") codeUnitCompare 3
              Hnd Hl Hdelays) as (st & Hrun & Hclock & Hevents & _).
  exists st. split; [exact Hrun|]. split; [exact Hclock | exact Hevents].
Defined.

End ClockExtra.
(** ** The order of the traversal; re-running and extending the graph *)
Module ShapeFacts.
Import Observer ObserverFacts TraversalFacts.

Lemma fmap_flat_map_nodes (l : list TreeNode) :
  n_id <$> flat_map nodes l = flat_map node_ids l.
Proof.
  induction l as [|c l IH]; [done|]. simpl. by rewrite fmap_app, IH.
Qed.

Lemma nodes_trans (root q p : TreeNode) :
  q ∈ nodes root → p ∈ nodes q → p ∈ nodes root.
Proof.
  induction root as [i s k e a kids tm lf pr IH] using TreeNode_induction.
  rewrite Forall_forall in IH.
  intros [->|(c & Hc & Hq)]%elem_of_nodes Hp; [done|].
  apply elem_of_nodes. right. exists c. split; [done|]. by apply IH.
Qed.

(** *** Every log but the root has a parent *)

Lemma parentsOf_exists (x : string) (t : TreeNode) :
  x ∈ node_ids t → x ≠ n_id t → parentsOf x t ≠ [].
Proof.
  induction t as [i s k e a kids tm lf pr IH] using TreeNode_induction.
  rewrite Forall_forall in IH.
  rewrite node_ids_unfold, parentsOf_unfold. simpl.
  intros [->|Hx]%elem_of_cons Hne; [done|].
  destruct (decide (x ∈ n_id <$> kids)) as [|Hnot]; [done|]. simpl.
  apply elem_of_flat_map in Hx as (c & Hc & Hx).
  assert (x ≠ n_id c) as Hnc.
  { intros ->. apply Hnot. apply list_elem_of_fmap. by exists c. }
  pose proof (IH c Hc Hx Hnc) as Hp.
  destruct (parentsOf x c) as [|p ps] eqn:Hpc; [done|].
  intros Hnil. assert (p ∈ flat_map (parentsOf x) kids) as Hin.
  { apply elem_of_flat_map. exists c. split; [done|]. rewrite Hpc. apply list_elem_of_here. }
  rewrite Hnil in Hin. by apply elem_of_nil in Hin.
Qed.

(** A log below [q] has its parent at or below [q]. *)
Lemma parent_below (q : TreeNode) (x : string) :
  x ∈ flat_map node_ids (children q) →
  ∃ p, p ∈ nodes q ∧ x ∈ n_id <$> children p.
Proof.
  induction q as [i s k e a kids tm lf pr IH] using TreeNode_induction.
  rewrite Forall_forall in IH. simpl.
  intros (c & Hc & Hx)%elem_of_flat_map.
  rewrite node_ids_unfold in Hx. apply elem_of_cons in Hx as [->|Hx].
  - exists (mkNode i s k e a kids tm lf pr). split; [apply nodes_self|].
    simpl. apply list_elem_of_fmap. by exists c.
  - destruct (IH c Hc Hx) as (p & Hp & Hxp). exists p. split; [|done].
    apply (proj2 (elem_of_nodes (mkNode i s k e a kids tm lf pr) p)).
    right. exists c. by split.
Qed.

(** *** The order of discovery *)

Section order.
Context (store : gmap string LogEntry).

Lemma depthFirst_app (v : gset string) (l1 l2 : list TreeNode) :
  depthFirst store v l1 →
  depthFirst store (list_to_set (n_id <$> l1) ∪ v) l2 →
  depthFirst store v (l1 ++ l2).
Proof.
  intros H1 H2 i q log x Hi Hlog Hx.
  apply lookup_app_Some in Hi as [Hi|[Hlen Hi]].
  - pose proof (lookup_lt_Some _ _ _ Hi) as Hlt.
    destruct (H1 i q log x Hi Hlog Hx) as [?|[Hb|?]]; [by left | | by right; right].
    right; left. rewrite take_app_le by lia. done.
  - destruct (H2 (i - length l1)%nat q log x Hi Hlog Hx) as [Hv|[Hb|?]];
      [| |by right; right].
    + apply elem_of_union in Hv as [Hv|Hv]; [|by left]. right; left.
      apply elem_of_list_to_set in Hv.
      rewrite take_app_ge by lia. rewrite fmap_app. apply elem_of_app. by left.
    + right; left. rewrite take_app_ge by lia. rewrite fmap_app. apply elem_of_app. by right.
Qed.

Lemma buildChildren_depthFirst rec :
  (∀ i v ot v', rec i v = Done (ot, v') →
     grows store v (opt_ids ot) v' ∧ depthFirst store v (opt_nodes ot)) →
  ∀ rels v acc kids v' v0,
    buildChildren rec rels v acc = Done (kids, v') →
    grows store v0 (flat_map node_ids acc) v →
    depthFirst store v0 (flat_map nodes acc) →
    depthFirst store v0 (flat_map nodes kids).
Proof.
  intros Hrec. induction rels as [|rel rels IH]; intros v acc kids v' v0; simpl.
  - by intros [= <- <-].
  - destruct (rec (peer rel) v) as [[[child|] v1]| |] eqn:E; try done.
    + intros Hb Hacc Hdf. apply Hrec in E as [Hg Hc]. simpl in Hg, Hc.
      apply (IH _ _ _ _ _ Hb).
      * rewrite flat_map_app. simpl. rewrite app_nil_r. by apply (grows_app _ _ _ v).
      * rewrite flat_map_app. simpl. rewrite app_nil_r.
        apply depthFirst_app; [done|].
        rewrite fmap_flat_map_nodes. destruct Hacc as (<- & _). done.
    + intros Hb Hacc Hdf. apply Hrec in E as [Hg _]. simpl in Hg.
      apply (IH _ _ _ _ _ Hb); [|done].
      destruct Hg as (-> & _). simpl. by rewrite (left_id_L ∅ (∪)).
Qed.

(** The tree lists the logs in the order of a depth-first traversal. *)
Lemma buildTreeNode_depthFirst fuel :
  ∀ logId v ot v',
    buildTreeNode fuel store logId v = Done (ot, v') →
    depthFirst store v (opt_nodes ot).
Proof.
  induction fuel as [|fuel IH]; intros logId v ot v'; simpl; [done|].
  destruct (decide (logId ∈ v)) as [Hin|Hout].
  { intros [= <- <-]. intros i q log x Hi. by destruct i. }
  unfold fetchEntity. destruct (store !! logId) as [log|] eqn:Hlog; [|done].
  destruct (buildChildren _ _ _ _) as [[kids v1]| |] eqn:Hkids; try done.
  intros [= <- <-].
  pose proof (buildChildren_grows store _ (buildTreeNode_grows store fuel) _ _ _ _ _
                ({[logId]} ∪ v) Hkids (grows_nil store _)) as (Hv1 & _ & _).
  pose proof (buildChildren_closed store _ (buildTreeNode_closed store fuel) _ _ _ _ _
                Hkids) as Hclosed.
  destruct Hclosed as (_ & _ & Hpeers); [by intros x l p ?%elem_of_nil|].
  assert (depthFirst store ({[logId]} ∪ v) (flat_map nodes kids)) as Hdf.
  { apply (buildChildren_depthFirst (buildTreeNode fuel store)) with
      (rels := sentToOf log) (v := {[logId]} ∪ v) (acc := []) (v' := v1).
    - intros i w ot w' Hrun.
      split; [exact (buildTreeNode_grows store fuel i w ot w' Hrun) | by apply (IH i w ot w')].
    - done.
    - apply grows_nil.
    - intros i q l x Hi. by destruct i. }
  simpl. intros i q log' x Hi Hlog' Hx. destruct i as [|j]; simpl in Hi.
  - injection Hi as <-. simpl in Hlog'. rewrite Hlog in Hlog'. injection Hlog' as <-.
    apply list_elem_of_fmap in Hx as (rel & -> & Hrel).
    specialize (Hpeers rel Hrel). rewrite Hv1 in Hpeers.
    apply elem_of_union in Hpeers as [Hk|Hv].
    + right; right. rewrite node_ids_unfold. simpl. right. by apply elem_of_list_to_set in Hk.
    + apply elem_of_union in Hv as [->%elem_of_singleton|Hv]; [|by left].
      right; right. rewrite node_ids_unfold. by left.
  - destruct (Hdf j q log' x Hi Hlog' Hx) as [Hv|[Hb|Hq]].
    + apply elem_of_union in Hv as [->%elem_of_singleton|Hv]; [|by left].
      right; left. simpl. by left.
    + right; left. simpl. by right.
    + by right; right.
Qed.

End order.

(** *** The same graph, read again *)

Lemma observe_firstLog (store : gmap string LogEntry) (job : string) (fuel : nat) :
  observe fuel store job
  = match firstLog store job with
    | None => Done None
    | Some r =>
        match buildTreeNode fuel store r ∅ with
        | Done (Some root, _) => Done (Some (isComplete root))
        | Done (None, _) => Done None
        | Threw msg => Threw msg
        | OutOfFuel => OutOfFuel
        end
    end.
Proof. unfold observe, firstLog. by destruct (List.find _ _). Qed.

Section rerun.
Context (s1 s2 : gmap string LogEntry).

Lemma buildChildren_same rec1 rec2 (rels : list Relationship) :
  (∀ rel v, rel ∈ rels → rec1 (peer rel) v = rec2 (peer rel) v) →
  ∀ v acc, buildChildren rec1 rels v acc = buildChildren rec2 rels v acc.
Proof.
  induction rels as [|rel rels IH]; intros Hrec v acc; simpl; [done|].
  rewrite <- (Hrec rel v (list_elem_of_here _ _)).
  destruct (rec1 (peer rel) v) as [[[child|] v1]| |]; try done;
    apply IH; intros r w Hr; apply Hrec; by apply list_elem_of_further.
Qed.

(** The traversal reads only the logs it reaches. *)
Lemma buildTreeNode_same fuel :
  ∀ logId v,
    (∀ x, reachable s1 logId x → s2 !! x = s1 !! x) →
    buildTreeNode fuel s2 logId v = buildTreeNode fuel s1 logId v.
Proof.
  induction fuel as [|fuel IH]; intros logId v Hsame; simpl; [done|].
  destruct (decide (logId ∈ v)); [done|].
  unfold fetchEntity. rewrite (Hsame logId (reach_here s1 logId)).
  destruct (s1 !! logId) as [log|] eqn:Hlog; [|done].
  rewrite (buildChildren_same (buildTreeNode fuel s2) (buildTreeNode fuel s1)); [done|].
  intros rel w Hrel. apply IH. intros x Hx. apply Hsame.
  apply (reach_step s1 logId log (peer rel)); [done | | done].
  apply list_elem_of_fmap. by exists rel.
Qed.

Lemma observe_same (job : string) (fuel1 fuel2 : nat) :
  (enoughFuel s1 ≤ fuel1)%nat → (enoughFuel s2 ≤ fuel2)%nat →
  firstLog s2 job = firstLog s1 job →
  (∀ r x, firstLog s1 job = Some r → reachable s1 r x → s2 !! x = s1 !! x) →
  observe fuel2 s2 job = observe fuel1 s1 job.
Proof.
  intros H1 H2 Hfirst Hsame. rewrite !observe_firstLog, Hfirst.
  destruct (firstLog s1 job) as [r|] eqn:Hr; [|done].
  destruct (buildTreeNode_enough s1 fuel1 r H1) as [-> Hne1].
  destruct (buildTreeNode_enough s2 fuel2 r H2) as [-> Hne2].
  set (m := (enoughFuel s1 `max` enoughFuel s2)%nat).
  rewrite <- (buildTreeNode_fuel_le s1 (enoughFuel s1) m r ∅) by (done || lia).
  rewrite <- (buildTreeNode_fuel_le s2 (enoughFuel s2) m r ∅) by (done || lia).
  by rewrite (buildTreeNode_same m r ∅ (λ x, Hsame r x eq_refl)).
Qed.

End rerun.

(** *** Trees with subtrees hung in *)

Section grafted_trees.
Context (F : gset string).

Lemma graftedAmong_app (l1 l1' l2 l2' : list TreeNode) :
  graftedAmong F l1 l1' → graftedAmong F l2 l2' → graftedAmong F (l1 ++ l2) (l1' ++ l2').
Proof.
  intros H1 H2. induction H1 as [|c c' cs cs' Hc _ IH|sub cs cs' Hsub _ IH]; simpl.
  - done.
  - by apply among_old.
  - by apply among_new.
Qed.

Lemma graftedAmong_length (cs cs' : list TreeNode) :
  graftedAmong F cs cs' → (length cs ≤ length cs')%nat.
Proof. induction 1; simpl; lia. Qed.

Lemma graftedAmong_elem (cs cs' : list TreeNode) (c' : TreeNode) :
  graftedAmong F cs cs' → c' ∈ cs' →
  Forall (λ n, n_id n ∈ F) (nodes c') ∨ ∃ c, c ∈ cs ∧ grafted F c c'.
Proof.
  induction 1 as [|c c0 cs cs' Hc _ IH|sub cs cs' Hsub _ IH].
  - by intros ?%elem_of_nil.
  - intros [->|Hin]%elem_of_cons.
    + right. exists c. split; [apply list_elem_of_here | done].
    + destruct (IH Hin) as [?|(c1 & Hc1 & Hg)]; [by left|].
      right. exists c1. split; [by apply list_elem_of_further | done].
  - intros [->|Hin]%elem_of_cons; [by left | by apply IH].
Qed.

Lemma grafted_fields (t t' : TreeNode) :
  grafted F t t' →
  n_id t' = n_id t ∧ isTerminal t' = isTerminal t ∧
  expectedChildren t' = expectedChildren t ∧
  graftedAmong F (children t) (children t').
Proof. by intros [i s k e a a' kids kids' tm lf p p' Hkids]. Qed.

(** A node of the new tree is a node of an added subtree or comes from
    a node of the old tree. *)
Lemma grafted_nodes (t' : TreeNode) :
  ∀ t n', grafted F t t' → n' ∈ nodes t' →
    (∃ sub, Forall (λ n, n_id n ∈ F) (nodes sub) ∧ n' ∈ nodes sub) ∨
    ∃ n, n ∈ nodes t ∧ grafted F n n'.
Proof.
  induction t' as [i s k e a kids' tm lf p IH] using TreeNode_induction.
  rewrite Forall_forall in IH. intros t n' Hg Hn'.
  apply elem_of_nodes in Hn' as [->|(c' & Hc' & Hn')].
  { right. exists t. split; [apply nodes_self | done]. }
  apply grafted_fields in Hg as (_ & _ & _ & Hkids). simpl in Hkids, Hc'.
  destruct (graftedAmong_elem _ _ c' Hkids Hc') as [Hfresh|(c & Hc & Hgc)].
  - left. by exists c'.
  - destruct (IH c' Hc' c n' Hgc Hn') as [?|(n & Hn & Hgn)]; [by left|].
    right. exists n. split; [|done]. apply elem_of_nodes. right. by exists c.
Qed.

(** The same for the nodes the check reaches. *)
Lemma grafted_checked (root root' n' : TreeNode) :
  grafted F root root' → checked root' n' →
  (∃ sub, Forall (λ n, n_id n ∈ F) (nodes sub) ∧ n' ∈ nodes sub) ∨
  ∃ n, checked root n ∧ grafted F n n'.
Proof.
  intros Hg. induction 1 as [|parent' child' _ IH Hterm Hchild].
  { right. exists root. split; [constructor | done]. }
  destruct IH as [(sub & Hsub & Hin)|(parent & Hp & Hgp)].
  - left. exists sub. split; [done|]. apply (nodes_trans sub parent'); [done|].
    apply elem_of_nodes. right. exists child'. split; [done | apply nodes_self].
  - apply grafted_fields in Hgp as (_ & Hsame & _ & Hkids).
    destruct (graftedAmong_elem _ _ child' Hkids Hchild) as [Hfresh|(child & Hc & Hgc)].
    + left. exists child'. split; [done | apply nodes_self].
    + right. exists child. split; [|done].
      apply (checked_child root parent child); [done | congruence | done].
Qed.

(** A complete tree with subtrees hung in is complete exactly when the
    added nodes pass the two tests. *)
Lemma grafted_complete (root root' : TreeNode) :
  grafted F root root' → isComplete root = true →
  (isComplete root' = true ↔
   (∀ l, l ∈ nodes root' → n_id l ∈ F → leafNode l → isTerminal l = true) ∧
   (∀ n, checked root' n → n_id n ∈ F → isTerminal n = true → childrenDiscovered n)).
Proof.
  intros Hg Hold. unfold isComplete in *.
  apply andb_true_iff in Hold as [Hleaves Hcheck].
  apply allLeavesTerminal_iff in Hleaves. rewrite checkAll_checked in Hcheck.
  rewrite andb_true_iff, allLeavesTerminal_iff, checkAll_checked. split.
  { intros [Hl Hc]. split; [intros l Hin _; by apply Hl | intros n Hn _; by apply Hc]. }
  intros [Hl Hc]. split.
  - intros l' Hin Hleaf.
    destruct (grafted_nodes root' root l' Hg Hin) as [(sub & Hsub & Hl')|(l & Hlin & Hgl)].
    + apply Hl; [done | | done]. rewrite Forall_forall in Hsub. by apply Hsub.
    + apply grafted_fields in Hgl as (_ & -> & _ & Hkids). apply Hleaves; [done|].
      unfold leafNode in *. rewrite Hleaf in Hkids. apply graftedAmong_length in Hkids.
      destruct (children l); [done | simpl in Hkids; lia].
  - intros n' Hn' Hterm.
    destruct (grafted_checked root root' n' Hg Hn') as [(sub & Hsub & Hin)|(n & Hn & Hgn)].
    + apply Hc; [done | | done]. rewrite Forall_forall in Hsub. by apply Hsub.
    + apply grafted_fields in Hgn as (_ & Hsame & Hexp & Hkids).
      rewrite Hsame in Hterm. destruct (Hcheck n Hn Hterm) as [H0 Hlen].
      apply graftedAmong_length in Hkids. unfold childrenDiscovered. rewrite Hexp. lia.
Qed.

End grafted_trees.

(** *** The traversal of a graph with logs hung in *)

Section grafts.
Context (s s' : gmap string LogEntry).
Context (Hgrafts : graftsOnto s s').

Lemma added_in_dom (x : string) : x ∈ addedIn s s' → x ∈ dom s'.
Proof. unfold addedIn. set_solver. Qed.

Lemma added_reachable (x y : string) :
  reachable s' x y → x ∈ addedIn s s' → y ∈ addedIn s s'.
Proof.
  induction 1 as [|x log p y Hlog Hp _ IH]; [done|].
  intros Hx. apply IH. by apply (grafts_new s s' Hgrafts x log p).
Qed.

(** A call on an added log returns, and visits added logs only. *)
Lemma added_call fuel' (x : string) (v' : gset string) :
  x ∈ addedIn s s' →
  buildTreeNode fuel' s' x v' ≠ OutOfFuel →
  ∃ ot' v1',
    buildTreeNode fuel' s' x v' = Done (ot', v1') ∧
    agreeOff (addedIn s s') v1' v' ∧
    Forall (λ n, n_id n ∈ addedIn s s') (opt_nodes ot').
Proof.
  intros Hx Hne.
  destruct (buildTreeNode fuel' s' x v') as [[ot' v1']|msg|] eqn:Hrun; [| |done].
  2:{ exfalso. revert Hrun. apply buildTreeNode_no_throw.
      intros y Hy. apply added_in_dom. by apply (added_reachable x y). }
  exists ot', v1'. split; [done|].
  pose proof (buildTreeNode_grows s' _ _ _ _ _ Hrun) as (Hv & _ & _).
  assert (Forall (λ n, n_id n ∈ addedIn s s') (opt_nodes ot')) as Hall.
  { destruct ot' as [t|]; [|constructor]. simpl.
    pose proof (buildTreeNode_reflects s' _ _ _ _ _ Hrun) as [Hid Hrefl].
    apply Forall_forall. intros n Hn.
    apply (added_reachable x (n_id n)); [|done]. rewrite <- Hid.
    by apply (tree_reachable s'). }
  split; [|done]. intros y Hy. rewrite Hv.
  assert (y ∉ opt_ids ot') as Hnot.
  { intros Hin. apply Hy. destruct ot' as [t|]; [|by apply elem_of_nil in Hin].
    simpl in Hin, Hall. apply list_elem_of_fmap in Hin as (n & -> & Hn).
    rewrite Forall_forall in Hall. by apply Hall. }
  set_solver.
Qed.

Lemma filter_filter_sentTo (rels' : list Relationship) :
  filter (λ r, predicate r = "sent_to")
    (filter (λ r, ¬ (predicate r = "sent_to" ∧ peer r ∈ addedIn s s')) rels')
  = filter (λ r, peer r ∉ addedIn s s') (filter (λ r, predicate r = "sent_to") rels').
Proof.
  induction rels' as [|r rels' IH]; [done|].
  rewrite !filter_cons.
  destruct (decide (predicate r = "sent_to")) as [Hp|Hp];
    destruct (decide (peer r ∈ addedIn s s')) as [Hf|Hf];
    repeat (rewrite ?filter_cons; case_decide); try naive_solver; by rewrite IH.
Qed.

Lemma old_sentTo (x : string) (log log' : LogEntry) :
  default [] (relationships log)
  = filter (λ r, ¬ (predicate r = "sent_to" ∧ peer r ∈ addedIn s s'))
      (default [] (relationships log')) →
  sentToOf log = filter (λ r, peer r ∉ addedIn s s') (sentToOf log').
Proof. intros Hrels. unfold sentToOf. rewrite Hrels. apply filter_filter_sentTo. Qed.

Lemma find_first_log (rels' : list Relationship) :
  List.find (λ r, String.eqb (predicate r) "first_log")
    (filter (λ r, ¬ (predicate r = "sent_to" ∧ peer r ∈ addedIn s s')) rels')
  = List.find (λ r, String.eqb (predicate r) "first_log") rels'.
Proof.
  induction rels' as [|r rels' IH]; [done|].
  rewrite filter_cons. simpl.
  destruct (String.eqb_spec (predicate r) "first_log") as [Hfirst|Hother].
  - rewrite decide_True; [simpl; by rewrite Hfirst|].
    intros [Hsent _]. rewrite Hfirst in Hsent. discriminate Hsent.
  - case_decide; [simpl|done].
    destruct (String.eqb_spec (predicate r) "first_log"); [done | apply IH].
Qed.

Lemma buildChildren_grafts f f' :
  (∀ x v v' ot v1,
     x ∉ addedIn s s' → agreeOff (addedIn s s') v' v →
     buildTreeNode f s x v = Done (ot, v1) →
     buildTreeNode f' s' x v' ≠ OutOfFuel →
     ∃ ot' v1', buildTreeNode f' s' x v' = Done (ot', v1') ∧
       agreeOff (addedIn s s') v1' v1 ∧ graftedOpt (addedIn s s') ot ot') →
  ∀ rels' v v' acc acc' kids v1,
    buildChildren (buildTreeNode f s) (filter (λ r, peer r ∉ addedIn s s') rels') v acc
    = Done (kids, v1) →
    buildChildren (buildTreeNode f' s') rels' v' acc' ≠ OutOfFuel →
    agreeOff (addedIn s s') v' v →
    graftedAmong (addedIn s s') acc acc' →
    ∃ kids' v1',
      buildChildren (buildTreeNode f' s') rels' v' acc' = Done (kids', v1') ∧
      agreeOff (addedIn s s') v1' v1 ∧ graftedAmong (addedIn s s') kids kids'.
Proof.
  intros Hrec. induction rels' as [|rel rels' IH]; intros v v' acc acc' kids v1.
  { simpl. intros [= <- <-] _ Hv Hacc. by exists acc', v'. }
  rewrite filter_cons.
  destruct (decide (peer rel ∈ addedIn s s')) as [Hadded|Hold].
  - (* a relationship to an added log *)
    rewrite decide_False by (intros Hnot; by apply Hnot).
    intros Hrun Hne Hv Hacc. simpl in Hne. simpl.
    destruct (added_call f' (peer rel) v' Hadded) as (ot' & v2' & Hcall & Hv2 & Hfresh).
    { intros Hout. by rewrite Hout in Hne. }
    rewrite Hcall in Hne. rewrite Hcall.
    assert (agreeOff (addedIn s s') v2' v) as Hv2'.
    { intros y Hy. by rewrite (Hv2 y Hy), (Hv y Hy). }
    destruct ot' as [sub|]; simpl in Hfresh.
    + apply (IH v v2' acc (acc' ++ [sub]) kids v1 Hrun Hne Hv2').
      rewrite <- (app_nil_r acc). apply graftedAmong_app; [done|].
      apply among_new; [done | constructor].
    + by apply (IH v v2' acc acc' kids v1 Hrun Hne Hv2').
  - (* a relationship of the old log *)
    rewrite decide_True by done. simpl.
    destruct (buildTreeNode f s (peer rel) v) as [[ot v2]| |] eqn:Hcall; [|done..].
    intros Hrun Hne Hv Hacc.
    destruct (Hrec (peer rel) v v' ot v2 Hold Hv Hcall) as (ot' & v2' & Hcall' & Hv2 & Hot).
    { intros Hout. by rewrite Hout in Hne. }
    rewrite Hcall' in Hne. rewrite Hcall'.
    destruct ot as [child|], ot' as [child'|]; simpl in Hot; try done.
    + apply (IH v2 v2' (acc ++ [child]) (acc' ++ [child']) kids v1 Hrun Hne Hv2).
      apply graftedAmong_app; [done|]. apply among_old; [done | constructor].
    + by apply (IH v2 v2' acc acc' kids v1 Hrun Hne Hv2).
Qed.

(** The traversal of the new graph returns the old tree with trees of
    added logs hung in. *)
Lemma buildTreeNode_grafts f :
  ∀ f' x v v' ot v1,
    x ∉ addedIn s s' → agreeOff (addedIn s s') v' v →
    buildTreeNode f s x v = Done (ot, v1) →
    buildTreeNode f' s' x v' ≠ OutOfFuel →
    ∃ ot' v1', buildTreeNode f' s' x v' = Done (ot', v1') ∧
      agreeOff (addedIn s s') v1' v1 ∧ graftedOpt (addedIn s s') ot ot'.
Proof.
  induction f as [|f IH]; intros f' x v v' ot v1 Hx Hv; [done|].
  destruct f' as [|f']; [done|]. simpl.
  destruct (decide (x ∈ v)) as [Hin|Hout].
  { intros [= <- <-] _. rewrite decide_True by (by apply Hv). by exists None, v'. }
  rewrite decide_False by (intros Hin'; by apply Hout, Hv).
  unfold fetchEntity. destruct (s !! x) as [log|] eqn:Hlog; [|done].
  destruct (grafts_old s s' Hgrafts x log Hlog)
    as (log' & -> & _ & Hstatus & Hklados & Hhand & Hmsg & Hrels).
  rewrite (old_sentTo x log log' Hrels).
  destruct (buildChildren (buildTreeNode f s) _ _ _) as [[kids v2]| |] eqn:Hkids; [|done..].
  intros [= <- <-] Hne.
  destruct (buildChildren_grafts f f' (IH f') (sentToOf log') ({[x]} ∪ v) ({[x]} ∪ v')
              [] [] kids v2 Hkids) as (kids' & v2' & Hkids' & Hv2 & Hgk).
  { intros Hout'. by rewrite Hout' in Hne. }
  { intros y Hy. specialize (Hv y Hy). set_solver. }
  { constructor. }
  rewrite Hkids'. eexists _, v2'. split; [done|]. split; [done|].
  simpl. unfold getExpectedChildrenCount. rewrite Hstatus, Hklados, Hhand, Hmsg.
  by apply grafted_node.
Qed.

Lemma firstLog_grafts (job r : string) :
  firstLog s job = Some r → firstLog s' job = Some r.
Proof.
  unfold firstLog, fetchEntity. destruct (s !! job) as [collection|] eqn:Hjob; [|done].
  destruct (grafts_old s s' Hgrafts job collection Hjob) as (c' & -> & _ & _ & _ & _ & _ & ->).
  by rewrite find_first_log.
Qed.

(** The observer on the new graph judges the old tree with the trees of
    the added logs hung in. *)
Lemma observe_grafts (job : string) (fuel fuel' : nat) (b : bool) :
  (enoughFuel s ≤ fuel)%nat → (enoughFuel s' ≤ fuel')%nat →
  observe fuel s job = Done (Some b) →
  ∃ r root root',
    firstLog s job = Some r ∧ firstLog s' job = Some r ∧
    builtTree s r = Some root ∧ builtTree s' r = Some root' ∧
    grafted (addedIn s s') root root' ∧
    isComplete root = b ∧
    observe fuel' s' job = Done (Some (isComplete root')).
Proof.
  intros Hfuel Hfuel'. rewrite !observe_firstLog.
  destruct (firstLog s job) as [r|] eqn:Hr; [|done].
  rewrite (firstLog_grafts job r Hr).
  destruct (buildTreeNode_enough s fuel r Hfuel) as [-> _].
  destruct (buildTreeNode_enough s' fuel' r Hfuel') as [-> Hne'].
  destruct (buildTreeNode (enoughFuel s) s r ∅) as [[[root|] v1]| |] eqn:Hrun; try done.
  intros [= <-].
  assert (r ∉ addedIn s s') as Hold.
  { pose proof (buildTreeNode_grows s _ _ _ _ _ Hrun) as (_ & _ & Hdom).
    pose proof (buildTreeNode_reflects s _ _ _ _ _ Hrun) as [Hid _].
    destruct (Hdom r) as [_ Hin]; [simpl; rewrite <- Hid; apply node_ids_self|].
    unfold addedIn. set_solver. }
  destruct (buildTreeNode_grafts _ (enoughFuel s') r ∅ ∅ _ _ Hold ltac:(done) Hrun Hne')
    as (ot' & v1' & Hrun' & _ & Hot).
  destruct ot' as [root'|]; [|done]. simpl in Hot.
  exists r, root, root'. unfold builtTree. rewrite Hrun, Hrun'. done.
Qed.

End grafts.

End ShapeFacts.

(** ** The traversal and the oracle under change (C10, C6) *)
Module ObserverClaims.
Import Observer ObserverFacts TraversalFacts ShapeFacts.

(** C10: on every finite log graph, cyclic or with shared children,
    [buildTreeNode] ends (with any fuel of at least one unit per log plus
    one, and with the same result for all of them): it throws at a log
    that is missing from the store, and returns a tree when every log
    reached from the root is there.  The root of the tree is the log
    asked for and its nodes are exactly the logs reached from it, each
    once; every node's children are among the [sent_to] peers of its
    log, in their order.  Every log but the root is the child of exactly
    one node, so it is counted in [children.length] of one parent only.
    The nodes are discovered depth first: a [sent_to] peer of a node is
    found below the node or was discovered before it; so a log that
    several logs send to hangs under the one whose loop reaches it
    first, and every other sender is the log itself, or is discovered
    after it, or is an ancestor of that parent, still inside the call
    that discovers it. *)
Theorem C10_buildTreeNode_terminates_once
    (store : gmap string LogEntry) (logId : string) (fuel : nat)
    (Hfuel : (enoughFuel store ≤ fuel)%nat) :
  buildTreeNode fuel store logId ∅ ≠ OutOfFuel ∧
  buildTreeNode fuel store logId ∅ = buildTreeNode (enoughFuel store) store logId ∅ ∧
  ((∀ x, reachable store logId x → x ∈ dom store) →
   ∃ root visited, buildTreeNode fuel store logId ∅ = Done (Some root, visited)) ∧
  ∀ ot visited,
    buildTreeNode fuel store logId ∅ = Done (ot, visited) →
    ∃ root, ot = Some root ∧ n_id root = logId ∧
      NoDup (node_ids root) ∧
      visited = list_to_set (node_ids root) ∧
      (∀ x, x ∈ node_ids root ↔ reachable store logId x) ∧
      Forall (reflects store) (nodes root) ∧
      (∀ x, (length (parentsOf x root) ≤ 1)%nat) ∧
      (∀ x, x ∈ node_ids root → x ≠ logId → ∃ p, parentsOf x root = [p]) ∧
      (∀ i q log x,
         nodes root !! i = Some q → store !! n_id q = Some log →
         x ∈ peer <$> sentToOf log →
         x ∈ node_ids q ∨ x ∈ n_id <$> take i (nodes root)) ∧
      (∀ x p i q log,
         parentsOf x root = [p] →
         nodes root !! i = Some q → store !! n_id q = Some log →
         x ∈ peer <$> sentToOf log →
         q = p ∨ n_id q = x ∨ x ∈ n_id <$> take i (nodes root) ∨
         n_id p ∈ node_ids q).
Proof.
  destruct (buildTreeNode_enough store fuel logId Hfuel) as [Heq Hne].
  split; [by rewrite Heq|]. split; [done|].
  assert (∀ ot visited,
            buildTreeNode fuel store logId ∅ = Done (ot, visited) →
            ∃ root, ot = Some root) as Hsome.
  { intros [root|] visited Hrun; [by exists root|].
    apply buildTreeNode_null in Hrun. set_solver. }
  split.
  { intros Hdom.
    destruct (buildTreeNode fuel store logId ∅) as [[ot visited]|msg|] eqn:Hrun.
    - destruct (Hsome ot visited eq_refl) as [root ->]. by exists root, visited.
    - by apply (buildTreeNode_no_throw store) in Hrun.
    - by rewrite Heq in Hrun. }
  intros ot visited Hrun. destruct (Hsome ot visited Hrun) as [root ->].
  exists root. split; [done|].
  pose proof (buildTreeNode_grows store _ _ _ _ _ Hrun) as (Hv & Hnd & _).
  pose proof (buildTreeNode_reflects store _ _ _ _ _ Hrun) as [Hid Hrefl].
  pose proof (buildTreeNode_depthFirst store _ _ _ _ _ Hrun) as Hdf.
  simpl in Hv, Hnd, Hdf.
  assert (∀ x, (length (parentsOf x root) ≤ 1)%nat) as Hone
    by (intros x; by apply parentsOf_at_most_one).
  assert (∀ i q log x,
            nodes root !! i = Some q → store !! n_id q = Some log →
            x ∈ peer <$> sentToOf log →
            x ∈ node_ids q ∨ x ∈ n_id <$> take i (nodes root)) as Horder.
  { intros i q log x Hi Hlog Hx.
    destruct (Hdf i q log x Hi Hlog Hx) as [Hv0|[Hb|Hq]];
      [set_solver | by right | by left]. }
  split; [done|]. split; [done|]. split; [set_solver|].
  split; [by apply (buildTreeNode_reaches store fuel logId root visited)|].
  split; [done|]. split; [done|]. split; [|split; [done|]].
  - intros x Hx Hne'. rewrite <- Hid in Hne'.
    pose proof (parentsOf_exists x root Hx Hne') as Hex. specialize (Hone x).
    destruct (parentsOf x root) as [|p [|p' ps]]; [done | by exists p | simpl in Hone; lia].
  - intros x p i q log Hp Hi Hlog Hx.
    destruct (Horder i q log x Hi Hlog Hx) as [Hq|Hb]; [|by right; right; left].
    rewrite node_ids_unfold in Hq. apply elem_of_cons in Hq as [->|Hq]; [by right; left|].
    destruct (parent_below q x Hq) as (p' & Hp' & Hxp').
    assert (p' ∈ parentsOf x root) as Hin.
    { apply list_elem_of_filter. split; [done|].
      apply (nodes_trans root q); [|done]. by apply list_elem_of_lookup_2 in Hi. }
    rewrite Hp in Hin. apply list_elem_of_singleton in Hin as ->.
    right; right; right. apply list_elem_of_fmap. by exists p.
Qed.

Lemma C10_diamond_witness :
  (enoughFuel diamondStore ≤ 6)%nat ∧
  ∃ root visited p,
    buildTreeNode 6 diamondStore "root" ∅ = Done (Some root, visited) ∧
    n_id root = "root" ∧ parentsOf "G" root = [p].
Proof.
  assert (enoughFuel diamondStore ≤ 6)%nat as Hfuel by (vm_compute; lia).
  split; [exact Hfuel|].
  destruct (C10_buildTreeNode_terminates_once diamondStore "root" 6 Hfuel)
    as (_ & _ & _ & Hall).
  destruct (buildTreeNode 6 diamondStore "root" ∅) as [[ot visited]| |] eqn:Hrun;
    [|vm_compute in Hrun; discriminate Hrun..].
  destruct (Hall ot visited eq_refl)
    as (root & -> & Hid & _ & _ & Hreach & _ & _ & Hparent & _).
  assert (reachable diamondStore "root" "G") as HG.
  { apply (reach_step diamondStore "root" (logOf "root" "done" [scatter ["a"; "b"]] ["A"; "B"])
             "A" "G"); [vm_compute; reflexivity | apply list_elem_of_here |].
    apply (reach_step diamondStore "A" (logOf "A" "done" [invoke "a"] ["G"]) "G" "G");
      [vm_compute; reflexivity | apply list_elem_of_here | apply reach_here]. }
  destruct (Hparent "G" (proj2 (Hreach "G") HG)) as [p Hp]; [discriminate|].
  exists root, visited, p. split; [reflexivity|]. split; [exact Hid | exact Hp].
Defined.

(** C6, as stated, fails.  Adding a running log under a sealed root
    turns the verdict from true to false.  So does adding a done log:
    [N], put between [A] and [G], takes [G] from under [B], which then
    has none of the one child it expects, although every log is done and
    has sent to as many logs as it expects. *)
Lemma C6_added_log_counterexample :
  extendsStore sealedStore grownStore ∧
  observe (enoughFuel sealedStore) sealedStore "job" = Done (Some true) ∧
  observe (enoughFuel grownStore) grownStore "job" = Done (Some false) ∧
  extendsStore chainStore chainGrownStore ∧
  observe (enoughFuel chainStore) chainStore "job" = Done (Some true) ∧
  observe (enoughFuel chainGrownStore) chainGrownStore "job" = Done (Some false).
Proof.
  split; [|split; [vm_compute; reflexivity|split; [vm_compute; reflexivity|]]].
  { intros i log. unfold sealedStore. simpl.
    intros [[<- <-]|[_ [[<- <-]|[_ H]]%lookup_insert_Some]]%lookup_insert_Some;
      [| |by rewrite lookup_empty in H].
    - eexists. split; [vm_compute; reflexivity|]. by repeat split.
    - eexists. split; [vm_compute; reflexivity|]. repeat split; try done.
      simpl. intros x Hx. by apply elem_of_nil in Hx. }
  split; [|split; vm_compute; reflexivity].
  intros i log. unfold chainStore. simpl. intros Hi.
  repeat (apply lookup_insert_Some in Hi as [[<- <-]|[_ Hi]]);
    [..|by rewrite lookup_empty in Hi];
    (eexists; split; [vm_compute; reflexivity|]; repeat split; try done).
  simpl. intros x Hx. by apply elem_of_nil in Hx.
Qed.

(** The sealed root with the done log [C] hung under it. *)
Lemma sealed_grafts : graftsOnto sealedStore graftedStore.
Proof.
  assert (addedIn sealedStore graftedStore = {[ "C" ]}) as Hadded.
  { apply set_eq. intros x. unfold addedIn, sealedStore, graftedStore. simpl.
    rewrite elem_of_difference, !dom_insert, dom_empty. set_solver. }
  split.
  - intros i log. unfold sealedStore. simpl. intros Hi.
    repeat (apply lookup_insert_Some in Hi as [[<- <-]|[_ Hi]]);
      [..|by rewrite lookup_empty in Hi];
      (eexists; split; [vm_compute; reflexivity|]; repeat split; done).
  - intros i log' p Hi. rewrite Hadded. intros ->%elem_of_singleton.
    vm_compute in Hi. injection Hi as <-. simpl. by intros ?%elem_of_nil.
Qed.

(** C6, amended: the observer ends, and its outcome depends on the
    [first_log] of the job collection and on the logs reached from it
    only: run again on a store that holds the same ones, it gives the
    same outcome, so the identical [isComplete] on an unchanged tree.  It
    is monotone for logs hung in: when logs are added that send to added
    logs only, together with [sent_to] relationships from old logs to
    them, the new tree is the old tree with the trees of the added logs
    hung in; and the verdict of a complete tree stays true exactly when
    the added logs pass the oracle's own two tests: every added leaf is
    terminal, and every added terminal log that the check reaches has a
    known expected count and at least that many children in the tree.
    (Nothing is claimed for other additions: one running log, or a log
    that sends to an old log, does flip the verdict.) *)
Theorem C6_rerun_and_extend_amended
    (s s' : gmap string LogEntry) (job : string) (fuel fuel' : nat)
    (Hfuel : (enoughFuel s ≤ fuel)%nat)
    (Hfuel' : (enoughFuel s' ≤ fuel')%nat) :
  observe fuel s job ≠ OutOfFuel ∧
  (firstLog s' job = firstLog s job →
   (∀ r x, firstLog s job = Some r → reachable s r x → s' !! x = s !! x) →
   observe fuel' s' job = observe fuel s job) ∧
  (graftsOnto s s' → observe fuel s job = Done (Some true) →
   ∃ r root root',
     firstLog s job = Some r ∧ firstLog s' job = Some r ∧
     builtTree s r = Some root ∧ builtTree s' r = Some root' ∧
     grafted (addedIn s s') root root' ∧
     observe fuel' s' job = Done (Some (isComplete root')) ∧
     (isComplete root' = true ↔
      (∀ l, l ∈ nodes root' → n_id l ∈ addedIn s s' → leafNode l →
            isTerminal l = true) ∧
      (∀ n, checked root' n → n_id n ∈ addedIn s s' → isTerminal n = true →
            childrenDiscovered n))).
Proof.
  split; [|split].
  - destruct (observe_enough s job fuel Hfuel) as [-> Hne]. done.
  - intros Hfirst Hsame. by apply observe_same.
  - intros Hgrafts Hold.
    destruct (observe_grafts s s' Hgrafts job fuel fuel' true Hfuel Hfuel' Hold)
      as (r & root & root' & Hr & Hr' & Hroot & Hroot' & Hg & Hcomplete & Hnew).
    exists r, root, root'. repeat (split; [done|]).
    exact (grafted_complete (addedIn s s') root root' Hg Hcomplete).
Qed.

Lemma C6_sealed_child_witness :
  (enoughFuel sealedStore ≤ 3)%nat ∧ (enoughFuel graftedStore ≤ 5)%nat ∧
  observe 3 sealedStore "job" ≠ OutOfFuel ∧
  observe 5 graftedStore "job" = Done (Some true).
Proof.
  assert (enoughFuel sealedStore ≤ 3)%nat as H3 by (vm_compute; lia).
  assert (enoughFuel graftedStore ≤ 5)%nat as H5 by (vm_compute; lia).
  split; [exact H3|]. split; [exact H5|].
  destruct (C6_rerun_and_extend_amended sealedStore graftedStore "job" 3 5 H3 H5)
    as (Hne & _ & Hgraft).
  split; [exact Hne|].
  destruct (Hgraft sealed_grafts ltac:(vm_compute; reflexivity))
    as (r & root & root' & Hr & _ & _ & Hroot' & _ & Hnew & _).
  rewrite Hnew. vm_compute in Hr. injection Hr as <-.
  vm_compute in Hroot'. injection Hroot' as <-. reflexivity.
Defined.

End ObserverClaims.
